(** * Action runner, test agents, subagent manager and error monitor

    A shallow embedding of the orchestration core of the workflow builder:
    - [Text]: the JavaScript string operations the code uses (indexOf,
      lastIndexOf, substring, includes);
    - [Double]: JavaScript numbers (IEEE 754 binary64) with their
      arithmetic, the digits [String] writes for them and the number a
      decimal literal stands for;
    - [Json], [JsonFacts]: the JSON values that travel inside reports, with
      [JSON.stringify(v, null, 2)] and [JSON.parse], and their round trip;
    - [TestAgent]: base/TestAgent.ts ([createReport], [generateSuggestions]);
    - [ErrorFeedbackParser], [TestFeedbackParser], [Severity], [WireFormat]:
      the two feedback parsers (severity, sentinel-tag wire format);
    - [SubagentManager]: capability-scored dispatch, the scores being
      doubles;
    - [ActionRunner]: the action map (a plain object, with the members it
      inherits), the promise chain and [#executeAction];
    - [Regex] and [ErrorMonitor]: the regular expressions of error-monitor.ts
      and [monitorOutput];
    - [TextFacts], [JsMap], [ErrorFeedback]: the rest of ErrorFeedbackParser
      (the summary, the prompt, auto-fixability);
    - [MonitorFacts]: what [monitorOutput] reports and when, the message
      and the accessors of the monitor;
    - [SearchFacts], [WireFacts]: a report inside a longer message;
    - [ReportFacts]: severity and suggestions of a report, from its results;
    - [TestStore]: stores/tests.ts;
    - [Delegation]: the bookkeeping of SubagentManager (registry, active and
      completed delegations, statistics, [chunkArray]);
    - [RunnerFacts]: invariants of the states the action runner can reach.

    Conventions.  A JavaScript string is a list of 8-bit characters ([text]);
    map keys (action ids, task ids, agent names) are [string]s.  Indices are
    [Z] because [indexOf] answers -1.  Counters are [N]; the rates of the
    feedback parser and of the test store are exact rationals of them; the
    scores of the subagent manager, the durations and every number that is
    written as JSON are doubles.  Time stamps ([Date.now()]) are inputs of
    the functions that read the clock. *)

From Stdlib Require Import ZArith NArith QArith Ascii String List Lia Bool.
From Stdlib Require Import Decimal DecimalString DecimalFacts DecimalPos.
From Stdlib Require Import SpecFloat.
From stdpp Require Import base option list gmap strings.
Import ListNotations.

Set Warnings "-register-all".
Local Open Scope Z_scope.

(* ===================================================================== *)
(** ** JavaScript strings *)
(* ===================================================================== *)

Module Text.

Abbreviation text := (list ascii).

Definition lit (s : string) : text := list_ascii_of_string s.

Definition ascii_eqb (a b : ascii) : bool := Ascii.eqb a b.

(** [s.startsWith(p)] *)
Fixpoint startsWith (p s : text) : bool :=
  match p, s with
  | [], _ => true
  | _ :: _, [] => false
  | a :: p', b :: s' => ascii_eqb a b && startsWith p' s'
  end.

(** Position of the first occurrence of [p] in [s] counted from [i], as
    [String.prototype.indexOf] finds it; [None] stands for -1. *)
Fixpoint indexFrom (p s : text) (i : Z) : option Z :=
  if startsWith p s then Some i
  else match s with
       | [] => None
       | _ :: s' => indexFrom p s' (i + 1)
       end.

Definition indexOf (s p : text) : Z :=
  match indexFrom p s 0 with Some i => i | None => -1 end.

(** [s.includes(p)] *)
Definition includes (s p : text) : bool :=
  match indexFrom p s 0 with Some _ => true | None => false end.

(** Position of the last occurrence, [String.prototype.lastIndexOf]. *)
Fixpoint lastIndexFrom (p s : text) (i : Z) : option Z :=
  match s with
  | [] => if startsWith p [] then Some i else None
  | _ :: s' =>
      match lastIndexFrom p s' (i + 1) with
      | Some j => Some j
      | None => if startsWith p s then Some i else None
      end
  end.

Definition lastIndexOf (s p : text) : Z :=
  match lastIndexFrom p s 0 with Some i => i | None => -1 end.

Definition len (s : text) : Z := Z.of_nat (length s).

(** [s.substring(a, b)]: both ends are clamped to [0, length] and swapped
    when [a > b]. *)
Definition clamp (s : text) (i : Z) : Z := Z.max 0 (Z.min i (len s)).

Definition substring (s : text) (a b : Z) : text :=
  let a' := clamp s a in
  let b' := clamp s b in
  let lo := Z.min a' b' in
  let hi := Z.max a' b' in
  take (Z.to_nat (hi - lo)) (drop (Z.to_nat lo) s).

(** A string is truthy when it is not empty; an absent optional field is
    [undefined], which is falsy. *)
Definition truthy (o : option text) : bool :=
  match o with
  | Some (_ :: _) => true
  | _ => false
  end.

(** *** Facts about searching *)

Lemma ascii_eqb_true a b : ascii_eqb a b = true ↔ a = b.
Proof. apply Ascii.eqb_eq. Qed.

(** An occurrence of [p] that starts inside [x] cannot run over a
    character that [p] does not contain. *)
Lemma startsWith_app_sep p x c y :
  c ∉ p → startsWith p (x ++ c :: y) = true → startsWith p x = true.
Proof.
  revert x. induction p as [|a p IH]; intros x Hc H; [done|].
  destruct x as [|b x]; cbn in *.
  - apply andb_true_iff in H as [H _]. apply ascii_eqb_true in H. subst.
    exfalso. apply Hc. apply list_elem_of_here.
  - apply andb_true_iff in H as [H1 H2]. rewrite H1. cbn.
    apply IH; [|done]. intros Hin. apply Hc. by apply list_elem_of_further.
Qed.

Lemma indexFrom_shift p s i :
  indexFrom p s i = (λ k, k + i) <$> indexFrom p s 0.
Proof.
  revert i. induction s as [|c s IH]; intros i; cbn.
  - by destruct (startsWith p []).
  - destruct (startsWith p (c :: s)); [done|].
    rewrite (IH (i + 1)), (IH (0 + 1)).
    destruct (indexFrom p s 0); cbn; [f_equal; lia | done].
Qed.

(** The first occurrence of [p] in [x ++ c :: p], when [p] occurs
    nowhere in [x] and does not contain [c], is the one at the end. *)
Lemma indexFrom_after_sep p x c i :
  c ∉ p → p ≠ [] → indexFrom p x 0 = None →
  indexFrom p (x ++ c :: p) i = Some (i + len x + 1).
Proof.
  intros Hc Hp. revert i. induction x as [|b x IH]; intros i Hx.
  - cbn. assert (startsWith p (c :: p) = false) as ->.
    { destruct p as [|a p]; [done|]. cbn.
      destruct (ascii_eqb a c) eqn:E; [|done].
      apply ascii_eqb_true in E. subst. exfalso. apply Hc, list_elem_of_here. }
    assert (startsWith p p = true) as Hpp.
    { clear. induction p as [|a p IH]; [done|]. cbn.
      rewrite IH, andb_true_r. by apply ascii_eqb_true. }
    destruct p as [|a p]; [done|]. cbn [indexFrom]. rewrite Hpp.
    f_equal. unfold len. cbn. lia.
  - cbn in Hx. destruct (startsWith p (b :: x)) eqn:Hb; [done|].
    rewrite indexFrom_shift in Hx.
    destruct (indexFrom p x 0) eqn:Hx0; [done|].
    cbn [app indexFrom].
    assert (startsWith p (b :: x ++ c :: p) = false) as ->.
    { apply not_true_is_false. intros H.
      apply (startsWith_app_sep p (b :: x) c p Hc) in H. congruence. }
    rewrite IH by done. f_equal. unfold len. cbn [length]. lia.
Qed.

Lemma lastIndexFrom_app p x s i j :
  lastIndexFrom p s (i + len x) = Some j →
  lastIndexFrom p (x ++ s) i = Some j.
Proof.
  revert i. induction x as [|b x IH]; intros i H.
  - unfold len in H. cbn in H. by rewrite Z.add_0_r in H.
  - cbn [app]. destruct s as [|c s].
    + cbn. rewrite (IH (i + 1)); [done|].
      rewrite <- H. f_equal. unfold len. cbn [length]. lia.
    + cbn [lastIndexFrom]. rewrite (IH (i + 1)); [done|].
      rewrite <- H. f_equal. unfold len. cbn [length]. lia.
Qed.

Lemma substring_take_drop s (a b : nat) :
  (a ≤ b)%nat → (b ≤ length s)%nat →
  substring s (Z.of_nat a) (Z.of_nat b) = take (b - a) (drop a s).
Proof.
  intros Hab Hb. unfold substring, clamp, len.
  rewrite !Z.min_l, !Z.max_r by lia.
  f_equal; [lia | f_equal; lia].
Qed.

Lemma startsWith_split p s :
  startsWith p s = true → s = p ++ drop (length p) s.
Proof.
  revert s. induction p as [|a p IH]; intros s H; [done|].
  destruct s as [|b s]; [done|]. cbn in H.
  apply andb_true_iff in H as [H1 H2]. apply ascii_eqb_true in H1. subst.
  cbn. f_equal. by apply IH.
Qed.

Lemma startsWith_app p s : startsWith p (p ++ s) = true.
Proof.
  induction p as [|a p IH]; [done|]. cbn. rewrite IH, andb_true_r.
  by apply ascii_eqb_true.
Qed.

Lemma indexFrom_occurrence p a b i : is_Some (indexFrom p (a ++ p ++ b) i).
Proof.
  revert i. induction a as [|c a IH]; intros i.
  - cbn [app]. destruct (p ++ b) as [|x t] eqn:E.
    + destruct p; [|done]. cbn. eauto.
    + cbn [indexFrom]. rewrite <- E, startsWith_app. eauto.
  - cbn [app indexFrom]. destruct (startsWith p (c :: a ++ p ++ b)); eauto.
Qed.

Lemma includes_occurrence p a b : includes (a ++ p ++ b) p = true.
Proof.
  unfold includes. by destruct (indexFrom_occurrence p a b 0) as [k ->].
Qed.

End Text.

Import Text.
(* ===================================================================== *)
(** ** JavaScript numbers: IEEE 754 binary64 *)
(* ===================================================================== *)

(** The arithmetic of [SpecFloat] (the specification of binary64 that Rocq's
    primitive floats follow) at precision 53 and exponent bound 1024, with
    the facts about rounding that the scores of the subagent manager need:
    sums, products and quotients of small non-negative numbers are finite,
    and the sign of a difference is the sign of the exact difference. *)

Module Double.

Definition prec : Z := 53.
Definition emax : Z := 1024.

Definition number := spec_float.

(** The number for an integer (a literal, an array length), rounded to the
    nearest double when it has more than 53 bits. *)
Definition ofZ (n : Z) : number := binary_normalize prec emax n 0 false.

(** [x + y], [x - y], [x * y], [x / y] *)
Definition add : number → number → number := SFadd prec emax.
Definition sub : number → number → number := SFsub prec emax.
Definition mul : number → number → number := SFmul prec emax.
Definition div : number → number → number := SFdiv prec emax.

(** [x < 0]; false for NaN and for both zeros. *)
Definition isNegative (x : number) : bool :=
  match x with
  | S754_finite true _ _ | S754_infinity true => true
  | _ => false
  end.


#[global] Instance number_eq_dec : EqDecision number.
Proof. solve_decision. Defined.

(** A double in its one representation: the mantissa has 53 bits, or fewer
    at the smallest exponent. *)
Definition valid (x : number) : bool := valid_binary prec emax x.

(** *** Decimal digits *)

(** The digits [s] without the zeros at their end. *)
Fixpoint stripZeros (fuel : nat) (s e : Z) : Z * Z :=
  match fuel with
  | O => (s, e)
  | S fuel' =>
      if (0 <? s) && (s mod 10 =? 0) then stripZeros fuel' (s / 10) (e + 1)
      else (s, e)
  end.

Definition normalise (s e : Z) : Z * Z :=
  stripZeros (Z.to_nat (Z.log2 s + 1)) s e.

(** The Number value for [± s * 10^e]: the double nearest to it, the one
    with the even mantissa when two are equally near. *)
Definition ofDecimal (neg : bool) (s e : Z) : number :=
  let '(s, e) := normalise s e in
  match s with
  | Z.pos p =>
      if 0 <=? e then binary_round prec emax neg (p * Z.to_pos (10 ^ e)) 0
      else
        let '(q, e', l) :=
          SFdiv_core_binary prec emax (Z.pos p) 0 (10 ^ (- e)) 0 in
        binary_round_aux prec emax neg q e' l
  | _ => S754_zero neg
  end.

(** [m * 2^e < 10^n] *)
Definition belowPow10 (m : positive) (e n : Z) : bool :=
  Z.pos m * 2 ^ Z.max e 0 * 10 ^ Z.max (- n) 0
  <? 2 ^ Z.max (- e) 0 * 10 ^ Z.max n 0.

(** The least [n] from [n] on with [m * 2^e < 10^n]. *)
Fixpoint findExp (fuel : nat) (m : positive) (e n : Z) : Z :=
  match fuel with
  | O => n
  | S fuel' => if belowPow10 m e n then n else findExp fuel' m e (n + 1)
  end.

(** The integers [s] next to [x * 10^(k - n0)] for which [s * 10^(n0 - k)]
    is read as [x], the nearer to [x] first (the even one when both are
    as near). *)
Definition candidates (neg : bool) (m : positive) (e n0 k : Z) : list (Z * Z) :=
  let P := Z.pos m * 2 ^ Z.max e 0 * 10 ^ Z.max (k - n0) 0 in
  let Q := 2 ^ Z.max (- e) 0 * 10 ^ Z.max (n0 - k) 0 in
  let lo := P / Q in
  let hi := lo + 1 in
  let x := S754_finite neg m e in
  let ok s := bool_decide (ofDecimal neg s (n0 - k) = x) in
  let dlo := P - lo * Q in
  let dhi := hi * Q - P in
  let first :=
    if dlo <? dhi then [lo; hi]
    else if dhi <? dlo then [hi; lo]
    else if Z.even lo then [lo; hi] else [hi; lo] in
  map (λ s, normalise s (n0 - k)) (List.filter ok first).

(** The candidates with the fewest digits, from [k] digits on. *)
Fixpoint search (fuel : nat) (neg : bool) (m : positive) (e n0 k : Z)
  : option (Z * Z) :=
  match fuel with
  | O => None
  | S fuel' =>
      match candidates neg m e n0 k with
      | c :: _ => Some c
      | [] => search fuel' neg m e n0 (k + 1)
      end
  end.

(** An exponent [n] with [10^n <= m * 2^e], from the number of bits:
    3/10 < log10 2 < 31/100. *)
Definition estimate (m : positive) (e : Z) : Z :=
  let b := Zdigits2 (Z.pos m) + e - 1 in
  Z.min (b * 3 / 10) (b * 31 / 100).

(** The digits of Number::toString: the [s] with the fewest digits, and
    the exponent [e], for which [s * 10^e] is read as [x].  No double
    reaches 10^370, and the decimal expansion of a double ends (after 767
    digits at the latest), so the search finds digits for every double. *)
Definition shortest (x : number) : option (Z * Z) :=
  match x with
  | S754_finite neg m e =>
      let n := estimate m e in
      search 1500 neg m e (findExp (Z.to_nat (370 - n)) m e n) 1
  | _ => None
  end.


Lemma Zdigits2_log2 m : 0 < m → Zdigits2 m = Z.log2 m + 1.
Proof.
  destruct m as [|p|p]; try lia. intros _. cbn [Zdigits2].
  induction p as [p IH|p IH|]; cbn [digits2_pos Z.log2]; try lia.
  - destruct p; cbn [digits2_pos Z.log2 Pos.size] in *; lia.
  - destruct p; cbn [digits2_pos Z.log2 Pos.size] in *; lia.
Qed.

Lemma Zdigits2_nonneg m : 0 ≤ m → 0 ≤ Zdigits2 m.
Proof. destruct m; cbn; lia. Qed.




Lemma fexp_eq x : fexp prec emax x = Z.max (x - 53) (-1074).
Proof. reflexivity. Qed.











Lemma iter_xO p d : Z.pos (Pos.iter xO p d) = Z.pos p * 2 ^ Z.pos d.
Proof.
  induction d as [|d IH] using Pos.peano_ind.
  - cbn. lia.
  - rewrite Pos.iter_succ, Pos2Z.inj_xO, IH, Pos2Z.inj_succ, Z.pow_succ_r by lia. lia.
Qed.

Lemma shl_align_spec p e e' :
  e' ≤ e →
  ∃ p', shl_align p e e' = (p', e') ∧ Z.pos p' = Z.pos p * 2 ^ (e - e').
Proof.
  intros H. unfold shl_align. destruct (e' - e) as [|d|d] eqn:Hd; try lia.
  - assert (e' = e) as -> by lia. exists p. rewrite Z.sub_diag. split; [done | lia].
  - eexists. split; [reflexivity|]. rewrite iter_xO. f_equal. f_equal. lia.
Qed.

Lemma Zdigits2_mul_pow2 m k : 0 < m → 0 ≤ k → Zdigits2 (m * 2 ^ k) = Zdigits2 m + k.
Proof.
  intros Hm Hk. rewrite !Zdigits2_log2 by nia.
  rewrite <- Z.shiftl_mul_pow2, Z.log2_shiftl by lia. lia.
Qed.





(** *** Integers *)



(** *** The operations on non-negative finite numbers *)






(** *** The sign of a difference *)


(** [Number.isFinite(x)] *)
Definition isFinite (x : number) : bool :=
  match x with
  | S754_zero _ | S754_finite _ _ _ => true
  | _ => false
  end.





(** *** Decimal digits: what is written is read back *)

Lemma stripZeros_shift (j : nat) : ∀ fuel s e,
  0 < s → s mod 10 ≠ 0 → (j < fuel)%nat →
  stripZeros fuel (s * 10 ^ Z.of_nat j) e = (s, e + Z.of_nat j).
Proof.
  induction j as [|j IH]; intros fuel s e Hs Hm Hf;
    (destruct fuel as [|f]; [lia|]); cbn [stripZeros].
  - rewrite Z.pow_0_r, Z.mul_1_r, Z.add_0_r.
    apply Z.eqb_neq in Hm. by rewrite Hm, andb_false_r.
  - rewrite Nat2Z.inj_succ, Z.pow_succ_r by lia.
    replace (s * (10 * 10 ^ Z.of_nat j)) with (s * 10 ^ Z.of_nat j * 10) by lia.
    assert (Hp : 0 < s * 10 ^ Z.of_nat j) by (apply Z.mul_pos_pos; [done | lia]).
    rewrite Z.mod_mul, Z.div_mul by lia.
    replace (0 <? s * 10 ^ Z.of_nat j * 10) with true by (symmetry; apply Z.ltb_lt; lia).
    cbn [andb Z.eqb]. rewrite IH by (done || lia). f_equal. lia.
Qed.

Lemma normalise_shift s e j :
  0 < s → s mod 10 ≠ 0 → 0 ≤ j → normalise (s * 10 ^ j) e = (s, e + j).
Proof.
  intros Hs Hm Hj. unfold normalise.
  rewrite <- (Z2Nat.id j) at 2 3 by done. apply stripZeros_shift; [done | done |].
  assert (j ≤ Z.log2 (s * 10 ^ j)); [|lia].
  rewrite <- (Z.log2_pow2 j) at 1 by done. apply Z.log2_le_mono.
  assert (2 ^ j ≤ 10 ^ j) by (apply Z.pow_le_mono_l; lia).
  assert (0 < 10 ^ j) by lia. nia.
Qed.

Lemma normalise_fixed s e : 0 < s → s mod 10 ≠ 0 → normalise s e = (s, e).
Proof.
  intros Hs Hm. pose proof (normalise_shift s e 0 Hs Hm ltac:(lia)) as H.
  by rewrite Z.pow_0_r, Z.mul_1_r, Z.add_0_r in H.
Qed.

Lemma stripZeros_spec fuel : ∀ s e,
  0 < s < 2 ^ Z.of_nat fuel →
  ∃ s' j, stripZeros fuel s e = (s', e + j)
    ∧ 0 ≤ j ∧ s = s' * 10 ^ j ∧ 0 < s' ∧ s' mod 10 ≠ 0.
Proof.
  induction fuel as [|f IH]; intros s e Hs; [cbn in Hs; lia|].
  cbn [stripZeros]. replace (0 <? s) with true by (symmetry; apply Z.ltb_lt; lia).
  cbn [andb]. destruct (Z.eqb_spec (s mod 10) 0) as [Hm|Hm].
  - assert (Hd : s = 10 * (s / 10)) by (pose proof (Z.div_mod s 10); lia).
    rewrite Nat2Z.inj_succ, Z.pow_succ_r in Hs by lia.
    destruct (IH (s / 10) (e + 1) ltac:(lia)) as (s' & j & E & Hj & Hs' & Hp & Hm').
    exists s', (j + 1). rewrite E. split; [f_equal; lia|].
    split; [lia|]. split; [|done].
    rewrite Z.pow_add_r, Z.pow_1_r by lia. lia.
  - exists s, 0. rewrite Z.add_0_r, Z.pow_0_r. split; [done|]. lia.
Qed.

Lemma normalise_spec s e :
  0 < s →
  ∃ s' j, normalise s e = (s', e + j)
    ∧ 0 ≤ j ∧ s = s' * 10 ^ j ∧ 0 < s' ∧ s' mod 10 ≠ 0.
Proof.
  intros Hs. apply stripZeros_spec.
  rewrite Z2Nat.id by (pose proof (Z.log2_nonneg s); lia).
  pose proof (Z.log2_spec s Hs). rewrite <- Z.add_1_r in *. lia.
Qed.

Lemma normalise_nonpos s e : s ≤ 0 → normalise s e = (s, e).
Proof.
  intros Hs. unfold normalise. destruct (Z.to_nat _); [done|]. cbn [stripZeros].
  by replace (0 <? s) with false by (symmetry; apply Z.ltb_ge; lia).
Qed.

Lemma ofDecimal_normalise neg s e s' e' :
  normalise s e = normalise s' e' → ofDecimal neg s e = ofDecimal neg s' e'.
Proof. unfold ofDecimal. by intros ->. Qed.

Lemma ofDecimal_finite neg s e sx m ex :
  ofDecimal neg s e = S754_finite sx m ex → 0 < s.
Proof.
  intros H. destruct (Z.lt_ge_cases 0 s) as [|Hs]; [done|].
  unfold ofDecimal in H. rewrite normalise_nonpos in H by lia.
  destruct s; try lia; done.
Qed.

(** The digits that [shortest] finds are read as the number, and do not
    end in a zero. *)
Lemma candidates_sound neg m e n0 k s d :
  (s, d) ∈ candidates neg m e n0 k →
  0 < s ∧ s mod 10 ≠ 0 ∧ ofDecimal neg s d = S754_finite neg m e.
Proof.
  unfold candidates. cbv zeta. intros Hin.
  apply list_elem_of_fmap in Hin as (s0 & E & Hin).
  apply list_elem_of_In, List.filter_In in Hin as [_ Hok].
  apply bool_decide_eq_true in Hok.
  pose proof (ofDecimal_finite _ _ _ _ _ _ Hok) as Hs0.
  destruct (normalise_spec s0 (n0 - k) Hs0) as (s' & j & En & Hj & -> & Hs' & Hm').
  rewrite En in E. injection E as -> ->. split; [done|]. split; [done|].
  rewrite <- Hok. apply ofDecimal_normalise.
  by rewrite En, normalise_fixed.
Qed.

Lemma digits_search_sound fuel neg m e n0 : ∀ k s d,
  search fuel neg m e n0 k = Some (s, d) →
  0 < s ∧ s mod 10 ≠ 0 ∧ ofDecimal neg s d = S754_finite neg m e.
Proof.
  induction fuel as [|f IH]; intros k s d H; [done|]. cbn [search] in H.
  destruct (candidates neg m e n0 k) as [|c l] eqn:E; [by apply IH in H|].
  injection H as ->. apply (candidates_sound neg m e n0 k). rewrite E.
  apply list_elem_of_here.
Qed.

Lemma shortest_sound neg m e s d :
  shortest (S754_finite neg m e) = Some (s, d) →
  0 < s ∧ s mod 10 ≠ 0 ∧ ofDecimal neg s d = S754_finite neg m e.
Proof. apply digits_search_sound. Qed.

(** *** Every double has digits *)

Lemma valid_finite s m e :
  valid (S754_finite s m e) = true
  ↔ Z.max (Zdigits2 (Z.pos m) + e - 53) (-1074) = e ∧ e ≤ 971.
Proof.
  unfold valid, valid_binary, bounded, canonical_mantissa.
  rewrite andb_true_iff, Z.eqb_eq, Z.leb_le, fexp_eq. reflexivity.
Qed.

Lemma valid_mantissa s m e :
  valid (S754_finite s m e) = true → Z.pos m < 2 ^ 53 ∧ -1074 ≤ e.
Proof.
  intros [Hc Hb]%valid_finite. split; [|lia].
  rewrite Zdigits2_log2 in Hc by lia.
  apply Z.log2_lt_pow2; lia.
Qed.

Lemma shr_1_double z :
  0 < z →
  shr_1 (Build_shr_record (2 * z) false false) = Build_shr_record z false false.
Proof. destruct z; try lia. reflexivity. Qed.

Lemma iter_shr_1_exact p : ∀ a,
  SpecFloat.iter_pos shr_1 p (Build_shr_record (Z.pos a * 2 ^ Z.pos p) false false)
  = Build_shr_record (Z.pos a) false false.
Proof.
  induction p as [p IH|p IH|]; intros a; cbn [SpecFloat.iter_pos].
  - replace (Z.pos a * 2 ^ Z.pos p~1)
      with (2 * (Z.pos (a * 2 ^ p) * 2 ^ Z.pos p)).
    + rewrite shr_1_double by lia. rewrite IH, Pos2Z.inj_mul, Pos2Z.inj_pow. apply IH.
    + rewrite Pos2Z.inj_mul, Pos2Z.inj_pow.
      replace (Z.pos p~1) with (1 + Z.pos p + Z.pos p) by lia.
      rewrite !Z.pow_add_r by lia. lia.
  - replace (Z.pos a * 2 ^ Z.pos p~0) with (Z.pos (a * 2 ^ p) * 2 ^ Z.pos p).
    + rewrite IH, Pos2Z.inj_mul, Pos2Z.inj_pow. apply IH.
    + rewrite Pos2Z.inj_mul, Pos2Z.inj_pow.
      replace (Z.pos p~0) with (Z.pos p + Z.pos p) by lia.
      rewrite !Z.pow_add_r by lia. lia.
  - rewrite Z.pow_1_r, Z.mul_comm. by apply shr_1_double.
Qed.

(** Rounding a number that is a double gives that double. *)
Lemma binary_round_aux_exact neg m e q eq :
  valid (S754_finite neg m e) = true →
  eq ≤ e → q = Z.pos m * 2 ^ (e - eq) →
  binary_round_aux prec emax neg q eq loc_Exact = S754_finite neg m e.
Proof.
  intros Hv Hle ->. pose proof Hv as [Hc Hb]%valid_finite.
  assert (Hstep1 : shr_fexp prec emax (Z.pos m * 2 ^ (e - eq)) eq loc_Exact
                   = (Build_shr_record (Z.pos m) false false, e)).
  { unfold shr_fexp. rewrite fexp_eq, Zdigits2_mul_pow2 by lia.
    replace (Z.max (Zdigits2 (Z.pos m) + (e - eq) + eq - 53) (-1074)) with e by lia.
    unfold shr. destruct (e - eq) as [|p|p] eqn:Hd; try lia.
    - rewrite Z.pow_0_r, Z.mul_1_r. cbn [shr_record_of_loc]. f_equal. lia.
    - cbn [shr_record_of_loc]. rewrite iter_shr_1_exact. f_equal. lia. }
  assert (Hstep2 : shr_fexp prec emax (Z.pos m) e loc_Exact
                   = (Build_shr_record (Z.pos m) false false, e)).
  { unfold shr_fexp. rewrite fexp_eq.
    replace (Z.max (Zdigits2 (Z.pos m) + e - 53) (-1074) - e) with 0 by lia.
    reflexivity. }
  unfold binary_round_aux. rewrite Hstep1.
  cbn [shr_m loc_of_shr_record shr_r shr_s round_nearest_even].
  rewrite Hstep2. cbn [shr_m].
  replace (e <=? emax - prec) with true; [done|].
  symmetry. apply Z.leb_le. unfold emax, prec. lia.
Qed.

Lemma binary_round_exact neg m e p :
  valid (S754_finite neg m e) = true →
  Z.pos p * 2 ^ Z.max (- e) 0 = Z.pos m * 2 ^ Z.max e 0 →
  binary_round prec emax neg p 0 = S754_finite neg m e.
Proof.
  intros Hv Heq. pose proof Hv as [Hc Hb]%valid_finite.
  assert (Hd : Zdigits2 (Z.pos p) + Z.max (- e) 0
               = Zdigits2 (Z.pos m) + Z.max e 0).
  { rewrite <- !Zdigits2_mul_pow2 by lia. by rewrite Heq. }
  unfold binary_round. rewrite fexp_eq.
  change (Z.pos (digits2_pos p)) with (Zdigits2 (Z.pos p)).
  replace (Z.max (Zdigits2 (Z.pos p) + 0 - 53) (-1074)) with e by lia.
  destruct (Z.le_gt_cases e 0) as [He|He].
  - destruct (shl_align_spec p 0 e He) as (p' & -> & Hp').
    apply binary_round_aux_exact; [done | lia |].
    rewrite Z.sub_diag, Z.pow_0_r, Z.mul_1_r, Hp'.
    rewrite Z.max_l, Z.max_r in Heq by lia.
    rewrite Z.pow_0_r, Z.mul_1_r in Heq. rewrite <- Heq.
    by replace (0 - e) with (- e) by lia.
  - unfold shl_align. destruct (e - 0) as [|d|d] eqn:Hd'; try lia.
    apply binary_round_aux_exact; [done | lia |].
    rewrite Z.max_r, Z.max_l in Heq by lia.
    rewrite Z.pow_0_r, Z.mul_1_r in Heq. rewrite Heq.
    by replace (e - 0) with e by lia.
Qed.

Lemma Zdigits2_mul_le a b :
  0 < a → 0 < b → Zdigits2 (a * b) ≤ Zdigits2 a + Zdigits2 b.
Proof.
  intros Ha Hb. rewrite !Zdigits2_log2 by nia.
  pose proof (Z.log2_mul_above a b ltac:(lia) ltac:(lia)). lia.
Qed.

Lemma div_exact neg m e s t :
  valid (S754_finite neg m e) = true → e ≤ 0 → 0 ≤ t →
  Z.pos s * 2 ^ (- e) = Z.pos m * 10 ^ t →
  (let '(q, e', l) := SFdiv_core_binary prec emax (Z.pos s) 0 (10 ^ t) 0 in
   binary_round_aux prec emax neg q e' l)
  = S754_finite neg m e.
Proof.
  intros Hv He Ht Heq. pose proof Hv as [Hc Hb]%valid_finite.
  assert (H10 : 0 < 10 ^ t) by lia.
  assert (Hd : Zdigits2 (Z.pos s) - e ≤ Zdigits2 (Z.pos m) + Zdigits2 (10 ^ t)).
  { replace (Zdigits2 (Z.pos s) - e) with (Zdigits2 (Z.pos s * 2 ^ (- e)))
      by (rewrite Zdigits2_mul_pow2 by lia; lia).
    rewrite Heq. apply Zdigits2_mul_le; lia. }
  unfold SFdiv_core_binary. rewrite fexp_eq.
  change (IntDef.Z.sub 0 0) with 0.
  change (IntDef.Z.add ?a 0) with (a + 0).
  change (IntDef.Z.sub ?a ?b) with (a - b).
  change (IntDef.Z.min ?a ?b) with (Z.min a b).
  set (e' := Z.min _ 0).
  assert (He' : e' ≤ e) by (subst e'; lia).
  assert (Hm' : match 0 - e' with
                | 0 => Z.pos s
                | Z.pos _ => Z.shiftl (Z.pos s) (0 - e')
                | Z.neg _ => 0
                end = Z.pos m * 2 ^ (e - e') * 10 ^ t).
  { assert (Z.pos s * 2 ^ (- e') = Z.pos m * 2 ^ (e - e') * 10 ^ t) as <-.
    { replace (- e') with (- e + (e - e')) by lia.
      rewrite Z.pow_add_r by lia. nia. }
    destruct (0 - e') as [|d|d] eqn:Hd'; try lia.
    - replace (- e') with 0 by lia. lia.
    - rewrite Z.shiftl_mul_pow2 by lia. f_equal. f_equal. lia. }
  rewrite Hm'.
  destruct (Z.div_eucl _ (10 ^ t)) as [q r] eqn:E.
  assert (Hq : q = Z.pos m * 2 ^ (e - e') * 10 ^ t / 10 ^ t)
    by (unfold Z.div; by rewrite E).
  assert (Hr : r = (Z.pos m * 2 ^ (e - e') * 10 ^ t) mod 10 ^ t)
    by (unfold Z.modulo; by rewrite E).
  rewrite Z.div_mul in Hq by lia. rewrite Z.mod_mul in Hr by lia. subst r.
  assert (Hloc : new_location (10 ^ t) 0 = loc_Exact).
  { unfold new_location. by destruct (Z.even (10 ^ t)). }
  rewrite Hloc. by apply binary_round_aux_exact.
Qed.

Lemma Zpos_mul_to_pos p x : 0 < x → Z.pos (p * Z.to_pos x) = Z.pos p * x.
Proof. intros Hx. rewrite Pos2Z.inj_mul, Z2Pos.id by done. done. Qed.

(** Digits that stand for a double exactly are read as that double. *)
Lemma ofDecimal_exact neg m e s d :
  valid (S754_finite neg m e) = true → 0 < s →
  s * 10 ^ Z.max d 0 * 2 ^ Z.max (- e) 0
  = Z.pos m * 2 ^ Z.max e 0 * 10 ^ Z.max (- d) 0 →
  ofDecimal neg s d = S754_finite neg m e.
Proof.
  intros Hv Hs Heq.
  destruct (normalise_spec s d Hs) as (s' & j & En & Hj & -> & Hs' & Hm').
  unfold ofDecimal. rewrite En. destruct s' as [|p|p]; try lia.
  assert (Hj10 : 0 < 10 ^ j) by lia.
  destruct (Z.leb_spec 0 (d + j)) as [Hd|Hd].
  - apply binary_round_exact; [done|].
    rewrite Zpos_mul_to_pos by lia.
    destruct (Z.le_gt_cases 0 d) as [Hd0|Hd0].
    + rewrite (Z.max_l d), (Z.max_r (- d)), Z.pow_0_r, Z.mul_1_r in Heq by lia.
      rewrite <- Heq, Z.pow_add_r by lia. lia.
    + rewrite (Z.max_r d), (Z.max_l (- d)), Z.pow_0_r, Z.mul_1_r in Heq by lia.
      assert (H10 : 0 < 10 ^ (- d)) by lia.
      apply (Z.mul_reg_r _ _ (10 ^ (- d))); [lia|].
      rewrite <- Heq.
      replace j with ((d + j) + (- d)) at 2 by lia.
      rewrite (Z.pow_add_r 10 (d + j)) by lia. lia.
  - rewrite (Z.max_r d), (Z.max_l (- d)), Z.pow_0_r, Z.mul_1_r in Heq by lia.
    assert (Ht : 0 < 10 ^ (- (d + j))) by lia.
    assert (Heq' : Z.pos p * 2 ^ Z.max (- e) 0
                   = Z.pos m * 2 ^ Z.max e 0 * 10 ^ (- (d + j))).
    { apply (Z.mul_reg_r _ _ (10 ^ j)); [lia|].
      replace (Z.pos m * 2 ^ Z.max e 0 * 10 ^ (- (d + j)) * 10 ^ j)
        with (Z.pos m * 2 ^ Z.max e 0 * (10 ^ (- (d + j)) * 10 ^ j)) by lia.
      rewrite <- Z.pow_add_r by lia.
      replace (- (d + j) + j) with (- d) by lia. rewrite <- Heq. lia. }
    assert (He : e ≤ 0).
    { destruct (Z.le_gt_cases e 0) as [|He]; [done|]. exfalso. apply Hm'.
      rewrite (Z.max_r (- e)), (Z.max_l e), Z.pow_0_r, Z.mul_1_r in Heq' by lia.
      rewrite Heq'.
      replace (- (d + j)) with (1 + (- (d + j) - 1)) by lia.
      rewrite Z.pow_add_r, Z.pow_1_r by lia.
      replace (Z.pos m * 2 ^ e * (10 * 10 ^ (- (d + j) - 1)))
        with (Z.pos m * 2 ^ e * 10 ^ (- (d + j) - 1) * 10) by lia.
      apply Z.mod_mul. lia. }
    apply div_exact; [done | done | lia |].
    rewrite (Z.max_l (- e)), (Z.max_r e), Z.pow_0_r, Z.mul_1_r in Heq' by lia.
    done.
Qed.

Lemma candidates_exact neg m e n0 k :
  valid (S754_finite neg m e) = true → k - n0 = Z.max (- e) 0 →
  candidates neg m e n0 k ≠ [].
Proof.
  intros Hv Hk. unfold candidates. cbv zeta.
  set (t := Z.max (- e) 0) in *.
  replace (Z.max (k - n0) 0) with t by lia.
  replace (Z.max (n0 - k) 0) with 0 by lia.
  rewrite Z.pow_0_r, Z.mul_1_r.
  set (lo := Z.pos m * 2 ^ Z.max e 0 * 5 ^ t).
  assert (H2 : 0 < 2 ^ t) by (apply Z.pow_pos_nonneg; lia).
  assert (H5 : 0 < 5 ^ t) by (apply Z.pow_pos_nonneg; lia).
  assert (Hb : 0 < 2 ^ Z.max e 0) by (apply Z.pow_pos_nonneg; lia).
  assert (Hlo : 0 < lo) by (subst lo; apply Z.mul_pos_pos; [lia | done]).
  assert (HP : Z.pos m * 2 ^ Z.max e 0 * 10 ^ t = lo * 2 ^ t).
  { subst lo. change 10 with (2 * 5). rewrite Z.pow_mul_l. lia. }
  rewrite HP, Z.div_mul, Z.sub_diag by lia.
  replace (0 <? (lo + 1) * 2 ^ t - lo * 2 ^ t) with true
    by (symmetry; apply Z.ltb_lt; lia).
  cbn [List.filter].
  replace (n0 - k) with (- t) by lia.
  rewrite (bool_decide_eq_true_2 (ofDecimal neg lo (- t) = S754_finite neg m e));
    [done|].
  apply ofDecimal_exact; [done | done |].
  replace (Z.max (- t) 0) with 0 by lia.
  replace (Z.max (- - t) 0) with t by lia.
  rewrite Z.pow_0_r, Z.mul_1_r. fold t. lia.
Qed.

Lemma search_finds fuel neg m e n0 kstar : ∀ k,
  k ≤ kstar < k + Z.of_nat fuel →
  candidates neg m e n0 kstar ≠ [] →
  is_Some (search fuel neg m e n0 k).
Proof.
  induction fuel as [|f IH]; intros k Hk Hc; [lia|]. cbn [search].
  destruct (candidates neg m e n0 k) as [|c l] eqn:E; [|done].
  apply IH; [|done].
  destruct (Z.eq_dec k kstar) as [->|]; [done | lia].
Qed.

Lemma findExp_range fuel m e : ∀ n,
  n ≤ findExp fuel m e n ≤ n + Z.of_nat fuel.
Proof.
  induction fuel as [|f IH]; intros n; cbn [findExp]; [lia|].
  destruct (belowPow10 m e n); [lia|]. specialize (IH (n + 1)). lia.
Qed.

Lemma findExp_below fuel m e : ∀ n,
  belowPow10 m e (n + Z.of_nat fuel) = true →
  belowPow10 m e (findExp fuel m e n) = true.
Proof.
  induction fuel as [|f IH]; intros n H; cbn [findExp].
  - by rewrite Z.add_0_r in H.
  - destruct (belowPow10 m e n) eqn:E; [done|]. apply IH.
    by replace (n + 1 + Z.of_nat f) with (n + Z.of_nat (S f)) by lia.
Qed.

Lemma valid_below neg m e :
  valid (S754_finite neg m e) = true → belowPow10 m e 370 = true.
Proof.
  intros Hv. pose proof (valid_mantissa _ _ _ Hv) as [Hm He].
  apply valid_finite in Hv as [_ Hb].
  unfold belowPow10. apply Z.ltb_lt.
  change (Z.max (- 370) 0) with 0. change (Z.max 370 0) with 370.
  rewrite Z.pow_0_r, Z.mul_1_r.
  assert (H1 : 2 ^ Z.max e 0 ≤ 2 ^ 971) by (apply Z.pow_le_mono_r; lia).
  assert (H2 : 0 < 2 ^ Z.max e 0) by (apply Z.pow_pos_nonneg; lia).
  assert (H3 : 1 ≤ 2 ^ Z.max (- e) 0)
    by (change 1 with (2 ^ 0); apply Z.pow_le_mono_r; lia).
  assert (H4 : 2 ^ 53 * 2 ^ 971 < 10 ^ 370) by (apply Z.ltb_lt; by vm_compute).
  assert (H5 : Z.pos m * 2 ^ Z.max e 0 ≤ 2 ^ 53 * 2 ^ 971)
    by (apply Z.mul_le_mono_nonneg; lia).
  assert (H6 : 0 < 10 ^ 370) by (apply Z.pow_pos_nonneg; lia).
  set (T := 10 ^ 370) in *. set (A := 2 ^ Z.max e 0) in *.
  set (B := 2 ^ Z.max (- e) 0) in *. set (C := 2 ^ 53 * 2 ^ 971) in *.
  nia.
Qed.

(** The search of [shortest] ends with digits for every double. *)
Lemma shortest_total neg m e :
  valid (S754_finite neg m e) = true → is_Some (shortest (S754_finite neg m e)).
Proof.
  intros Hv. cbn [shortest]. cbv zeta.
  pose proof (valid_mantissa _ _ _ Hv) as [Hm He].
  assert (Hest : -400 ≤ estimate m e ≤ 370).
  { pose proof Hv as [Hc Hb]%valid_finite. unfold estimate.
    assert (1 ≤ Zdigits2 (Z.pos m)).
    { rewrite Zdigits2_log2 by lia. pose proof (Z.log2_nonneg (Z.pos m)). lia. }
    cbv zeta. set (b := Zdigits2 (Z.pos m) + e - 1).
    assert (Hb' : -1074 ≤ b ≤ 1023) by lia.
    pose proof (Z.div_mod (b * 3) 10 ltac:(lia)).
    pose proof (Z.mod_pos_bound (b * 3) 10 ltac:(lia)).
    pose proof (Z.div_mod (b * 31) 100 ltac:(lia)).
    pose proof (Z.mod_pos_bound (b * 31) 100 ltac:(lia)).
    lia. }
  set (n := estimate m e) in *.
  set (n0 := findExp (Z.to_nat (370 - n)) m e n).
  pose proof (findExp_range (Z.to_nat (370 - n)) m e n) as Hn0. fold n0 in Hn0.
  assert (Hbelow : belowPow10 m e n0 = true).
  { apply findExp_below. replace (n + Z.of_nat (Z.to_nat (370 - n))) with 370 by lia.
    apply (valid_below neg m e Hv). }
  set (t := Z.max (- e) 0).
  apply (search_finds _ _ _ _ _ (n0 + t)); [|apply candidates_exact; [done | lia]].
  split; [|subst t; lia].
  destruct (Z.le_gt_cases 1 (n0 + t)) as [|Hk]; [done|]. exfalso.
  unfold belowPow10 in Hbelow. apply Z.ltb_lt in Hbelow.
  rewrite (Z.max_l (- n0)), (Z.max_r n0), Z.pow_0_r, Z.mul_1_r in Hbelow by lia.
  fold t in Hbelow.
  assert (H1 : 2 ^ t ≤ 10 ^ t) by (apply Z.pow_le_mono_l; lia).
  assert (H2 : 10 ^ t ≤ 10 ^ (- n0)) by (apply Z.pow_le_mono_r; lia).
  assert (H3 : 0 < 2 ^ Z.max e 0) by (apply Z.pow_pos_nonneg; lia).
  assert (H4 : 0 < 2 ^ t) by (apply Z.pow_pos_nonneg; lia).
  set (A := 2 ^ Z.max e 0) in *. set (B := 2 ^ t) in *.
  set (C := 10 ^ (- n0)) in *. set (D := 10 ^ t) in *.
  assert (H5 : 1 ≤ Z.pos m * A) by nia.
  assert (H6 : C ≤ Z.pos m * A * C) by nia.
  lia.
Qed.

(** A safe integer is a double. *)
Lemma ofZ_safe n :
  0 ≤ n < 2 ^ 53 →
  valid (ofZ n) = true ∧ isFinite (ofZ n) = true ∧ ofZ n ≠ S754_zero true.
Proof.
  intros Hn. destruct n as [|p|p]; try lia; [done|].
  set (d := Zdigits2 (Z.pos p)).
  assert (Hd : 1 ≤ d ≤ 53).
  { subst d. rewrite Zdigits2_log2 by lia. pose proof (Z.log2_nonneg (Z.pos p)).
    assert (Z.log2 (Z.pos p) < 53) by (apply Z.log2_lt_pow2; lia). lia. }
  assert (Hm : ∃ m, Z.pos m = Z.pos p * 2 ^ (53 - d)).
  { assert (0 < Z.pos p * 2 ^ (53 - d)) by (apply Z.mul_pos_pos; lia).
    destruct (Z.pos p * 2 ^ (53 - d)) as [|m|m]; try lia. by exists m. }
  destruct Hm as [m Hm].
  assert (Hv : valid (S754_finite false m (d - 53)) = true).
  { apply valid_finite. rewrite Hm, Zdigits2_mul_pow2 by lia. fold d. lia. }
  assert (E : ofZ (Z.pos p) = S754_finite false m (d - 53)).
  { unfold ofZ. cbn [binary_normalize]. apply binary_round_exact; [done|].
    rewrite Z.max_l, Z.max_r, Z.pow_0_r, Z.mul_1_r, Hm by lia.
    f_equal. f_equal. lia. }
  rewrite E. done.
Qed.

End Double.

(** An integer of the source (a literal, a count, a time stamp) is a
    number. *)
Coercion Double.ofZ : Z >-> Double.number.


(* ===================================================================== *)
(** ** JSON values *)
(* ===================================================================== *)

Module Json.

(** The values [JSON.parse] can produce.  An object lists its properties
    in the order [Object.keys] gives them. *)
Inductive value : Type :=
| JNull
| JBool (b : bool)
| JNum (x : Double.number)
| JStr (s : text)
| JArr (items : list value)
| JObj (fields : list (text * value)).

Definition nl : ascii := ascii_of_nat 10.
Definition dquote : ascii := ascii_of_nat 34.
Definition backslash : ascii := ascii_of_nat 92.

(** *** JSON.stringify(value, null, 2) *)

Definition hexDigit (n : nat) : ascii :=
  nth n (lit "0123456789abcdef") "0"%char.

(** QuoteJSONString, one character. *)
Definition escapeChar (c : ascii) : text :=
  let n := nat_of_ascii c in
  if (n =? 8)%nat then lit "\b"
  else if (n =? 9)%nat then lit "\t"
  else if (n =? 10)%nat then lit "\n"
  else if (n =? 12)%nat then lit "\f"
  else if (n =? 13)%nat then lit "\r"
  else if (n =? 34)%nat then [backslash; dquote]
  else if (n =? 92)%nat then [backslash; backslash]
  else if (n <? 32)%nat then
    lit "\u00" ++ [hexDigit (n / 16); hexDigit (n mod 16)]
  else [c].

Definition quote (s : text) : text :=
  [dquote] ++ concat (map escapeChar s) ++ [dquote].

(** [String(z)] for an integer [z] below 10^21: its decimal digits. *)
Definition numberToString (z : Z) : text :=
  lit (DecimalString.NilZero.string_of_int (Z.to_int z)).

Definition zeros (n : Z) : text := replicate (Z.to_nat n) "0"%char.

(** Number::toString for a positive number, from its digits [s] and the
    place [n] of the decimal point counted from the first digit. *)
Definition formatDigits (s n : Z) : text :=
  let digits := numberToString s in
  let k := len digits in
  if (k <=? n) && (n <=? 21) then digits ++ zeros (n - k)
  else if (0 <? n) && (n <=? 21) then
    take (Z.to_nat n) digits ++ lit "." ++ drop (Z.to_nat n) digits
  else if (-6 <? n) && (n <=? 0) then lit "0." ++ zeros (- n) ++ digits
  else
    let e := n - 1 in
    let exponent :=
      (if e <? 0 then lit "-" else lit "+") ++ numberToString (Z.abs e) in
    if k =? 1 then digits ++ lit "e" ++ exponent
    else take 1 digits ++ lit "." ++ drop 1 digits ++ lit "e" ++ exponent.

(** A number as [JSON.stringify] writes it: [null] for NaN and the
    infinities, Number::toString for the others.  ([Double.shortest] finds
    digits for every double; the last case is there for the triples of
    sign, mantissa and exponent that are no doubles.) *)
Definition numberText (x : Double.number) : text :=
  match x with
  | S754_zero _ => lit "0"
  | S754_finite neg _ _ =>
      match Double.shortest x with
      | Some (s, e) =>
          (if neg then lit "-" else [])
          ++ formatDigits s (e + len (numberToString s))
      | None => lit "null"
      end
  | _ => lit "null"
  end.

(** [items.join(sep)] *)
Fixpoint join (sep : text) (items : list text) : text :=
  match items with
  | [] => []
  | [x] => x
  | x :: rest => x ++ sep ++ join sep rest
  end.

(** SerializeJSONProperty with a gap of two spaces; [indent] is the
    current indentation. *)
Fixpoint serialize (indent : text) (v : value) : text :=
  match v with
  | JNull => lit "null"
  | JBool true => lit "true"
  | JBool false => lit "false"
  | JNum x => numberText x
  | JStr s => quote s
  | JArr items =>
      match items with
      | [] => lit "[]"
      | _ =>
          let stepback := indent in
          let indent := indent ++ lit "  " in
          let partial := map (serialize indent) items in
          lit "[" ++ [nl] ++ indent ++ join (lit "," ++ [nl] ++ indent) partial
            ++ [nl] ++ stepback ++ lit "]"
      end
  | JObj fields =>
      match fields with
      | [] => lit "{}"
      | _ =>
          let stepback := indent in
          let indent := indent ++ lit "  " in
          let partial :=
            map (λ kv : text * value,
                   quote kv.1 ++ lit ": " ++ serialize indent kv.2) fields in
          lit "{" ++ [nl] ++ indent ++ join (lit "," ++ [nl] ++ indent) partial
            ++ [nl] ++ stepback ++ lit "}"
      end
  end.

Definition stringify (v : value) : text := serialize [] v.

(** *** JSON.parse *)

Definition isWhitespace (c : ascii) : bool :=
  let n := nat_of_ascii c in
  (n =? 32)%nat || (n =? 9)%nat || (n =? 10)%nat || (n =? 13)%nat.

Fixpoint skipWhitespace (s : text) : text :=
  match s with
  | c :: rest => if isWhitespace c then skipWhitespace rest else s
  | [] => []
  end.

Definition digitValue (c : ascii) : option Z :=
  let n := nat_of_ascii c in
  if (48 <=? n)%nat && (n <=? 57)%nat then Some (Z.of_nat (n - 48)) else None.

Definition hexValue (c : ascii) : option nat :=
  let n := nat_of_ascii c in
  if (48 <=? n)%nat && (n <=? 57)%nat then Some (n - 48)%nat
  else if (97 <=? n)%nat && (n <=? 102)%nat then Some (n - 87)%nat
  else if (65 <=? n)%nat && (n <=? 70)%nat then Some (n - 55)%nat
  else None.

(** The character of a two-character escape. *)
Definition unescape (c : ascii) : option ascii :=
  let n := nat_of_ascii c in
  if (n =? 34)%nat then Some dquote
  else if (n =? 92)%nat then Some backslash
  else if (n =? 47)%nat then Some "/"%char
  else if (n =? 98)%nat then Some (ascii_of_nat 8)
  else if (n =? 102)%nat then Some (ascii_of_nat 12)
  else if (n =? 110)%nat then Some (ascii_of_nat 10)
  else if (n =? 114)%nat then Some (ascii_of_nat 13)
  else if (n =? 116)%nat then Some (ascii_of_nat 9)
  else None.

(** The characters of a string literal after its opening quote.  A [\u]
    escape beyond the characters represented here is rejected. *)
Fixpoint parseString (s acc : text) : option (text * text) :=
  match s with
  | [] => None
  | c :: rest =>
      if ascii_eqb c dquote then Some (acc, rest)
      else if ascii_eqb c backslash then
        match rest with
        | [] => None
        | d :: rest' =>
            match unescape d with
            | Some x => parseString rest' (acc ++ [x])
            | None =>
                if ascii_eqb d "u"%char then
                  match rest' with
                  | h1 :: h2 :: h3 :: h4 :: rest'' =>
                      match hexValue h1, hexValue h2, hexValue h3, hexValue h4 with
                      | Some 0%nat, Some 0%nat, Some a, Some b =>
                          parseString rest'' (acc ++ [ascii_of_nat (16 * a + b)])
                      | _, _, _, _ => None
                      end
                  | _ => None
                  end
                else None
            end
        end
      else if (nat_of_ascii c <? 32)%nat then None
      else parseString rest (acc ++ [c])
  end.

Definition isDigit (c : ascii) : bool :=
  match digitValue c with Some _ => true | None => false end.

(** The digits at the start of [s]: their value on top of [acc], their
    number on top of [cnt], and what comes behind them. *)
Fixpoint scanDigits (s : text) (acc cnt : Z) : Z * Z * text :=
  match s with
  | c :: rest =>
      match digitValue c with
      | Some d => scanDigits rest (10 * acc + d) (cnt + 1)
      | None => (acc, cnt, s)
      end
  | [] => (acc, cnt, [])
  end.

(** The integer part: [0], or digits that start with none. *)
Definition parseInt (s : text) : option (Z * text) :=
  match s with
  | c :: rest =>
      match digitValue c with
      | Some 0 => Some (0, rest)
      | Some d => let '(v, _, rest') := scanDigits rest d 0 in Some (v, rest')
      | None => None
      end
  | [] => None
  end.

(** The fraction, if there is one: a point and at least one digit.  The
    digits are shifted into [v]; the second component is their number. *)
Definition parseFrac (v : Z) (s : text) : option (Z * Z * text) :=
  match s with
  | c :: rest =>
      if ascii_eqb c "."%char then
        match rest with
        | d :: _ => if isDigit d then Some (scanDigits rest v 0) else None
        | [] => None
        end
      else Some (v, 0, s)
  | [] => Some (v, 0, [])
  end.

(** The exponent, if there is one: [e] or [E], a sign or none, and at
    least one digit. *)
Definition parseExp (s : text) : option (Z * text) :=
  match s with
  | c :: rest =>
      if ascii_eqb c "e"%char || ascii_eqb c "E"%char then
        let '(neg, rest) :=
          match rest with
          | x :: rest' =>
              if ascii_eqb x "-"%char then (true, rest')
              else if ascii_eqb x "+"%char then (false, rest')
              else (false, rest)
          | [] => (false, [])
          end in
        match rest with
        | d :: _ =>
            if isDigit d then
              let '(v, _, rest') := scanDigits rest 0 0 in
              Some (if neg then - v else v, rest')
            else None
        | [] => None
        end
      else Some (0, s)
  | [] => Some (0, [])
  end.

(** A number literal, and the double it stands for. *)
Definition parseNumber (s : text) : option (Double.number * text) :=
  let '(neg, s) :=
    match s with
    | c :: rest => if ascii_eqb c "-"%char then (true, rest) else (false, s)
    | [] => (false, [])
    end in
  match parseInt s with
  | Some (i, s1) =>
      match parseFrac i s1 with
      | Some (v, cnt, s2) =>
          match parseExp s2 with
          | Some (x, s3) => Some (Double.ofDecimal neg v (x - cnt), s3)
          | None => None
          end
      | None => None
      end
  | None => None
  end.

(** An array index: the numeral of an integer below 2^32 - 1, as
    [String] writes it. *)
Definition arrayIndex (k : text) : option Z :=
  match k with
  | [] => None
  | c :: rest =>
      if forallb isDigit k
         && (negb (ascii_eqb c "0"%char) || bool_decide (rest = []))
      then
        let '(v, _, _) := scanDigits k 0 0 in
        if v <? 2 ^ 32 - 1 then Some v else None
      else None
  end.

(** The order of the own properties of an object: the array indices in
    ascending order, then the other keys in the order of their creation.
    [before k1 k2]: [k1], which is in the object, stays before the new
    key [k2]. *)
Definition before (k1 k2 : text) : bool :=
  match arrayIndex k1, arrayIndex k2 with
  | Some i, Some j => i <? j
  | Some _, None => true
  | None, Some _ => false
  | None, None => true
  end.

Fixpoint replaceField (k : text) (v : value) (fields : list (text * value))
  : list (text * value) :=
  match fields with
  | [] => []
  | (k', v') :: rest =>
      if bool_decide (k' = k) then (k, v) :: rest
      else (k', v') :: replaceField k v rest
  end.

Fixpoint insertField (k : text) (v : value) (fields : list (text * value))
  : list (text * value) :=
  match fields with
  | [] => [(k, v)]
  | (k', v') :: rest =>
      if before k' k then (k', v') :: insertField k v rest
      else (k, v) :: fields
  end.

(** Defining a property: a key already present keeps its place, a new key
    takes the place the order of properties gives it. *)
Definition setField (k : text) (v : value) (fields : list (text * value))
  : list (text * value) :=
  if bool_decide (k ∈ map fst fields) then replaceField k v fields
  else insertField k v fields.

(** The recursive descent of the JSON grammar; [fuel] bounds the nesting
    and the number of items. *)
Fixpoint parseValue (fuel : nat) (s : text) : option (value * text) :=
  match fuel with
  | O => None
  | S fuel =>
      let s := skipWhitespace s in
      if startsWith (lit "null") s then Some (JNull, drop 4 s)
      else if startsWith (lit "true") s then Some (JBool true, drop 4 s)
      else if startsWith (lit "false") s then Some (JBool false, drop 5 s)
      else match s with
           | [] => None
           | c :: rest =>
               if ascii_eqb c dquote then
                 match parseString rest [] with
                 | Some (str, rest') => Some (JStr str, rest')
                 | None => None
                 end
               else if ascii_eqb c "["%char then
                 match skipWhitespace rest with
                 | d :: rest' =>
                     if ascii_eqb d "]"%char then Some (JArr [], rest')
                     else parseElements fuel rest []
                 | [] => None
                 end
               else if ascii_eqb c "{"%char then
                 match skipWhitespace rest with
                 | d :: rest' =>
                     if ascii_eqb d "}"%char then Some (JObj [], rest')
                     else parseMembers fuel rest []
                 | [] => None
                 end
               else
                 match parseNumber s with
                 | Some (z, rest') => Some (JNum z, rest')
                 | None => None
                 end
           end
  end
with parseElements (fuel : nat) (s : text) (acc : list value)
  : option (value * text) :=
  match fuel with
  | O => None
  | S fuel =>
      match parseValue fuel s with
      | Some (v, rest) =>
          match skipWhitespace rest with
          | c :: rest' =>
              if ascii_eqb c ","%char then parseElements fuel rest' (acc ++ [v])
              else if ascii_eqb c "]"%char then Some (JArr (acc ++ [v]), rest')
              else None
          | [] => None
          end
      | None => None
      end
  end
with parseMembers (fuel : nat) (s : text) (acc : list (text * value))
  : option (value * text) :=
  match fuel with
  | O => None
  | S fuel =>
      match skipWhitespace s with
      | c :: rest =>
          if ascii_eqb c dquote then
            match parseString rest [] with
            | Some (k, rest1) =>
                match skipWhitespace rest1 with
                | d :: rest2 =>
                    if ascii_eqb d ":"%char then
                      match parseValue fuel rest2 with
                      | Some (v, rest3) =>
                          match skipWhitespace rest3 with
                          | x :: rest4 =>
                              if ascii_eqb x ","%char
                              then parseMembers fuel rest4 (setField k v acc)
                              else if ascii_eqb x "}"%char
                              then Some (JObj (setField k v acc), rest4)
                              else None
                          | [] => None
                          end
                      | None => None
                      end
                    else None
                | [] => None
                end
            | None => None
            end
          else None
      | [] => None
      end
  end.

(** [JSON.parse(s)]; [None] is the SyntaxError. *)
Definition parse (s : text) : option value :=
  match parseValue (S (length s)) s with
  | Some (v, rest) =>
      match skipWhitespace rest with
      | [] => Some v
      | _ => None
      end
  | None => None
  end.

End Json.

(* ===================================================================== *)
(** ** JSON: what is written is read back *)
(* ===================================================================== *)

Module JsonFacts.

Import Json.

Section value_induction.
Variable P : value → Prop.
Hypothesis Hnull : P JNull.
Hypothesis Hbool : ∀ b, P (JBool b).
Hypothesis Hnum : ∀ z, P (JNum z).
Hypothesis Hstr : ∀ s, P (JStr s).
Hypothesis Harr : ∀ items, Forall P items → P (JArr items).
Hypothesis Hobj : ∀ fields, Forall (λ kv, P kv.2) fields → P (JObj fields).

Fixpoint value_induction (v : value) : P v :=
  match v with
  | JNull => Hnull
  | JBool b => Hbool b
  | JNum z => Hnum z
  | JStr s => Hstr s
  | JArr items =>
      Harr items
        ((fix go (l : list value) : Forall P l :=
            match l with
            | [] => @List.Forall_nil _ P
            | x :: l' => @List.Forall_cons _ P x l' (value_induction x) (go l')
            end) items)
  | JObj fields =>
      Hobj fields
        ((fix go (l : list (text * value)) : Forall (λ kv, P kv.2) l :=
            match l with
            | [] => @List.Forall_nil _ (λ kv, P kv.2)
            | kv :: l' =>
                @List.Forall_cons _ (λ kv, P kv.2) kv l'
                  (value_induction kv.2) (go l')
            end) fields)
  end.
End value_induction.

(** The numbers that JSON keeps: the finite doubles other than -0.
    ([JSON.stringify] writes NaN and the infinities as [null], and -0 as
    [0].) *)
Definition jsonNumber (x : Double.number) : Prop :=
  Double.valid x = true ∧ Double.isFinite x = true ∧ x ≠ S754_zero true.

(** The keys in the order of the properties of an object. *)
Fixpoint ordered (keys : list text) : bool :=
  match keys with
  | [] => true
  | k :: rest => forallb (before k) rest && ordered rest
  end.

(** A JavaScript value that JSON keeps: an object holds each key once and
    lists its keys in the order of properties, and the numbers are those
    that JSON keeps. *)
Fixpoint wellFormed (v : value) : Prop :=
  match v with
  | JNum x => jsonNumber x
  | JArr items => foldr (λ x acc, wellFormed x ∧ acc) True items
  | JObj fields =>
      NoDup (map fst fields) ∧ ordered (map fst fields) = true
      ∧ foldr (λ kv acc, wellFormed kv.2 ∧ acc) True fields
  | _ => True
  end.

(** The fuel the parser needs for a value. *)
Fixpoint size (v : value) : nat :=
  match v with
  | JArr items => S (list_sum (map (λ x, S (size x)) items))
  | JObj fields => S (list_sum (map (λ kv : text * value, S (size kv.2)) fields))
  | _ => 1
  end.

Definition blank (ws : text) : Prop := Forall (λ c, isWhitespace c = true) ws.

(** What stands behind a serialized value: the end, a comma or a line
    break. *)
Definition follows (rest : text) : Prop :=
  match rest with
  | [] => True
  | c :: _ => c = ","%char ∨ c = nl
  end.

Lemma skipWhitespace_blank ws s : blank ws → skipWhitespace (ws ++ s) = skipWhitespace s.
Proof.
  induction 1 as [|c ws Hc _ IH]; [done|]. cbn. by rewrite Hc.
Qed.

Lemma skipWhitespace_stop c s :
  isWhitespace c = false → skipWhitespace (c :: s) = c :: s.
Proof. intros H. cbn. by rewrite H. Qed.

(** *** Strings *)

Lemma parseString_escapeChar c rest acc :
  parseString (escapeChar c ++ rest) acc = parseString rest (acc ++ [c]).
Proof.
  destruct c as [[] [] [] [] [] [] [] []]; reflexivity.
Qed.

Lemma parseString_body s rest acc :
  parseString (concat (map escapeChar s) ++ dquote :: rest) acc
  = Some (acc ++ s, rest).
Proof.
  revert acc. induction s as [|c s IH]; intros acc.
  - cbn. by rewrite app_nil_r.
  - cbn [map concat]. rewrite <- app_assoc, parseString_escapeChar, IH.
    by rewrite <- app_assoc.
Qed.

Lemma parseString_quote s rest :
  ∃ body, quote s ++ rest = dquote :: body
          ∧ parseString body [] = Some (s, rest).
Proof.
  exists (concat (map escapeChar s) ++ dquote :: rest). split.
  - unfold quote. cbn. by rewrite <- app_assoc.
  - apply parseString_body.
Qed.

(** *** Numbers *)

Definition digitChars (d : Decimal.uint) : text := lit (NilEmpty.string_of_uint d).

Definition allDigits (ds : text) : Prop := Forall (λ c, isDigit c = true) ds.

Definition noDigit (rest : text) : Prop :=
  match rest with
  | [] => True
  | c :: _ => digitValue c = None
  end.

(** The value of the digits [ds] written behind the number [acc]. *)
Definition valFrom (acc : Z) (ds : text) : Z :=
  fold_left (λ a c, 10 * a + default 0 (digitValue c)) ds acc.

Lemma valFrom_cons acc c ds d :
  digitValue c = Some d → valFrom acc (c :: ds) = valFrom (10 * acc + d) ds.
Proof. intros H. cbn. by rewrite H. Qed.

Lemma valFrom_app acc a b : valFrom acc (a ++ b) = valFrom (valFrom acc a) b.
Proof. apply fold_left_app. Qed.

Lemma valFrom_shift ds : ∀ acc, valFrom acc ds = acc * 10 ^ len ds + valFrom 0 ds.
Proof.
  unfold len. induction ds as [|c ds IH]; intros acc; [cbn; lia|].
  cbn [valFrom fold_left]. fold (valFrom (10 * acc + default 0 (digitValue c)) ds).
  fold (valFrom (10 * 0 + default 0 (digitValue c)) ds).
  rewrite IH, (IH (10 * 0 + _)). cbn [length].
  rewrite Nat2Z.inj_succ, Z.pow_succ_r by lia. lia.
Qed.

Lemma isDigit_value c : isDigit c = true → ∃ d, digitValue c = Some d.
Proof. unfold isDigit. destruct (digitValue c); [by eexists | done]. Qed.

Lemma scanDigits_app ds : ∀ rest acc cnt,
  allDigits ds → noDigit rest →
  scanDigits (ds ++ rest) acc cnt = (valFrom acc ds, cnt + len ds, rest).
Proof.
  induction ds as [|c ds IH]; intros rest acc cnt Hds Hrest.
  - cbn [app valFrom fold_left]. unfold len. cbn [length].
    rewrite Z.add_0_r. destruct rest as [|c rest]; [done|].
    cbn in Hrest |- *. by rewrite Hrest.
  - inversion Hds as [|? ? Hc Hds']; subst.
    destruct (isDigit_value c Hc) as [d Hd].
    cbn [app scanDigits]. rewrite Hd, (valFrom_cons _ _ _ d Hd), IH by done.
    unfold len. cbn [length]. f_equal. f_equal. lia.
Qed.

Lemma allDigits_zeros n : allDigits (zeros n).
Proof. unfold zeros. induction (Z.to_nat n); by constructor. Qed.

Lemma len_zeros n : 0 ≤ n → len (zeros n) = n.
Proof. intros H. unfold len, zeros. rewrite length_replicate. lia. Qed.

Lemma valFrom_zeros n acc : 0 ≤ n → valFrom acc (zeros n) = acc * 10 ^ n.
Proof.
  intros H. rewrite valFrom_shift, len_zeros by done.
  assert (valFrom 0 (zeros n) = 0) as ->; [|lia].
  unfold zeros. induction (Z.to_nat n) as [|k IH]; [done|].
  cbn [replicate]. by rewrite (valFrom_cons _ _ _ 0).
Qed.

Lemma digitChars_cons (c : ascii) (str : string) :
  lit (String c str) = c :: lit str.
Proof. reflexivity. Qed.

Lemma allDigits_digitChars d : allDigits (digitChars d).
Proof.
  induction d; unfold digitChars; cbn [NilEmpty.string_of_uint];
    [constructor | rewrite digitChars_cons; by constructor ..].
Qed.

Ltac digit_step IH k :=
  unfold digitChars; cbn [NilEmpty.string_of_uint Pos.of_uint_acc];
  rewrite digitChars_cons;
  rewrite (valFrom_cons _ _ _ k) by reflexivity;
  match goal with
  | |- valFrom ?z _ = Zpos (Pos.of_uint_acc _ ?q) =>
      replace z with (Zpos q) by lia
  end;
  apply IH.

Lemma valFrom_digitChars d : ∀ acc,
  valFrom (Zpos acc) (digitChars d) = Zpos (Pos.of_uint_acc d acc).
Proof.
  induction d as [|d IH|d IH|d IH|d IH|d IH|d IH|d IH|d IH|d IH|d IH];
    intros acc.
  - reflexivity.
  - digit_step IH 0.
  - digit_step IH 1.
  - digit_step IH 2.
  - digit_step IH 3.
  - digit_step IH 4.
  - digit_step IH 5.
  - digit_step IH 6.
  - digit_step IH 7.
  - digit_step IH 8.
  - digit_step IH 9.
Qed.

Lemma nzhead_not_D0 l l' : nzhead l ≠ D0 l'.
Proof. induction l; cbn; try discriminate; done. Qed.

Lemma to_uint_leading p l : Pos.to_uint p ≠ D0 l.
Proof.
  intros E.
  pose proof (DecimalPos.Unsigned.to_of (Pos.to_uint p)) as H.
  rewrite DecimalPos.Unsigned.of_to in H. cbn [N.to_uint] in H.
  rewrite E, unorm_D0 in H. unfold unorm in H.
  destruct (nzhead l) eqn:Hn; try discriminate.
  - injection H as ->. by apply (DecimalPos.Unsigned.to_uint_nonzero p).
  - by apply nzhead_not_D0 in Hn.
Qed.

Lemma numberToString_positive p :
  numberToString (Zpos p) = digitChars (Pos.to_uint p).
Proof.
  unfold numberToString, digitChars. cbn.
  destruct (Pos.to_uint p) eqn:E;
    [by apply DecimalPos.Unsigned.to_uint_nonnil in E | ..]; reflexivity.
Qed.

Ltac leading_digit Hp k :=
  cbn in Hp; injection Hp as <-;
  unfold digitChars; cbn [NilEmpty.string_of_uint];
  rewrite digitChars_cons;
  eexists _, _, k; split; [reflexivity|];
  split; [reflexivity|]; split; [lia|];
  split; [apply allDigits_digitChars|];
  apply valFrom_digitChars.

(** The digits of a positive integer: the first is not 0. *)
Lemma digits_positive p :
  ∃ c tl d, numberToString (Zpos p) = c :: tl
    ∧ digitValue c = Some d ∧ 1 ≤ d ≤ 9
    ∧ allDigits tl ∧ valFrom d tl = Zpos p.
Proof.
  rewrite numberToString_positive.
  pose proof (DecimalPos.Unsigned.of_to p) as Hp.
  destruct (Pos.to_uint p) as [|d|d|d|d|d|d|d|d|d|d] eqn:E.
  - by apply DecimalPos.Unsigned.to_uint_nonnil in E.
  - by apply to_uint_leading in E.
  - leading_digit Hp 1.
  - leading_digit Hp 2.
  - leading_digit Hp 3.
  - leading_digit Hp 4.
  - leading_digit Hp 5.
  - leading_digit Hp 6.
  - leading_digit Hp 7.
  - leading_digit Hp 8.
  - leading_digit Hp 9.
Qed.

(** What stands behind a number: no digit, no point and no exponent. *)
Definition stops (rest : text) : Prop :=
  match rest with
  | [] => True
  | c :: _ =>
      digitValue c = None ∧ ascii_eqb c "."%char = false
      ∧ ascii_eqb c "e"%char = false ∧ ascii_eqb c "E"%char = false
  end.

Lemma follows_stops rest : follows rest → stops rest.
Proof. destruct rest as [|c rest]; [done|]. by intros [-> | ->]. Qed.

Lemma stops_noDigit rest : stops rest → noDigit rest.
Proof. destruct rest as [|c rest]; [done|]. by intros [? _]. Qed.

Lemma parseInt_digits c d ds rest :
  digitValue c = Some d → 1 ≤ d → allDigits ds → noDigit rest →
  parseInt (c :: ds ++ rest) = Some (valFrom d ds, rest).
Proof.
  intros Hc Hd Hds Hrest. unfold parseInt. rewrite Hc.
  rewrite scanDigits_app by done. destruct d; try lia. done.
Qed.

Lemma parseInt_digit c d rest :
  digitValue c = Some d → 1 ≤ d → noDigit rest →
  parseInt (c :: rest) = Some (d, rest).
Proof.
  intros Hc Hd Hrest.
  apply (parseInt_digits c d [] rest); [done | done | constructor | done].
Qed.

Lemma parseFrac_none v rest :
  stops rest → parseFrac v rest = Some (v, 0, rest).
Proof.
  destruct rest as [|c rest]; [done|]. intros (_ & H & _). cbn. by rewrite H.
Qed.

Lemma parseFrac_exponent v rest :
  parseFrac v ("e"%char :: rest) = Some (v, 0, "e"%char :: rest).
Proof. reflexivity. Qed.

Lemma parseFrac_digits v ds rest :
  ds ≠ [] → allDigits ds → noDigit rest →
  parseFrac v ("."%char :: ds ++ rest) = Some (valFrom v ds, len ds, rest).
Proof.
  intros Hne Hds Hrest. unfold parseFrac.
  change (ascii_eqb "." ".") with true. cbv iota.
  destruct ds as [|x xs]; [done|]. cbn [app].
  inversion Hds as [|? ? Hx _]; subst. rewrite Hx.
  change (x :: xs ++ rest) with ((x :: xs) ++ rest).
  by rewrite scanDigits_app.
Qed.

Lemma parseExp_none rest : stops rest → parseExp rest = Some (0, rest).
Proof.
  destruct rest as [|c rest]; [done|]. intros (_ & _ & H1 & H2). cbn.
  by rewrite H1, H2.
Qed.

Lemma parseExp_digits (neg : bool) ds rest :
  ds ≠ [] → allDigits ds → noDigit rest →
  parseExp ("e"%char :: (if neg then lit "-" else lit "+") ++ ds ++ rest)
  = Some (if neg then - valFrom 0 ds else valFrom 0 ds, rest).
Proof.
  intros Hne Hds Hrest.
  destruct ds as [|x xs]; [done|].
  inversion Hds as [|? ? Hx _]; subst.
  pose proof (scanDigits_app (x :: xs) rest 0 0 Hds Hrest) as Hscan.
  destruct neg; cbn [lit list_ascii_of_string app parseExp] in *;
    change (ascii_eqb "e" "e") with true; cbn [orb];
    [ change (ascii_eqb "-" "-") with true
    | change (ascii_eqb "+" "-") with false;
      change (ascii_eqb "+" "+") with true ];
    cbv iota; rewrite Hx, Hscan; reflexivity.
Qed.

(** The parts of a number literal behind its sign. *)
Definition magnitude (s : text) : option (Z * Z * text) :=
  match parseInt s with
  | Some (i, s1) =>
      match parseFrac i s1 with
      | Some (v, cnt, s2) =>
          match parseExp s2 with
          | Some (x, s3) => Some (v, x - cnt, s3)
          | None => None
          end
      | None => None
      end
  | None => None
  end.

Lemma digit_not_minus c d : digitValue c = Some d → ascii_eqb c "-"%char = false.
Proof. destruct c as [[] [] [] [] [] [] [] []]; try discriminate; reflexivity. Qed.

Lemma parseNumber_magnitude (neg : bool) (s : text) v e rest :
  magnitude s = Some (v, e, rest) →
  parseNumber ((if neg then lit "-" else []) ++ s)
  = Some (Double.ofDecimal neg v e, rest).
Proof.
  intros Hm. unfold magnitude in Hm.
  assert (E : parseNumber ((if neg then lit "-" else []) ++ s)
              = match parseInt s with
                | Some (i, s1) =>
                    match parseFrac i s1 with
                    | Some (v, cnt, s2) =>
                        match parseExp s2 with
                        | Some (x, s3) => Some (Double.ofDecimal neg v (x - cnt), s3)
                        | None => None
                        end
                    | None => None
                    end
                | None => None
                end).
  { destruct neg; [reflexivity|]. cbn [app]. unfold parseNumber.
    destruct s as [|c s]; [done|].
    destruct (digitValue c) as [d|] eqn:Hc; [|by cbn in Hm; rewrite Hc in Hm].
    by rewrite (digit_not_minus c d Hc). }
  rewrite E. destruct (parseInt s) as [[i s1]|]; [|done].
  destruct (parseFrac i s1) as [[[v' cnt] s2]|]; [|done].
  destruct (parseExp s2) as [[x s3]|]; [|done].
  by injection Hm as <- <- <-.
Qed.

(** The exponent part that Number::toString writes. *)
Lemma parseExp_written e rest :
  e ≠ 0 → stops rest →
  parseExp ("e"%char :: (if e <? 0 then lit "-" else lit "+")
                        ++ numberToString (Z.abs e) ++ rest)
  = Some (e, rest).
Proof.
  intros He Hrest.
  destruct (Z.abs e) as [|p|p] eqn:Ha; try lia.
  destruct (digits_positive p) as (c & tl & d & E & Hc & Hd & Htl & Hv).
  rewrite E.
  rewrite (parseExp_digits (e <? 0) (c :: tl) rest);
    [| done | constructor; [unfold isDigit; by rewrite Hc | done]
     | by apply stops_noDigit].
  rewrite (valFrom_cons _ _ _ d Hc), Z.mul_0_r, Z.add_0_l, Hv.
  f_equal. f_equal. destruct (Z.ltb_spec e 0); lia.
Qed.

Lemma magnitude_formatDigits p n rest :
  stops rest →
  ∃ v e, magnitude (formatDigits (Zpos p) n ++ rest) = Some (v, e, rest)
    ∧ ∃ j, 0 ≤ j ∧ v = Zpos p * 10 ^ j
         ∧ e + j = n - len (numberToString (Zpos p)).
Proof.
  intros Hrest. pose proof (stops_noDigit rest Hrest) as Hnd.
  destruct (digits_positive p) as (c & tl & d & E & Hc & Hd & Htl & Hv).
  assert (Hcd : isDigit c = true) by (unfold isDigit; by rewrite Hc).
  unfold formatDigits, magnitude. rewrite E. cbv zeta.
  set (k := len (c :: tl)).
  assert (Hk : k = 1 + len tl) by (unfold k, len; cbn [length]; lia).
  assert (Hlen : 0 ≤ len tl) by (unfold len; lia).
  destruct ((k <=? n) && (n <=? 21)) eqn:C1.
  { apply andb_true_iff in C1 as [C1 _]. apply Z.leb_le in C1.
    exists (Zpos p * 10 ^ (n - k)), 0.
    split; [|exists (n - k); split; [lia | split; [done | lia]]].
    cbn [app]. rewrite <- app_assoc, app_assoc.
    rewrite (parseInt_digits c d (tl ++ zeros (n - k)) rest Hc);
      [| lia | apply Forall_app; split; [done | apply allDigits_zeros] | done].
    rewrite parseFrac_none, parseExp_none by done.
    rewrite valFrom_app, valFrom_zeros, Hv by lia. done. }
  destruct ((0 <? n) && (n <=? 21)) eqn:C2.
  { apply andb_true_iff in C2 as [C2 C2']. apply Z.ltb_lt in C2.
    apply Z.leb_le in C2'.
    assert (Hnk : n < k).
    { apply andb_false_iff in C1 as [C1|C1]; [apply Z.leb_gt in C1 | apply Z.leb_gt in C1]; lia. }
    exists (Zpos p), (n - k). split; [|exists 0; split; [lia | split; lia]].
    assert (Hn : Z.to_nat n = S (Z.to_nat (n - 1))) by lia. rewrite Hn.
    cbn [take drop app]. rewrite <- !app_assoc.
    assert (Hdrop : drop (Z.to_nat (n - 1)) tl ≠ []).
    { intros Hd0. apply (f_equal length) in Hd0. rewrite length_drop in Hd0.
      unfold len in *. cbn [length] in Hd0. lia. }
    rewrite (parseInt_digits c d (take (Z.to_nat (n - 1)) tl) _ Hc);
      [| lia | by apply Forall_take | done].
    cbn [lit list_ascii_of_string app].
    rewrite parseFrac_digits; [| done | by apply Forall_drop | done].
    rewrite parseExp_none by done.
    rewrite <- valFrom_app, take_drop, Hv. do 3 f_equal.
    unfold len in *. rewrite length_drop. lia. }
  destruct ((-6 <? n) && (n <=? 0)) eqn:C3.
  { apply andb_true_iff in C3 as [C3 C3']. apply Z.ltb_lt in C3.
    apply Z.leb_le in C3'.
    exists (Zpos p), (n - k). split; [|exists 0; split; [lia | split; lia]].
    cbn [lit list_ascii_of_string app]. rewrite <- !app_assoc.
    change (parseInt ("0"%char :: ?t)) with (Some (0, t)). cbv iota beta.
    rewrite app_assoc.
    rewrite parseFrac_digits;
      [| by destruct (zeros (- n))
       | apply Forall_app; split; [apply allDigits_zeros | by constructor]
       | done].
    rewrite parseExp_none by done.
    rewrite valFrom_app, valFrom_zeros by lia.
    rewrite (valFrom_cons _ _ _ d Hc), Z.mul_0_l, Z.mul_0_r, Z.add_0_l, Hv.
    do 3 f_equal. unfold len. rewrite length_app.
    pose proof (len_zeros (- n) ltac:(lia)) as Hz. unfold len in Hz.
    subst k. unfold len in *. lia. }
  assert (He : n - 1 ≠ 0).
  { apply andb_false_iff in C2, C3.
    destruct C2 as [C2|C2]; [apply Z.ltb_ge in C2 | apply Z.leb_gt in C2];
      destruct C3 as [C3|C3]; [apply Z.ltb_ge in C3 | apply Z.leb_gt in C3
                              | apply Z.ltb_ge in C3 | apply Z.leb_gt in C3]; lia. }
  exists (Zpos p), (n - k). split; [|exists 0; split; [lia | split; lia]].
  destruct (k =? 1) eqn:K1.
  - apply Z.eqb_eq in K1. assert (tl = []) as ->.
    { destruct tl; [done|]. unfold len in *. cbn [length] in *. lia. }
    rewrite <- !app_assoc.
    change ([c] ++ ?t) with (c :: t). change (lit "e" ++ ?t) with ("e"%char :: t).
    rewrite (parseInt_digit c d _ Hc); [| lia | done].
    rewrite parseFrac_exponent, parseExp_written by done.
    cbn in Hv. rewrite <- Hv. do 3 f_equal. lia.
  - apply Z.eqb_neq in K1.
    assert (Htl0 : tl ≠ []).
    { intros ->. unfold len in *. cbn [length] in *. lia. }
    change (take 1 (c :: tl)) with [c]. change (drop 1 (c :: tl)) with tl.
    rewrite <- !app_assoc.
    change ([c] ++ ?t) with (c :: t). change (lit "e" ++ ?t) with ("e"%char :: t).
    change (lit "." ++ ?t) with ("."%char :: t).
    rewrite (parseInt_digit c d _ Hc); [| lia | done].
    rewrite parseFrac_digits; [| done | done | done].
    rewrite parseExp_written by done.
    rewrite Hv. do 3 f_equal. lia.
Qed.

Lemma formatDigits_start p n :
  ∃ c tail, formatDigits (Zpos p) n = c :: tail ∧ isDigit c = true.
Proof.
  destruct (magnitude_formatDigits p n [] I) as (v & e & Hm & _).
  rewrite app_nil_r in Hm. unfold magnitude, parseInt in Hm.
  destruct (formatDigits (Z.pos p) n) as [|c tail]; [done|].
  exists c, tail. split; [done|]. unfold isDigit. by destruct (digitValue c).
Qed.

Definition numberStart (c : ascii) : bool := ascii_eqb c "-"%char || isDigit c.

Lemma numberText_finite neg m e :
  Double.valid (S754_finite neg m e) = true →
  ∃ p d, numberText (S754_finite neg m e)
         = (if neg then lit "-" else [])
           ++ formatDigits (Zpos p) (d + len (numberToString (Zpos p)))
    ∧ Zpos p mod 10 ≠ 0
    ∧ Double.ofDecimal neg (Zpos p) d = S754_finite neg m e.
Proof.
  intros Hv. destruct (Double.shortest_total neg m e Hv) as [[s d] Hs].
  destruct (Double.shortest_sound neg m e s d Hs) as (Hpos & Hmod & Hread).
  destruct s as [|p|p]; try lia. exists p, d.
  unfold numberText. by rewrite Hs.
Qed.

(** A number that JSON keeps is read back from its text. *)
Lemma parseNumber_numberText x rest :
  jsonNumber x → follows rest →
  parseNumber (numberText x ++ rest) = Some (x, rest).
Proof.
  intros (Hv & Hf & Hz) Hrest%follows_stops.
  destruct x as [[]| | |neg m e]; try done.
  - apply (parseNumber_magnitude false (lit "0" ++ rest) 0 0 rest).
    unfold magnitude. cbn [lit list_ascii_of_string app].
    change (parseInt ("0"%char :: rest)) with (Some (0, rest)). cbv iota beta.
    by rewrite parseFrac_none, parseExp_none.
  - destruct (numberText_finite neg m e Hv) as (p & d & -> & Hmod & Hread).
    destruct (magnitude_formatDigits p (d + len (numberToString (Zpos p))) rest Hrest)
      as (v & e' & Hm & j & Hj & -> & He').
    rewrite <- app_assoc, (parseNumber_magnitude neg _ _ _ _ Hm).
    f_equal. f_equal. rewrite <- Hread. apply Double.ofDecimal_normalise.
    rewrite Double.normalise_shift, Double.normalise_fixed by (done || lia).
    f_equal. lia.
Qed.

Lemma numberText_start x :
  jsonNumber x → ∃ c tail, numberText x = c :: tail ∧ numberStart c = true.
Proof.
  intros (Hv & Hf & Hz). destruct x as [[]| | |neg m e]; try done.
  - by eexists _, _.
  - destruct (numberText_finite neg m e Hv) as (p & d & -> & _).
    destruct (formatDigits_start p (d + len (numberToString (Zpos p))))
      as (c & tail & -> & Hc).
    destruct neg; [by eexists _, _|]. exists c, tail. split; [done|].
    unfold numberStart. by rewrite Hc, orb_true_r.
Qed.

(** The first character of any number as it is written. *)
Lemma numberText_nonempty x :
  ∃ c tail, numberText x = c :: tail
    ∧ isWhitespace c = false ∧ ascii_eqb c "]"%char = false.
Proof.
  destruct x as [sz|si| |neg m e]; try (by eexists _, _).
  unfold numberText. destruct (Double.shortest _) as [[s d]|] eqn:Hs;
    [|by eexists _, _].
  destruct neg; [by eexists _, _|].
  destruct (Double.shortest_sound _ _ _ _ _ Hs) as (Hpos & _).
  destruct s as [|p|p]; try lia.
  destruct (formatDigits_start p (d + len (numberToString (Zpos p))))
    as (c & tail & -> & Hc).
  exists c, tail. split; [done|].
  destruct c as [[] [] [] [] [] [] [] []]; try discriminate; done.
Qed.

Example numberText_samples :
  map (λ '(s, e), numberText (Double.ofDecimal false s e))
    [(1, -1); (12300000000745058, -15); (1, 21); (123456789012345678, 3);
     (1, -6); (1, -7); (15, -8); (5, -324); (9007199254740993, 0)]
  = map lit ["0.1"; "12.300000000745058"; "1e+21"; "123456789012345680000";
             "0.000001"; "1e-7"; "1.5e-7"; "5e-324"; "9007199254740992"]%string
  ∧ map numberText [Double.ofZ (-42); S754_zero true; S754_nan; S754_infinity false]
    = map lit ["-42"; "0"; "null"; "null"]%string.
Proof. split; vm_compute; reflexivity. Qed.

(** The parser dispatches on the first character: a digit or a minus sign
    starts a number. *)
Lemma parseValue_number_dispatch fuel c s :
  numberStart c = true →
  parseValue (S fuel) (c :: s)
  = match parseNumber (c :: s) with
    | Some (z, rest') => Some (JNum z, rest')
    | None => None
    end.
Proof.
  destruct c as [[] [] [] [] [] [] [] []]; try discriminate; intros _; reflexivity.
Qed.

(** *** Values *)

Lemma parseValue_blank fuel ws s :
  blank ws → parseValue fuel (ws ++ s) = parseValue fuel s.
Proof.
  intros Hws. destruct fuel; [done|]. cbn [parseValue].
  by rewrite skipWhitespace_blank.
Qed.

Lemma parseValue_string_dispatch fuel t :
  parseValue (S fuel) (dquote :: t)
  = match parseString t [] with
    | Some (str, rest') => Some (JStr str, rest')
    | None => None
    end.
Proof. reflexivity. Qed.

Lemma parseValue_array_dispatch fuel ws c t :
  blank ws → isWhitespace c = false → ascii_eqb c "]"%char = false →
  parseValue (S fuel) ("["%char :: ws ++ c :: t) = parseElements fuel (ws ++ c :: t) [].
Proof.
  intros Hws Hc Hc'.
  change (parseValue (S fuel) ("["%char :: ws ++ c :: t))
    with (match skipWhitespace (ws ++ c :: t) with
          | d :: rest' =>
              if ascii_eqb d "]"%char then Some (JArr [], rest')
              else parseElements fuel (ws ++ c :: t) []
          | [] => None
          end).
  by rewrite skipWhitespace_blank, skipWhitespace_stop, Hc'.
Qed.

Lemma parseValue_object_dispatch fuel ws t :
  blank ws →
  parseValue (S fuel) ("{"%char :: ws ++ dquote :: t)
  = parseMembers fuel (ws ++ dquote :: t) [].
Proof.
  intros Hws.
  change (parseValue (S fuel) ("{"%char :: ws ++ dquote :: t))
    with (match skipWhitespace (ws ++ dquote :: t) with
          | d :: rest' =>
              if ascii_eqb d "}"%char then Some (JObj [], rest')
              else parseMembers fuel (ws ++ dquote :: t) []
          | [] => None
          end).
  by rewrite skipWhitespace_blank, skipWhitespace_stop.
Qed.

(** The first character of a serialized value. *)
Definition valueStart (c : ascii) : Prop :=
  isWhitespace c = false ∧ ascii_eqb c "]"%char = false.

Lemma serialize_start indent v :
  ∃ c tail, serialize indent v = c :: tail ∧ valueStart c.
Proof.
  destruct v as [|[]|z|str|[|x l]|[|kv l]]; try (by eexists _, _).
  destruct (numberText_nonempty z) as (c & tail & E & Hc).
  by exists c, tail.
Qed.

Lemma join_cons sep x y l : join sep (x :: y :: l) = x ++ sep ++ join sep (y :: l).
Proof. reflexivity. Qed.

(** Reading back what [serialize] wrote, for one value. *)
Definition roundtrips (v : value) : Prop :=
  wellFormed v → ∀ fuel indent ws rest,
    (size v ≤ fuel)%nat → blank indent → blank ws → follows rest →
    parseValue fuel (ws ++ serialize indent v ++ rest) = Some (v, rest).

Definition esize (items : list value) : nat :=
  list_sum (map (λ x, S (size x)) items).

Definition fsize (fields : list (text * value)) : nat :=
  list_sum (map (λ kv : text * value, S (size kv.2)) fields).

Lemma esize_cons v vs : esize (v :: vs) = (S (size v) + esize vs)%nat.
Proof. reflexivity. Qed.

Lemma fsize_cons kv fs : fsize (kv :: fs) = (S (size kv.2) + fsize fs)%nat.
Proof. reflexivity. Qed.

Lemma blank_nl_indent indent : blank indent → blank (nl :: indent).
Proof. intros H. by constructor. Qed.

Lemma blank_deeper indent : blank indent → blank (indent ++ lit "  ").
Proof. intros H. apply Forall_app. split; [done|]. by repeat constructor. Qed.

Lemma parseElements_items indent' stepback rest :
  blank indent' → blank stepback →
  ∀ items, items ≠ [] → Forall roundtrips items → Forall wellFormed items →
  ∀ fuel acc, (esize items ≤ fuel)%nat →
    parseElements fuel
      ((nl :: indent')
       ++ join (lit "," ++ [nl] ++ indent') (map (serialize indent') items)
       ++ (nl :: stepback) ++ "]"%char :: rest) acc
    = Some (JArr (acc ++ items), rest).
Proof.
  intros Hi Hs. induction items as [|v vs IH]; intros Hne Hrt Hwf fuel acc Hfuel;
    [done|].
  inversion Hrt as [|? ? Hv Hvs]; subst. inversion Hwf as [|? ? Wv Wvs]; subst.
  rewrite esize_cons in Hfuel.
  destruct fuel as [|f]; [lia|]. cbn [parseElements].
  destruct vs as [|v2 vs].
  - cbn [map join]. rewrite (Hv Wv f indent' (nl :: indent')); [| lia | done | by apply blank_nl_indent | by right].
    rewrite skipWhitespace_blank by (by apply blank_nl_indent).
    reflexivity.
  - cbn [map]. rewrite join_cons. rewrite <- !app_assoc.
    rewrite (Hv Wv f indent' (nl :: indent'));
      [| lia | done | by apply blank_nl_indent | by left].
    cbn [lit list_ascii_of_string app skipWhitespace].
    change (isWhitespace ",") with false. cbv beta iota.
    change (ascii_eqb "," ",") with true. cbv beta iota.
    specialize (IH ltac:(done) Hvs Wvs f (acc ++ [v])).
    cbn [map] in IH. rewrite esize_cons in IH, Hfuel.
    rewrite <- !app_assoc in IH. cbn [app] in IH |- *.
    apply IH. lia.
Qed.

Lemma ordered_app l1 l2 :
  ordered (l1 ++ l2) = true
  → ordered l1 = true ∧ ∀ k1 k2, k1 ∈ l1 → k2 ∈ l2 → before k1 k2 = true.
Proof.
  induction l1 as [|k l1 IH]; cbn [app ordered].
  - intros _. split; [done|]. intros k1 k2 H. by apply elem_of_nil in H.
  - intros [Hk Hl]%andb_true_iff. rewrite forallb_app in Hk.
    apply andb_true_iff in Hk as [Hk1 Hk2]. destruct (IH Hl) as [IH1 IH2].
    split; [by rewrite Hk1, IH1|].
    intros k1 k2 [->|H1]%elem_of_cons H2; [|by apply IH2].
    rewrite forallb_forall in Hk2. by apply Hk2, list_elem_of_In.
Qed.

(** A new key that comes last in the order of properties is put last. *)
Lemma insertField_last k v acc :
  (∀ k', k' ∈ map fst acc → before k' k = true) →
  insertField k v acc = acc ++ [(k, v)].
Proof.
  induction acc as [|[k' v'] acc IH]; intros Hk; [done|]. cbn [insertField app].
  rewrite (Hk k') by apply list_elem_of_here.
  rewrite IH; [done|]. intros k'' Hin. apply Hk. by apply list_elem_of_further.
Qed.

Lemma setField_fresh k v acc :
  k ∉ map fst acc → ordered (map fst acc ++ [k]) = true →
  setField k v acc = acc ++ [(k, v)].
Proof.
  intros Hk Hord. unfold setField. rewrite bool_decide_eq_false_2 by done.
  apply insertField_last. intros k' Hin.
  apply ordered_app in Hord as [_ Hord]. apply Hord; [done|].
  apply list_elem_of_here.
Qed.

Lemma parseMembers_fields indent' stepback rest :
  blank indent' → blank stepback →
  ∀ fields, fields ≠ [] →
    Forall (λ kv, roundtrips kv.2) fields → Forall (λ kv, wellFormed kv.2) fields →
  ∀ fuel acc, (fsize fields ≤ fuel)%nat →
    NoDup (map fst acc ++ map fst fields) →
    ordered (map fst acc ++ map fst fields) = true →
    parseMembers fuel
      ((nl :: indent')
       ++ join (lit "," ++ [nl] ++ indent')
            (map (λ kv : text * value,
                    quote kv.1 ++ lit ": " ++ serialize indent' kv.2) fields)
       ++ (nl :: stepback) ++ "}"%char :: rest) acc
    = Some (JObj (acc ++ fields), rest).
Proof.
  intros Hi Hs. induction fields as [|[k v] fs IH];
    intros Hne Hrt Hwf fuel acc Hfuel Hdup Hord; [done|].
  inversion Hrt as [|? ? Hv Hvs]; subst. inversion Hwf as [|? ? Wv Wvs]; subst.
  cbn [snd fst] in *.
  rewrite fsize_cons in Hfuel. cbn [snd] in Hfuel.
  assert (Hk : k ∉ map fst acc).
  { cbn [map fst] in Hdup. apply NoDup_app in Hdup as (_ & Hd & _).
    intros Hin. apply (Hd k Hin). apply list_elem_of_here. }
  assert (Hlast : ordered (map fst acc ++ [k]) = true).
  { cbn [map fst] in Hord.
    change (k :: map fst fs) with ([k] ++ map fst fs) in Hord.
    rewrite app_assoc in Hord. by apply ordered_app in Hord as [Hord _]. }
  destruct fuel as [|f]; [lia|]. cbn [parseMembers].
  rewrite skipWhitespace_blank by (by apply blank_nl_indent).
  destruct fs as [|kv2 fs].
  - cbn [map join fst snd]. unfold quote at 1.
    rewrite <- !app_assoc. cbn [app]. rewrite skipWhitespace_stop by done.
    change (ascii_eqb dquote dquote) with true. cbv beta iota.
    rewrite parseString_body. cbn [app lit list_ascii_of_string skipWhitespace].
    change (isWhitespace ":") with false. cbv beta iota.
    change (ascii_eqb ":" ":") with true. cbv beta iota.
    match goal with
    | |- context [parseValue f (" "%char :: serialize indent' v ++ ?t)] =>
        let H := fresh in
        assert (H : parseValue f (" "%char :: serialize indent' v ++ t) = Some (v, t));
        [ apply (Hv Wv f indent' [" "%char] t);
          [lia | done | by repeat constructor | first [by left | by right]]
        | rewrite H; clear H ]
    end.
    change (nl :: stepback ++ "}"%char :: rest)
      with ((nl :: stepback) ++ "}"%char :: rest).
    rewrite skipWhitespace_blank by (by apply blank_nl_indent).
    cbn [skipWhitespace]. change (isWhitespace "}") with false. cbv beta iota.
    change (ascii_eqb "}" ",") with false. change (ascii_eqb "}" "}") with true.
    cbv beta iota. by rewrite setField_fresh.
  - cbn [map fst snd]. rewrite join_cons. unfold quote at 1.
    rewrite <- !app_assoc. cbn [app]. rewrite skipWhitespace_stop by done.
    change (ascii_eqb dquote dquote) with true. cbv beta iota.
    rewrite parseString_body. cbn [app lit list_ascii_of_string skipWhitespace].
    change (isWhitespace ":") with false. cbv beta iota.
    change (ascii_eqb ":" ":") with true. cbv beta iota.
    match goal with
    | |- context [parseValue f (" "%char :: serialize indent' v ++ ?t)] =>
        let H := fresh in
        assert (H : parseValue f (" "%char :: serialize indent' v ++ t) = Some (v, t));
        [ apply (Hv Wv f indent' [" "%char] t);
          [lia | done | by repeat constructor | first [by left | by right]]
        | rewrite H; clear H ]
    end.
    cbn [skipWhitespace]. change (isWhitespace ",") with false. cbv beta iota.
    change (ascii_eqb "," ",") with true. cbv beta iota.
    rewrite setField_fresh by done.
    specialize (IH ltac:(done) Hvs Wvs f (acc ++ [(k, v)])).
    rewrite fsize_cons in IH, Hfuel.
    rewrite <- !app_assoc in IH. cbn [app] in IH |- *.
    apply IH; [lia | |].
    + rewrite map_app. cbn [map fst]. rewrite <- app_assoc. exact Hdup.
    + rewrite map_app. cbn [map fst]. rewrite <- app_assoc. exact Hord.
Qed.

Lemma wellFormed_items items :
  foldr (λ x acc, wellFormed x ∧ acc) True items → Forall wellFormed items.
Proof. induction items as [|x l IH]; [done|]. intros [H1 H2]. constructor; auto. Qed.

Lemma wellFormed_fields (fields : list (text * value)) :
  foldr (λ kv acc, wellFormed kv.2 ∧ acc) True fields →
  Forall (λ kv, wellFormed kv.2) fields.
Proof. induction fields as [|x l IH]; [done|]. intros [H1 H2]. constructor; auto. Qed.

Lemma serialize_array indent x l rest :
  serialize indent (JArr (x :: l)) ++ rest
  = "["%char :: (nl :: indent ++ lit "  ")
      ++ join (lit "," ++ [nl] ++ indent ++ lit "  ")
           (map (serialize (indent ++ lit "  ")) (x :: l))
      ++ (nl :: indent) ++ "]"%char :: rest.
Proof.
  cbn [serialize]. rewrite <- !app_assoc. cbn [app]. rewrite <- !app_assoc.
  reflexivity.
Qed.

Lemma serialize_object indent kv l rest :
  serialize indent (JObj (kv :: l)) ++ rest
  = "{"%char :: (nl :: indent ++ lit "  ")
      ++ join (lit "," ++ [nl] ++ indent ++ lit "  ")
           (map (λ kv : text * value,
                   quote kv.1 ++ lit ": " ++ serialize (indent ++ lit "  ") kv.2)
              (kv :: l))
      ++ (nl :: indent) ++ "}"%char :: rest.
Proof.
  cbn [serialize]. rewrite <- !app_assoc. cbn [app]. rewrite <- !app_assoc.
  reflexivity.
Qed.

(** [JSON.parse] reads back what [JSON.stringify] wrote. *)
Lemma parseValue_serialize v : roundtrips v.
Proof.
  induction v as [|b|z|str|items IH|fields IH] using value_induction;
    intros Hwf fuel indent ws rest Hfuel Hindent Hws Hrest;
    rewrite parseValue_blank by done;
    (destruct fuel as [|f]; [cbn in Hfuel; lia|]).
  - reflexivity.
  - by destruct b.
  - cbn [serialize].
    pose proof (parseNumber_numberText z rest Hwf Hrest) as Hp.
    destruct (numberText_start z Hwf) as (c & tail & E & Hc). rewrite E in *.
    cbn [app] in *. by rewrite parseValue_number_dispatch, Hp.
  - cbn [serialize]. unfold quote. rewrite <- !app_assoc. cbn [app].
    by rewrite parseValue_string_dispatch, parseString_body.
  - destruct items as [|x l]; [reflexivity|].
    rewrite serialize_array.
    destruct (serialize_start (indent ++ lit "  ") x) as (c & tail & E & Hc1 & Hc2).
    assert (Hsplit : ∃ t,
      (nl :: indent ++ lit "  ")
      ++ join (lit "," ++ [nl] ++ indent ++ lit "  ")
           (map (serialize (indent ++ lit "  ")) (x :: l))
      ++ (nl :: indent) ++ "]"%char :: rest
      = (nl :: indent ++ lit "  ") ++ c :: t).
    { destruct l as [|y l]; cbn [map join]; rewrite E; eexists;
        rewrite <- ?app_assoc; reflexivity. }
    destruct Hsplit as [t Ht].
    rewrite Ht, parseValue_array_dispatch, <- Ht;
      [| by apply blank_nl_indent, blank_deeper | done | done].
    cbn [size] in Hfuel.
    apply parseElements_items;
      [by apply blank_deeper | done | done | done | by apply wellFormed_items |].
    unfold esize. lia.
  - destruct fields as [|kv l]; [reflexivity|].
    rewrite serialize_object.
    assert (Hsplit : ∃ t,
      (nl :: indent ++ lit "  ")
      ++ join (lit "," ++ [nl] ++ indent ++ lit "  ")
           (map (λ kv : text * value,
                   quote kv.1 ++ lit ": " ++ serialize (indent ++ lit "  ") kv.2)
              (kv :: l))
      ++ (nl :: indent) ++ "}"%char :: rest
      = (nl :: indent ++ lit "  ") ++ dquote :: t).
    { destruct l as [|y l]; cbn [map join]; unfold quote at 1; eexists;
        rewrite <- ?app_assoc; reflexivity. }
    destruct Hsplit as [t Ht].
    rewrite Ht, parseValue_object_dispatch, <- Ht
      by (by apply blank_nl_indent, blank_deeper).
    cbn [size] in Hfuel. destruct Hwf as (Hdup & Hord & Hwf).
    apply parseMembers_fields;
      [by apply blank_deeper | done | done | done | by apply wellFormed_fields
      | | done | done].
    unfold fsize. lia.
Qed.

(** The fuel [parse] starts with is enough. *)
Lemma size_le_length v : ∀ indent, (size v ≤ length (serialize indent v))%nat.
Proof.
  induction v as [|b|z|str|items IH|fields IH] using value_induction; intros indent.
  - cbn. lia.
  - destruct b; cbn; lia.
  - cbn [size serialize]. destruct (numberText_nonempty z) as (c & tail & -> & _).
    cbn. lia.
  - cbn [size serialize]. unfold quote. cbn. lia.
  - destruct items as [|x l]; [cbn; lia|].
    pose proof (serialize_array indent (x) l []) as E. rewrite app_nil_r in E.
    rewrite E. cbn [size length]. rewrite !length_app. cbn [length].
    assert (H : ∀ sep ind, (1 ≤ length sep)%nat → ∀ its, Forall (λ v, ∀ indent, (size v ≤ length (serialize indent v))%nat) its →
              (esize its ≤ length (join sep (map (serialize ind) its)) + 1)%nat).
    { intros sep ind Hsep. induction its as [|y its IHits]; intros Hall; [cbn; lia|].
      inversion Hall as [|? ? Hy Hits]; subst. rewrite esize_cons.
      destruct its as [|y2 its].
      - cbn [map join]. specialize (Hy ind). unfold esize. cbn. lia.
      - cbn [map]. rewrite join_cons, !length_app.
        specialize (IHits Hits). cbn [map] in IHits. specialize (Hy ind). lia. }
    specialize (H (lit "," ++ [nl] ++ indent ++ lit "  ") (indent ++ lit "  ")
                  ltac:(cbn; lia) (x :: l) IH).
    unfold esize in H. lia.
  - destruct fields as [|kv l]; [cbn; lia|].
    pose proof (serialize_object indent kv l []) as E. rewrite app_nil_r in E.
    rewrite E. cbn [size length]. rewrite !length_app. cbn [length].
    assert (H : ∀ sep ind, (1 ≤ length sep)%nat → ∀ fs,
              Forall (λ kv : text * value, ∀ indent, (size kv.2 ≤ length (serialize indent kv.2))%nat) fs →
              (fsize fs ≤ length (join sep (map (λ kv : text * value,
                   quote kv.1 ++ lit ": " ++ serialize ind kv.2) fs)) + 1)%nat).
    { intros sep ind Hsep. induction fs as [|y fs IHfs]; intros Hall; [cbn; lia|].
      inversion Hall as [|? ? Hy Hfs]; subst. rewrite fsize_cons.
      destruct fs as [|y2 fs].
      - cbn [map join]. specialize (Hy ind). rewrite !length_app.
        unfold fsize. cbn. lia.
      - cbn [map]. rewrite join_cons, !length_app.
        specialize (IHfs Hfs). cbn [map] in IHfs. specialize (Hy ind). lia. }
    specialize (H (lit "," ++ [nl] ++ indent ++ lit "  ") (indent ++ lit "  ")
                  ltac:(cbn; lia) (kv :: l) IH).
    unfold fsize in H. lia.
Qed.

Theorem parse_stringify v :
  wellFormed v → parse ([nl] ++ stringify v ++ [nl]) = Some v.
Proof.
  intros Hwf. unfold parse, stringify.
  rewrite (parseValue_serialize v Hwf _ [] [nl] [nl]).
  - reflexivity.
  - pose proof (size_le_length v []). rewrite !length_app. cbn [length]. lia.
  - constructor.
  - by repeat constructor.
  - by right.
Qed.

End JsonFacts.

(* ===================================================================== *)
(** ** base/TestAgent.ts *)
(* ===================================================================== *)

Module TestAgent.

(** [TestResult.status].  types/actions.ts declares three values; the
    accessibility and performance agents also report ['warning'], and the
    feedback parser has a section for it. *)
Inductive TestStatus := passed | failed | skipped | warning.

#[global] Instance TestStatus_eq_dec : EqDecision TestStatus.
Proof. solve_decision. Defined.

Record TestResult := {
  testName : text;
  status : TestStatus;
  error : option text;
  details : option Json.value;
}.

Record Summary := {
  total : N;
  s_passed : N;
  s_failed : N;
  s_skipped : N;
}.

Record TestReport := {
  agentName : text;
  timestamp : Z;
  duration : Double.number;
  results : list TestResult;
  summary : Summary;
  suggestions : option (list text);
  metadata : option Json.value;
}.

Definition has_status (st : TestStatus) (r : TestResult) : bool :=
  bool_decide (status r = st).

(** [results.filter(r => r.status === st).length] *)
Definition count_status (st : TestStatus) (rs : list TestResult) : N :=
  N.of_nat (length (List.filter (has_status st) rs)).

(** The suggestion the base class derives from one failed result. *)
Definition suggestion_for (failure : TestResult) : list text :=
  match error failure with
  | Some e =>
      if truthy (Some e) then
        if includes e (lit "TypeError") then
          [lit "Fix type error in " ++ testName failure
             ++ lit ": Check variable types and null/undefined values"]
        else if includes e (lit "ReferenceError") then
          [lit "Fix reference error in " ++ testName failure
             ++ lit ": Ensure all variables are properly defined"]
        else if includes e (lit "404") then
          [lit "Fix missing resource in " ++ testName failure
             ++ lit ": Check that all files and endpoints exist"]
        else if includes e (lit "timeout") then
          [lit "Fix timeout in " ++ testName failure
             ++ lit ": Optimize performance or increase timeout threshold"]
        else
          [lit "Fix error in " ++ testName failure ++ lit ": " ++ substring e 0 100]
      else []
  | None => []
  end.

(** [TestAgent.generateSuggestions] *)
Definition generateSuggestions (rs : list TestResult) : list text :=
  concat (map suggestion_for (List.filter (has_status failed) rs)).

(** [TestAgent.createReport].  [name] is [this.name], [now] is [Date.now()],
    and [suggest] is [this.generateSuggestions], which the concrete agents
    override. *)
Definition createReport (name : text) (now : Z)
    (suggest : list TestResult → list text)
    (rs : list TestResult) (dur : Double.number) (meta : option Json.value)
  : TestReport :=
  {| agentName := name;
     timestamp := now;
     duration := dur;
     results := rs;
     summary := {| total := N.of_nat (length rs);
                   s_passed := count_status passed rs;
                   s_failed := count_status failed rs;
                   s_skipped := count_status skipped rs |};
     suggestions := Some (suggest rs);
     metadata := meta |}.

(** The accessibility agent's heading check for a page with [h1Count]
    top-level headings (A11yTestAgent.testHeadingStructure, fetch succeeded). *)
Definition headingResult (h1Count h2Count h3Count : N) : TestResult :=
  let counts :=
    [(lit "h1Count", Json.JNum (Z.of_N h1Count));
     (lit "h2Count", Json.JNum (Z.of_N h2Count));
     (lit "h3Count", Json.JNum (Z.of_N h3Count))] in
  let wcag := [(lit "wcagCriteria", Json.JStr (lit "1.3.1"))] in
  if (h1Count =? 0)%N then
    {| testName := lit "Heading Structure"; status := failed;
       error := Some (lit "No H1 heading found");
       details := Some (Json.JObj (counts ++ wcag)) |}
  else if (1 <? h1Count)%N then
    {| testName := lit "Heading Structure"; status := warning;
       error := Some (lit "Multiple H1 headings found");
       details := Some (Json.JObj (counts ++ wcag)) |}
  else
    {| testName := lit "Heading Structure"; status := passed;
       error := None;
       details := Some (Json.JObj (counts
                          ++ [(lit "message", Json.JStr (lit "Heading structure is valid"))]
                          ++ wcag)) |}.

(** *** The summary of a report *)

Lemma count_status_cons st r rs :
  count_status st (r :: rs)
  = ((if has_status st r then 1 else 0) + count_status st rs)%N.
Proof.
  unfold count_status. simpl. destruct (has_status st r); simpl; lia.
Qed.

Lemma status_partition rs :
  (count_status passed rs + count_status failed rs
   + count_status skipped rs + count_status warning rs)%N
  = N.of_nat (length rs).
Proof.
  induction rs as [|r rs IH]; [reflexivity|].
  rewrite !count_status_cons. cbn [length].
  unfold has_status. destruct (status r); simpl; lia.
Qed.

(** C1 (as amended): for a report built by [createReport] over any list of
    results, [summary.total] is the number of results, [summary.passed],
    [summary.failed] and [summary.skipped] are the exact counts of results
    with that status, and the three counts together with the number of
    ['warning'] results add up to [summary.total]. *)
Theorem createReport_summary name now suggest rs dur meta :
  let s := summary (createReport name now suggest rs dur meta) in
  total s = N.of_nat (length rs)
  ∧ s_passed s = N.of_nat (length (List.filter (λ r, bool_decide (status r = passed)) rs))
  ∧ s_failed s = N.of_nat (length (List.filter (λ r, bool_decide (status r = failed)) rs))
  ∧ s_skipped s = N.of_nat (length (List.filter (λ r, bool_decide (status r = skipped)) rs))
  ∧ (s_passed s + s_failed s + s_skipped s + count_status warning rs)%N = total s.
Proof.
  cbn. repeat split. apply status_partition.
Qed.

(** C1, counterexample: a page with two H1 headings makes the accessibility
    agent report a ['warning'] result; the report over that single result has
    total 1 while passed, failed and skipped are all 0. *)
Lemma createReport_warning_not_counted :
  let s := summary (createReport (lit "A11yTest") 0 generateSuggestions
                      [headingResult 2 0 0] 0 None) in
  total s = 1%N ∧ (s_passed s + s_failed s + s_skipped s)%N ≠ total s.
Proof. vm_compute. split; [reflexivity | discriminate]. Qed.

End TestAgent.

(* ===================================================================== *)
(** ** JavaScript numbers that arise from dividing two counters *)
(* ===================================================================== *)

Module Num.

(** The quotient of two non-negative integers is a rational, [Infinity]
    (n/0 with n > 0) or [NaN] (0/0).  Rounding to a double is not modelled:
    a finite quotient is kept as the exact rational. *)
Inductive num := Fin (q : Q) | Infinity | NaN.

Definition div (a b : N) : num :=
  match b with
  | N0 => if (a =? 0)%N then NaN else Infinity
  | Npos p => Fin (Z.of_N a # p)
  end.

(** [x === 0] *)
Definition is_zero (x : num) : bool :=
  match x with Fin q => Qeq_bool q 0 | _ => false end.

(** [x < c] for a finite constant [c] *)
Definition lt_const (x : num) (c : Q) : bool :=
  match x with Fin q => negb (Qle_bool c q) | _ => false end.

End Num.

(* ===================================================================== *)
(** ** Compilation errors (error-monitor.ts, the data) *)
(* ===================================================================== *)

Module CompilationError.

Inductive ErrorType := syntax | import | typescript | runtime | build.

#[global] Instance ErrorType_eq_dec : EqDecision ErrorType.
Proof. solve_decision. Defined.

Record t := {
  type : ErrorType;
  file : text;
  line : option N;
  column : option N;
  message : text;
  rawError : text;
  suggestion : option text;
  timestamp : Z;
}.

End CompilationError.

(* ===================================================================== *)
(** ** The feedback parsers: severity *)
(* ===================================================================== *)

Module ErrorFeedbackParser.

Import CompilationError.

Inductive Severity := warning | error | critical.

(** [ErrorFeedbackParser.calculateSeverity] *)
Definition calculateSeverity (errors : list CompilationError.t) : Severity :=
  let hasSyntaxError := existsb (λ e, bool_decide (type e = syntax)) errors in
  let hasBuildError := existsb (λ e, bool_decide (type e = build)) errors in
  if hasBuildError || hasSyntaxError then critical
  else if (3 <? length errors)%nat then error
  else warning.

(** The classification in the words of the specification. *)
Definition severity_spec (errors : list CompilationError.t) : Severity :=
  if decide (Exists (λ e, type e = build ∨ type e = syntax) errors) then critical
  else if decide (3 < length errors)%nat then error
  else warning.

End ErrorFeedbackParser.

Module TestFeedbackParser.

Import TestAgent.

Inductive Severity := success | warning | error.

Definition failureRate (report : TestReport) : Num.num :=
  Num.div (s_failed (summary report)) (total (summary report)).

(** [TestFeedbackParser.calculateSeverity] *)
Definition calculateSeverity (report : TestReport) : Severity :=
  let failureRate := failureRate report in
  if Num.is_zero failureRate then success
  else if Num.lt_const failureRate (3 # 10) then warning
  else error.

(** The classification in the words of the specification, on the counters:
    a rate of 0%% is no failure among at least one test, a rate below 30%% is
    [failed / total < 3/10], and everything else (an empty report included,
    whose rate is 0/0) is an error. *)
Definition severity_spec (report : TestReport) : Severity :=
  let f := s_failed (summary report) in
  let t := total (summary report) in
  if bool_decide (t = 0%N) then error
  else if bool_decide (f = 0%N) then success
  else if bool_decide (10 * f < 3 * t)%N then warning
  else error.

(** *** The wire format of a report inside a message *)

Definition TEST_RESULT_TAG_OPEN : text := lit "<boltTestResult".
Definition TEST_RESULT_TAG_CLOSE : text := lit "</boltTestResult>".

Definition statusName (st : TestStatus) : text :=
  match st with
  | passed => lit "passed"
  | failed => lit "failed"
  | skipped => lit "skipped"
  | TestAgent.warning => lit "warning"
  end.

(** An optional property: [undefined] is left out by [JSON.stringify]. *)
Definition optField (k : string) (o : option Json.value) : list (text * Json.value) :=
  match o with
  | Some v => [(lit k, v)]
  | None => []
  end.

(** The report as the JSON tree [JSON.stringify] walks: the properties in
    the order [createReport] and the agents write them. *)
Definition resultToJSON (r : TestResult) : Json.value :=
  Json.JObj ([(lit "testName", Json.JStr (testName r));
              (lit "status", Json.JStr (statusName (status r)))]
             ++ optField "error" (Json.JStr <$> TestAgent.error r)
             ++ optField "details" (details r)).

Definition toJSON (report : TestReport) : Json.value :=
  Json.JObj ([(lit "agentName", Json.JStr (agentName report));
              (lit "timestamp", Json.JNum (timestamp report));
              (lit "duration", Json.JNum (duration report));
              (lit "results", Json.JArr (map resultToJSON (results report)));
              (lit "summary",
               Json.JObj [(lit "total", Json.JNum (Z.of_N (total (summary report))));
                          (lit "passed", Json.JNum (Z.of_N (s_passed (summary report))));
                          (lit "failed", Json.JNum (Z.of_N (s_failed (summary report))));
                          (lit "skipped", Json.JNum (Z.of_N (s_skipped (summary report))))])]
             ++ optField "suggestions"
                  ((λ l, Json.JArr (map Json.JStr l)) <$> suggestions report)
             ++ optField "metadata" (metadata report)).

(** [TestFeedbackParser.formatForMessage] *)
Definition formatForMessage (report : TestReport) : text :=
  TEST_RESULT_TAG_OPEN ++ lit ">" ++ [Json.nl]
  ++ Json.stringify (toJSON report) ++ [Json.nl]
  ++ TEST_RESULT_TAG_CLOSE.

(** [TestFeedbackParser.parseTestResults]; the parsed object is the
    report, [None] is [null]. *)
Definition parseTestResults (message : text) : option Json.value :=
  let startIndex := indexOf message TEST_RESULT_TAG_OPEN in
  let endIndex := indexOf message TEST_RESULT_TAG_CLOSE in
  if (startIndex =? -1) || (endIndex =? -1) then None
  else
    let xmlContent :=
      substring message startIndex (endIndex + len TEST_RESULT_TAG_CLOSE) in
    let contentStart := indexOf xmlContent (lit ">") + 1 in
    let contentEnd := lastIndexOf xmlContent (lit "<") in
    let content := substring xmlContent contentStart contentEnd in
    Json.parse content.

End TestFeedbackParser.

Module Severity.

Import CompilationError TestAgent.





End Severity.

(* ===================================================================== *)
(** ** The feedback parsers: a report through a message and back *)
(* ===================================================================== *)

Module WireFormat.

Import TestAgent.

Abbreviation parseTestResults := TestFeedbackParser.parseTestResults.
Abbreviation formatForMessage := TestFeedbackParser.formatForMessage.
Abbreviation toJSON := TestFeedbackParser.toJSON.

(** A failed check whose error text quotes the closing tag. *)
Definition tagInError : TestResult :=
  {| testName := lit "Page Load";
     status := failed;
     error := Some (lit "Unexpected </boltTestResult> in the page");
     details := None |}.

Definition taggedReport : TestReport :=
  createReport (lit "BrowserTest") 1700000000000 generateSuggestions
    [tagInError] 12 None.

(** 12.300000000745058, a difference of two readings of
    [performance.now()]. *)
Definition elapsed : Double.number :=
  Double.ofDecimal false 12300000000745058 (-15).

Definition plainReport : TestReport :=
  createReport (lit "A11yTest") 1700000000000 generateSuggestions
    [headingResult 0 1 0; headingResult 1 2 3; headingResult 2 0 0] elapsed
    (Some (Json.JObj [(lit "testType", Json.JStr (lit "accessibility"))])).

(** C8, counterexample: the error text of a result contains the closing
    tag; the parser cuts the message at that first occurrence and the
    truncated JSON does not parse. *)
Lemma roundtrip_fails_on_embedded_tag :
  parseTestResults (formatForMessage taggedReport) = None
  ∧ parseTestResults (formatForMessage taggedReport) ≠ Some (toJSON taggedReport).
Proof. split; [vm_compute; reflexivity | vm_compute; discriminate]. Qed.

(** A duration that is not a number is written as [null], and -0 as [0]:
    what is read back is not what was written. *)
Example roundtrip_changes_nan_and_negative_zero :
  let nanReport :=
    createReport (lit "BrowserTest") 1700000000000 generateSuggestions [] S754_nan None in
  let zeroReport :=
    createReport (lit "BrowserTest") 1700000000000 generateSuggestions []
      (S754_zero true) None in
  (∃ v, parseTestResults (formatForMessage nanReport) = Some v ∧ v ≠ toJSON nanReport)
  ∧ (∃ v, parseTestResults (formatForMessage zeroReport) = Some v
          ∧ v ≠ toJSON zeroReport).
Proof. split; eexists; (split; [vm_compute; reflexivity | discriminate]). Qed.

Example roundtrip_plainReport :
  parseTestResults (formatForMessage plainReport) = Some (toJSON plainReport).
Proof. vm_compute. reflexivity. Qed.

(** The parser finds the payload that [formatForMessage] wrapped, provided
    the closing tag does not occur inside it. *)
Lemma parseTestResults_wrapped (J : text) :
  includes J TestFeedbackParser.TEST_RESULT_TAG_CLOSE = false →
  parseTestResults
    (TestFeedbackParser.TEST_RESULT_TAG_OPEN ++ lit ">" ++ [Json.nl]
     ++ J ++ [Json.nl] ++ TestFeedbackParser.TEST_RESULT_TAG_CLOSE)
  = Json.parse ([Json.nl] ++ J ++ [Json.nl]).
Proof.
  intros HJ.
  set (C := TestFeedbackParser.TEST_RESULT_TAG_CLOSE).
  set (P := lit "<boltTestResult>" ++ [Json.nl]).
  set (msg := _ ++ _).
  assert (Hmsg : msg = (P ++ J) ++ Json.nl :: C) by (subst msg P; by rewrite <- app_assoc).
  assert (HJ0 : indexFrom C J 0 = None).
  { unfold includes in HJ. fold C in HJ. by destruct (indexFrom C J 0). }
  assert (HPJ : indexFrom C (P ++ J) 0 = None).
  { assert (indexFrom C (P ++ J) 0 = indexFrom C J 17) as -> by reflexivity.
    by rewrite indexFrom_shift, HJ0. }
  assert (Hnl : Json.nl ∉ C).
  { rewrite list_elem_of_In. cbn. intuition discriminate. }
  assert (Hend : indexOf msg C = Z.of_nat (18 + length J)).
  { unfold indexOf. rewrite Hmsg.
    rewrite (indexFrom_after_sep C (P ++ J) Json.nl 0 Hnl) by done.
    unfold len. rewrite length_app. subst P. cbn [length app lit list_ascii_of_string].
    lia. }
  assert (Hstart : indexOf msg TestFeedbackParser.TEST_RESULT_TAG_OPEN = 0) by reflexivity.
  assert (Hlen : length msg = (35 + length J)%nat).
  { rewrite Hmsg. rewrite !length_app. cbn. lia. }
  unfold TestFeedbackParser.parseTestResults. fold C msg.
  rewrite Hstart, Hend.
  replace ((0 =? -1) || (Z.of_nat (18 + length J) =? -1)) with false
    by (symmetry; apply orb_false_iff; split; [done | apply Z.eqb_neq; lia]).
  cbv zeta.
  assert (Hxml : substring msg 0 (Z.of_nat (18 + length J) + len C) = msg).
  { change 0 with (Z.of_nat 0).
    replace (Z.of_nat (18 + length J) + len C) with (Z.of_nat (35 + length J))
      by (unfold len; cbn; lia).
    rewrite substring_take_drop by lia.
    rewrite drop_0, Nat.sub_0_r, <- Hlen. apply firstn_all. }
  rewrite Hxml.
  assert (Hgt : indexOf msg (lit ">") + 1 = Z.of_nat 16) by reflexivity.
  assert (Hlt : lastIndexOf msg (lit "<") = Z.of_nat (18 + length J)).
  { unfold lastIndexOf. rewrite Hmsg.
    replace ((P ++ J) ++ Json.nl :: C) with ((P ++ J ++ [Json.nl]) ++ C)
      by (by rewrite <- !app_assoc).
    rewrite (lastIndexFrom_app (lit "<") (P ++ J ++ [Json.nl]) C 0
               (0 + len (P ++ J ++ [Json.nl]))) by reflexivity.
    unfold len. rewrite !length_app. cbn. lia. }
  rewrite Hgt, Hlt. rewrite substring_take_drop by lia.
  f_equal. rewrite Hmsg. subst P. cbn [lit list_ascii_of_string app drop].
  replace (18 + length J - 16)%nat with (length (Json.nl :: J ++ [Json.nl]))
    by (cbn; rewrite length_app; cbn; lia).
  replace (Json.nl :: (J ++ Json.nl :: C)) with ((Json.nl :: J ++ [Json.nl]) ++ C)
    by (cbn; by rewrite <- app_assoc).
  by rewrite take_app_length.
Qed.

(** An integer that a double holds exactly. *)
Definition safeInteger (n : Z) : Prop := 0 ≤ n < 2 ^ 53.

(** A report that JSON keeps: the time stamp and the counts are integers
    that a double holds, the duration is a finite double other than -0,
    and the free-form parts are JavaScript values that JSON keeps. *)
Definition wellFormedReport (report : TestReport) : Prop :=
  safeInteger (timestamp report)
  ∧ JsonFacts.jsonNumber (duration report)
  ∧ (safeInteger (Z.of_N (total (summary report)))
     ∧ safeInteger (Z.of_N (s_passed (summary report)))
     ∧ safeInteger (Z.of_N (s_failed (summary report)))
     ∧ safeInteger (Z.of_N (s_skipped (summary report))))
  ∧ Forall (λ r, ∀ d, details r = Some d → JsonFacts.wellFormed d) (results report)
  ∧ (∀ m, metadata report = Some m → JsonFacts.wellFormed m).

Lemma wellFormed_strings (l : list text) :
  foldr (λ x acc, JsonFacts.wellFormed x ∧ acc) True (map Json.JStr l).
Proof. induction l; cbn; auto. Qed.

Lemma wellFormed_integer (n : Z) :
  safeInteger n → JsonFacts.wellFormed (Json.JNum n).
Proof. apply Double.ofZ_safe. Qed.

(** A number at hand is one that JSON keeps. *)
Ltac number_kept := split; [by vm_compute | split; by vm_compute].

(** The keys the code writes are distinct names, none of them an array
    index. *)
Ltac distinct_names :=
  first [ apply (bool_decide_unpack _); by vm_compute | by vm_compute ].

Ltac object_of_names :=
  match goal with
  | |- JsonFacts.wellFormed (Json.JObj ?f) =>
      change (NoDup (map fst f) ∧ JsonFacts.ordered (map fst f) = true
              ∧ foldr (λ kv acc, JsonFacts.wellFormed kv.2 ∧ acc) True f);
      split; [distinct_names | split; [distinct_names | cbn [foldr snd]]]
  end.

(** A JavaScript value at hand is one that JSON keeps. *)
Ltac value_kept :=
  lazymatch goal with
  | |- JsonFacts.wellFormed (Json.JObj _) =>
      object_of_names; repeat (split; [value_kept|]); exact I
  | |- JsonFacts.wellFormed (Json.JArr _) =>
      cbn [JsonFacts.wellFormed foldr]; repeat (split; [value_kept|]); exact I
  | |- JsonFacts.wellFormed (Json.JNum _) => number_kept
  | |- _ => exact I
  end.

Lemma resultToJSON_wellFormed r :
  (∀ d, details r = Some d → JsonFacts.wellFormed d) →
  JsonFacts.wellFormed (TestFeedbackParser.resultToJSON r).
Proof.
  intros Hd. unfold TestFeedbackParser.resultToJSON.
  destruct (TestAgent.error r) as [e|]; destruct (details r) as [d|] eqn:Ed;
    cbn [TestFeedbackParser.optField fmap option_fmap option_map app];
    object_of_names; repeat split; auto.
Qed.

Lemma toJSON_wellFormed report :
  wellFormedReport report → JsonFacts.wellFormed (toJSON report).
Proof.
  intros (Hts & Hdur & (Ht & Hp & Hf & Hk) & Hres & Hmeta).
  unfold TestFeedbackParser.toJSON.
  assert (Hr : JsonFacts.wellFormed
                 (Json.JArr (map TestFeedbackParser.resultToJSON (results report)))).
  { cbn [JsonFacts.wellFormed].
    induction Hres as [|r l Hr _ IH]; [done|]. cbn [map foldr]. split; [|done].
    by apply resultToJSON_wellFormed. }
  assert (Hs : JsonFacts.wellFormed
                 (Json.JObj
                    [(lit "total", Json.JNum (Z.of_N (total (summary report))));
                     (lit "passed", Json.JNum (Z.of_N (s_passed (summary report))));
                     (lit "failed", Json.JNum (Z.of_N (s_failed (summary report))));
                     (lit "skipped", Json.JNum (Z.of_N (s_skipped (summary report))))])).
  { object_of_names. repeat (split; [by apply wellFormed_integer|]). done. }
  pose proof (wellFormed_integer _ Hts) as Hts'.
  assert (Hdur' : JsonFacts.wellFormed (Json.JNum (duration report))) by done.
  destruct (suggestions report) as [l|]; destruct (metadata report) as [m|] eqn:Em;
    cbn [TestFeedbackParser.optField fmap option_fmap option_map app];
    object_of_names;
    (split; [done|]); (split; [exact Hts'|]); (split; [exact Hdur'|]);
    (split; [exact Hr|]); (split; [exact Hs|]);
    repeat (split; [first [apply wellFormed_strings | by apply Hmeta]|]); done.
Qed.

(** C8 (as amended): for a report that JSON keeps (the time stamp and the
    counts are integers that a double holds; the duration and the numbers
    in the details and the metadata are finite doubles other than -0; the
    objects in the details and the metadata hold each key once) and whose
    serialization does not contain the closing tag [</boltTestResult>],
    [parseTestResults] applied to [formatForMessage report] yields the
    report. *)
Theorem formatForMessage_roundtrip (report : TestReport) :
  wellFormedReport report →
  includes (Json.stringify (toJSON report))
    TestFeedbackParser.TEST_RESULT_TAG_CLOSE = false →
  parseTestResults (formatForMessage report) = Some (toJSON report).
Proof.
  intros Hwf Htag. unfold TestFeedbackParser.formatForMessage.
  rewrite parseTestResults_wrapped by done.
  by apply JsonFacts.parse_stringify, toJSON_wellFormed.
Qed.

Lemma formatForMessage_roundtrip_witness :
  parseTestResults (formatForMessage plainReport) = Some (toJSON plainReport).
Proof.
  apply (formatForMessage_roundtrip plainReport).
  - split; [by vm_compute|]. split; [number_kept|].
    split; [by vm_compute|]. split.
    + repeat constructor; intros d Hd; vm_compute in Hd; injection Hd as <-;
        value_kept.
    + intros m Hm. vm_compute in Hm. injection Hm as <-. value_kept.
  - vm_compute. reflexivity.
Defined.

End WireFormat.

(* ===================================================================== *)
(** ** agents/SubagentManager.ts *)
(* ===================================================================== *)

Module SubagentManager.

Inductive Priority := low | medium | high | critical.

#[global] Instance Priority_eq_dec : EqDecision Priority.
Proof. solve_decision. Defined.

Record SubagentTask := {
  id : string;
  type : text;
  description : text;
  priority : option Priority;
}.

Record SubagentResult := {
  taskId : string;
  agentName : string;
  success : bool;
  errors : option (list text);
  timestamp : Z;
}.

(** What awaiting [agent.execute(task)] gives: a result, or an exception
    with its message when it is an [Error]. *)
Inductive Settled :=
| Resolved (r : SubagentResult)
| Thrown (msg : option text).

(** A registered subagent: its name ([getInfo().name]), its capability
    predicate and what its [execute] settles to. *)
Record Subagent := {
  name : string;
  canHandle : SubagentTask → bool;
  execute : SubagentTask → Settled;
}.

Inductive DelegationStatus := d_pending | d_running | d_completed | d_failed.

#[global] Instance DelegationStatus_eq_dec : EqDecision DelegationStatus.
Proof. solve_decision. Defined.

Record TaskDelegation := {
  task : SubagentTask;
  agent : string;
  status : DelegationStatus;
  result : option SubagentResult;
  startTime : option Z;
  endTime : option Z;
}.

(** The manager.  [agents] is the [Map] in insertion order.  Delegation
    records are objects shared between [activeTasks] and [completedTasks]:
    [heap] holds them and both collections hold references into it. *)
Record Manager := {
  agents : list (string * Subagent);
  heap : list TaskDelegation;
  activeTasks : gmap string nat;
  completedTasks : list nat;
}.

Definition empty : Manager :=
  {| agents := []; heap := []; activeTasks := ∅; completedTasks := [] |}.

(** [Map.prototype.set]: an existing key keeps its place. *)
Fixpoint map_set {A} (k : string) (v : A) (m : list (string * A)) : list (string * A) :=
  match m with
  | [] => [(k, v)]
  | (k', v') :: m' =>
      if decide (k' = k) then (k, v) :: m' else (k', v') :: map_set k v m'
  end.

(** [registerAgent] *)
Definition registerAgent (a : Subagent) (m : Manager) : Manager :=
  {| agents := map_set (name a) a (agents m);
     heap := heap m;
     activeTasks := activeTasks m;
     completedTasks := completedTasks m |}.

Definition deref (m : Manager) (r : nat) : option TaskDelegation := heap m !! r.

(** [Array.from(this.activeTasks.values())] *)
Definition activeList (m : Manager) : list TaskDelegation :=
  omap (λ kr, deref m kr.2) (map_to_list (activeTasks m)).

(** [this.completedTasks] *)
Definition completedList (m : Manager) : list TaskDelegation :=
  omap (deref m) (completedTasks m).

Definition isBusy (m : Manager) (a : Subagent) : bool :=
  existsb (λ t, bool_decide (agent t = name a)) (activeList m).

Definition agentTasks (m : Manager) (a : Subagent) : list TaskDelegation :=
  List.filter (λ t, bool_decide (agent t = name a)) (completedList m).

Definition completedCount (ts : list TaskDelegation) : nat :=
  length (List.filter (λ t, bool_decide (status t = d_completed)) ts).

(** [calculateAgentScore].  The score is a JavaScript number; the lengths
    of arrays are integers below 2^32. *)
Definition calculateAgentScore (m : Manager) (a : Subagent) (t : SubagentTask)
  : Double.number :=
  let score := Double.ofZ 100 in
  let score := if isBusy m a then Double.sub score (Double.ofZ 20) else score in
  let agentTasks := agentTasks m a in
  let score :=
    if (0 <? length agentTasks)%nat then
      let successRate :=
        Double.div (Double.ofZ (Z.of_nat (completedCount agentTasks)))
                   (Double.ofZ (Z.of_nat (length agentTasks))) in
      Double.add score (Double.mul successRate (Double.ofZ 20))
    else score in
  let score :=
    match priority t with
    | Some critical => Double.add score (Double.ofZ 30)
    | Some high => Double.add score (Double.ofZ 20)
    | _ => score
    end in
  score.

(** [Array.prototype.sort] with the comparator [(a, b) => b.score - a.score]:
    a stable sort; an element stays behind every earlier element that the
    comparator does not put strictly after it. *)
Fixpoint insert_by_score {A} (x : A * Double.number) (l : list (A * Double.number))
  : list (A * Double.number) :=
  match l with
  | [] => [x]
  | y :: l' =>
      (* comparator(y, x) = x.score - y.score < 0: y stays in front *)
      if Double.isNegative (Double.sub x.2 y.2) then y :: insert_by_score x l'
      else x :: y :: l'
  end.

Definition sort_by_score {A} (l : list (A * Double.number)) : list (A * Double.number) :=
  foldr insert_by_score [] l.

(** [findSuitableAgent] *)
Definition suitableAgents (m : Manager) (t : SubagentTask)
  : list (Subagent * Double.number) :=
  omap (λ ka : string * Subagent,
          if canHandle ka.2 t then Some (ka.2, calculateAgentScore m ka.2 t) else None)
       (agents m).

Definition findSuitableAgent (m : Manager) (t : SubagentTask) : option Subagent :=
  match sort_by_score (suitableAgents m t) with
  | [] => None
  | (a, _) :: _ => Some a
  end.

(** [delegateTask] up to the [await]: either the immediate failure result,
    or the chosen agent with the delegation recorded as running. *)
Inductive Started :=
| NoAgent (r : SubagentResult)
| Running (a : Subagent) (ref : nat).

Definition startTask (now : Z) (t : SubagentTask) (m : Manager) : Started * Manager :=
  match findSuitableAgent m t with
  | None =>
      (NoAgent {| taskId := id t;
                  agentName := "SubagentManager";
                  success := false;
                  errors := Some [lit "No suitable agent found for this task type"];
                  timestamp := now |}, m)
  | Some a =>
      let delegation :=
        {| task := t; agent := name a; status := d_running; result := None;
           startTime := Some now; endTime := None |} in
      let ref := length (heap m) in
      (Running a ref,
       {| agents := agents m;
          heap := heap m ++ [delegation];
          activeTasks := <[id t := ref]> (activeTasks m);
          completedTasks := completedTasks m |})
  end.

(** [delegateTask] after the [await]: the record is updated in place, taken
    out of the active map and appended to the completed list. *)
Definition finishTask (now : Z) (t : SubagentTask) (a : Subagent) (ref : nat)
    (outcome : Settled) (m : Manager) : SubagentResult * Manager :=
  let update (d : TaskDelegation) : TaskDelegation :=
    match outcome with
    | Resolved r =>
        {| task := task d; agent := agent d;
           status := if success r then d_completed else d_failed;
           result := Some r; startTime := startTime d; endTime := Some now |}
    | Thrown _ =>
        {| task := task d; agent := agent d; status := d_failed;
           result := result d; startTime := startTime d; endTime := Some now |}
    end in
  let res :=
    match outcome with
    | Resolved r => r
    | Thrown msg =>
        {| taskId := id t; agentName := name a; success := false;
           errors := Some [default (lit "Unknown error occurred") msg];
           timestamp := now |}
    end in
  (res,
   {| agents := agents m;
      heap := alter update ref (heap m);
      activeTasks := delete (id t) (activeTasks m);
      completedTasks := completedTasks m ++ [ref] |}).

(** [delegateTask], run to completion with nothing else in between. *)
Definition delegateTask (now : Z) (t : SubagentTask) (m : Manager)
  : SubagentResult * Manager :=
  match startTask now t m with
  | (NoAgent r, m') => (r, m')
  | (Running a ref, m') => finishTask now t a ref (execute a t) m'
  end.

(** [cancelTask] *)
Definition cancelTask (now : Z) (taskId : string) (m : Manager) : bool * Manager :=
  match activeTasks m !! taskId with
  | Some ref =>
      let update (d : TaskDelegation) : TaskDelegation :=
        {| task := task d; agent := agent d; status := d_failed;
           result := result d; startTime := startTime d; endTime := Some now |} in
      (true,
       {| agents := agents m;
          heap := alter update ref (heap m);
          activeTasks := delete taskId (activeTasks m);
          completedTasks := completedTasks m ++ [ref] |})
  | None => (false, m)
  end.






(** *** The score *)









(** *** The stable sort puts the first best element in front *)

Lemma sort_by_score_nil {A} (l : list (A * Double.number)) : sort_by_score l = [] → l = [].
Proof.
  destruct l as [|x l]; [done|]. unfold sort_by_score. simpl.
  destruct (foldr insert_by_score [] l) as [|y s]; simpl; [done|].
  by destruct (Double.isNegative (Double.sub x.2 y.2)).
Qed.

(** The head of the sorted list is an element of the list. *)
Lemma sort_by_score_elem {A} (l : list (A * Double.number)) x s :
  sort_by_score l = x :: s → ∃ l1 l2, l = l1 ++ x :: l2.
Proof.
  revert x s. induction l as [|z l IH]; intros x s Hs; [done|].
  unfold sort_by_score in Hs. simpl in Hs.
  fold (sort_by_score l) in Hs.
  destruct (sort_by_score l) as [|y s'] eqn:Hl.
  - apply sort_by_score_nil in Hl. subst l. simpl in Hs.
    injection Hs as <- <-. by exists [], [].
  - destruct (IH y s' eq_refl) as (l1 & l2 & ->).
    simpl in Hs. destruct (Double.isNegative (Double.sub z.2 y.2)).
    + injection Hs as <- <-. by exists (z :: l1), l2.
    + injection Hs as <- <-. by exists [], (l1 ++ y :: l2).
Qed.


Lemma omap_split {A B} (f : A → option B) (l : list A) l1 y l2 :
  omap f l = l1 ++ y :: l2 →
  ∃ L1 x L2, l = L1 ++ x :: L2 ∧ f x = Some y
    ∧ omap f L1 = l1 ∧ omap f L2 = l2.
Proof.
  revert l1. induction l as [|x l IH]; intros l1 H.
  - by destruct l1.
  - simpl in H. destruct (f x) as [b|] eqn:Hfx.
    + destruct l1 as [|b' l1]; simpl in H.
      * injection H as -> Hl. exists [], x, l. by rewrite Hfx.
      * injection H as -> Hl.
        destruct (IH l1 Hl) as (L1 & x' & L2 & -> & Hx' & <- & <-).
        exists (x :: L1), x', L2. cbn [omap list_omap]. by rewrite Hfx.
    + destruct (IH l1 H) as (L1 & x' & L2 & -> & Hx' & <- & <-).
      exists (x :: L1), x', L2. cbn [omap list_omap]. by rewrite Hfx.
Qed.

Lemma elem_of_omap_capable (m : Manager) (t : SubagentTask)
    (l : list (string * Subagent)) (kb : string * Subagent) :
  kb ∈ l → canHandle kb.2 t = true →
  (kb.2, calculateAgentScore m kb.2 t)
  ∈ omap (λ ka : string * Subagent,
            if canHandle ka.2 t then Some (ka.2, calculateAgentScore m ka.2 t)
            else None) l.
Proof.
  intros Hin Hc. apply list_elem_of_omap. exists kb. by rewrite Hc.
Qed.

(** The chosen agent is registered and capable. *)
Lemma findSuitableAgent_Some m t a :
  findSuitableAgent m t = Some a →
  ∃ A1 k A2, agents m = A1 ++ (k, a) :: A2 ∧ canHandle a t = true.
Proof.
  unfold findSuitableAgent, suitableAgents. intros H.
  destruct (sort_by_score _) as [|[a' q] s] eqn:Hs; [done|].
  injection H as ->.
  apply sort_by_score_elem in Hs as (l1 & l2 & Hl).
  apply omap_split in Hl as (A1 & [k b] & A2 & Hag & Hb & _).
  simpl in Hb. destruct (canHandle b t) eqn:Hcb; [|done].
  injection Hb as -> <-. by exists A1, k, A2.
Qed.


Lemma findSuitableAgent_None m t :
  findSuitableAgent m t = None ↔ ∀ kb, kb ∈ agents m → canHandle kb.2 t = false.
Proof.
  unfold findSuitableAgent. split.
  - intros H kb Hin. destruct (canHandle kb.2 t) eqn:Hc; [|done].
    destruct (sort_by_score (suitableAgents m t)) as [|[a q] s] eqn:Hs; [|done].
    apply sort_by_score_nil in Hs.
    pose proof (elem_of_omap_capable m t _ kb Hin Hc) as Hel.
    unfold suitableAgents in Hs. rewrite Hs in Hel. by apply elem_of_nil in Hel.
  - intros H.
    assert (suitableAgents m t = []) as ->; [|done].
    unfold suitableAgents. induction (agents m) as [|kb l IH]; [done|].
    simpl. rewrite (H kb) by apply list_elem_of_here.
    apply IH. intros kb' Hin. apply H. by apply list_elem_of_further.
Qed.





(** Two capable agents: "backend" is idle and none of its delegations
    succeeded, "frontend" is busy and all of its delegations succeeded.
    Both score 100 (100 + 0 against 100 - 20 + 20), and the one registered
    first is chosen. *)
Definition always (ok : bool) (n : string) : Subagent :=
  {| name := n; canHandle := λ _, ok;
     execute := λ t, Resolved {| taskId := id t; agentName := n; success := true;
                                 errors := None; timestamp := 0 |} |}.

Definition someTask (tid : string) : SubagentTask :=
  {| id := tid; type := lit "code"; description := lit "write the handler";
     priority := None |}.

Definition record (tid a : string) (st : DelegationStatus) : TaskDelegation :=
  {| task := someTask tid; agent := a; status := st; result := None;
     startTime := Some 0%Z; endTime := None |}.

Definition busyReliable (order : list string) : Manager :=
  {| agents := map (λ n, (n, always true n)) order;
     heap := [record "t0" "backend" d_failed; record "t1" "frontend" d_completed;
              record "t2" "frontend" d_running];
     activeTasks := {[ "t2" := 2%nat ]};
     completedTasks := [0%nat; 1%nat] |}.

Example tie_goes_to_first_agent :
  let m := busyReliable ["backend"; "frontend"] in
  let t := someTask "t3" in
  calculateAgentScore m (always true "backend") t = Double.ofZ 100
  ∧ calculateAgentScore m (always true "frontend") t = Double.ofZ 100
  ∧ name <$> findSuitableAgent m t = Some "backend"
  ∧ name <$> findSuitableAgent (busyReliable ["frontend"; "backend"]) t
    = Some "frontend"
  ∧ agent <$> heap (delegateTask 7 t m).2 !! 3%nat = Some "backend".
Proof. cbv zeta. repeat split; vm_compute; reflexivity. Qed.

End SubagentManager.

(* ===================================================================== *)
(** ** runtime/action-runner.ts *)
(* ===================================================================== *)

Module ActionRunner.

Inductive ActionType :=
  file | shell | start | build | supabase | test | validate | feedback.

#[global] Instance ActionType_eq_dec : EqDecision ActionType.
Proof. solve_decision. Defined.

Inductive ActionStatus := pending | running | complete | aborted | failed.

#[global] Instance ActionStatus_eq_dec : EqDecision ActionStatus.
Proof. solve_decision. Defined.

(** A [BoltAction] as the message parser hands it over: the tag and the
    fields the runner reads.  (A feedback action's own [status] field is not
    represented.) *)
Record BoltAction := {
  type : ActionType;
  content : text;
  filePath : option text;
  operation : option text;
  testType : option text;
}.

(** The [abort] closure of an action state. *)
Inductive AbortFn :=
| AbortController (signal : nat) (actionId : string)
    (* () => { abortController.abort(); updateAction(actionId, {status: 'aborted'}) } *)
| AbortLog.
    (* () => { logger.info('Automated tests aborted') } *)

(** [ActionState]: the action, its status (with the error text of a failed
    one), the [executed] flag, the [abort] closure and a reference to its
    [AbortSignal]. *)
Record ActionState := {
  action : BoltAction;
  status : ActionStatus;
  error : option text;
  executed : bool;
  abort : AbortFn;
  abortSignal : nat;
}.

(** The map of actions is a plain object: [actions[id]] for one of these
    names is the member every object inherits from [Object.prototype] (a
    function, or the prototype itself for ["__proto__"]), unless the map
    has a property of its own under that name. *)
Definition prototypeNames : list string :=
  [ "constructor"; "__defineGetter__"; "__defineSetter__"; "hasOwnProperty";
    "__lookupGetter__"; "__lookupSetter__"; "isPrototypeOf";
    "propertyIsEnumerable"; "toString"; "valueOf"; "__proto__";
    "toLocaleString" ]%string.

(** The property that [runAction] makes of an inherited member:
    [{ ...action, ...data.action, executed: true }] has the fields of the
    action and no status, no [abort] closure and no signal.  The status and
    the error text come with the updates of [#executeAction]. *)
Record PartialState := {
  p_action : BoltAction;
  p_status : option ActionStatus;
  p_error : option text;
}.

Record ActionAlert := {
  alertType : text;
  title : text;
  description : text;
  alertContent : text;
}.

Record BuildOutput := {
  path : text;
  exitCode : Z;
  output : text;
}.

(** How a promise has settled. *)
Inductive Settled := Fulfilled | Rejected.

#[global] Instance Settled_eq_dec : EqDecision Settled.
Proof. solve_decision. Defined.

(** Reactions registered on [#currentExecutionPromise], oldest first.
    [addAction] registers a [then] whose own promise is dropped;
    [runAction] extends the chain by a [then] and a [catch]. *)
Inductive Reaction :=
| RSetRunning (actionId : string)
| RExecute (actionId : string) (isStreaming : bool)
| RCatch.

(** What the sandbox does during one execution. *)
Record Env := {
  unexpected : option (option text);
    (* an awaited collaborator rejects with something that is not a command
       error; the message when it is an Error *)
  backendExists : bool;         (* fs.readdir('backend') succeeds *)
  exitStatus : Z;               (* exit code of the command or process *)
  captured : text;              (* its captured output *)
  abortDuring : bool;
    (* abort() of the action is invoked while the operation is pending, by
       the shell through its callback or from outside *)
  existingDirs : list text;     (* directories fs.readdir can read *)
  workdir : text;
}.

(** The runner.  [actions] holds the properties of the actions map that
    are action states, [partial] those that [runAction] made of an
    inherited member.  [signals] is the store of [AbortSignal.aborted]
    flags, [chain] is how the chain has settled up to the oldest pending
    reaction, [detached] holds the start actions whose process has not
    settled yet (action id and the signal of the state [#executeAction]
    read), [detachedPartial] those among them that are no action states.
    [alerts] are the 'Dev Server Failed' alerts of [#executeAction]. *)
Record Runner := {
  actions : gmap string ActionState;
  partial : gmap string PartialState;
  signals : list bool;
  chain : Settled;
  reactions : list Reaction;
  detached : list (string * ActionState);
  detachedPartial : list (string * BoltAction);
  alerts : list ActionAlert;
  buildOutput : option BuildOutput;
}.

Definition initial : Runner :=
  {| actions := ∅; partial := ∅; signals := []; chain := Fulfilled;
     reactions := []; detached := []; detachedPartial := []; alerts := [];
     buildOutput := None |}.

Definition with_actions (f : gmap string ActionState → gmap string ActionState)
    (r : Runner) : Runner :=
  {| actions := f (actions r); partial := partial r; signals := signals r;
     chain := chain r; reactions := reactions r; detached := detached r;
     detachedPartial := detachedPartial r; alerts := alerts r;
     buildOutput := buildOutput r |}.

Definition with_partial (f : gmap string PartialState → gmap string PartialState)
    (r : Runner) : Runner :=
  {| actions := actions r; partial := f (partial r); signals := signals r;
     chain := chain r; reactions := reactions r; detached := detached r;
     detachedPartial := detachedPartial r; alerts := alerts r;
     buildOutput := buildOutput r |}.

Definition with_signals (f : list bool → list bool) (r : Runner) : Runner :=
  {| actions := actions r; partial := partial r; signals := f (signals r);
     chain := chain r; reactions := reactions r; detached := detached r;
     detachedPartial := detachedPartial r; alerts := alerts r;
     buildOutput := buildOutput r |}.

Definition with_chain (c : Settled) (rs : list Reaction) (r : Runner) : Runner :=
  {| actions := actions r; partial := partial r; signals := signals r;
     chain := c; reactions := rs; detached := detached r;
     detachedPartial := detachedPartial r; alerts := alerts r;
     buildOutput := buildOutput r |}.

Definition with_detached (d : list (string * ActionState)) (r : Runner) : Runner :=
  {| actions := actions r; partial := partial r; signals := signals r;
     chain := chain r; reactions := reactions r; detached := d;
     detachedPartial := detachedPartial r; alerts := alerts r;
     buildOutput := buildOutput r |}.

Definition with_detachedPartial (d : list (string * BoltAction)) (r : Runner)
  : Runner :=
  {| actions := actions r; partial := partial r; signals := signals r;
     chain := chain r; reactions := reactions r; detached := detached r;
     detachedPartial := d; alerts := alerts r;
     buildOutput := buildOutput r |}.

Definition onAlert (a : ActionAlert) (r : Runner) : Runner :=
  {| actions := actions r; partial := partial r; signals := signals r;
     chain := chain r; reactions := reactions r; detached := detached r;
     detachedPartial := detachedPartial r; alerts := alerts r ++ [a];
     buildOutput := buildOutput r |}.

Definition with_buildOutput (b : BuildOutput) (r : Runner) : Runner :=
  {| actions := actions r; partial := partial r; signals := signals r;
     chain := chain r; reactions := reactions r; detached := detached r;
     detachedPartial := detachedPartial r; alerts := alerts r;
     buildOutput := Some b |}.

(** [actions[id]]: an action state, a property made of an inherited member,
    an inherited member, or [undefined]. *)
Inductive Property :=
| Stored (s : ActionState)
| Partial (p : PartialState)
| Inherited
| Missing.

Definition property (r : Runner) (id : string) : Property :=
  match actions r !! id with
  | Some s => Stored s
  | None =>
      match partial r !! id with
      | Some p => Partial p
      | None => if bool_decide (id ∈ prototypeNames) then Inherited else Missing
      end
  end.

(** The updates [#updateAction] is called with. *)
Definition setStatus (st : ActionStatus) (s : ActionState) : ActionState :=
  {| action := action s; status := st; error := error s; executed := executed s;
     abort := abort s; abortSignal := abortSignal s |}.

Definition setFailed (msg : text) (s : ActionState) : ActionState :=
  {| action := action s; status := failed; error := Some msg;
     executed := executed s; abort := abort s; abortSignal := abortSignal s |}.

Definition or_else {A} (new old : option A) : option A :=
  match new with Some x => Some x | None => old end.

(** [{ ...action, ...data.action, executed }] *)
Definition mergeAction (a : BoltAction) (exe : bool) (s : ActionState) : ActionState :=
  {| action := {| type := type a;
                  content := content a;
                  filePath := or_else (filePath a) (filePath (action s));
                  operation := or_else (operation a) (operation (action s));
                  testType := or_else (testType a) (testType (action s)) |};
     status := status s; error := error s; executed := exe;
     abort := abort s; abortSignal := abortSignal s |}.

(** [#updateAction(id, newState)], for an id that is in the map.  The
    runner never removes an entry and only updates ids it has looked up. *)
Definition updateAction (id : string) (f : ActionState → ActionState)
    (r : Runner) : Runner :=
  with_actions (alter f id) r.

(** The same for a property made of an inherited member. *)
Definition updatePartial (id : string) (f : PartialState → PartialState)
    (r : Runner) : Runner :=
  with_partial (alter f id) r.

Definition setPartialStatus (st : ActionStatus) (p : PartialState) : PartialState :=
  {| p_action := p_action p; p_status := Some st; p_error := p_error p |}.

Definition setPartialFailed (msg : text) (p : PartialState) : PartialState :=
  {| p_action := p_action p; p_status := Some failed; p_error := Some msg |}.

(** [signal.aborted] *)
Definition isAborted (r : Runner) (s : ActionState) : bool :=
  default false (signals r !! abortSignal s).

(** Calling the [abort] closure of a state. *)
Definition callAbort (s : ActionState) (r : Runner) : Runner :=
  match abort s with
  | AbortController sig id =>
      updateAction id (setStatus aborted) (with_signals (<[sig := true]>) r)
  | AbortLog => r
  end.

(** [addAction]: whatever [actions[actionId]] is, if it is not
    [undefined] the action counts as added. *)
Definition addAction (actionId : string) (a : BoltAction) (r : Runner) : Runner :=
  match property r actionId with
  | Missing =>
      let sig := length (signals r) in
      let st := {| action := a; status := pending; error := None;
                   executed := false;
                   abort := AbortController sig actionId;
                   abortSignal := sig |} in
      let r := with_signals (λ l, l ++ [false]) r in
      let r := with_actions (<[actionId := st]>) r in
      with_chain (chain r) (reactions r ++ [RSetRunning actionId]) r
  | _ => r
  end.

(** Whether the call returned or threw. *)
Inductive Completion :=
| Returned
| Threw (msg : text).

(** [unreachable(message)] of utils/unreachable throws. *)
Definition unreachable (message : text) : Completion :=
  Threw (lit "Unreachable: " ++ message).

(** [runAction], up to its final [await] of the chain.  An inherited
    member passes the guard; it has no [executed] and no [type], so that a
    streaming call returns and another call makes a property of it,
    [{ ...action, ...data.action, executed: true }], and enqueues its
    execution. *)
Definition runAction (actionId : string) (a : BoltAction) (isStreaming : bool)
    (r : Runner) : Completion * Runner :=
  match property r actionId with
  | Missing =>
      (unreachable (lit "Action " ++ lit actionId ++ lit " not found"), r)
  | Stored act =>
      if executed act then (Returned, r)
      else if isStreaming && negb (bool_decide (type (action act) = file))
      then (Returned, r)
      else
        let r := updateAction actionId (mergeAction a (negb isStreaming)) r in
        (Returned,
         with_chain (chain r)
           (reactions r ++ [RExecute actionId isStreaming; RCatch]) r)
  | Partial _ => (Returned, r)
  | Inherited =>
      if isStreaming then (Returned, r)
      else
        let p := {| p_action := a; p_status := None; p_error := None |} in
        let r := with_partial (<[actionId := p]>) r in
        (Returned,
         with_chain (chain r)
           (reactions r ++ [RExecute actionId isStreaming; RCatch]) r)
  end.

(** What an awaited operation of [#executeAction] does. *)
Inductive OpResult :=
| OpReturns
| OpCommandError (header out : text)   (* throw new ActionCommandError(header, out) *)
| OpThrows (msg : option text).        (* any other exception *)

Definition orNoOutput (out : text) : text :=
  match out with [] => lit "No Output Available" | _ => out end.

(** [#runShellAction] *)
Definition runShellAction (a : BoltAction) (e : Env) : OpResult :=
  let isBackendCommand :=
    includes (content a) (lit "cd backend")
    || includes (content a) (lit "uvicorn")
    || includes (content a) (lit "python main.py")
    || includes (content a) (lit "pip install") in
  if isBackendCommand && negb (includes (content a) (lit "mkdir"))
     && negb (backendExists e)
  then OpCommandError (lit "Backend Directory Not Found")
         (lit "The backend directory does not exist. Please switch to Backend mode and generate the backend code first.")
  else match unexpected e with
       | Some msg => OpThrows msg
       | None =>
           if bool_decide (exitStatus e = 0) then OpReturns
           else OpCommandError (lit "Failed To Execute Shell Command")
                  (orNoOutput (captured e))
       end.

(** [#runStartAction] *)
Definition runStartAction (a : BoltAction) (e : Env) : OpResult :=
  match unexpected e with
  | Some msg => OpThrows msg
  | None =>
      let isBackendCommand :=
        includes (content a) (lit "cd backend")
        || includes (content a) (lit "uvicorn")
        || includes (content a) (lit "main:app") in
      if isBackendCommand && negb (backendExists e)
      then OpCommandError (lit "Backend Not Found")
             (lit "The backend directory does not exist yet. Please generate the backend code first by describing your API requirements in Backend mode.")
      else if bool_decide (exitStatus e = 0) then OpReturns
      else OpCommandError (lit "Failed To Start Application")
             (orNoOutput (captured e))
  end.

(** [#runFileAction]: failures of mkdir and writeFile are logged, not thrown. *)
Definition runFileAction (e : Env) : OpResult :=
  match unexpected e with
  | Some msg => OpThrows msg
  | None => OpReturns
  end.

(** [handleSupabaseAction] *)
Definition handleSupabaseAction (a : BoltAction) (e : Env) : OpResult :=
  match operation a with
  | Some op =>
      if bool_decide (op = lit "migration") then
        match filePath a with
        | Some (_ :: _) => runFileAction e
        | _ => OpThrows (Some (lit "Migration requires a filePath"))
        end
      else if bool_decide (op = lit "query") then OpReturns
      else OpThrows (Some (lit "Unknown operation: " ++ op))
  | None => OpThrows (Some (lit "Unknown operation: undefined"))
  end.

(** [#runBuildAction]: the thrown error, or the directory of the build. *)
Definition commonBuildDirs : list text :=
  [lit "dist"; lit "build"; lit "out"; lit "output"; lit ".next"; lit "public"].

Definition runBuildAction (e : Env) : OpResult + BuildOutput :=
  match unexpected e with
  | Some msg => inl (OpThrows msg)
  | None =>
      if bool_decide (exitStatus e = 0) then
        let join d := workdir e ++ lit "/" ++ d in
        let buildDir :=
          match List.find (λ d, bool_decide (join d ∈ existingDirs e)) commonBuildDirs with
          | Some d => join d
          | None => join (lit "dist")
          end in
        inr {| path := buildDir; exitCode := 0; output := captured e |}
      else inl (OpCommandError (lit "Build Failed") (orNoOutput (captured e)))
  end.

(** [#runTestAction]: the test runner's failure is reported and re-thrown. *)
Definition runTestAction (e : Env) : OpResult :=
  match unexpected e with
  | Some msg => OpThrows msg
  | None => OpReturns
  end.

(** [#runAutomatedTests(buildActionId)]: registers the automated test action
    under [buildActionId-autotest]; the failures of the test run are caught
    here. *)
Definition autotestId (buildActionId : string) : string :=
  (buildActionId +:+ "-autotest")%string.

Definition runAutomatedTests (buildActionId : string) (r : Runner) : Runner :=
  let sig := length (signals r) in
  let st := {| action := {| type := test;
                            content := lit "Running automated tests after build...";
                            filePath := None; operation := None;
                            testType := Some (lit "browser") |};
               status := pending; error := None; executed := false;
               abort := AbortLog; abortSignal := sig |} in
  with_actions (<[autotestId buildActionId := st]>)
    (with_signals (λ l, l ++ [false]) r).

Definition devServerFailed (header out : text) : ActionAlert :=
  {| alertType := lit "error"; title := lit "Dev Server Failed";
     description := header; alertContent := out |}.

(** [abort()] invoked while the operation of the action is pending. *)
Definition pendingAbort (e : Env) (act : ActionState) (r : Runner) : Runner :=
  if abortDuring e then callAbort act r else r.

(** [error.message] of an [ActionCommandError]. *)
Definition commandErrorMessage (header out : text) : text :=
  lit "Failed To Execute Shell Command: " ++ header
  ++ [ascii_of_nat 10; ascii_of_nat 10] ++ lit "Output:" ++ [ascii_of_nat 10] ++ out.

(** The [catch] block of [#executeAction]. *)
Definition catchBlock (actionId : string) (act : ActionState) (res : OpResult)
    (r : Runner) : Runner * Settled :=
  if isAborted r act then (r, Fulfilled)
  else
    let r := updateAction actionId (setFailed (lit "Action failed")) r in
    match res with
    | OpCommandError header out => (onAlert (devServerFailed header out) r, Rejected)
    | _ => (r, Fulfilled)
    end.

(** The status update that ends the [try] block. *)
Definition finalUpdate (actionId : string) (isStreaming : bool) (act : ActionState)
    (r : Runner) : Runner * Settled :=
  (updateAction actionId
     (setStatus (if isStreaming then running
                 else if isAborted r act then aborted else complete)) r,
   Fulfilled).

Definition settle (actionId : string) (isStreaming : bool) (act : ActionState)
    (res : OpResult) (r : Runner) : Runner * Settled :=
  match res with
  | OpReturns => finalUpdate actionId isStreaming act r
  | _ => catchBlock actionId act res r
  end.

(** The status update that ends the [try] block, for a property made of
    an inherited member: it has no [abortSignal], so that reading
    [action.abortSignal.aborted] throws a TypeError, and so does the
    [catch] block that receives it. *)
Definition finalPartial (actionId : string) (isStreaming : bool) (r : Runner)
  : Runner * Settled :=
  if isStreaming then (updatePartial actionId (setPartialStatus running) r, Fulfilled)
  else (r, Rejected).

Definition settlePartial (actionId : string) (isStreaming : bool) (res : OpResult)
    (r : Runner) : Runner * Settled :=
  match res with
  | OpReturns => finalPartial actionId isStreaming r
  | _ => (r, Rejected)
  end.

(** [#executeAction] for a property made of an inherited member.  (The
    operations call [action.abort], which it does not have, when they are
    to abort: that call throws where it is made.) *)
Definition executePartial (actionId : string) (isStreaming : bool)
    (p : PartialState) (e : Env) (r : Runner) : Runner * Settled :=
  let r := updatePartial actionId (setPartialStatus running) r in
  match type (p_action p) with
  | shell => settlePartial actionId isStreaming (runShellAction (p_action p) e) r
  | file => settlePartial actionId isStreaming (runFileAction e) r
  | supabase =>
      match handleSupabaseAction (p_action p) e with
      | OpReturns => finalPartial actionId isStreaming r
      | OpThrows msg =>
          (updatePartial actionId
             (setPartialFailed (default (lit "Supabase action failed") msg)) r,
           Fulfilled)
      | OpCommandError header out =>
          (updatePartial actionId
             (setPartialFailed (commandErrorMessage header out)) r,
           Fulfilled)
      end
  | build =>
      match runBuildAction e with
      | inr out =>
          finalPartial actionId isStreaming
            (runAutomatedTests actionId (with_buildOutput out r))
      | inl _ => (r, Rejected)
      end
  | test => settlePartial actionId isStreaming (runTestAction e) r
  | start =>
      (with_detachedPartial (detachedPartial r ++ [(actionId, p_action p)]) r,
       Fulfilled)
  | validate | feedback => finalPartial actionId isStreaming r
  end.

(** [#executeAction(actionId, isStreaming)], with how its promise settles.
    (An execution is enqueued by [runAction] for an id it has found an
    action state for, or has made a property for.) *)
Definition executeAction (actionId : string) (isStreaming : bool) (e : Env)
    (r : Runner) : Runner * Settled :=
  match property r actionId with
  | Inherited | Missing => (r, Rejected)
  | Partial p => executePartial actionId isStreaming p e r
  | Stored act =>
      let r := updateAction actionId (setStatus running) r in
      match type (action act) with
      | shell =>
          let r := pendingAbort e act r in
          settle actionId isStreaming act (runShellAction (action act) e) r
      | file =>
          let r := pendingAbort e act r in
          settle actionId isStreaming act (runFileAction e) r
      | supabase =>
          let r := pendingAbort e act r in
          match handleSupabaseAction (action act) e with
          | OpReturns => finalUpdate actionId isStreaming act r
          | OpThrows msg =>
              (* the inner catch: the status is updated and the function
                 returns without re-throwing *)
              (updateAction actionId
                 (setFailed (default (lit "Supabase action failed") msg)) r,
               Fulfilled)
          | OpCommandError header out =>
              (updateAction actionId
                 (setFailed (commandErrorMessage header out)) r,
               Fulfilled)
          end
      | build =>
          let r := pendingAbort e act r in
          match runBuildAction e with
          | inr out =>
              finalUpdate actionId isStreaming act
                (runAutomatedTests actionId (with_buildOutput out r))
          | inl res => catchBlock actionId act res r
          end
      | test =>
          let r := pendingAbort e act r in
          settle actionId isStreaming act (runTestAction e) r
      | start =>
          (with_detached (detached r ++ [(actionId, act)]) r, Fulfilled)
      | validate | feedback => finalUpdate actionId isStreaming act r
      end
  end.

(** The detached promise of the [n]-th start action in flight settles:
    [#runStartAction(action).then(...).catch(...)]. *)
Definition settleStart (n : nat) (e : Env) (r : Runner) : Runner :=
  match detached r !! n with
  | None => r
  | Some (actionId, act) =>
      let r := with_detached (delete n (detached r)) r in
      let r := pendingAbort e act r in
      match runStartAction (action act) e with
      | OpReturns => updateAction actionId (setStatus complete) r
      | res =>
          if isAborted r act then r
          else
            let r := updateAction actionId (setFailed (lit "Action failed")) r in
            match res with
            | OpCommandError header out => onAlert (devServerFailed header out) r
            | _ => r
            end
      end
  end.

(** The same for the [n]-th start action in flight that is no action
    state: the [catch] reads [action.abortSignal.aborted] and throws. *)
Definition settlePartialStart (n : nat) (e : Env) (r : Runner) : Runner :=
  match detachedPartial r !! n with
  | None => r
  | Some (actionId, a) =>
      let r := with_detachedPartial (delete n (detachedPartial r)) r in
      match runStartAction a e with
      | OpReturns => updatePartial actionId (setPartialStatus complete) r
      | _ => r
      end
  end.

(** The event loop runs the oldest reaction of the chain. *)
Definition tick (e : Env) (r : Runner) : Runner :=
  match reactions r with
  | [] => r
  | RSetRunning actionId :: rest =>
      let r := with_chain (chain r) rest r in
      match chain r with
      | Fulfilled => updateAction actionId (setStatus running) r
      | Rejected => r
      end
  | RExecute actionId isStreaming :: rest =>
      let r := with_chain (chain r) rest r in
      match chain r with
      | Fulfilled =>
          let '(r, c) := executeAction actionId isStreaming e r in
          with_chain c (reactions r) r
      | Rejected => r
      end
  | RCatch :: rest =>
      (* console.error('Action failed:', error) *)
      with_chain Fulfilled rest r
  end.

(** Calling [abort()] of the stored action.  (A property made of an
    inherited member has no [abort]: the call throws at the caller.) *)
Definition abortAction (actionId : string) (r : Runner) : Runner :=
  match actions r !! actionId with
  | Some act => callAbort act r
  | None => r
  end.

(** What can happen to a runner. *)
Inductive Event :=
| EAddAction (actionId : string) (a : BoltAction)
| ERunAction (actionId : string) (a : BoltAction) (isStreaming : bool)
| EAbort (actionId : string)
| ETick (e : Env)
| ESettleStart (n : nat) (e : Env)
| ESettlePartialStart (n : nat) (e : Env).

Definition step (ev : Event) (r : Runner) : Runner :=
  match ev with
  | EAddAction id a => addAction id a r
  | ERunAction id a s => (runAction id a s r).2
  | EAbort id => abortAction id r
  | ETick e => tick e r
  | ESettleStart n e => settleStart n e r
  | ESettlePartialStart n e => settlePartialStart n e r
  end.

Definition run (evs : list Event) (r : Runner) : Runner :=
  foldl (λ r ev, step ev r) r evs.

Definition statusOf (r : Runner) (actionId : string) : option ActionStatus :=
  status <$> actions r !! actionId.

(** The result of the operation [#executeAction] awaits for an action. *)
Definition operation_result (a : BoltAction) (e : Env) : OpResult :=
  match type a with
  | shell => runShellAction a e
  | file => runFileAction e
  | supabase => handleSupabaseAction a e
  | build => match runBuildAction e with inl res => res | inr _ => OpReturns end
  | test => runTestAction e
  | start => runStartAction a e
  | validate | feedback => OpReturns
  end.

(** Sample actions and sandbox behaviours. *)
Definition shellAction (cmd : string) : BoltAction :=
  {| type := shell; content := lit cmd; filePath := None; operation := None;
     testType := None |}.

Definition fileAction (p c : string) : BoltAction :=
  {| type := file; content := lit c; filePath := Some (lit p); operation := None;
     testType := None |}.

Definition buildAction : BoltAction :=
  {| type := build; content := []; filePath := None; operation := None;
     testType := None |}.

Definition migrationAction (p : option text) : BoltAction :=
  {| type := supabase; content := lit "create table t (id int);"; filePath := p;
     operation := Some (lit "migration"); testType := None |}.

Definition exits (code : Z) : Env :=
  {| unexpected := None; backendExists := false; exitStatus := code;
     captured := []; abortDuring := false; existingDirs := []; workdir := lit "/home/project" |}.

(** *** addAction and runAction: the guards *)

Lemma property_inherited r id : property r id = Inherited → id ∈ prototypeNames.
Proof.
  unfold property. destruct (actions r !! id); [done|].
  destruct (partial r !! id); [done|].
  destruct (decide (id ∈ prototypeNames)); [done|].
  by rewrite bool_decide_eq_false_2.
Qed.

Lemma property_stored_inv r id s :
  property r id = Stored s → actions r !! id = Some s.
Proof.
  unfold property. destruct (actions r !! id); [by intros [= ->]|].
  destruct (partial r !! id); [done|]. by destruct (bool_decide _).
Qed.

Lemma property_stored r id s : actions r !! id = Some s → property r id = Stored s.
Proof. unfold property. by intros ->. Qed.

Lemma property_missing r id :
  property r id = Missing
  ↔ actions r !! id = None ∧ partial r !! id = None ∧ id ∉ prototypeNames.
Proof.
  unfold property. destruct (actions r !! id); [by split; [|intros (? & _)]|].
  destruct (partial r !! id); [by split; [|intros (_ & ? & _)]|].
  destruct (decide (id ∈ prototypeNames)) as [Hin|Hout].
  - rewrite bool_decide_eq_true_2 by done. by split; [|intros (_ & _ & ?)].
  - by rewrite bool_decide_eq_false_2.
Qed.

(** Looking an id up without an action state under it. *)
Lemma property_other r id :
  actions r !! id = None →
  property r id
  = match partial r !! id with
    | Some p => Partial p
    | None => if bool_decide (id ∈ prototypeNames) then Inherited else Missing
    end.
Proof. unfold property. by intros ->. Qed.

(** C4: when the action id is already in the actions map, [addAction] is a
    no-op: the runner (the map with its keys, and the stored action with its
    status, executed flag and content, and the chain) is unchanged. *)
Theorem addAction_known_noop actionId a r :
  is_Some (actions r !! actionId) →
  addAction actionId a r = r
  ∧ dom (actions (addAction actionId a r)) = dom (actions r)
  ∧ actions (addAction actionId a r) !! actionId = actions r !! actionId.
Proof.
  intros [st Hst]. unfold addAction. by rewrite (property_stored r actionId st).
Qed.

Lemma addAction_registers actionId a r :
  property (addAction actionId a r) actionId ≠ Missing.
Proof.
  unfold addAction. destruct (property r actionId) eqn:H; try by rewrite H.
  rewrite (property_stored _ actionId
             {| action := a; status := pending; error := None; executed := false;
                abort := AbortController (length (signals r)) actionId;
                abortSignal := length (signals r) |}); [done|].
  cbn. by rewrite lookup_insert_eq.
Qed.

Lemma addAction_known_noop_witness :
  let r := addAction "a1" (shellAction "npm install") initial in
  is_Some (actions r !! "a1")
  ∧ addAction "a1" (shellAction "npm test") r = r.
Proof.
  cbv zeta. split.
  - vm_compute. eexists. reflexivity.
  - apply (addAction_known_noop "a1" (shellAction "npm test")).
    vm_compute. eexists. reflexivity.
Defined.

(** C6: for a registered action whose type is not file, [runAction] with
    [isStreaming = true] returns without touching the runner: no reaction is
    added to the chain, the status of the action is the one it had, and an
    [executed] flag that was false is still false. *)
Theorem runAction_streaming_skips actionId a r act :
  actions r !! actionId = Some act →
  type (action act) ≠ file →
  runAction actionId a true r = (Returned, r)
  ∧ statusOf (runAction actionId a true r).2 actionId = Some (status act)
  ∧ reactions (runAction actionId a true r).2 = reactions r
  ∧ (executed act = false →
     executed <$> actions (runAction actionId a true r).2 !! actionId = Some false).
Proof.
  intros Hact Hty.
  assert (H : runAction actionId a true r = (Returned, r)).
  { unfold runAction. rewrite (property_stored _ _ _ Hact).
    destruct (executed act); [done|].
    by rewrite bool_decide_eq_false_2. }
  rewrite H. unfold statusOf. cbn. rewrite Hact. cbn.
  repeat split; try done. by intros ->.
Qed.

Lemma runAction_streaming_skips_witness :
  let r := addAction "a1" (shellAction "npm install") initial in
  runAction "a1" (shellAction "npm install") true r = (Returned, r).
Proof.
  cbv zeta.
  refine (proj1 (runAction_streaming_skips "a1" (shellAction "npm install") _
                   {| action := shellAction "npm install"; status := pending;
                      error := None; executed := false;
                      abort := AbortController 0 "a1"; abortSignal := 0 |} _ _)).
  - vm_compute. reflexivity.
  - vm_compute. discriminate.
Defined.

(** C10 (as amended): for an action id under which the actions map has no
    property and which is not the name of a member that every object
    inherits from [Object.prototype] (["constructor"], ["toString"],
    ["__proto__"], ...), [runAction] throws and leaves the runner
    unchanged: the actions map and the chain are the same, nothing is
    created, updated or enqueued. *)
Theorem runAction_unknown_throws actionId a isStreaming r :
  actions r !! actionId = None → partial r !! actionId = None →
  actionId ∉ prototypeNames →
  ∃ msg, runAction actionId a isStreaming r = (Threw msg, r).
Proof.
  intros H1 H2 H3. unfold runAction.
  rewrite (proj2 (property_missing r actionId)) by done.
  eexists. reflexivity.
Qed.

Lemma runAction_unknown_throws_witness :
  ∃ msg, runAction "a1" (shellAction "ls") false initial = (Threw msg, initial).
Proof.
  apply (runAction_unknown_throws "a1" (shellAction "ls") false initial).
  - vm_compute. reflexivity.
  - vm_compute. reflexivity.
  - apply (bool_decide_unpack _). vm_compute. reflexivity.
Defined.

(** For the name of an inherited member the guard of [runAction] passes:
    a streaming call returns, another call makes a property of the member
    and enqueues its execution; nothing is thrown. *)
Example runAction_constructor_returns :
  runAction "constructor" (shellAction "ls") true initial = (Returned, initial)
  ∧ (runAction "constructor" (shellAction "ls") false initial).1 = Returned
  ∧ reactions (runAction "constructor" (shellAction "ls") false initial).2
    = [RExecute "constructor" false; RCatch]
  ∧ partial (runAction "constructor" (shellAction "ls") false initial).2
      !! "constructor"
    = Some {| p_action := shellAction "ls"; p_status := None; p_error := None |}
  ∧ addAction "constructor" (shellAction "ls") initial = initial.
Proof. vm_compute. done. Qed.

(** *** The chain never stays rejected *)

(** The reactions pending on the chain come in the units [addAction] and
    [runAction] register. *)
Inductive wf_reactions : list Reaction → Prop :=
| wf_nil : wf_reactions []
| wf_set actionId l :
    wf_reactions l → wf_reactions (RSetRunning actionId :: l)
| wf_exec actionId isStreaming l :
    wf_reactions l → wf_reactions (RExecute actionId isStreaming :: RCatch :: l).

(** A rejection is only ever seen by the [catch] that follows the
    execution which threw. *)
Definition chain_inv (r : Runner) : Prop :=
  (chain r = Fulfilled ∧ wf_reactions (reactions r))
  ∨ (∃ rest, reactions r = RCatch :: rest ∧ wf_reactions rest).

Definition reaction_registered (m : gmap string ActionState) (x : Reaction) : Prop :=
  match x with
  | RSetRunning actionId => is_Some (m !! actionId)
  | RExecute actionId _ => is_Some (m !! actionId) ∨ actionId ∈ prototypeNames
  | RCatch => True
  end.

Definition inv (r : Runner) : Prop :=
  chain_inv r ∧ Forall (reaction_registered (actions r)) (reactions r).

Definition dom_le (m m' : gmap string ActionState) : Prop :=
  ∀ k, is_Some (m !! k) → is_Some (m' !! k).

Lemma dom_le_refl m : dom_le m m.
Proof. by intros k. Qed.

Lemma dom_le_trans m1 m2 m3 : dom_le m1 m2 → dom_le m2 m3 → dom_le m1 m3.
Proof. intros H1 H2 k Hk. by apply H2, H1. Qed.

Lemma dom_le_alter f k m : dom_le m (alter f k m).
Proof. intros j Hj. by apply lookup_alter_is_Some. Qed.

Lemma dom_le_insert k v m : dom_le m (<[k := v]> m).
Proof. intros j Hj. apply lookup_insert_is_Some'. by right. Qed.

Ltac dom_le_tac :=
  repeat first
    [ apply dom_le_refl
    | (eapply dom_le_trans; [| apply dom_le_alter])
    | (eapply dom_le_trans; [| apply dom_le_insert]) ].

Lemma registered_mono m m' l :
  dom_le m m' →
  Forall (reaction_registered m) l → Forall (reaction_registered m') l.
Proof.
  intros Hle H. eapply Forall_impl; [exact H|].
  intros x. destruct x; cbn; auto. intros [?|?]; auto.
Qed.

Lemma wf_app_set actionId l :
  wf_reactions l → wf_reactions (l ++ [RSetRunning actionId]).
Proof.
  induction 1; cbn; repeat constructor; assumption.
Qed.

Lemma wf_app_exec actionId isStreaming l :
  wf_reactions l → wf_reactions (l ++ [RExecute actionId isStreaming; RCatch]).
Proof.
  induction 1; cbn; repeat constructor; assumption.
Qed.

Lemma wf_not_catch rest : ¬ wf_reactions (RCatch :: rest).
Proof. inversion 1. Qed.

Lemma callAbort_frame act r :
  reactions (callAbort act r) = reactions r
  ∧ chain (callAbort act r) = chain r
  ∧ detached (callAbort act r) = detached r
  ∧ dom_le (actions r) (actions (callAbort act r)).
Proof.
  unfold callAbort. destruct (abort act); cbn; repeat split; dom_le_tac.
Qed.

Lemma pendingAbort_frame e act r :
  reactions (pendingAbort e act r) = reactions r
  ∧ chain (pendingAbort e act r) = chain r
  ∧ detached (pendingAbort e act r) = detached r
  ∧ dom_le (actions r) (actions (pendingAbort e act r)).
Proof.
  unfold pendingAbort. destruct (abortDuring e).
  - apply callAbort_frame.
  - repeat split. apply dom_le_refl.
Qed.

Lemma catchBlock_frame actionId act res r :
  reactions (catchBlock actionId act res r).1 = reactions r
  ∧ dom_le (actions r) (actions (catchBlock actionId act res r).1).
Proof.
  unfold catchBlock. destruct (isAborted r act); [split; [done | apply dom_le_refl]|].
  destruct res; cbn; split; try done; dom_le_tac.
Qed.

Lemma finalUpdate_frame actionId isStreaming act r :
  reactions (finalUpdate actionId isStreaming act r).1 = reactions r
  ∧ dom_le (actions r) (actions (finalUpdate actionId isStreaming act r).1).
Proof. cbn. split; [done | dom_le_tac]. Qed.

Lemma settle_frame actionId isStreaming act res r :
  reactions (settle actionId isStreaming act res r).1 = reactions r
  ∧ dom_le (actions r) (actions (settle actionId isStreaming act res r).1).
Proof.
  destruct res; cbn [settle];
    auto using catchBlock_frame, finalUpdate_frame.
Qed.

(** [r'] differs from [r] at most in the properties that are no action
    states, and in the build output. *)
Definition same_actions (r r' : Runner) : Prop :=
  actions r' = actions r ∧ signals r' = signals r ∧ chain r' = chain r
  ∧ reactions r' = reactions r ∧ detached r' = detached r
  ∧ alerts r' = alerts r.

Lemma same_actions_refl r : same_actions r r.
Proof. by repeat split. Qed.

(** Executing a property made of an inherited member touches the action
    states only by registering the automated test of a build. *)
Lemma executePartial_shape actionId isStreaming p e r :
  same_actions r (executePartial actionId isStreaming p e r).1
  ∨ ∃ r1, same_actions r r1
          ∧ same_actions (runAutomatedTests actionId r1)
              (executePartial actionId isStreaming p e r).1.
Proof.
  unfold executePartial, settlePartial, finalPartial.
  destruct (type (p_action p)).
  - destruct (runFileAction e), isStreaming; left; by repeat split.
  - destruct (runShellAction (p_action p) e), isStreaming; left; by repeat split.
  - left; by repeat split.
  - destruct (runBuildAction e) as [res|out]; [left; by repeat split|].
    right. eexists. split; [|destruct isStreaming; by repeat split].
    by repeat split.
  - destruct (handleSupabaseAction (p_action p) e), isStreaming; left;
      by repeat split.
  - destruct (runTestAction e), isStreaming; left; by repeat split.
  - destruct isStreaming; left; by repeat split.
  - destruct isStreaming; left; by repeat split.
Qed.

Lemma settlePartialStart_shape n e r : same_actions r (settlePartialStart n e r).
Proof.
  unfold settlePartialStart. destruct (detachedPartial r !! n) as [[id a]|];
    [|apply same_actions_refl].
  destruct (runStartAction a e); by repeat split.
Qed.

Lemma executeAction_frame actionId isStreaming e r :
  reactions (executeAction actionId isStreaming e r).1 = reactions r
  ∧ dom_le (actions r) (actions (executeAction actionId isStreaming e r).1).
Proof.
  unfold executeAction, property.
  destruct (actions r !! actionId) as [act|]; cbv beta iota.
  2:{ destruct (partial r !! actionId) as [p|];
        [|destruct (bool_decide _); split; [done | apply dom_le_refl
                                          | done | apply dom_le_refl]].
      destruct (executePartial_shape actionId isStreaming p e r)
        as [(Ha & _ & _ & Hr & _) | (r1 & (Ha1 & _ & _ & Hr1 & _) & (Ha & _ & _ & Hr & _))].
      - rewrite Hr, Ha. split; [done | apply dom_le_refl].
      - rewrite Hr, Ha. cbn. rewrite Hr1, Ha1. split; [done | apply dom_le_insert]. }
  set (r1 := updateAction actionId (setStatus running) r).
  assert (H1 : reactions r1 = reactions r) by done.
  assert (D1 : dom_le (actions r) (actions r1)) by (cbn; dom_le_tac).
  destruct (pendingAbort_frame e act r1) as (Hp & _ & _ & Dp).
  set (r2 := pendingAbort e act r1) in *.
  assert (D2 : dom_le (actions r) (actions r2)) by (eapply dom_le_trans; eauto).
  destruct (type (action act)).
  - destruct (settle_frame actionId isStreaming act (runFileAction e) r2) as [-> D].
    split; [congruence | eapply dom_le_trans; eauto].
  - destruct (settle_frame actionId isStreaming act (runShellAction (action act) e) r2)
      as [-> D].
    split; [congruence | eapply dom_le_trans; eauto].
  - cbn. split; [done | dom_le_tac].
  - destruct (runBuildAction e) as [res | out].
    + destruct (catchBlock_frame actionId act res r2) as [-> D].
      split; [congruence | eapply dom_le_trans; eauto].
    + cbn. split; [congruence|]. eapply dom_le_trans; [exact D2|]. dom_le_tac.
  - destruct (handleSupabaseAction (action act) e); cbn;
      (split; [congruence|]); (eapply dom_le_trans; [exact D2|]); dom_le_tac.
  - destruct (settle_frame actionId isStreaming act (runTestAction e) r2) as [-> D].
    split; [congruence | eapply dom_le_trans; eauto].
  - cbn. split; [done | dom_le_tac].
  - cbn. split; [done | dom_le_tac].
Qed.

Lemma addAction_inv actionId a r : inv r → inv (addAction actionId a r).
Proof.
  intros [Hc Hr]. unfold addAction.
  destruct (property r actionId) eqn:Hl; try done. split.
  - destruct Hc as [[Hf Hw] | (rest & Hrest & Hw)]; cbn.
    + left. split; [done|]. by apply wf_app_set.
    + right. exists (rest ++ [RSetRunning actionId]). rewrite Hrest.
      split; [done|]. by apply wf_app_set.
  - cbn. apply Forall_app. split.
    + eapply registered_mono; [|exact Hr]. apply dom_le_insert.
    + constructor; [|constructor]. cbn. by rewrite lookup_insert_eq.
Qed.

Lemma runAction_inv actionId a isStreaming r :
  inv r → inv (runAction actionId a isStreaming r).2.
Proof.
  intros [Hc Hr]. unfold runAction.
  assert (Hchain : ∀ r', reactions r' = reactions r ++ [RExecute actionId isStreaming; RCatch] →
            chain r' = chain r → chain_inv r').
  { intros r' Hre Hch. unfold chain_inv. rewrite Hre, Hch.
    destruct Hc as [[Hf Hw] | (rest & Hrest & Hw)].
    - left. split; [done|]. by apply wf_app_exec.
    - right. exists (rest ++ [RExecute actionId isStreaming; RCatch]).
      rewrite Hrest. split; [done|]. by apply wf_app_exec. }
  destruct (property r actionId) as [act| | |] eqn:Hl; try done.
  - destruct (executed act); [done|].
    destruct (isStreaming && _); [done|]. split; [by apply Hchain|].
    cbn. apply Forall_app. split.
    + eapply registered_mono; [|exact Hr]. apply dom_le_alter.
    + constructor; [|constructor; [done | constructor]]. cbn. left.
      apply lookup_alter_is_Some. by rewrite (property_stored_inv _ _ _ Hl).
  - destruct isStreaming; [done|]. split; [by apply Hchain|].
    cbn. apply Forall_app. split; [done|].
    constructor; [|constructor; [done | constructor]]. cbn. right.
    by apply (property_inherited r).
Qed.

Lemma frame_inv r r' :
  reactions r' = reactions r → chain r' = chain r →
  dom_le (actions r) (actions r') → inv r → inv r'.
Proof.
  intros Hre Hch Hd [Hc Hr]. split.
  - unfold chain_inv. by rewrite Hre, Hch.
  - rewrite Hre. by eapply registered_mono.
Qed.

Lemma abortAction_inv actionId r : inv r → inv (abortAction actionId r).
Proof.
  unfold abortAction. destruct (actions r !! actionId) as [act|]; [|done].
  destruct (callAbort_frame act r) as (? & ? & ? & ?). by apply frame_inv.
Qed.

Lemma settleStart_inv n e r : inv r → inv (settleStart n e r).
Proof.
  unfold settleStart. destruct (detached r !! n) as [[actionId act]|]; [|done].
  set (r1 := with_detached (delete n (detached r)) r).
  destruct (pendingAbort_frame e act r1) as (Hp & Hch & _ & Dp).
  set (r2 := pendingAbort e act r1) in *.
  intros Hinv. assert (Hinv2 : inv r2) by (by apply (frame_inv r)).
  destruct (runStartAction (action act) e).
  - eapply frame_inv; [| | |exact Hinv2]; cbn; try done; dom_le_tac.
  - destruct (isAborted r2 act); [done|].
    eapply frame_inv; [| | |exact Hinv2]; cbn; try done; dom_le_tac.
  - destruct (isAborted r2 act); [done|].
    eapply frame_inv; [| | |exact Hinv2]; cbn; try done; dom_le_tac.
Qed.

Lemma tick_inv e r : inv r → inv (tick e r).
Proof.
  intros [Hc Hr]. unfold tick. unfold chain_inv in Hc.
  destruct (reactions r) as [|[actionId | actionId isStreaming |] rest] eqn:Hre.
  - split; [unfold chain_inv|]; by rewrite Hre.
  - destruct Hc as [[Hf Hw] | (rest' & Hrest & Hw)]; [|done].
    inversion Hw; subst. inversion Hr; subst. cbn. rewrite Hf. split.
    + left. by split.
    + cbn. eapply registered_mono; [apply dom_le_alter | done].
  - destruct Hc as [[Hf Hw] | (rest' & Hrest & Hw)]; [|done].
    inversion Hw; subst. inversion Hr; subst. cbn. rewrite Hf.
    set (r1 := with_chain Fulfilled (RCatch :: l) r).
    destruct (executeAction_frame actionId isStreaming e r1) as [Hx Dx].
    destruct (executeAction actionId isStreaming e r1) as [r2 c]. cbn in *.
    split.
    + right. exists l. by rewrite Hx.
    + cbn. rewrite Hx. by eapply registered_mono.
  - inversion Hr; subst. split; [|done]. left. split; [done|]. cbn.
    destruct Hc as [[Hf Hw] | (rest' & Hrest & Hw)].
    + by apply wf_not_catch in Hw.
    + by injection Hrest as ->.
Qed.

Lemma initial_inv : inv initial.
Proof. split; [left; split; [done | constructor] | constructor]. Qed.

Lemma settlePartialStart_inv n e r : inv r → inv (settlePartialStart n e r).
Proof.
  destruct (settlePartialStart_shape n e r) as (Ha & _ & Hc & Hr & _).
  apply frame_inv; [done | done |]. rewrite Ha. apply dom_le_refl.
Qed.

Lemma step_inv ev r : inv r → inv (step ev r).
Proof.
  destruct ev; cbn;
    auto using addAction_inv, runAction_inv, abortAction_inv, tick_inv,
      settleStart_inv, settlePartialStart_inv.
Qed.

Lemma run_inv evs r : inv r → inv (run evs r).
Proof.
  revert r. induction evs as [|ev evs IH]; intros r Hr; [done|].
  cbn. apply IH. by apply step_inv.
Qed.

(** When the oldest reaction is an execution, the chain is fulfilled and the
    action is in the map: the execution takes place. *)
Lemma execution_turn r actionId isStreaming rest :
  inv r → reactions r = RExecute actionId isStreaming :: rest →
  chain r = Fulfilled
  ∧ (is_Some (actions r !! actionId) ∨ actionId ∈ prototypeNames)
  ∧ ∃ rest', rest = RCatch :: rest'.
Proof.
  intros [Hc Hr] Hre. rewrite Hre in Hr. inversion Hr; subst.
  destruct Hc as [[Hf Hw] | (rest' & Hrest & Hw)]; [|congruence].
  rewrite Hre in Hw. inversion Hw; subst. eauto.
Qed.

Lemma string_length_app (s t : string) :
  String.length (s +:+ t) = (String.length s + String.length t)%nat.
Proof.
  induction s as [|c s IH]; [done|].
  change (S (String.length (s +:+ t)) = S (String.length s + String.length t)).
  by rewrite IH.
Qed.

Lemma autotestId_ne actionId : autotestId actionId ≠ actionId.
Proof.
  intros H. apply (f_equal String.length) in H.
  unfold autotestId in H. rewrite string_length_app in H. cbn in H. lia.
Qed.

Lemma isAborted_new_signal (sigs : list bool) (n : nat) :
  default false (sigs !! n) = false →
  default false ((sigs ++ [false]) !! n) = false.
Proof.
  intros H. destruct (decide (n < length sigs)%nat) as [Hlt | Hge].
  - by rewrite lookup_app_l.
  - rewrite lookup_app_r by lia.
    by destruct (n - length sigs)%nat as [|[|]].
Qed.

Lemma runBuildAction_throws e res : runBuildAction e = inl res → res ≠ OpReturns.
Proof.
  unfold runBuildAction. destruct (unexpected e); [by intros [= <-]|].
  destruct (bool_decide (exitStatus e = 0)); [done | by intros [= <-]].
Qed.

Lemma status_after_update actionId st act (m : gmap string ActionState) :
  m !! actionId = Some act →
  status <$> alter (setStatus st) actionId m !! actionId = Some st.
Proof. intros H. by rewrite lookup_alter_eq, H. Qed.

Lemma status_after_failed actionId msg act (m : gmap string ActionState) :
  m !! actionId = Some act →
  status <$> alter (setFailed msg) actionId m !! actionId = Some failed.
Proof. intros H. by rewrite lookup_alter_eq, H. Qed.

(** The status [#executeAction] leaves to an action that is not aborted:
    [complete] when the operation returns, [failed] when it throws. *)
Definition outcome_status (res : OpResult) : ActionStatus :=
  match res with
  | OpReturns => complete
  | _ => failed
  end.

Lemma catchBlock_status actionId act a' res r :
  actions r !! actionId = Some a' → isAborted r act = false →
  statusOf (catchBlock actionId act res r).1 actionId = Some failed.
Proof.
  intros Ha Hab. unfold catchBlock, statusOf. rewrite Hab.
  destruct res; cbn; by apply (status_after_failed _ _ a').
Qed.

Lemma finalUpdate_status actionId act a' r :
  actions r !! actionId = Some a' → isAborted r act = false →
  statusOf (finalUpdate actionId false act r).1 actionId = Some complete.
Proof.
  intros Ha Hab. unfold finalUpdate, statusOf. rewrite Hab. cbn.
  by apply (status_after_update _ _ a').
Qed.

Lemma settle_status actionId act a' res r :
  actions r !! actionId = Some a' → isAborted r act = false →
  statusOf (settle actionId false act res r).1 actionId = Some (outcome_status res).
Proof.
  intros Ha Hab. destruct res; cbn [settle outcome_status];
    eauto using catchBlock_status, finalUpdate_status.
Qed.

Lemma tick_execution r actionId isStreaming rest e :
  chain r = Fulfilled → reactions r = RExecute actionId isStreaming :: rest →
  tick e r
  = let x := executeAction actionId isStreaming e (with_chain Fulfilled rest r) in
    with_chain x.2 rest x.1.
Proof.
  intros Hch Hre. unfold tick. rewrite Hre. cbn [with_chain chain]. rewrite Hch.
  destruct (executeAction_frame actionId isStreaming e (with_chain Fulfilled rest r))
    as [Hx _].
  destruct (executeAction _ _ _ _) as [r' c]. cbn in *. by rewrite Hx.
Qed.

(** C2: in every state the runner can reach, whatever has failed before,
    when the turn of a non-streaming execution comes the chain is fulfilled,
    so the action is executed.  Whatever that execution does, the [catch]
    behind it leaves the chain fulfilled for the reactions that follow.  An
    action that is not aborted ends [failed] when its operation throws and
    [complete] when it returns (a start action is handed to its detached
    process instead). *)
Theorem failed_action_never_blocks evs actionId rest act :
  let r := run evs initial in
  reactions r = RExecute actionId false :: rest →
  actions r !! actionId = Some act →
  chain r = Fulfilled
  ∧ (∃ rest', rest = RCatch :: rest'
       ∧ ∀ e e', reactions (tick e r) = RCatch :: rest'
                 ∧ chain (tick e' (tick e r)) = Fulfilled
                 ∧ reactions (tick e' (tick e r)) = rest')
  ∧ (∀ e, type (action act) ≠ start →
          isAborted r act = false → abortDuring e = false →
          statusOf (tick e r) actionId
          = Some (outcome_status (operation_result (action act) e)))
  ∧ (∀ e, type (action act) = start →
          detached (tick e r) = detached r ++ [(actionId, act)]).
Proof.
  intros r Hre Hact.
  assert (Hinv : inv r) by apply run_inv, initial_inv.
  destruct (execution_turn r actionId false rest Hinv Hre) as (Hch & _ & rest' & ->).
  split; [done|]. split; [|split].
  - exists rest'. split; [done|]. intros e e'.
    rewrite (tick_execution r actionId false _ e Hch Hre). cbn zeta.
    split; [done|]. unfold tick at 1. cbn. done.
  - intros e Hty Hab Hdur.
    rewrite (tick_execution r actionId false _ e Hch Hre). cbn zeta.
    unfold statusOf. cbn [with_chain actions].
    unfold executeAction, property. cbn [with_chain actions]. rewrite Hact.
    unfold pendingAbort. rewrite Hdur.
    set (r1 := updateAction actionId (setStatus running) _).
    assert (Ha1 : actions r1 !! actionId = Some (setStatus running act))
      by (cbn; by rewrite lookup_alter_eq, Hact).
    assert (Hab1 : isAborted r1 act = false) by exact Hab.
    unfold operation_result.
    destruct (type (action act)) eqn:Hty'; try done.
    + rewrite (settle_status _ _ _ _ _ Ha1 Hab1 : status <$> _ = _).
      by destruct (runFileAction e).
    + rewrite (settle_status _ _ _ _ _ Ha1 Hab1 : status <$> _ = _).
      by destruct (runShellAction (action act) e).
    + destruct (runBuildAction e) as [res | out] eqn:Hb.
      * rewrite (catchBlock_status _ _ _ _ _ Ha1 Hab1 : status <$> _ = _).
        apply runBuildAction_throws in Hb. by destruct res.
      * apply (finalUpdate_status _ _ (setStatus running act)).
        -- cbn. rewrite lookup_insert_ne by apply autotestId_ne.
           by rewrite lookup_alter_eq, Hact.
        -- unfold isAborted. cbn. by apply isAborted_new_signal.
    + destruct (handleSupabaseAction (action act) e) eqn:Hop.
      * by apply (finalUpdate_status _ _ (setStatus running act)).
      * cbn. by apply (status_after_failed _ _ (setStatus running act)).
      * cbn. by apply (status_after_failed _ _ (setStatus running act)).
    + rewrite (settle_status _ _ _ _ _ Ha1 Hab1 : status <$> _ = _).
      by destruct (runTestAction e).
    + by apply (finalUpdate_status _ _ (setStatus running act)).
    + by apply (finalUpdate_status _ _ (setStatus running act)).
  - intros e Hty.
    rewrite (tick_execution r actionId false _ e Hch Hre). cbn zeta.
    unfold executeAction, property. cbn [with_chain actions]. rewrite Hact, Hty. done.
Qed.

(** A run in which the first action fails and the next one completes: the
    shell command of "k" exits with code 1, "k" ends failed, the chain's
    catch takes the rejection, and the file action "k1" behind it runs. *)
Definition failing_history : list Event :=
  [ EAddAction "k" (shellAction "npm run lint");
    EAddAction "k1" (fileAction "/home/project/a.txt" "hello");
    ERunAction "k" (shellAction "npm run lint") false;
    ERunAction "k1" (fileAction "/home/project/a.txt" "hello") false;
    ETick (exits 0);     (* "k" is set running *)
    ETick (exits 0);     (* "k1" is set running *)
    ETick (exits 1);     (* "k" executes and throws a command error *)
    ETick (exits 0) ].   (* the catch of the chain *)

Lemma failed_action_never_blocks_witness :
  let r := run failing_history initial in
  statusOf r "k" = Some failed
  ∧ statusOf r "k1" = Some running
  ∧ statusOf (tick (exits 0) r) "k1" = Some complete.
Proof.
  cbv zeta. split; [vm_compute; reflexivity|]. split; [vm_compute; reflexivity|].
  refine (proj1 (proj2 (proj2
    (failed_action_never_blocks failing_history "k1" [RCatch]
       {| action := fileAction "/home/project/a.txt" "hello"; status := running;
          error := None; executed := true;
          abort := AbortController 1 "k1"; abortSignal := 1 |}
       _ _))) (exits 0) _ _ _).
  - vm_compute. reflexivity.
  - vm_compute. reflexivity.
  - vm_compute. discriminate.
  - vm_compute. reflexivity.
  - vm_compute. reflexivity.
Defined.

(** *** Abort and failure *)

(** On the paths that go through the [catch] block of [#executeAction], an
    action aborted while its operation was pending keeps the status
    [aborted] when the operation throws. *)
Lemma aborted_then_thrown_stays_aborted actionId isStreaming e r act :
  actions r !! actionId = Some act →
  abort act = AbortController (abortSignal act) actionId →
  (abortSignal act < length (signals r))%nat →
  type (action act) ∈ [file; shell; build; test] →
  abortDuring e = true →
  operation_result (action act) e ≠ OpReturns →
  statusOf (executeAction actionId isStreaming e r).1 actionId = Some aborted.
Proof.
  intros Hact Habort Hsig Hty Hdur Hop.
  unfold executeAction, property, statusOf. rewrite Hact.
  unfold pendingAbort, callAbort. rewrite Hdur, Habort.
  set (r2 := updateAction actionId (setStatus aborted) _).
  assert (Hab : isAborted r2 act = true).
  { unfold isAborted. cbn. by rewrite list_lookup_insert_eq. }
  assert (Hst : status <$> actions r2 !! actionId = Some aborted).
  { cbn. apply (status_after_update _ _ (setStatus running act)).
    by rewrite lookup_alter_eq, Hact. }
  assert (Hcatch : ∀ res, res ≠ OpReturns →
            status <$> actions (settle actionId isStreaming act res r2).1 !! actionId
            = Some aborted).
  { intros res Hres. destruct res; [done | |]; cbn [settle]; unfold catchBlock;
      by rewrite Hab. }
  unfold operation_result in Hop.
  repeat (apply elem_of_cons in Hty as [Hty | Hty]); [..| by apply elem_of_nil in Hty];
    rewrite Hty in *; [by apply Hcatch..| |by apply Hcatch].
  destruct (runBuildAction e) as [res | out]; [|done].
  unfold catchBlock. by rewrite Hab.
Qed.

(** A supabase migration without a file path is registered, aborted, and
    then run. *)
Definition aborted_migration : list Event :=
  [ EAddAction "m1" (migrationAction None);
    EAbort "m1";
    ERunAction "m1" (migrationAction None) false;
    ETick (exits 0);     (* the reaction of addAction *)
    ETick (exits 0) ].   (* #executeAction *)

(** C5, at the failing input: the abort signal of the migration is set and
    its status is [aborted] before it runs; its operation then throws, and
    the inner [catch] of the supabase branch, which does not look at the
    signal, reports it as [failed]. *)
Theorem aborted_supabase_action_reported_failed :
  let r := run aborted_migration initial in
  (∃ act, actions r !! "m1" = Some act
          ∧ isAborted r act = true
          ∧ status act = failed
          ∧ error act = Some (lit "Migration requires a filePath"))
  ∧ statusOf (run [EAddAction "m1" (migrationAction None); EAbort "m1"] initial) "m1"
    = Some aborted.
Proof.
  cbv zeta. split; [|vm_compute; reflexivity].
  eexists. split; [vm_compute; reflexivity|]. vm_compute. done.
Qed.

(** The same action aborted while the migration file is being written, the
    sandbox failing afterwards. *)
Lemma supabase_aborted_while_pending_reported_failed :
  let e := {| unexpected := Some (Some (lit "WebContainer is not available"));
              backendExists := false; exitStatus := 0; captured := [];
              abortDuring := true; existingDirs := []; workdir := lit "/home/project" |} in
  let r := run [ EAddAction "m2" (migrationAction (Some (lit "supabase/migrations/001.sql")));
                 ERunAction "m2" (migrationAction (Some (lit "supabase/migrations/001.sql"))) false;
                 ETick e; ETick e ] initial in
  statusOf r "m2" = Some failed.
Proof. vm_compute. reflexivity. Qed.

(** An action aborted before its turn and throwing then ends [running]:
    [#executeAction] sets the status on entry and the [catch] block returns
    without a status update. *)
Lemma aborted_before_turn_ends_running :
  let r := run [ EAddAction "s1" (shellAction "npm test");
                 EAbort "s1";
                 ERunAction "s1" (shellAction "npm test") false;
                 ETick (exits 0); ETick (exits 1); ETick (exits 0) ] initial in
  statusOf r "s1" = Some running.
Proof. vm_compute. reflexivity. Qed.

(** *** Ids the runner registers itself *)

(** A build that succeeds. *)
Definition build_history : list Event :=
  [ EAddAction "b1" buildAction;
    ERunAction "b1" buildAction false;
    ETick (exits 0);     (* "b1" is set running *)
    ETick (exits 0);     (* the build succeeds *)
    ETick (exits 0) ].

Definition autotestAction : BoltAction :=
  {| type := test; content := lit "Running automated tests after build...";
     filePath := None; operation := None; testType := Some (lit "browser") |}.

(** C10, counterexample: after a successful build of "b1" the runner has
    put "b1-autotest" in the map itself; [runAction] for that id, which was
    never given to [addAction], returns and enqueues its execution. *)
Lemma runAction_autotest_id_returns :
  let r := run build_history initial in
  Forall (λ ev, match ev with
                | EAddAction actionId _ => actionId ≠ "b1-autotest"
                | _ => True
                end) build_history
  ∧ (runAction "b1-autotest" autotestAction false r).1 = Returned
  ∧ reactions r = []
  ∧ reactions (runAction "b1-autotest" autotestAction false r).2
    = [RExecute "b1-autotest" false; RCatch].
Proof.
  cbv zeta. split.
  - repeat constructor. discriminate.
  - vm_compute. done.
Qed.

End ActionRunner.

(* ===================================================================== *)
(** ** Regular expressions, as the JavaScript engine matches them *)
(* ===================================================================== *)

Module Regex.

(** The constructs the patterns of error-monitor.ts use.  [Star true] is
    the greedy [*], [Star false] the lazy [*?]; [Group n] is the n-th
    capturing group; [Bol] is [^] without the m flag; [Eol m] is [$]. *)
Inductive regex :=
| Eps
| Str (s : text)
| Class (f : ascii → bool)
| Seq (a b : regex)
| Alt (a b : regex)
| Star (greedy : bool) (a : regex)
| Group (n : nat) (a : regex)
| Bol
| Eol (multiline : bool).

Definition Plus (greedy : bool) (a : regex) : regex := Seq a (Star greedy a).

Definition code (c : ascii) : nat := nat_of_ascii c.

(** Line terminators and white space among the characters represented. *)
Definition isLineTerminator (c : ascii) : bool :=
  (code c =? 10)%nat || (code c =? 13)%nat.

Definition isSpace (c : ascii) : bool :=
  (code c =? 9)%nat || (code c =? 10)%nat || (code c =? 11)%nat
  || (code c =? 12)%nat || (code c =? 13)%nat || (code c =? 32)%nat
  || (code c =? 160)%nat.

Definition isDigit (c : ascii) : bool :=
  (48 <=? code c)%nat && (code c <=? 57)%nat.

Definition dot : regex := Class (λ c, negb (isLineTerminator c)).   (* . *)
Definition space : regex := Class isSpace.                          (* \s *)
Definition digit : regex := Class isDigit.                          (* \d *)
Definition anything : regex := Class (λ _, true).                   (* [\s\S] *)

(** A position in the input: the index, the text from there on, and the
    captures made so far (latest first). *)
Record state := {
  pos : nat;
  rest : text;
  caps : list (nat * text);
}.

Definition advance (w : text) (st : state) : state :=
  {| pos := pos st + length w; rest := drop (length w) (rest st); caps := caps st |}.

Definition capture (n : nat) (from to : state) : state :=
  {| pos := pos to; rest := rest to;
     caps := (n, take (pos to - pos from) (rest from)) :: caps to |}.

Definition cont := state → option state.

(** Iteration: an iteration that consumes nothing is not taken. *)
Fixpoint star (step : cont → state → option state) (greedy : bool)
    (fuel : nat) (k : cont) (st : state) : option state :=
  match fuel with
  | O => k st
  | S fuel' =>
      let again :=
        step (λ st', if (length (rest st') <? length (rest st))%nat
                     then star step greedy fuel' k st' else None) st in
      if greedy
      then match again with Some r => Some r | None => k st end
      else match k st with Some r => Some r | None => again end
  end.

(** The backtracking matcher: [run r k st] matches [r] at [st] and goes on
    with [k]; alternatives are tried in the order of the pattern. *)
Fixpoint run (r : regex) (k : cont) (st : state) : option state :=
  match r with
  | Eps => k st
  | Str s => if startsWith s (rest st) then k (advance s st) else None
  | Class f =>
      match rest st with
      | c :: _ => if f c then k (advance [c] st) else None
      | [] => None
      end
  | Seq a b => run a (run b k) st
  | Alt a b =>
      match run a k st with
      | Some res => Some res
      | None => run b k st
      end
  | Star g a => star (run a) g (S (length (rest st))) k st
  | Group n a => run a (λ st', k (capture n st st')) st
  | Bol => if (pos st =? 0)%nat then k st else None
  | Eol ml =>
      match rest st with
      | [] => k st
      | c :: _ => if ml && isLineTerminator c then k st else None
      end
  end.

(** The leftmost match: [RegExp.prototype.exec] without the g flag. *)
Fixpoint search (r : regex) (i : nat) (s : text) : option (nat * state) :=
  match run r Some {| pos := i; rest := s; caps := [] |} with
  | Some st => Some (i, st)
  | None =>
      match s with
      | [] => None
      | _ :: s' => search r (S i) s'
      end
  end.

(** The match array: the index, the matched text and the groups. *)
Record matched := {
  index : nat;
  whole : text;
  groups : list (nat * text);
}.

Definition exec (r : regex) (s : text) : option matched :=
  match search r 0 s with
  | Some (i, st) =>
      Some {| index := i; whole := take (pos st - i) (drop i s); groups := caps st |}
  | None => None
  end.

(** [m[n]] for a group that took part in the match. *)
Fixpoint lookup_group (n : nat) (gs : list (nat * text)) : option text :=
  match gs with
  | [] => None
  | (k, w) :: gs' => if (k =? n)%nat then Some w else lookup_group n gs'
  end.

Definition group (n : nat) (m : matched) : text :=
  default [] (lookup_group n (groups m)).

(** [regex.test(s)] *)
Definition test (r : regex) (s : text) : bool :=
  match exec r s with Some _ => true | None => false end.

(** [s.replace(regex, replacement)] without the g flag. *)
Definition replace (r : regex) (replacement : text) (s : text) : text :=
  match exec r s with
  | Some m => take (index m) s ++ replacement ++ drop (index m + length (whole m)) s
  | None => s
  end.

(** *** What a match is *)

(** [Match r st st']: the pattern [r] can match from [st] to [st']. *)
Inductive Match : regex → state → state → Prop :=
| MEps st : Match Eps st st
| MStr s st : startsWith s (rest st) = true → Match (Str s) st (advance s st)
| MClass f c w st :
    rest st = c :: w → f c = true → Match (Class f) st (advance [c] st)
| MSeq a b st1 st2 st3 :
    Match a st1 st2 → Match b st2 st3 → Match (Seq a b) st1 st3
| MAltL a b st st' : Match a st st' → Match (Alt a b) st st'
| MAltR a b st st' : Match b st st' → Match (Alt a b) st st'
| MStarDone g a st : Match (Star g a) st st
| MStarMore g a st1 st2 st3 :
    Match a st1 st2 → (length (rest st2) < length (rest st1))%nat →
    Match (Star g a) st2 st3 → Match (Star g a) st1 st3
| MGroup n a st st' : Match a st st' → Match (Group n a) st (capture n st st')
| MBol st : pos st = 0%nat → Match Bol st st
| MEolEnd ml st : rest st = [] → Match (Eol ml) st st
| MEolLine c w st :
    rest st = c :: w → isLineTerminator c = true → Match (Eol true) st st.

Lemma star_sound (step : cont → state → option state) g a :
  (∀ k st res, step k st = Some res → ∃ st', Match a st st' ∧ k st' = Some res) →
  ∀ fuel k st res,
    star step g fuel k st = Some res →
    ∃ st', Match (Star g a) st st' ∧ k st' = Some res.
Proof.
  intros Hstep. induction fuel as [|fuel IH]; intros k st res H; cbn in H.
  - exists st. split; [constructor | done].
  - assert (Hagain : ∀ res,
      step (λ st', if (length (rest st') <? length (rest st))%nat
                   then star step g fuel k st' else None) st = Some res →
      ∃ st', Match (Star g a) st st' ∧ k st' = Some res).
    { intros res' Hs. apply Hstep in Hs as (st2 & Hm & Hk).
      destruct (length (rest st2) <? length (rest st))%nat eqn:Hlt; [|done].
      apply Nat.ltb_lt in Hlt. apply IH in Hk as (st3 & Hm3 & Hk3).
      exists st3. split; [|done]. by eapply MStarMore. }
    destruct g.
    + destruct (step _ st) as [r1|] eqn:Hs.
      * injection H as <-. by apply Hagain.
      * exists st. split; [constructor | done].
    + destruct (k st) as [r1|] eqn:Hk.
      * injection H as <-. exists st. split; [constructor | done].
      * by apply Hagain.
Qed.

(** Soundness: what the matcher finds is a match. *)
Lemma run_sound r : ∀ k st res,
  run r k st = Some res → ∃ st', Match r st st' ∧ k st' = Some res.
Proof.
  induction r as [| s | f | a IHa b IHb | a IHa b IHb | g a IHa | n a IHa | | ml];
    intros k st res H; cbn [run] in H.
  - exists st. split; [constructor | done].
  - destruct (startsWith s (rest st)) eqn:Hs; [|done].
    eexists. split; [by constructor | done].
  - destruct (rest st) as [|c w] eqn:Hr; [done|].
    destruct (f c) eqn:Hf; [|done].
    eexists. split; [by econstructor | done].
  - apply IHa in H as (st2 & Ha & H). apply IHb in H as (st3 & Hb & H).
    exists st3. split; [by econstructor | done].
  - destruct (run a k st) as [r1|] eqn:Ha.
    + injection H as <-. apply IHa in Ha as (st' & Hm & Hk).
      exists st'. split; [by apply MAltL | done].
    + apply IHb in H as (st' & Hm & Hk).
      exists st'. split; [by apply MAltR | done].
  - eapply star_sound; [|exact H]. exact IHa.
  - apply IHa in H as (st' & Hm & Hk).
    eexists. split; [by constructor | done].
  - destruct (pos st =? 0)%nat eqn:Hp; [|done]. apply Nat.eqb_eq in Hp.
    exists st. split; [by constructor | done].
  - destruct (rest st) as [|c w] eqn:Hr.
    + exists st. split; [by constructor | done].
    + destruct ml; [|done]. cbn in H.
      destruct (isLineTerminator c) eqn:Hc; [|done].
      exists st. split; [by econstructor | done].
Qed.

Lemma star_complete (step : cont → state → option state) g a :
  (∀ st st', Match a st st' →
     ∀ k res, k st' = Some res → ∃ res', step k st = Some res') →
  ∀ fuel st st',
    (length (rest st) < fuel)%nat → Match (Star g a) st st' →
    ∀ k res, k st' = Some res → ∃ res', star step g fuel k st = Some res'.
Proof.
  intros Hstep. induction fuel as [|fuel IH]; intros st st' Hfuel Hm k res Hk; [lia|].
  cbn [star].
  inversion Hm as [| | | | | | ? ? ? | ? ? ? st2 ? Ha Hlt Hs | | | |]; subst.
  - destruct g.
    + destruct (step _ st'); eauto.
    + rewrite Hk. eauto.
  - assert (Hnext : ∃ res', star step g fuel k st2 = Some res').
    { eapply IH; [lia | exact Hs | exact Hk]. }
    destruct Hnext as [r2 Hr2].
    assert (Hiter : ∃ res',
      step (λ st'0, if (length (rest st'0) <? length (rest st))%nat
                    then star step g fuel k st'0 else None) st = Some res').
    { eapply (Hstep st st2 Ha). apply Nat.ltb_lt in Hlt. rewrite Hlt. exact Hr2. }
    destruct Hiter as [r3 Hr3]. destruct g.
    + rewrite Hr3. eauto.
    + destruct (k st); eauto.
Qed.

(** Completeness: when a match exists, the matcher finds one. *)
Lemma run_complete r : ∀ st st',
  Match r st st' →
  ∀ k res, k st' = Some res → ∃ res', run r k st = Some res'.
Proof.
  induction r as [| s | f | a IHa b IHb | a IHa b IHb | g a IHa | n a IHa | | ml];
    intros st st' Hm k res Hk; cbn [run].
  - inversion Hm; subst. eauto.
  - inversion Hm as [| ? ? Hs | | | | | | | | | |]; subst. rewrite Hs. eauto.
  - inversion Hm as [| | ? c w ? Hr Hf | | | | | | | | |]; subst.
    rewrite Hr, Hf. eauto.
  - inversion Hm as [| | | ? ? ? st2 ? Ha Hb | | | | | | | |]; subst.
    destruct (IHb _ _ Hb k res Hk) as [r1 H1]. exact (IHa _ _ Ha _ _ H1).
  - inversion Hm as [| | | | ? ? ? ? Ha | ? ? ? ? Hb | | | | | |]; subst.
    + destruct (IHa _ _ Ha k res Hk) as [r1 H1]. rewrite H1. eauto.
    + destruct (run a k st); [eauto|]. exact (IHb _ _ Hb k res Hk).
  - eapply (star_complete (run a) g a IHa); [lia | exact Hm | exact Hk].
  - inversion Hm as [| | | | | | | | ? ? ? st1 Ha | | |]; subst.
    exact (IHa _ _ Ha (λ st'0, k (capture n st st'0)) res Hk).
  - inversion Hm as [| | | | | | | | | ? Hp | |]; subst.
    apply Nat.eqb_eq in Hp. rewrite Hp. eauto.
  - inversion Hm as [| | | | | | | | | | ? ? Hr | c w ? Hr Hc]; subst.
    + rewrite Hr. eauto.
    + rewrite Hr, Hc. cbn. eauto.
Qed.

(** *** The shape of a match *)

Lemma advance_rest w t st : rest st = w ++ t → rest (advance w st) = t.
Proof. intros H. cbn. by rewrite H, drop_app_length. Qed.

Lemma advance_advance w1 w2 st :
  advance w2 (advance w1 st) = advance (w1 ++ w2) st.
Proof.
  unfold advance. cbn. rewrite length_app, drop_drop. f_equal. lia.
Qed.

Lemma advance_nil st : advance [] st = st.
Proof. destruct st. unfold advance. cbn. f_equal. lia. Qed.

(** A match consumes a prefix of the remaining input. *)
Lemma Match_consumes r st st' :
  Match r st st' → ∃ w, rest st = w ++ rest st' ∧ pos st' = (pos st + length w)%nat.
Proof.
  induction 1 as [ st | s st Hs | f c w st Hr Hf | a b st1 st2 st3 _ IHa _ IHb
                 | a b st st' _ IH | a b st st' _ IH | g a st
                 | g a st1 st2 st3 _ IHa _ _ IHs | n a st st' _ IH
                 | st Hp | ml st Hr | c w st Hr Hc ];
    try (exists []; split; [done | cbn; lia]); try done.
  - exists s. split; [|done]. cbn. by apply startsWith_split.
  - exists [c]. split; [|done]. cbn. by rewrite Hr.
  - destruct IHa as (w1 & H1 & P1), IHb as (w2 & H2 & P2).
    exists (w1 ++ w2). rewrite H1, H2, P2, P1, length_app, <- app_assoc.
    split; [done | lia].
  - destruct IHa as (w1 & H1 & P1), IHs as (w2 & H2 & P2).
    exists (w1 ++ w2). rewrite H1, H2, P2, P1, length_app, <- app_assoc.
    split; [done | lia].
Qed.

Lemma Match_Seq_inv a b st st' :
  Match (Seq a b) st st' → ∃ mid, Match a st mid ∧ Match b mid st'.
Proof. inversion 1; subst; eauto. Qed.

Lemma Match_Str_inv s st st' :
  Match (Str s) st st' →
  st' = advance s st ∧ rest st = s ++ rest st'.
Proof.
  inversion 1 as [| ? ? Hs | | | | | | | | | |]; subst. split; [done|].
  cbn. by apply startsWith_split.
Qed.

Lemma Match_Group_inv n a st st' :
  Match (Group n a) st st' → ∃ st1, Match a st st1 ∧ st' = capture n st st1.
Proof. inversion 1; subst; eauto. Qed.

(** The text a group captures is the text its pattern consumed. *)
Lemma capture_consumed n st st1 w :
  rest st = w ++ rest st1 → pos st1 = (pos st + length w)%nat →
  caps (capture n st st1) = (n, w) :: caps st1.
Proof.
  intros Hr Hp. cbn. rewrite Hp, Hr.
  replace (pos st + length w - pos st)%nat with (length w) by lia.
  by rewrite take_app_length.
Qed.

(** Iterating a character class consumes characters of the class and
    leaves the captures alone. *)
Lemma Match_star_class_inv g f st st' :
  Match (Star g (Class f)) st st' →
  ∃ w, Forall (λ c, f c = true) w ∧ rest st = w ++ rest st' ∧ st' = advance w st.
Proof.
  remember (Star g (Class f)) as r eqn:Er. intros H.
  induction H as [ | | | | | | g' a st
                 | g' a st1 st2 st3 Ha _ Hlt Hs IHs | | | | ]; try discriminate.
  - exists []. by rewrite advance_nil.
  - injection Er as -> ->.
    inversion Ha as [| | ? c w ? Hr Hf | | | | | | | | |]; subst.
    destruct (IHs eq_refl) as (w2 & Hw2 & Hr2 & ->).
    exists (c :: w2). split; [by constructor|]. split.
    + assert (Hw : rest (advance [c] st1) = w) by (cbn; by rewrite Hr).
      rewrite Hw in Hr2. rewrite Hr. cbn [app]. f_equal. exact Hr2.
    + by rewrite advance_advance.
Qed.

Lemma Match_plus_class_inv g f st st' :
  Match (Plus g (Class f)) st st' →
  ∃ w, w ≠ [] ∧ Forall (λ c, f c = true) w
       ∧ rest st = w ++ rest st' ∧ st' = advance w st.
Proof.
  intros H. apply Match_Seq_inv in H as (mid & Ha & Hs).
  inversion Ha as [| | ? c w ? Hr Hf | | | | | | | | |]; subst.
  apply Match_star_class_inv in Hs as (w2 & Hw2 & Hr2 & ->).
  exists (c :: w2). split; [done|]. split; [by constructor|]. split.
  - assert (Hw : rest (advance [c] st) = w) by (cbn; by rewrite Hr).
    rewrite Hw in Hr2. rewrite Hr. cbn [app]. f_equal. exact Hr2.
  - by rewrite advance_advance.
Qed.

Lemma Match_star_class_intro g f w t st :
  Forall (λ c, f c = true) w → rest st = w ++ t →
  Match (Star g (Class f)) st (advance w st).
Proof.
  revert st. induction w as [|c w IH]; intros st Hw Hr.
  - rewrite advance_nil. constructor.
  - inversion Hw as [|? ? Hc Hw']; subst.
    change (c :: w) with ([c] ++ w). rewrite <- advance_advance.
    eapply MStarMore.
    + eapply MClass; [exact Hr | exact Hc].
    + cbn. rewrite Hr. cbn. rewrite drop_0. cbn. lia.
    + apply IH; [done|]. cbn. rewrite Hr. cbn. by rewrite drop_0.
Qed.

Lemma Match_plus_class_intro g f w t st :
  w ≠ [] → Forall (λ c, f c = true) w → rest st = w ++ t →
  Match (Plus g (Class f)) st (advance w st).
Proof.
  intros Hne Hw Hr. destruct w as [|c w]; [done|].
  inversion Hw as [|? ? Hc Hw']; subst.
  change (c :: w) with ([c] ++ w). rewrite <- advance_advance.
  eapply MSeq.
  - eapply MClass; [exact Hr | exact Hc].
  - eapply Match_star_class_intro; [done|]. cbn. rewrite Hr. cbn. by rewrite drop_0.
Qed.

(** Reading a pattern from left to right. *)
Lemma inv_seq_str s b st st' :
  Match (Seq (Str s) b) st st' →
  ∃ mid, rest st = s ++ rest mid ∧ caps mid = caps st ∧ Match b mid st'.
Proof.
  intros H. apply Match_Seq_inv in H as (mid & Ha & Hb).
  apply Match_Str_inv in Ha as [-> Hr]. eauto.
Qed.

Lemma inv_seq_plus g f b st st' :
  Match (Seq (Plus g (Class f)) b) st st' →
  ∃ w mid, w ≠ [] ∧ Forall (λ c, f c = true) w
    ∧ rest st = w ++ rest mid ∧ caps mid = caps st ∧ Match b mid st'.
Proof.
  intros H. apply Match_Seq_inv in H as (mid & Ha & Hb).
  apply Match_plus_class_inv in Ha as (w & Hne & Hw & Hr & ->).
  exists w. eauto 10.
Qed.

Lemma inv_group_star n g f st st' :
  Match (Group n (Star g (Class f))) st st' →
  ∃ w, Forall (λ c, f c = true) w
    ∧ rest st = w ++ rest st' ∧ caps st' = (n, w) :: caps st.
Proof.
  intros H. apply Match_Group_inv in H as (st1 & Ha & ->).
  apply Match_star_class_inv in Ha as (w & Hw & Hr & ->).
  exists w. split; [done|]. split; [done|].
  exact (capture_consumed n st (advance w st) w Hr eq_refl).
Qed.

Lemma inv_group_plus n g f st st' :
  Match (Group n (Plus g (Class f))) st st' →
  ∃ w, w ≠ [] ∧ Forall (λ c, f c = true) w
    ∧ rest st = w ++ rest st' ∧ caps st' = (n, w) :: caps st.
Proof.
  intros H. apply Match_Group_inv in H as (st1 & Ha & ->).
  apply Match_plus_class_inv in Ha as (w & Hne & Hw & Hr & ->).
  exists w. split; [done|]. split; [done|]. split; [done|].
  exact (capture_consumed n st (advance w st) w Hr eq_refl).
Qed.

Lemma inv_seq_group_plus n g f b st st' :
  Match (Seq (Group n (Plus g (Class f))) b) st st' →
  ∃ w mid, w ≠ [] ∧ Forall (λ c, f c = true) w
    ∧ rest st = w ++ rest mid ∧ caps mid = (n, w) :: caps st ∧ Match b mid st'.
Proof.
  intros H. apply Match_Seq_inv in H as (mid & Ha & Hb).
  apply inv_group_plus in Ha as (w & ? & ? & ? & ?). exists w, mid. eauto 10.
Qed.

Lemma inv_seq_group_star n g f b st st' :
  Match (Seq (Group n (Star g (Class f))) b) st st' →
  ∃ w mid, Forall (λ c, f c = true) w
    ∧ rest st = w ++ rest mid ∧ caps mid = (n, w) :: caps st ∧ Match b mid st'.
Proof.
  intros H. apply Match_Seq_inv in H as (mid & Ha & Hb).
  apply inv_group_star in Ha as (w & ? & ? & ?). exists w, mid. eauto 10.
Qed.

(** Building a match from left to right. *)
Lemma ex_seq_str s t b st :
  rest st = s ++ t →
  (∀ mid, rest mid = t → ∃ st', Match b mid st') →
  ∃ st', Match (Seq (Str s) b) st st'.
Proof.
  intros Hr Hb. destruct (Hb (advance s st)) as [st' H].
  - by apply advance_rest.
  - exists st'. eapply MSeq; [|exact H]. apply MStr. rewrite Hr.
    apply startsWith_app.
Qed.

Lemma ex_plus g f w t st :
  w ≠ [] → Forall (λ c, f c = true) w → rest st = w ++ t →
  ∃ mid, Match (Plus g (Class f)) st mid ∧ rest mid = t.
Proof.
  intros Hne Hw Hr. exists (advance w st). split.
  - by eapply Match_plus_class_intro.
  - by apply advance_rest.
Qed.

Lemma ex_seq_plus g f w t b st :
  w ≠ [] → Forall (λ c, f c = true) w → rest st = w ++ t →
  (∀ mid, rest mid = t → ∃ st', Match b mid st') →
  ∃ st', Match (Seq (Plus g (Class f)) b) st st'.
Proof.
  intros Hne Hw Hr Hb. destruct (ex_plus g f w t st Hne Hw Hr) as (mid & Hm & Hmid).
  destruct (Hb mid Hmid) as [st' H]. exists st'. by eapply MSeq.
Qed.

Lemma ex_group_plus n g f w t st :
  w ≠ [] → Forall (λ c, f c = true) w → rest st = w ++ t →
  ∃ st', Match (Group n (Plus g (Class f))) st st' ∧ rest st' = t.
Proof.
  intros Hne Hw Hr. destruct (ex_plus g f w t st Hne Hw Hr) as (mid & Hm & Hmid).
  exists (capture n st mid). split; [by constructor | done].
Qed.

Lemma ex_seq_group_plus n g f w t b st :
  w ≠ [] → Forall (λ c, f c = true) w → rest st = w ++ t →
  (∀ mid, rest mid = t → ∃ st', Match b mid st') →
  ∃ st', Match (Seq (Group n (Plus g (Class f))) b) st st'.
Proof.
  intros Hne Hw Hr Hb.
  destruct (ex_group_plus n g f w t st Hne Hw Hr) as (mid & Hm & Hmid).
  destruct (Hb mid Hmid) as [st' H]. exists st'. by eapply MSeq.
Qed.

Lemma ex_seq_group_skip n g a b st :
  (∀ mid, rest mid = rest st → ∃ st', Match b mid st') →
  ∃ st', Match (Seq (Group n (Star g a)) b) st st'.
Proof.
  intros Hb. destruct (Hb (capture n st st) eq_refl) as [st' H].
  exists st'. eapply MSeq; [|exact H]. constructor. constructor.
Qed.

(** *** The leftmost search *)

Lemma search_sound r s : ∀ i j st,
  search r i s = Some (j, st) →
  ∃ pre post, s = pre ++ post ∧ j = (i + length pre)%nat
    ∧ run r Some {| pos := j; rest := post; caps := [] |} = Some st.
Proof.
  induction s as [|c s IH]; intros i j st H; cbn [search] in H.
  - destruct (run r Some _) as [st0|] eqn:Hr; [|done].
    injection H as <- <-. exists [], []. cbn. rewrite Nat.add_0_r. done.
  - destruct (run r Some _) as [st0|] eqn:Hr.
    + injection H as <- <-. exists [], (c :: s). cbn. rewrite Nat.add_0_r. done.
    + apply IH in H as (pre & post & -> & -> & H).
      exists (c :: pre), post. cbn. split; [done|]. split; [lia | done].
Qed.

Lemma search_complete r pre post : ∀ i st,
  run r Some {| pos := i + length pre; rest := post; caps := [] |} = Some st →
  ∃ res, search r i (pre ++ post) = Some res.
Proof.
  induction pre as [|c pre IH]; intros i st H.
  - cbn in H. rewrite Nat.add_0_r in H. cbn [app].
    destruct post; cbn [search]; rewrite H; eauto.
  - cbn [app search].
    destruct (run r Some {| pos := i; rest := c :: pre ++ post; caps := [] |});
      [eauto|].
    apply (IH (S i) st). cbn in H.
    by replace (S i + length pre)%nat with (i + S (length pre))%nat by lia.
Qed.

End Regex.

(* ===================================================================== *)
(** ** runtime/error-monitor.ts *)
(* ===================================================================== *)

Module ErrorMonitor.

Import Regex CompilationError.

(** [/\[plugin:vite:.*?\]\s+(.+?):(\d+):(\d+)[\s\S]*?$/m] *)
Definition viteRegex : regex :=
  Seq (Str (lit "[plugin:vite:"))
  (Seq (Star false dot)
  (Seq (Str (lit "]"))
  (Seq (Plus true space)
  (Seq (Group 1 (Plus false dot))
  (Seq (Str (lit ":"))
  (Seq (Group 2 (Plus true digit))
  (Seq (Str (lit ":"))
  (Seq (Group 3 (Plus true digit))
  (Seq (Star false anything)
       (Eol true)))))))))).

(** [errorPatterns.tsError]: [/TS\d+:/].  [monitorOutput] does not use it. *)
Definition tsErrorPattern : regex :=
  Seq (Str (lit "TS")) (Seq (Plus true digit) (Str (lit ":"))).

(** [/(.*?)\((\d+),(\d+)\):\s+error\s+TS(\d+):\s+(.+)/] *)
Definition tsRegex : regex :=
  Seq (Group 1 (Star false dot))
  (Seq (Str (lit "("))
  (Seq (Group 2 (Plus true digit))
  (Seq (Str (lit ","))
  (Seq (Group 3 (Plus true digit))
  (Seq (Str (lit "):"))
  (Seq (Plus true space)
  (Seq (Str (lit "error"))
  (Seq (Plus true space)
  (Seq (Str (lit "TS"))
  (Seq (Group 4 (Plus true digit))
  (Seq (Str (lit ":"))
  (Seq (Plus true space)
       (Group 5 (Plus true dot)))))))))))))).

(** [/Cannot find module|Module not found|Failed to resolve import/] *)
Definition importError : regex :=
  Alt (Str (lit "Cannot find module"))
  (Alt (Str (lit "Module not found"))
       (Str (lit "Failed to resolve import"))).

(** [/Cannot resolve '(.+?)'/] and [/in '(.+?)'/] *)
Definition cannotResolve : regex :=
  Seq (Str (lit "Cannot resolve '")) (Seq (Group 1 (Plus false dot)) (Str (lit "'"))).

Definition inFile : regex :=
  Seq (Str (lit "in '")) (Seq (Group 1 (Plus false dot)) (Str (lit "'"))).

(** [/^\/home\/project/] *)
Definition projectRoot : regex := Seq Bol (Str (lit "/home/project")).

(** [parseInt(s)] on a run of digits. *)
Definition parseInt (s : text) : N :=
  fold_left (λ acc c, (10 * acc + N.of_nat (code c - 48))%N) s 0%N.

(** [s.split('\n')] *)
Fixpoint splitLines (s : text) : list text :=
  match s with
  | [] => [[]]
  | c :: s' =>
      match splitLines s' with
      | l :: ls => if (code c =? 10)%nat then [] :: l :: ls else (c :: l) :: ls
      | [] => [[c]]
      end
  end.

(** [s.trim()] *)
Fixpoint trimStart (s : text) : text :=
  match s with
  | c :: s' => if isSpace c then trimStart s' else s
  | [] => []
  end.

Definition trim (s : text) : text := rev (trimStart (rev (trimStart s))).

(** [extractErrorMessage(output, lineNumber)] *)
Fixpoint scanLines (lines : list text) : option text :=
  match lines with
  | [] => None
  | l :: ls =>
      if includes l (lit "Unexpected token") then
        Some (lit "Syntax Error: Unexpected token - likely missing closing bracket, parenthesis, or incomplete statement")
      else if includes l (lit "Unexpected identifier") then
        Some (lit "Syntax Error: Unexpected identifier - check for missing commas or operators")
      else if includes l (lit "Declaration or statement expected") then
        Some (lit "Syntax Error: Declaration or statement expected - check for incomplete code blocks")
      else scanLines ls
  end.

Definition extractErrorMessage (output : text) (lineNumber : N) : text :=
  let lines := splitLines output in
  match scanLines lines with
  | Some msg => msg
  | None =>
      if negb (lineNumber =? 0)%N && (lineNumber <? N.of_nat (length lines))%N then
        let errorLine := nth (N.to_nat lineNumber - 1) lines [] in
        lit "Error at line " ++ Json.numberToString (Z.of_N lineNumber)
          ++ lit ": " ++ trim errorLine
      else lit "Compilation error detected"
  end.

(** [generateSuggestion(errorMessage, fullError)] *)
Definition generateSuggestion (errorMessage fullError : text) : text :=
  if includes fullError (lit "import") && includes fullError (lit "Unexpected token") then
    lit "Complete the import statement. Ensure all imported items are listed and the statement ends with a proper source module."
  else if includes errorMessage (lit "closing") then
    lit "Add the missing closing bracket, brace, or parenthesis."
  else if includes fullError (lit "JSX") then
    lit "Check JSX syntax - ensure all tags are properly closed and attributes are correctly formatted."
  else lit "Review the syntax at the specified line and fix any formatting issues.".

(** [generateTypeScriptSuggestion(errorCode, message)] *)
Definition generateTypeScriptSuggestion (errorCode : text) : text :=
  if bool_decide (errorCode = lit "2307") then
    lit "Install the missing module or check the import path"
  else if bool_decide (errorCode = lit "2304") then
    lit "Define the variable or import it from the appropriate module"
  else if bool_decide (errorCode = lit "2339") then
    lit "Check if the property exists on the type or add it to the interface"
  else if bool_decide (errorCode = lit "2345") then
    lit "Fix the type mismatch - ensure the argument types match the expected parameters"
  else if bool_decide (errorCode = lit "2322") then
    lit "Fix the type assignment - the types are not compatible"
  else lit "Fix the TypeScript error based on the message".

Definition stripProject (file : text) : text := replace projectRoot [] file.

(** The three checks of [monitorOutput]. *)
Definition checkVite (now : Z) (output : text) : list CompilationError.t :=
  match exec viteRegex output with
  | Some m =>
      let errorMessage := extractErrorMessage output (parseInt (group 2 m)) in
      [ {| type := syntax;
           file := stripProject (group 1 m);
           line := Some (parseInt (group 2 m));
           column := Some (parseInt (group 3 m));
           message := errorMessage;
           rawError := output;
           suggestion := Some (generateSuggestion errorMessage output);
           timestamp := now |} ]
  | None => []
  end.

Definition checkTypeScript (now : Z) (output : text) : list CompilationError.t :=
  match exec tsRegex output with
  | Some m =>
      [ {| type := typescript;
           file := stripProject (group 1 m);
           line := Some (parseInt (group 2 m));
           column := Some (parseInt (group 3 m));
           message := lit "TS" ++ group 4 m ++ lit ": " ++ group 5 m;
           rawError := output;
           suggestion := Some (generateTypeScriptSuggestion (group 4 m));
           timestamp := now |} ]
  | None => []
  end.

Definition checkImport (now : Z) (output : text) : list CompilationError.t :=
  if test importError output then
    let moduleMatch := exec cannotResolve output in
    let fileMatch := exec inFile output in
    [ {| type := import;
         file := match fileMatch with
                 | Some m => stripProject (group 1 m)
                 | None => lit "unknown"
                 end;
         line := None;
         column := None;
         message := lit "Import error: "
                    ++ match moduleMatch with
                       | Some m => group 1 m
                       | None => lit "module"
                       end
                    ++ lit " not found";
         rawError := output;
         suggestion := Some (lit "Check that the import path is correct and the module is installed");
         timestamp := now |} ]
  else [].

(** [monitorOutput(output)] on the monitor whose buffer is [errorBuffer]:
    the errors detected in this call, and the buffer afterwards. *)
Definition monitorOutput (now : Z) (output : text)
    (errorBuffer : list CompilationError.t)
  : list CompilationError.t * list CompilationError.t :=
  let detectedErrors :=
    checkVite now output ++ checkTypeScript now output ++ checkImport now output in
  (detectedErrors, errorBuffer ++ detectedErrors).

(** *** The typechecker pattern *)

Definition digits (w : text) : Prop := w ≠ [] ∧ Forall (λ c, isDigit c = true) w.
Definition spaces (w : text) : Prop := w ≠ [] ∧ Forall (λ c, isSpace c = true) w.

(** A typechecker-style error line: [file(line,col): error TSxxxx: message]. *)
Definition tsErrorLine (fileName l c ws1 ws2 errorCode ws3 msg : text) : text :=
  fileName ++ lit "(" ++ l ++ lit "," ++ c ++ lit "):" ++ ws1 ++ lit "error"
  ++ ws2 ++ lit "TS" ++ errorCode ++ lit ":" ++ ws3 ++ msg.

(** The text contains such a line: line, column and code are digits, the
    gaps are white space, and the message starts on the line of the code. *)
Definition containsTsError (output : text) : Prop :=
  ∃ pre fileName l c ws1 ws2 errorCode ws3 x msg post,
    output = pre ++ tsErrorLine fileName l c ws1 ws2 errorCode ws3 (x :: msg) ++ post
    ∧ digits l ∧ digits c ∧ digits errorCode
    ∧ spaces ws1 ∧ spaces ws2 ∧ spaces ws3
    ∧ isLineTerminator x = false.

Lemma tsRegex_matches output :
  containsTsError output → is_Some (exec tsRegex output).
Proof.
  intros (pre & fileName & l & c & ws1 & ws2 & errorCode & ws3 & x & msg & post
          & -> & [Hl1 Hl2] & [Hc1 Hc2] & [He1 He2] & [H11 H12] & [H21 H22]
          & [H31 H32] & Hx).
  unfold tsErrorLine.
  set (suffix := lit "(" ++ l ++ lit "," ++ c ++ lit "):" ++ ws1 ++ lit "error"
                 ++ ws2 ++ lit "TS" ++ errorCode ++ lit ":" ++ ws3
                 ++ [x] ++ msg ++ post).
  assert (Hout : pre ++ (fileName ++ lit "(" ++ l ++ lit "," ++ c ++ lit "):" ++ ws1
                         ++ lit "error" ++ ws2 ++ lit "TS" ++ errorCode ++ lit ":"
                         ++ ws3 ++ x :: msg) ++ post
                 = (pre ++ fileName) ++ suffix).
  { subst suffix. repeat rewrite <- app_assoc. reflexivity. }
  rewrite Hout. clear Hout.
  assert (Hm : ∃ st', Match tsRegex
                 {| pos := 0 + length (pre ++ fileName); rest := suffix; caps := [] |} st').
  { unfold tsRegex, digit, space, dot.
    apply ex_seq_group_skip. intros m1 R1. cbn [rest] in R1. subst suffix.
    eapply ex_seq_str; [exact R1|]. intros m2 R2.
    eapply ex_seq_group_plus; [exact Hl1 | exact Hl2 | exact R2 |]. intros m3 R3.
    eapply ex_seq_str; [exact R3|]. intros m4 R4.
    eapply ex_seq_group_plus; [exact Hc1 | exact Hc2 | exact R4 |]. intros m5 R5.
    eapply ex_seq_str; [exact R5|]. intros m6 R6.
    eapply ex_seq_plus; [exact H11 | exact H12 | exact R6 |]. intros m7 R7.
    eapply ex_seq_str; [exact R7|]. intros m8 R8.
    eapply ex_seq_plus; [exact H21 | exact H22 | exact R8 |]. intros m9 R9.
    eapply ex_seq_str; [exact R9|]. intros m10 R10.
    eapply ex_seq_group_plus; [exact He1 | exact He2 | exact R10 |]. intros m11 R11.
    eapply ex_seq_str; [exact R11|]. intros m12 R12.
    eapply ex_seq_plus; [exact H31 | exact H32 | exact R12 |]. intros m13 R13.
    destruct (ex_group_plus 5 true (λ c, negb (isLineTerminator c)) [x] (msg ++ post) m13)
      as (st' & Hst' & _); [done | | exact R13 | by exists st'].
    constructor; [by rewrite Hx | constructor]. }
  destruct Hm as [st' Hm].
  destruct (run_complete _ _ _ Hm Some st' eq_refl) as [res Hres].
  destruct (search_complete _ _ _ _ _ Hres) as [[i st] Hs].
  unfold exec. rewrite Hs. eauto.
Qed.

Lemma tsRegex_groups output m :
  exec tsRegex output = Some m →
  ∃ a b, digits (group 4 m) ∧ output = a ++ lit "TS" ++ group 4 m ++ lit ":" ++ b.
Proof.
  unfold exec. destruct (search tsRegex 0 output) as [[i st]|] eqn:Hs; [|done].
  intros [= <-]. apply search_sound in Hs as (pre & post & -> & -> & Hrun).
  apply run_sound in Hrun as (st' & H & [= ->]).
  unfold tsRegex, digit, space, dot in H.
  apply inv_seq_group_star in H as (w1 & m1 & _ & R1 & C1 & H).
  apply inv_seq_str in H as (m2 & R2 & C2 & H).
  apply inv_seq_group_plus in H as (w2 & m3 & _ & _ & R3 & C3 & H).
  apply inv_seq_str in H as (m4 & R4 & C4 & H).
  apply inv_seq_group_plus in H as (w3 & m5 & _ & _ & R5 & C5 & H).
  apply inv_seq_str in H as (m6 & R6 & C6 & H).
  apply inv_seq_plus in H as (s1 & m7 & _ & _ & R7 & C7 & H).
  apply inv_seq_str in H as (m8 & R8 & C8 & H).
  apply inv_seq_plus in H as (s2 & m9 & _ & _ & R9 & C9 & H).
  apply inv_seq_str in H as (m10 & R10 & C10 & H).
  apply inv_seq_group_plus in H as (w4 & m11 & Hne & Hd & R11 & C11 & H).
  apply inv_seq_str in H as (m12 & R12 & C12 & H).
  apply inv_seq_plus in H as (s3 & m13 & _ & _ & R13 & C13 & H).
  apply inv_group_plus in H as (w5 & _ & _ & R14 & C14).
  assert (Hg : group 4 {| index := 0 + length pre;
                          whole := take (pos st - (0 + length pre))
                                     (drop (0 + length pre) (pre ++ post));
                          groups := caps st |} = w4).
  { unfold group. cbn [groups]. rewrite C14, C13, C12, C11. reflexivity. }
  rewrite Hg.
  exists (pre ++ w1 ++ lit "(" ++ w2 ++ lit "," ++ w3 ++ lit "):" ++ s1
          ++ lit "error" ++ s2), (rest m12).
  split; [by split|].
  cbn [rest] in R1. rewrite R1, R2, R3, R4, R5, R6, R7, R8, R9, R10, R11, R12.
  repeat rewrite <- app_assoc. reflexivity.
Qed.

Lemma checkVite_types now output e :
  e ∈ checkVite now output → type e = syntax.
Proof.
  unfold checkVite. destruct (exec viteRegex output); intros H.
  - by apply list_elem_of_singleton in H as ->.
  - by apply elem_of_nil in H.
Qed.

Lemma checkImport_types now output e :
  e ∈ checkImport now output → type e = import.
Proof.
  unfold checkImport. destruct (test importError output); intros H.
  - by apply list_elem_of_singleton in H as ->.
  - by apply elem_of_nil in H.
Qed.

Lemma filter_other_type (ty : ErrorType) (l : list CompilationError.t) :
  (∀ e, e ∈ l → type e ≠ ty) →
  List.filter (λ e, bool_decide (type e = ty)) l = [].
Proof.
  induction l as [|e l IH]; intros H; [done|]. cbn.
  rewrite bool_decide_eq_false_2 by (apply H, list_elem_of_here).
  apply IH. intros e' He'. apply H. by apply list_elem_of_further.
Qed.

(** C7 (as amended): when the output contains a typechecker-style error line
    [file(line,col): error TSxxxx: message], one call of [monitorOutput]
    returns exactly one error of type typescript; its message is
    [TS<code>: <message>] for a code of digits that stands in the output
    as [TS<code>:]. *)
Theorem monitorOutput_typescript now output errorBuffer :
  containsTsError output →
  ∃ e errorCode msg a b,
    List.filter (λ e, bool_decide (type e = typescript))
      (monitorOutput now output errorBuffer).1 = [e]
    ∧ message e = lit "TS" ++ errorCode ++ lit ": " ++ msg
    ∧ digits errorCode
    ∧ output = a ++ lit "TS" ++ errorCode ++ lit ":" ++ b.
Proof.
  intros Hts. destruct (tsRegex_matches output Hts) as [m Hm].
  destruct (tsRegex_groups output m Hm) as (a & b & Hd & Hout).
  unfold monitorOutput. cbn [fst].
  rewrite !List.filter_app.
  rewrite (filter_other_type typescript (checkVite now output)),
          (filter_other_type typescript (checkImport now output)).
  - unfold checkTypeScript. rewrite Hm. cbn.
    eexists _, (group 4 m), (group 5 m), a, b.
    split; [reflexivity|]. split; [reflexivity|]. split; [exact Hd | exact Hout].
  - intros e He. by rewrite (checkImport_types now output e He).
  - intros e He. by rewrite (checkVite_types now output e He).
Qed.

Lemma monitorOutput_typescript_witness :
  ∃ e errorCode msg a b,
    List.filter (λ e, bool_decide (type e = typescript))
      (monitorOutput 0 (lit "src/a.ts(3,14): error TS2304: Cannot find name.") []).1 = [e]
    ∧ message e = lit "TS" ++ errorCode ++ lit ": " ++ msg
    ∧ digits errorCode
    ∧ lit "src/a.ts(3,14): error TS2304: Cannot find name."
      = a ++ lit "TS" ++ errorCode ++ lit ":" ++ b.
Proof.
  apply (monitorOutput_typescript 0 (lit "src/a.ts(3,14): error TS2304: Cannot find name.") []).
  exists [], (lit "src/a.ts"), (lit "3"), (lit "14"), (lit " "), (lit " "),
    (lit "2304"), (lit " "), "C"%char, (lit "annot find name."), [].
  split; [reflexivity|].
  repeat split; try discriminate; try reflexivity; repeat constructor.
Defined.

(** C7, counterexample: the compiler message
    [error TS18003: No inputs were found in config file.] contains a TSxxxx
    pattern (the monitor's own [errorPatterns.tsError], [/TS\d+:/], matches
    it), but it has no [file(line,col):] in front of the code, and
    [monitorOutput] returns no error for it. *)
Lemma bare_code_not_reported :
  let output := lit "error TS18003: No inputs were found in config file." in
  test tsErrorPattern output = true
  ∧ (monitorOutput 0 output []).1 = [].
Proof. vm_compute. split; reflexivity. Qed.

End ErrorMonitor.

(* ===================================================================== *)
(** ** More facts about strings *)
(* ===================================================================== *)

Module TextFacts.

Lemma includes_iff (s p : text) :
  includes s p = true ↔ ∃ a b, s = a ++ p ++ b.
Proof.
  split.
  - unfold includes. generalize 0. induction s as [|c s IH]; intros i H; cbn in H.
    + destruct (startsWith p []) eqn:Hp; [|done].
      exists [], []. apply startsWith_split in Hp. by rewrite app_nil_l, app_nil_r in *; destruct p.
    + destruct (startsWith p (c :: s)) eqn:Hp.
      * exists [], (drop (length p) (c :: s)). by apply startsWith_split.
      * destruct (IH (i + 1)) as (a & b & ->); [done|]. by exists (c :: a), b.
  - intros (a & b & ->). apply includes_occurrence.
Qed.

Lemma includes_cons p c s :
  includes (c :: s) p = startsWith p (c :: s) || includes s p.
Proof.
  unfold includes. cbn [indexFrom]. destruct (startsWith p (c :: s)); [done|].
  rewrite indexFrom_shift. by destruct (indexFrom p s 0).
Qed.

Lemma startsWith_length p s : startsWith p s = true → (length p ≤ length s)%nat.
Proof.
  intros H. apply startsWith_split in H. rewrite H, length_app. lia.
Qed.

(** A line of [lines.join(sep)] occurs in the joined text. *)
Lemma join_includes (sep l : text) (ls : list text) :
  l ∈ ls → includes (Json.join sep ls) l = true.
Proof.
  induction ls as [|x ls IH]; intros Hl; [by apply elem_of_nil in Hl|].
  apply includes_iff. apply elem_of_cons in Hl as [->|Hl].
  - destruct ls as [|y ls].
    + exists [], []. cbn [Json.join app]. by rewrite app_nil_r.
    + by exists [], (sep ++ Json.join sep (y :: ls)).
  - destruct ls as [|y ls]; [by apply elem_of_nil in Hl|].
    apply IH, includes_iff in Hl as (a & b & Hab).
    change (Json.join sep (x :: y :: ls)) with (x ++ sep ++ Json.join sep (y :: ls)).
    rewrite Hab. exists (x ++ sep ++ a), b.
    by rewrite <- !app_assoc.
Qed.

End TextFacts.

Import TextFacts.

(* ===================================================================== *)
(** ** JavaScript Maps, as lists of entries *)
(* ===================================================================== *)

Module JsMap.

(** A JavaScript [Map] as the list of its entries in insertion order. *)
Section map.
Context {K V : Type} `{EqDecision K}.

(** [m.set(k, v)]: an existing key keeps its place. *)
Fixpoint mapSet (k : K) (v : V) (m : list (K * V)) : list (K * V) :=
  match m with
  | [] => [(k, v)]
  | (k', v') :: m' =>
      if decide (k' = k) then (k, v) :: m' else (k', v') :: mapSet k v m'
  end.

(** [m.get(k)] *)
Definition mapGet (k : K) (m : list (K * V)) : option V :=
  snd <$> List.find (λ kv, bool_decide (kv.1 = k)) m.

End map.

(** The order in which values first occur. *)
Definition firsts {K} `{EqDecision K} (l : list K) : list K :=
  foldl (λ acc k, if decide (k ∈ acc) then acc else acc ++ [k]) [] l.

(** [l.forEach(x => { if (!m.has(f(x))) m.set(f(x), []); m.get(f(x)).push(x) })] *)
Definition groupBy {A K} `{EqDecision K} (f : A → K) (l : list A) : list (K * list A) :=
  foldl (λ m x, mapSet (f x) (default [] (mapGet (f x) m) ++ [x]) m) [] l.

(** [l.forEach(x => m.set(f(x), (m.get(f(x)) || 0) + 1))] *)
Definition countBy {A K} `{EqDecision K} (f : A → K) (l : list A) : list (K * nat) :=
  foldl (λ m x, mapSet (f x) (default 0 (mapGet (f x) m) + 1)%nat m) [] l.

Section facts.
Context {A K : Type} `{EqDecision K}.
Implicit Types (f : A → K) (l : list A) (ks : list K).

Lemma firsts_snoc ks k :
  firsts (ks ++ [k]) = if decide (k ∈ firsts ks) then firsts ks else firsts ks ++ [k].
Proof. unfold firsts. by rewrite foldl_snoc. Qed.

Lemma firsts_spec ks : NoDup (firsts ks) ∧ ∀ k, k ∈ firsts ks ↔ k ∈ ks.
Proof.
  induction ks as [|k ks [IH1 IH2]] using rev_ind.
  - split; [constructor | done].
  - rewrite firsts_snoc. destruct (decide (k ∈ firsts ks)) as [Hin|Hnin].
    + split; [done|]. intros k'. rewrite elem_of_app, list_elem_of_singleton, IH2.
      split; [auto|]. intros [?| ->]; [done | by apply IH2].
    + split.
      * apply NoDup_app. split; [done|]. split; [|apply NoDup_singleton].
        intros k' Hk' ->%list_elem_of_singleton. done.
      * intros k'. rewrite !elem_of_app, IH2. done.
Qed.

Lemma mapGet_keyed {V} (g : K → V) ks k :
  mapGet k (map (λ k', (k', g k')) ks) = if decide (k ∈ ks) then Some (g k) else None.
Proof.
  unfold mapGet. induction ks as [|k0 ks IH]; cbn; [done|].
  destruct (decide (k0 = k)) as [->|Hne].
  - rewrite bool_decide_eq_true_2 by done. cbn.
    by rewrite decide_True by apply list_elem_of_here.
  - rewrite bool_decide_eq_false_2 by done. rewrite IH.
    destruct (decide (k ∈ ks)) as [Hin|Hnin].
    + by rewrite decide_True by (by apply list_elem_of_further).
    + rewrite decide_False; [done|]. intros [?|?]%elem_of_cons; congruence.
Qed.

Lemma mapSet_keyed {V} (g : K → V) ks k v :
  NoDup ks →
  mapSet k v (map (λ k', (k', g k')) ks)
  = if decide (k ∈ ks)
    then map (λ k', (k', if decide (k' = k) then v else g k')) ks
    else map (λ k', (k', g k')) ks ++ [(k, v)].
Proof.
  induction ks as [|k0 ks IH]; intros Hnd; [done|].
  apply NoDup_cons in Hnd as [Hk0 Hnd]. cbn [map mapSet].
  destruct (decide (k0 = k)) as [->|Hne].
  - rewrite (decide_True (P := k ∈ k :: ks)) by apply list_elem_of_here.
    cbn [map]. f_equal. apply map_ext_in. intros k' Hk'%list_elem_of_In.
    rewrite decide_False; [done|]. by intros ->.
  - rewrite IH by done. destruct (decide (k ∈ ks)) as [Hin|Hnin].
    + rewrite (decide_True (P := k ∈ k0 :: ks)) by (by apply list_elem_of_further).
      done.
    + rewrite (decide_False (P := k ∈ k0 :: ks)); [done|].
      intros [?|?]%elem_of_cons; congruence.
Qed.

Lemma filter_none (p : A → bool) l :
  (∀ y, y ∈ l → p y ≠ true) → List.filter p l = [].
Proof.
  induction l as [|y l IH]; intros H; [done|]. cbn.
  destruct (p y) eqn:Hy; [by destruct (H y (list_elem_of_here _ _))|].
  apply IH. intros z Hz. apply H. by apply list_elem_of_further.
Qed.

(** Grouping keeps the order of first occurrence of the keys and, inside a
    group, the order of the elements. *)
Lemma groupBy_spec f l :
  groupBy f l
  = map (λ k, (k, List.filter (λ x, bool_decide (f x = k)) l)) (firsts (map f l)).
Proof.
  induction l as [|x l IH] using rev_ind; [done|].
  unfold groupBy in *. rewrite foldl_snoc, IH. clear IH.
  rewrite map_app. cbn [map]. rewrite firsts_snoc.
  destruct (firsts_spec (map f l)) as [Hnd Hin].
  rewrite mapGet_keyed, mapSet_keyed by done.
  destruct (decide (f x ∈ firsts (map f l))) as [Hx|Hx].
  - apply map_ext_in. intros k Hk. f_equal. rewrite List.filter_app. cbn.
    destruct (decide (k = f x)) as [->|Hne].
    + by rewrite bool_decide_eq_true_2.
    + rewrite bool_decide_eq_false_2 by done. by rewrite app_nil_r.
  - rewrite map_app. cbn [map]. f_equal.
    + apply map_ext_in. intros k Hk%list_elem_of_In. f_equal.
      rewrite List.filter_app. cbn. rewrite bool_decide_eq_false_2; [by rewrite app_nil_r|].
      intros Heq. apply Hx. by rewrite Heq.
    + f_equal. f_equal. rewrite List.filter_app. cbn.
      rewrite bool_decide_eq_true_2 by done. f_equal.
      rewrite (filter_none (λ x0, bool_decide (f x0 = f x)) l); [done|].
      intros y Hy Heq%bool_decide_eq_true. apply Hx, Hin.
      rewrite <- Heq. by apply list_elem_of_fmap_2.
Qed.

Lemma mapGet_map_values {V W} (h : V → W) (m : list (K * V)) k :
  mapGet k (map (λ kv, (kv.1, h kv.2)) m) = h <$> mapGet k m.
Proof.
  unfold mapGet. induction m as [|[k0 v0] m IH]; cbn; [done|].
  destruct (bool_decide (k0 = k)); [done | exact IH].
Qed.

Lemma mapSet_map_values {V W} (h : V → W) (m : list (K * V)) k v :
  mapSet k (h v) (map (λ kv, (kv.1, h kv.2)) m)
  = map (λ kv, (kv.1, h kv.2)) (mapSet k v m).
Proof.
  induction m as [|[k0 v0] m IH]; cbn; [done|].
  destruct (decide (k0 = k)); cbn; [done|]. by rewrite IH.
Qed.

Lemma countBy_groupBy f l :
  countBy f l = map (λ kv, (kv.1, length kv.2)) (groupBy f l).
Proof.
  induction l as [|x l IH] using rev_ind; [done|].
  unfold countBy, groupBy in *. rewrite !foldl_snoc, IH.
  rewrite mapGet_map_values, <- mapSet_map_values. f_equal.
  rewrite length_app. cbn. by destruct (mapGet (f x) _).
Qed.

Lemma countBy_spec f l :
  countBy f l
  = map (λ k, (k, length (List.filter (λ x, bool_decide (f x = k)) l)))
      (firsts (map f l)).
Proof. by rewrite countBy_groupBy, groupBy_spec, map_map. Qed.

Lemma sum_filter_keys f l ks :
  NoDup ks →
  sum_list (map (λ k, length (List.filter (λ x, bool_decide (f x = k)) l)) ks)
  = length (List.filter (λ x, bool_decide (f x ∈ ks)) l).
Proof.
  induction ks as [|k ks IH]; intros Hnd.
  - cbn. rewrite filter_none; [done|]. intros y _ Hy%bool_decide_eq_true.
    by apply elem_of_nil in Hy.
  - apply NoDup_cons in Hnd as [Hk Hnd]. cbn [map sum_list]. rewrite IH by done.
    clear IH. unfold id. induction l as [|x l IHl]; [done|]. cbn [List.filter].
    destruct (decide (f x = k)) as [Heq|Hne].
    + rewrite bool_decide_eq_true_2 by done.
      rewrite (bool_decide_eq_false_2 (f x ∈ ks)) by (by rewrite Heq).
      rewrite (bool_decide_eq_true_2 (f x ∈ k :: ks))
        by (rewrite Heq; apply list_elem_of_here).
      cbn [length]. lia.
    + rewrite bool_decide_eq_false_2 by done.
      destruct (decide (f x ∈ ks)) as [Hin|Hnin].
      * rewrite (bool_decide_eq_true_2 (f x ∈ ks)) by done.
        rewrite (bool_decide_eq_true_2 (f x ∈ k :: ks)) by (by apply list_elem_of_further).
        cbn [length]. lia.
      * rewrite (bool_decide_eq_false_2 (f x ∈ ks)) by done.
        rewrite (bool_decide_eq_false_2 (f x ∈ k :: ks)); [exact IHl|].
        intros [?|?]%elem_of_cons; congruence.
Qed.

(** The counts add up to the number of elements. *)
Lemma countBy_total f l : sum_list (countBy f l).*2 = length l.
Proof.
  rewrite countBy_spec. destruct (firsts_spec (map f l)) as [Hnd Hin].
  rewrite <- list_fmap_compose.
  change (sum_list (map (λ k, length (List.filter (λ x, bool_decide (f x = k)) l))
                      (firsts (map f l))) = length l).
  rewrite sum_filter_keys by done. f_equal.
  apply forallb_filter_id, forallb_forall. intros x Hx.
  apply bool_decide_eq_true, Hin, list_elem_of_fmap_2. by apply list_elem_of_In.
Qed.

End facts.

End JsMap.

(* ===================================================================== *)
(** ** The rest of ErrorFeedbackParser *)
(* ===================================================================== *)

Module ErrorFeedback.

Import CompilationError JsMap.

(** [error.type], and [error.type.toUpperCase()] *)
Definition typeName (ty : ErrorType) : text :=
  match ty with
  | syntax => lit "syntax"
  | import => lit "import"
  | typescript => lit "typescript"
  | runtime => lit "runtime"
  | build => lit "build"
  end.

Definition typeUpper (ty : ErrorType) : text :=
  match ty with
  | syntax => lit "SYNTAX"
  | import => lit "IMPORT"
  | typescript => lit "TYPESCRIPT"
  | runtime => lit "RUNTIME"
  | build => lit "BUILD"
  end.

(** A non-negative integer inside a template literal. *)
Definition show (n : N) : text := Json.numberToString (Z.of_N n).

(** A number is truthy when it is not 0; an absent one is [undefined]. *)
Definition truthyN (o : option N) : bool :=
  match o with
  | Some n => negb (n =? 0)%N
  | None => false
  end.

(** [areErrorsAutoFixable] *)
Definition areErrorsAutoFixable (errors : list CompilationError.t) : bool :=
  forallb (λ error,
    bool_decide (type error = syntax)
    || bool_decide (type error = import)
    || bool_decide (type error = typescript)) errors.

(** [createErrorSummary] *)
Definition summaryEntry (entry : ErrorType * nat) : text :=
  let '(ty, count) := entry in
  show (N.of_nat count) ++ lit " " ++ typeName ty ++ lit " error"
  ++ (if bool_decide (count ≠ 1%nat) then lit "s" else []).

Definition errorTypes (errors : list CompilationError.t) : list (ErrorType * nat) :=
  countBy type errors.

Definition createErrorSummary (errors : list CompilationError.t) : text :=
  Json.join (lit ", ") (map summaryEntry (errorTypes errors)).

(** [getFixInstructions] *)
Definition getFixInstructions (error : CompilationError.t) : list text :=
  match type error with
  | syntax =>
      if includes (message error) (lit "Unexpected token") then
        [ lit "- Check for missing closing brackets, braces, or parentheses";
          lit "- Verify all statements are properly terminated";
          lit "- Ensure JSX tags are properly closed" ]
      else if includes (message error) (lit "Declaration or statement expected") then
        [ lit "- Complete any incomplete code blocks";
          lit "- Check for missing return statements";
          lit "- Verify function bodies are properly defined" ]
      else if includes (message error) (lit "incomplete") then
        [ lit "- Complete the import statement with all necessary items";
          lit "- Ensure the import path is correct and complete";
          lit "- Add the missing module source" ]
      else []
  | import =>
      [ lit "- Verify the import path is correct";
        lit "- Check if the module is installed in package.json";
        lit "- Ensure the file extension is correct (.ts, .tsx, .js, .jsx)";
        lit "- Use relative paths starting with ./ or ../" ]
  | typescript =>
      [ lit "- Fix type mismatches or missing type definitions";
        lit "- Add appropriate type annotations";
        lit "- Ensure interfaces and types are properly defined";
        lit "- Check for any undefined variables or properties" ]
  | runtime =>
      [ lit "- Check for undefined variables or functions";
        lit "- Verify all dependencies are properly imported";
        lit "- Ensure async/await is used correctly" ]
  | build =>
      [ lit "- Review build configuration";
        lit "- Check for circular dependencies";
        lit "- Verify all required files exist" ]
  end.

(** [generateLLMPrompt]: the lines pushed for one error of a file. *)
Definition errorLines (index : nat) (error : CompilationError.t) : list text :=
  [ lit "#### Error " ++ show (N.of_nat (index + 1)) ++ lit ": " ++ typeUpper (type error) ]
  ++ (if truthyN (line error) then
        [ lit "**Location:** Line " ++ show (default 0%N (line error))
          ++ (if truthyN (column error)
              then lit ", Column " ++ show (default 0%N (column error))
              else []) ]
      else [])
  ++ [ lit "**Error Message:** " ++ message error ]
  ++ (if truthy (suggestion error)
      then [ lit "**Suggested Fix:** " ++ default [] (suggestion error) ]
      else [])
  ++ [ lit "**Fix Instructions:**" ]
  ++ getFixInstructions error
  ++ [ [] ]
  ++ (match rawError error with
      | [] => []
      | _ => [ lit "**Raw Error Context:**"; lit "```";
               substring (rawError error) 0 300; lit "```"; [] ]
      end).

Definition fileLines (entry : text * list CompilationError.t) : list text :=
  [ lit "### File: " ++ entry.1; [] ] ++ concat (imap errorLines entry.2).

Definition errorsByFile (errors : list CompilationError.t)
  : list (text * list CompilationError.t) :=
  groupBy file errors.

Definition promptLines (errors : list CompilationError.t) : list text :=
  [ lit "## Compilation Errors Auto-Fix Required";
    [];
    lit "The following compilation errors were detected when starting the development server. Please fix them immediately:";
    [] ]
  ++ concat (map fileLines (errorsByFile errors))
  ++ [ lit "## Instructions for Fixing:";
       lit "1. Read each error carefully and understand what is wrong";
       lit "2. Navigate to the specified file and line number";
       lit "3. Apply the appropriate fix based on the error type";
       lit "4. Ensure the fix maintains code functionality";
       lit "5. Verify no new errors are introduced";
       [];
       lit "Please fix these errors now to ensure the application can run properly." ].

Definition generateLLMPrompt (errors : list CompilationError.t) : text :=
  Json.join [Json.nl] (promptLines errors).

(** *** The summary *)

Definition ofType (ty : ErrorType) (errors : list CompilationError.t) : nat :=
  length (List.filter (λ e, bool_decide (type e = ty)) errors).

(** X1: the map behind [createErrorSummary] lists every error type that
    occurs among the errors once, in the order of first occurrence, with
    the exact number of errors of that type; types that do not occur are
    not listed, and the counts add up to the number of errors. *)
Theorem errorTypes_counts (errors : list CompilationError.t) :
  errorTypes errors = map (λ ty, (ty, ofType ty errors)) (firsts (map type errors))
  ∧ NoDup (errorTypes errors).*1
  ∧ (∀ ty, ty ∈ (errorTypes errors).*1 ↔ (0 < ofType ty errors)%nat)
  ∧ sum_list (errorTypes errors).*2 = length errors.
Proof.
  destruct (firsts_spec (map type errors)) as [Hnd Hin].
  assert (Hspec : errorTypes errors
                  = map (λ ty, (ty, ofType ty errors)) (firsts (map type errors)))
    by apply countBy_spec.
  assert (Hkeys : (errorTypes errors).*1 = firsts (map type errors)).
  { rewrite Hspec, <- list_fmap_compose. apply list_fmap_id. }
  split; [done|]. rewrite Hkeys. split; [done|]. split.
  - intros ty. rewrite Hin. unfold ofType. split.
    + intros (e & -> & He)%list_elem_of_fmap. clear -He.
      induction errors as [|e' errors IH]; [by apply elem_of_nil in He|].
      cbn. apply elem_of_cons in He as [->|He].
      * rewrite bool_decide_eq_true_2 by done. cbn. lia.
      * destruct (bool_decide (type e' = type e)); cbn; [lia | by apply IH].
    + intros Hpos. destruct (List.filter _ errors) as [|e l] eqn:Hf; [cbn in Hpos; lia|].
      assert (He : In e (List.filter (λ e, bool_decide (type e = ty)) errors))
        by (rewrite Hf; by left).
      apply filter_In in He as [He Hty]. apply bool_decide_eq_true in Hty. subst.
      apply list_elem_of_fmap_2. by apply list_elem_of_In.
  - apply countBy_total.
Qed.


(** *** The prompt *)

Lemma errorsByFile_entry errors e :
  e ∈ errors →
  (file e, List.filter (λ x, bool_decide (file x = file e)) errors) ∈ errorsByFile errors
  ∧ e ∈ List.filter (λ x, bool_decide (file x = file e)) errors.
Proof.
  intros He. unfold errorsByFile. rewrite groupBy_spec. split.
  - apply list_elem_of_fmap. exists (file e). split; [done|].
    apply (firsts_spec (map file errors)). by apply list_elem_of_fmap_2.
  - apply list_elem_of_In, filter_In. split; [by apply list_elem_of_In|].
    by apply bool_decide_eq_true.
Qed.

(** X2: the prompt built for the model drops no error: for every error of
    the list, the prompt contains the heading of its file and the line with
    its message. *)
Theorem generateLLMPrompt_lists_every_error (errors : list CompilationError.t) :
  Forall (λ e,
    includes (generateLLMPrompt errors) (lit "### File: " ++ file e) = true
    ∧ includes (generateLLMPrompt errors) (lit "**Error Message:** " ++ message e) = true)
    errors.
Proof.
  apply Forall_forall. intros e He.
  destruct (errorsByFile_entry errors e He) as [Hentry Hin].
  set (entry := (file e, List.filter (λ x, bool_decide (file x = file e)) errors)) in *.
  assert (Hlines : ∀ l, l ∈ fileLines entry → l ∈ promptLines errors).
  { intros l Hl. unfold promptLines. apply elem_of_app. right. apply elem_of_app. left.
    apply list_elem_of_In, in_concat. exists (fileLines entry).
    split; [|by apply list_elem_of_In].
    apply in_map. by apply list_elem_of_In. }
  split; apply join_includes, Hlines; unfold fileLines.
  - apply list_elem_of_here.
  - apply elem_of_app. right. cbn [snd entry].
    apply list_elem_of_lookup_1 in Hin as [i Hi].
    apply list_elem_of_In, in_concat. exists (errorLines i e). split.
    + apply list_elem_of_In, elem_of_lookup_imap. by exists i, e.
    + apply list_elem_of_In. unfold errorLines.
      apply elem_of_app. right. apply elem_of_app. right.
      apply elem_of_app. left. apply list_elem_of_here.
Qed.

End ErrorFeedback.

(* ===================================================================== *)
(** ** What [monitorOutput] reports, and when *)
(* ===================================================================== *)

Module MonitorFacts.

Import Regex CompilationError ErrorMonitor.

(** *** Searching with a pattern and searching for a substring *)

Lemma test_iff (r : regex) (s : text) :
  test r s = true
  ↔ ∃ pre post st', s = pre ++ post
      ∧ Match r {| pos := length pre; rest := post; caps := [] |} st'.
Proof.
  unfold test, exec. split.
  - destruct (search r 0 s) as [[i st]|] eqn:Hs; [|done]. intros _.
    apply search_sound in Hs as (pre & post & -> & -> & Hrun).
    apply run_sound in Hrun as (st' & Hm & _). by exists pre, post, st'.
  - intros (pre & post & st' & -> & Hm).
    destruct (run_complete r _ _ Hm Some st' eq_refl) as [res Hres].
    destruct (search_complete r pre post 0 res Hres) as [[i st] ->]. done.
Qed.

Lemma exec_Some_Match (r : regex) (s : text) m :
  exec r s = Some m →
  ∃ pre post st', s = pre ++ post
    ∧ Match r {| pos := length pre; rest := post; caps := [] |} st'
    ∧ groups m = caps st'.
Proof.
  unfold exec. destruct (search r 0 s) as [[i st]|] eqn:Hs; [|done].
  intros [= <-]. apply search_sound in Hs as (pre & post & -> & -> & Hrun).
  apply run_sound in Hrun as (st' & Hm & [= ->]). by exists pre, post, st.
Qed.

Lemma exec_is_Some_iff (r : regex) (s : text) :
  is_Some (exec r s) ↔ test r s = true.
Proof.
  unfold test. destruct (exec r s) as [m|]; split; intros H;
    [done | eauto | by destruct H | done].
Qed.

Lemma Match_Alt_inv a b st st' :
  Match (Alt a b) st st' → Match a st st' ∨ Match b st st'.
Proof. inversion 1; subst; auto. Qed.

Lemma test_Str_includes (p s : text) : test (Str p) s = includes s p.
Proof.
  apply eq_true_iff_eq. rewrite test_iff, includes_iff. split.
  - intros (pre & post & st' & -> & Hm). apply Match_Str_inv in Hm as [-> Hr].
    cbn in Hr. exists pre, (drop (length p) post). by rewrite <- Hr.
  - intros (a & b & ->). exists a, (p ++ b). eexists. split; [done|].
    apply MStr. cbn. apply startsWith_app.
Qed.

(** *** Import errors *)

Lemma importError_iff output :
  test importError output
  = includes output (lit "Cannot find module")
    || includes output (lit "Module not found")
    || includes output (lit "Failed to resolve import").
Proof.
  apply eq_true_iff_eq. rewrite !orb_true_iff, <- !test_Str_includes, !test_iff.
  unfold importError. split.
  - intros (pre & post & st' & -> & Hm).
    apply Match_Alt_inv in Hm as [Hm | Hm]; [left; left; eauto|].
    apply Match_Alt_inv in Hm as [Hm | Hm]; [left; right; eauto | right; eauto].
  - intros [[H | H] | H]; destruct H as (pre & post & st' & -> & Hm);
      exists pre, post, st'; (split; [done|]).
    + by apply MAltL.
    + by apply MAltR, MAltL.
    + by apply MAltR, MAltR.
Qed.

Lemma exec_prefix_includes (p : text) (b : regex) output m :
  exec (Seq (Str p) b) output = Some m → includes output p = true.
Proof.
  intros H. apply exec_Some_Match in H as (pre & post & st' & -> & Hm & _).
  apply inv_seq_str in Hm as (mid & Hr & _). cbn in Hr. rewrite Hr.
  apply includes_occurrence.
Qed.

(** X3: [monitorOutput] reports an import error exactly when the output
    contains "Cannot find module", "Module not found" or "Failed to resolve
    import".  The reported error has no line and no column; its message
    names a module only when the output also contains [Cannot resolve '],
    and otherwise reads "Import error: module not found"; its file is
    "unknown" unless the output contains [in ']. *)
Theorem import_reported_iff now output errorBuffer :
  let found :=
    List.filter (λ e, bool_decide (type e = import))
      (monitorOutput now output errorBuffer).1 in
  (found ≠ []
   ↔ includes output (lit "Cannot find module")
     || includes output (lit "Module not found")
     || includes output (lit "Failed to resolve import") = true)
  ∧ (length found ≤ 1)%nat
  ∧ ∀ e, e ∈ found →
      line e = None ∧ column e = None ∧ rawError e = output
      ∧ (includes output (lit "Cannot resolve '") = false →
         message e = lit "Import error: module not found")
      ∧ (includes output (lit "in '") = false → file e = lit "unknown").
Proof.
  intros found.
  assert (Hfound : found = checkImport now output).
  { subst found. unfold monitorOutput. cbn [fst]. rewrite !List.filter_app.
    rewrite (filter_other_type import (checkVite now output)),
            (filter_other_type import (checkTypeScript now output)).
    - cbn [app]. unfold checkImport. destruct (test importError output); [|done].
      cbn. by rewrite bool_decide_eq_true_2.
    - intros e He. unfold checkTypeScript in He.
      destruct (exec tsRegex output); [|by apply elem_of_nil in He].
      by apply list_elem_of_singleton in He as ->.
    - intros e He. by rewrite (checkVite_types now output e He). }
  rewrite Hfound. unfold checkImport. rewrite <- importError_iff.
  destruct (test importError output).
  - split; [done|]. split; [cbn [length]; lia|]. intros e He.
    apply list_elem_of_singleton in He as ->. cbn [line column rawError message file].
    split; [done|]. split; [done|]. split; [done|]. split.
    + intros Hno. destruct (exec cannotResolve output) as [m|] eqn:Hm; [|done].
      apply exec_prefix_includes in Hm. congruence.
    + intros Hno. destruct (exec inFile output) as [m|] eqn:Hm; [|done].
      apply exec_prefix_includes in Hm. congruence.
  - split; [split; [done | discriminate]|]. split; [cbn [length]; lia|].
    intros e He. by apply elem_of_nil in He.
Qed.


(** *** TypeScript errors *)

Lemma tsRegex_shape output m :
  exec tsRegex output = Some m → containsTsError output.
Proof.
  intros H. apply exec_Some_Match in H as (pre & post & st' & -> & H & _).
  unfold tsRegex, digit, space, dot in H.
  apply inv_seq_group_star in H as (w1 & m1 & _ & R1 & _ & H).
  apply inv_seq_str in H as (m2 & R2 & _ & H).
  apply inv_seq_group_plus in H as (w2 & m3 & N2 & D2 & R3 & _ & H).
  apply inv_seq_str in H as (m4 & R4 & _ & H).
  apply inv_seq_group_plus in H as (w3 & m5 & N3 & D3 & R5 & _ & H).
  apply inv_seq_str in H as (m6 & R6 & _ & H).
  apply inv_seq_plus in H as (s1 & m7 & NS1 & S1 & R7 & _ & H).
  apply inv_seq_str in H as (m8 & R8 & _ & H).
  apply inv_seq_plus in H as (s2 & m9 & NS2 & S2 & R9 & _ & H).
  apply inv_seq_str in H as (m10 & R10 & _ & H).
  apply inv_seq_group_plus in H as (w4 & m11 & N4 & D4 & R11 & _ & H).
  apply inv_seq_str in H as (m12 & R12 & _ & H).
  apply inv_seq_plus in H as (s3 & m13 & NS3 & S3 & R13 & _ & H).
  apply inv_group_plus in H as (w5 & N5 & D5 & R14 & _).
  destruct w5 as [|x msg]; [done|].
  exists pre, w1, w2, w3, s1, s2, w4, s3, x, msg, (rest st').
  split.
  - cbn [rest] in R1. unfold tsErrorLine.
    rewrite R1, R2, R3, R4, R5, R6, R7, R8, R9, R10, R11, R12, R13, R14.
    repeat rewrite <- app_assoc. reflexivity.
  - repeat split; try done.
    inversion D5 as [|? ? Hx _]; subst. by apply negb_true_iff in Hx.
Qed.

(** X4: [monitorOutput] reports a typescript error exactly when the output
    contains a typechecker line [file(line,col): error TS<code>: message]
    (line, column and code being digits, the gaps white space, the message
    starting on the line of the code), and never more than one per call. *)
Theorem typescript_reported_iff now output errorBuffer :
  let found :=
    List.filter (λ e, bool_decide (type e = typescript))
      (monitorOutput now output errorBuffer).1 in
  (found ≠ [] ↔ containsTsError output) ∧ (length found ≤ 1)%nat.
Proof.
  intros found.
  assert (Hfound : found = checkTypeScript now output).
  { subst found. unfold monitorOutput. cbn [fst]. rewrite !List.filter_app.
    rewrite (filter_other_type typescript (checkVite now output)),
            (filter_other_type typescript (checkImport now output)).
    - cbn [app]. rewrite app_nil_r. unfold checkTypeScript.
      destruct (exec tsRegex output); [|done]. cbn. by rewrite bool_decide_eq_true_2.
    - intros e He. by rewrite (checkImport_types now output e He).
    - intros e He. by rewrite (checkVite_types now output e He). }
  rewrite Hfound. unfold checkTypeScript.
  destruct (exec tsRegex output) as [m|] eqn:Hm.
  - split; [|cbn [length]; lia]. split; [|done]. intros _. by eapply tsRegex_shape.
  - split; [|cbn [length]; lia]. split; [done|]. intros Hts.
    apply tsRegex_matches in Hts as [m' Hm']. congruence.
Qed.

(** *** Vite plugin errors *)

Definition sameLine (w : text) : Prop := Forall (λ c, isLineTerminator c = false) w.

(** The text contains a plugin error header followed by a location:
    [[plugin:vite:<name>] <file>:<line>:<column>]. *)
Definition containsViteError (output : text) : Prop :=
  ∃ pre plugin ws fileName l c post,
    output = pre ++ lit "[plugin:vite:" ++ plugin ++ lit "]" ++ ws
             ++ fileName ++ lit ":" ++ l ++ lit ":" ++ c ++ post
    ∧ sameLine plugin ∧ spaces ws
    ∧ fileName ≠ [] ∧ sameLine fileName
    ∧ digits l ∧ digits c.

Lemma sameLine_dot w :
  sameLine w ↔ Forall (λ c, negb (isLineTerminator c) = true) w.
Proof.
  unfold sameLine. apply Forall_iff. intros c. by rewrite negb_true_iff.
Qed.

Lemma inv_seq_star g f b st st' :
  Match (Seq (Star g (Class f)) b) st st' →
  ∃ w mid, Forall (λ c, f c = true) w
    ∧ rest st = w ++ rest mid ∧ caps mid = caps st ∧ Match b mid st'.
Proof.
  intros H. apply Match_Seq_inv in H as (mid & Ha & Hb).
  apply Match_star_class_inv in Ha as (w & Hw & Hr & ->).
  exists w. eauto 10.
Qed.

Lemma ex_seq_star g f w t b st :
  Forall (λ c, f c = true) w → rest st = w ++ t →
  (∀ mid, rest mid = t → ∃ st', Match b mid st') →
  ∃ st', Match (Seq (Star g (Class f)) b) st st'.
Proof.
  intros Hw Hr Hb. destruct (Hb (advance w st)) as [st' H].
  - by apply advance_rest.
  - exists st'. eapply MSeq; [|exact H]. by eapply Match_star_class_intro.
Qed.

Lemma ex_rest_of_input mid :
  ∃ st', Match (Seq (Star false anything) (Eol true)) mid st'.
Proof.
  eapply (ex_seq_star false (λ _, true) (rest mid) []).
  - by apply Forall_true.
  - by rewrite app_nil_r.
  - intros st Hst. exists st. by apply MEolEnd.
Qed.

Lemma viteRegex_matches output :
  containsViteError output → is_Some (exec viteRegex output).
Proof.
  intros (pre & plugin & ws & fileName & l & c & post & -> & Hp & [Hw1 Hw2]
          & Hf1 & Hf2 & [Hl1 Hl2] & [Hc1 Hc2]).
  apply sameLine_dot in Hp, Hf2.
  apply exec_is_Some_iff, test_iff.
  exists pre. eexists. 
  assert (Hm : ∃ st', Match viteRegex
                 {| pos := length pre;
                    rest := lit "[plugin:vite:" ++ plugin ++ lit "]" ++ ws ++ fileName
                            ++ lit ":" ++ l ++ lit ":" ++ c ++ post;
                    caps := [] |} st').
  { unfold viteRegex, digit, space, dot.
    eapply ex_seq_str; [reflexivity|]. intros m1 R1.
    eapply ex_seq_star; [exact Hp | exact R1 |]. intros m2 R2.
    eapply ex_seq_str; [exact R2|]. intros m3 R3.
    eapply ex_seq_plus; [exact Hw1 | exact Hw2 | exact R3 |]. intros m4 R4.
    eapply ex_seq_group_plus; [exact Hf1 | exact Hf2 | exact R4 |]. intros m5 R5.
    eapply ex_seq_str; [exact R5|]. intros m6 R6.
    eapply ex_seq_group_plus; [exact Hl1 | exact Hl2 | exact R6 |]. intros m7 R7.
    eapply ex_seq_str; [exact R7|]. intros m8 R8.
    eapply ex_seq_group_plus; [exact Hc1 | exact Hc2 | exact R8 |]. intros m9 R9.
    apply ex_rest_of_input. }
  destruct Hm as [st' Hm]. exists st'. split; [reflexivity | exact Hm].
Qed.

Lemma viteRegex_shape output m :
  exec viteRegex output = Some m → containsViteError output.
Proof.
  intros H. apply exec_Some_Match in H as (pre & post & st' & -> & H & _).
  unfold viteRegex, digit, space, dot in H.
  apply inv_seq_str in H as (m1 & R1 & _ & H).
  apply inv_seq_star in H as (w1 & m2 & D1 & R2 & _ & H).
  apply inv_seq_str in H as (m3 & R3 & _ & H).
  apply inv_seq_plus in H as (s1 & m4 & NS1 & S1 & R4 & _ & H).
  apply inv_seq_group_plus in H as (w2 & m5 & N2 & D2 & R5 & _ & H).
  apply inv_seq_str in H as (m6 & R6 & _ & H).
  apply inv_seq_group_plus in H as (w3 & m7 & N3 & D3 & R7 & _ & H).
  apply inv_seq_str in H as (m8 & R8 & _ & H).
  apply inv_seq_group_plus in H as (w4 & m9 & N4 & D4 & R9 & _ & H).
  exists pre, w1, s1, w2, w3, w4, (rest m9).
  split.
  - cbn [rest] in R1. rewrite R1, R2, R3, R4, R5, R6, R7, R8, R9.
    repeat rewrite <- app_assoc. reflexivity.
  - repeat split; try done; by apply sameLine_dot.
Qed.

(** X5: [monitorOutput] reports a syntax error exactly when the output
    contains a Vite plugin header followed by a location
    [[plugin:vite:<name>] <file>:<line>:<column>] (header and file each on
    one line), and never more than one per call. *)
Theorem syntax_reported_iff now output errorBuffer :
  let found :=
    List.filter (λ e, bool_decide (type e = syntax))
      (monitorOutput now output errorBuffer).1 in
  (found ≠ [] ↔ containsViteError output) ∧ (length found ≤ 1)%nat.
Proof.
  intros found.
  assert (Hfound : found = checkVite now output).
  { subst found. unfold monitorOutput. cbn [fst]. rewrite !List.filter_app.
    rewrite (filter_other_type syntax (checkTypeScript now output)),
            (filter_other_type syntax (checkImport now output)).
    - rewrite !app_nil_r. unfold checkVite.
      destruct (exec viteRegex output); [|done]. cbn. by rewrite bool_decide_eq_true_2.
    - intros e He. by rewrite (checkImport_types now output e He).
    - intros e He. unfold checkTypeScript in He.
      destruct (exec tsRegex output); [|by apply elem_of_nil in He].
      by apply list_elem_of_singleton in He as ->. }
  rewrite Hfound. unfold checkVite.
  destruct (exec viteRegex output) as [m|] eqn:Hm.
  - split; [|cbn [length]; lia]. split; [|done]. intros _. by eapply viteRegex_shape.
  - split; [|cbn [length]; lia]. split; [done|]. intros Hv.
    apply viteRegex_matches in Hv as [m' Hm']. congruence.
Qed.


(** *** File names *)

Lemma search_Bol_later (b : regex) (s : text) (i : nat) :
  search (Seq Bol b) (S i) s = None.
Proof. revert i. induction s as [|c s IH]; intros i; cbn; [done | apply IH]. Qed.

(** X6: the file of a reported error is the matched file name without one
    leading [/home/project]: a name that starts with it loses exactly
    these 13 characters (also when they are followed by more of a
    directory name), every other name is kept as it is. *)
Theorem stripProject_leading_only (file : text) :
  stripProject file
  = if startsWith (lit "/home/project") file then drop 13 file else file.
Proof.
  unfold stripProject, replace, exec, projectRoot.
  destruct file as [|c file'].
  - reflexivity.
  - cbn [search run]. cbn [pos Nat.eqb rest].
    destruct (startsWith (lit "/home/project") (c :: file')) eqn:Hs.
    + cbn [index whole pos advance]. apply startsWith_length in Hs.
      change (length (lit "/home/project")) with 13%nat in *.
      change (0 + 13 - 0)%nat with 13%nat. rewrite drop_0, take_0, length_take.
      cbn [app]. f_equal. lia.
    + by rewrite search_Bol_later.
Qed.

(** *** The message of a syntax error *)

Definition plain (p : text) : Prop := Forall (λ c, (code c =? 10)%nat = false) p.

Lemma splitLines_cons c s :
  ∃ l ls, splitLines s = l :: ls
    ∧ splitLines (c :: s) = if (code c =? 10)%nat then [] :: l :: ls else (c :: l) :: ls.
Proof.
  assert (H : ∃ l ls, splitLines s = l :: ls).
  { induction s as [|d s (l & ls & IH)]; [by exists [], []|].
    cbn [splitLines]. rewrite IH. destruct (code d =? 10)%nat; eauto. }
  destruct H as (l & ls & Hs). exists l, ls. split; [done|].
  cbn [splitLines]. by rewrite Hs.
Qed.

Lemma startsWith_firstLine p : ∀ s l ls,
  plain p → splitLines s = l :: ls → startsWith p l = startsWith p s.
Proof.
  induction p as [|a p IH]; intros s l ls Hp Hs; [done|].
  inversion Hp as [|? ? Ha Hp']; subst.
  destruct s as [|b s].
  - by injection Hs as <- <-.
  - destruct (splitLines_cons b s) as (l0 & ls0 & Hs0 & Hb). rewrite Hb in Hs.
    destruct (code b =? 10)%nat eqn:Hnl.
    + injection Hs as <- <-. cbn. destruct (ascii_eqb a b) eqn:Hab; [|done].
      apply ascii_eqb_true in Hab. subst. congruence.
    + injection Hs as <- <-. cbn. f_equal. by apply (IH s l0 ls0).
Qed.

(** A phrase without a line break occurs in a text exactly when it occurs
    in one of its lines. *)
Lemma includes_lines p s :
  plain p → p ≠ [] →
  existsb (λ l, includes l p) (splitLines s) = includes s p.
Proof.
  intros Hp Hne. induction s as [|c s IH]; [cbn; by rewrite orb_false_r|].
  destruct (splitLines_cons c s) as (l & ls & Hs & Hc). rewrite Hc.
  rewrite Hs in IH. cbn [existsb] in IH. rewrite includes_cons, <- IH.
  destruct (code c =? 10)%nat eqn:Hnl; cbn [existsb].
  - assert (includes [] p = false) as -> by (by destruct p).
    assert (startsWith p (c :: s) = false) as ->; [|done].
    destruct p as [|a p]; [done|]. inversion Hp as [|? ? Ha _]; subst. cbn.
    destruct (ascii_eqb a c) eqn:Hac; [|done].
    apply ascii_eqb_true in Hac. subst. congruence.
  - rewrite includes_cons, <- orb_assoc. f_equal.
    by apply (startsWith_firstLine p (c :: s) (c :: l) ls Hp).
Qed.

Definition unexpectedToken : text := lit "Unexpected token".
Definition unexpectedIdentifier : text := lit "Unexpected identifier".
Definition declarationExpected : text := lit "Declaration or statement expected".

Definition tokenMessage : text :=
  lit "Syntax Error: Unexpected token - likely missing closing bracket, parenthesis, or incomplete statement".
Definition identifierMessage : text :=
  lit "Syntax Error: Unexpected identifier - check for missing commas or operators".
Definition declarationMessage : text :=
  lit "Syntax Error: Declaration or statement expected - check for incomplete code blocks".

Lemma scanLines_spec (lines : list text) :
  match scanLines lines with
  | Some msg =>
      (msg = tokenMessage ∧ existsb (λ l, includes l unexpectedToken) lines = true)
      ∨ (msg = identifierMessage
         ∧ existsb (λ l, includes l unexpectedIdentifier) lines = true)
      ∨ (msg = declarationMessage
         ∧ existsb (λ l, includes l declarationExpected) lines = true)
  | None =>
      existsb (λ l, includes l unexpectedToken) lines = false
      ∧ existsb (λ l, includes l unexpectedIdentifier) lines = false
      ∧ existsb (λ l, includes l declarationExpected) lines = false
  end.
Proof.
  induction lines as [|l lines IH]; [done|]. cbn [scanLines existsb].
  fold unexpectedToken unexpectedIdentifier declarationExpected.
  destruct (includes l unexpectedToken); [by left|].
  destruct (includes l unexpectedIdentifier);
    [right; left; split; [done | by rewrite orb_true_l]|].
  destruct (includes l declarationExpected);
    [right; right; split; [done | by rewrite orb_true_l]|].
  rewrite !orb_false_l. exact IH.
Qed.

Lemma plain_phrases :
  (plain unexpectedToken ∧ unexpectedToken ≠ [])
  ∧ (plain unexpectedIdentifier ∧ unexpectedIdentifier ≠ [])
  ∧ (plain declarationExpected ∧ declarationExpected ≠ []).
Proof. repeat split; try done; repeat constructor. Qed.

(** X7: [extractErrorMessage] looks at the line number only when the output
    contains none of "Unexpected token", "Unexpected identifier" and
    "Declaration or statement expected".  If one of them occurs anywhere in
    the output the message is one of the three fixed texts, and it is the
    text of a phrase that does occur.  If none occurs, the line with the
    given number is quoted provided the number is positive and smaller than
    the number of lines of the output (so the last line is never quoted);
    otherwise the message is "Compilation error detected". *)
Theorem extractErrorMessage_cases (output : text) (lineNumber : N) :
  let token := includes output unexpectedToken in
  let ident := includes output unexpectedIdentifier in
  let decl := includes output declarationExpected in
  let lines := splitLines output in
  let message := extractErrorMessage output lineNumber in
  (token || ident || decl = true →
     (message = tokenMessage ∧ token = true)
     ∨ (message = identifierMessage ∧ ident = true)
     ∨ (message = declarationMessage ∧ decl = true))
  ∧ (token || ident || decl = false →
     message
     = if (0 <? lineNumber)%N && (lineNumber <? N.of_nat (length lines))%N
       then lit "Error at line " ++ Json.numberToString (Z.of_N lineNumber)
            ++ lit ": " ++ trim (nth (N.to_nat lineNumber - 1) lines [])
       else lit "Compilation error detected").
Proof.
  cbv zeta. destruct plain_phrases as ([T1 T2] & [I1 I2] & [D1 D2]).
  rewrite <- (includes_lines unexpectedToken output T1 T2),
          <- (includes_lines unexpectedIdentifier output I1 I2),
          <- (includes_lines declarationExpected output D1 D2).
  unfold extractErrorMessage. pose proof (scanLines_spec (splitLines output)) as H.
  destruct (scanLines (splitLines output)) as [msg|].
  - split; [intros _; exact H|]. intros Hnone.
    apply orb_false_iff in Hnone as [Hnone ?]. apply orb_false_iff in Hnone as [??].
    destruct H as [[_ H] | [[_ H] | [_ H]]]; congruence.
  - destruct H as (-> & -> & ->). split; [done|]. intros _.
    replace (negb (lineNumber =? 0)%N) with (0 <? lineNumber)%N; [done|].
    destruct lineNumber; reflexivity.
Qed.

Lemma extractErrorMessage_cases_witness :
  extractErrorMessage (lit "a.ts: Unexpected token (3:1)") 3 = tokenMessage
  ∧ extractErrorMessage (lit "first" ++ [Json.nl] ++ lit "  second  ") 2
    = lit "Compilation error detected"
  ∧ extractErrorMessage (lit "first" ++ [Json.nl] ++ lit "  second  ") 1
    = lit "Error at line 1: first".
Proof.
  split; [|split].
  - destruct (proj1 (extractErrorMessage_cases (lit "a.ts: Unexpected token (3:1)") 3)
                eq_refl) as [[H _] | [[_ H] | [_ H]]]; [exact H | discriminate..].
  - exact (proj2 (extractErrorMessage_cases (lit "first" ++ [Json.nl] ++ lit "  second  ") 2)
             eq_refl).
  - exact (proj2 (extractErrorMessage_cases (lit "first" ++ [Json.nl] ++ lit "  second  ") 1)
             eq_refl).
Defined.


(** *** The buffer *)

(** [getErrors], [clearErrors], [getLatestError], [hasCriticalErrors] on
    the monitor whose buffer is [errorBuffer]. *)
Definition getErrors (errorBuffer : list CompilationError.t) : list CompilationError.t :=
  errorBuffer.

Definition clearErrors (errorBuffer : list CompilationError.t) : list CompilationError.t :=
  [].

Definition getLatestError (errorBuffer : list CompilationError.t)
  : option CompilationError.t :=
  last errorBuffer.

Definition hasCriticalErrors (errorBuffer : list CompilationError.t) : bool :=
  existsb (λ error, bool_decide (type error = syntax) || bool_decide (type error = build))
    errorBuffer.

(** The calls a monitor receives. *)
Inductive Call :=
| Monitor (now : Z) (output : text)
| Clear.

Definition call (c : Call) (errorBuffer : list CompilationError.t)
  : list CompilationError.t :=
  match c with
  | Monitor now output => (monitorOutput now output errorBuffer).2
  | Clear => clearErrors errorBuffer
  end.

(** The buffer of a new monitor after the calls [cs], and the outputs it
    was given since the last [clearErrors]. *)
Definition bufferAfter (cs : list Call) : list CompilationError.t :=
  foldl (λ errorBuffer c, call c errorBuffer) [] cs.

Definition sinceClear (cs : list Call) : list text :=
  foldl (λ outputs c, match c with
                      | Monitor _ output => outputs ++ [output]
                      | Clear => []
                      end) [] cs.

Lemma detected_cases now output errorBuffer :
  ∃ v t i,
    (monitorOutput now output errorBuffer).1 = v ++ t ++ i
    ∧ (v = [] ∧ exec viteRegex output = None
       ∨ ∃ e, v = [e] ∧ type e = syntax ∧ is_Some (exec viteRegex output))
    ∧ (t = [] ∨ ∃ e, t = [e] ∧ type e = typescript)
    ∧ (i = [] ∨ ∃ e, i = [e] ∧ type e = import).
Proof.
  exists (checkVite now output), (checkTypeScript now output), (checkImport now output).
  split; [done|]. unfold checkVite, checkTypeScript, checkImport. split; [|split].
  - destruct (exec viteRegex output); [right | left]; eauto.
  - destruct (exec tsRegex output); [right | left]; eauto.
  - destruct (test importError output); [right | left]; eauto.
Qed.

Lemma detected_types now output errorBuffer :
  map type (monitorOutput now output errorBuffer).1 `sublist_of` [syntax; typescript; import]
  ∧ ErrorFeedback.areErrorsAutoFixable (monitorOutput now output errorBuffer).1 = true.
Proof.
  destruct (detected_cases now output errorBuffer) as (v & t & i & -> & Hv & Ht & Hi).
  split.
  - destruct Hv as [[-> _] | (ev & -> & Tv & _)];
      destruct Ht as [-> | (et & -> & Tt)];
      destruct Hi as [-> | (ei & -> & Ti)]; cbn [app map]; rewrite ?Tv, ?Tt, ?Ti;
      repeat first [apply sublist_nil | apply sublist_skip | apply sublist_cons].
  - unfold ErrorFeedback.areErrorsAutoFixable.
    destruct Hv as [[-> _] | (ev & -> & Tv & _)];
      destruct Ht as [-> | (et & -> & Tt)];
      destruct Hi as [-> | (ei & -> & Ti)];
      cbn [app forallb]; rewrite ?Tv, ?Tt, ?Ti; reflexivity.
Qed.

(** X8: one call of [monitorOutput] yields at most one error of each of the
    types syntax, typescript and import, in this order, and none of another
    type.  So the severity [ErrorFeedbackParser.calculateSeverity] gives to
    the errors of one call is never [error]: it is [critical] exactly when
    the output contains a Vite plugin error, and [warning] otherwise; and
    the errors of one call are always auto-fixable. *)
Theorem single_output_severity now output errorBuffer :
  let detected := (monitorOutput now output errorBuffer).1 in
  map type detected `sublist_of` [syntax; typescript; import]
  ∧ (ErrorFeedbackParser.calculateSeverity detected = ErrorFeedbackParser.critical
     ↔ containsViteError output)
  ∧ (ErrorFeedbackParser.calculateSeverity detected = ErrorFeedbackParser.warning
     ↔ ¬ containsViteError output)
  ∧ ErrorFeedback.areErrorsAutoFixable detected = true.
Proof.
  intros detected. subst detected.
  destruct (detected_types now output errorBuffer) as [Hsub Hfix].
  destruct (detected_cases now output errorBuffer) as (v & t & i & Hd & Hv & Ht & Hi).
  rewrite Hd in *. clear Hd.
  assert (Hvite : is_Some (exec viteRegex output) ↔ containsViteError output).
  { split; [intros [m Hm]; by eapply viteRegex_shape | apply viteRegex_matches]. }
  assert (Hsev : ErrorFeedbackParser.calculateSeverity (v ++ t ++ i)
                 = match exec viteRegex output with
                   | Some _ => ErrorFeedbackParser.critical
                   | None => ErrorFeedbackParser.warning
                   end).
  { unfold ErrorFeedbackParser.calculateSeverity.
    destruct Hv as [[-> ->] | (ev & -> & Tv & [m ->])];
      destruct Ht as [-> | (et & -> & Tt)];
      destruct Hi as [-> | (ei & -> & Ti)];
      cbn [app existsb length]; rewrite ?Tv, ?Tt, ?Ti; reflexivity. }
  split; [done|]. split; [|split; [|done]].
  - rewrite Hsev, <- Hvite. destruct (exec viteRegex output) as [m|].
    + split; eauto.
    + split; [done | by intros []].
  - rewrite Hsev, <- Hvite. destruct (exec viteRegex output) as [m|].
    + split; [done|]. intros H. exfalso. apply H. eauto.
    + split; [|done]. intros _ []. done.
Qed.

Lemma hasCriticalErrors_detected now output errorBuffer :
  hasCriticalErrors (monitorOutput now output errorBuffer).1 = true
  ↔ containsViteError output.
Proof.
  destruct (detected_cases now output errorBuffer) as (v & t & i & -> & Hv & Ht & Hi).
  assert (Hvite : is_Some (exec viteRegex output) ↔ containsViteError output).
  { split; [intros [m Hm]; by eapply viteRegex_shape | apply viteRegex_matches]. }
  rewrite <- Hvite. unfold hasCriticalErrors.
  destruct Hv as [[-> ->] | (ev & -> & Tv & [m ->])];
    destruct Ht as [-> | (et & -> & Tt)];
    destruct Hi as [-> | (ei & -> & Ti)];
    cbn [app existsb]; rewrite ?Tv, ?Tt, ?Ti; cbn; split; eauto; try done; by intros [].
Qed.

(** X9: on a monitor that receives any sequence of [monitorOutput] and
    [clearErrors] calls, the buffered errors are always auto-fixable (no
    error of type runtime or build is ever produced), their number is at
    most three for each output monitored since the last [clearErrors], and
    [hasCriticalErrors] holds exactly when one of these outputs contained a
    Vite plugin error. *)
Theorem buffer_after_calls (cs : list Call) :
  let errorBuffer := bufferAfter cs in
  ErrorFeedback.areErrorsAutoFixable (getErrors errorBuffer) = true
  ∧ (length errorBuffer ≤ 3 * length (sinceClear cs))%nat
  ∧ (hasCriticalErrors errorBuffer = true ↔ Exists containsViteError (sinceClear cs)).
Proof.
  induction cs as [|c cs IH] using rev_ind.
  - split; [done|]. split; [done|]. split; [done|]. by intros H%Exists_nil.
  - cbv zeta in *. unfold bufferAfter, sinceClear in *. rewrite !foldl_snoc.
    destruct IH as (IH1 & IH2 & IH3). destruct c as [now output|]; cbn [call].
    + unfold monitorOutput. cbn [snd].
      pose proof (detected_types now output []) as [Hsub Hfix].
      pose proof (hasCriticalErrors_detected now output []) as Hcrit.
      unfold monitorOutput in Hsub, Hfix, Hcrit. cbn [fst] in Hsub, Hfix, Hcrit.
      split; [|split].
      * unfold ErrorFeedback.areErrorsAutoFixable, getErrors in *.
        rewrite forallb_app. by rewrite IH1, Hfix.
      * apply sublist_length in Hsub. rewrite length_map in Hsub. cbn [length] in Hsub.
        rewrite !length_app in *. cbn [length]. lia.
      * unfold hasCriticalErrors in *. rewrite existsb_app, orb_true_iff, Exists_app.
        rewrite IH3, Hcrit. rewrite Exists_cons, Exists_nil. tauto.
    + split; [done|]. split; [cbn; lia|]. split; [done|]. by intros H%Exists_nil.
Qed.

End MonitorFacts.

(* ===================================================================== *)
(** ** Reports inside longer messages *)
(* ===================================================================== *)

Module SearchFacts.

(** No occurrence of [p] in [x ++ y] starts inside [x]. *)
Definition noStart (p x y : text) : Prop :=
  ∀ k, (k < length x)%nat → startsWith p (drop k (x ++ y)) = false.

Lemma indexFrom_noStart p x y i :
  startsWith p y = true → noStart p x y →
  indexFrom p (x ++ y) i = Some (i + len x).
Proof.
  intros Hy. revert i. induction x as [|b x IH]; intros i Hx.
  - unfold len. cbn. destruct y; cbn [indexFrom]; rewrite Hy; f_equal; lia.
  - assert (H0 := Hx 0%nat ltac:(cbn; lia)).
    change (drop 0 ((b :: x) ++ y)) with (b :: (x ++ y)) in H0.
    change ((b :: x) ++ y) with (b :: (x ++ y)).
    cbn [indexFrom]. rewrite H0, IH.
    + f_equal. unfold len. cbn [length]. lia.
    + intros k Hk. apply (Hx (S k)). cbn. lia.
Qed.

Lemma noStart_app p x1 x2 y :
  noStart p x1 (x2 ++ y) → noStart p x2 y → noStart p (x1 ++ x2) y.
Proof.
  intros H1 H2 k Hk. rewrite <- app_assoc.
  destruct (decide (k < length x1)%nat) as [Hlt|Hge]; [by apply H1|].
  rewrite drop_app_ge by lia. apply H2. rewrite length_app in Hk. lia.
Qed.

Lemma startsWith_drop_includes p x k :
  startsWith p (drop k x) = true → includes x p = true.
Proof.
  intros H. apply startsWith_split in H.
  rewrite <- (take_drop k x), H. apply includes_occurrence.
Qed.

(** An occurrence cannot run over a character that the phrase lacks. *)
Lemma noStart_sep p x c y :
  c ∉ p → includes x p = false → noStart p x (c :: y).
Proof.
  intros Hc Hx k Hk. apply not_true_is_false. intros H.
  rewrite drop_app_le in H by lia.
  apply startsWith_app_sep in H; [|done].
  apply startsWith_drop_includes in H. congruence.
Qed.

(** Nor over a second copy of its first character, when that character
    occurs in the phrase only at the start. *)
Lemma noStart_head p c x y :
  c ∉ p → includes x (c :: p) = false → noStart (c :: p) x (c :: y).
Proof.
  intros Hc Hx k Hk. apply not_true_is_false. intros H.
  rewrite drop_app_le in H by lia.
  destruct (drop k x) as [|b x'] eqn:Hd.
  { apply (f_equal length) in Hd. rewrite length_drop in Hd. cbn in Hd. lia. }
  cbn in H. apply andb_true_iff in H as [Hb H].
  apply startsWith_app_sep in H; [|done].
  assert (Hocc : startsWith (c :: p) (drop k x) = true)
    by (rewrite Hd; cbn; by rewrite Hb, H).
  apply startsWith_drop_includes in Hocc. congruence.
Qed.

End SearchFacts.

Module WireFacts.

Import TestAgent SearchFacts.

Abbreviation OPEN := TestFeedbackParser.TEST_RESULT_TAG_OPEN.
Abbreviation CLOSE := TestFeedbackParser.TEST_RESULT_TAG_CLOSE.

(** The part of [parseTestResults] that works on the cut-out element. *)
Definition payload (xmlContent : text) : text :=
  substring xmlContent (indexOf xmlContent (lit ">") + 1) (lastIndexOf xmlContent (lit "<")).

Definition element (J : text) : text :=
  OPEN ++ lit ">" ++ [Json.nl] ++ J ++ [Json.nl] ++ CLOSE.

Lemma tags_located pre J post :
  includes pre OPEN = false → includes pre CLOSE = false →
  includes J CLOSE = false →
  indexOf (pre ++ element J ++ post) OPEN = len pre
  ∧ indexOf (pre ++ element J ++ post) CLOSE = len pre + 18 + len J.
Proof.
  intros HpO HpC HJ. unfold indexOf. split.
  - rewrite (indexFrom_noStart OPEN pre (element J ++ post) 0).
    + lia.
    + unfold element. rewrite <- app_assoc. apply startsWith_app.
    + apply (noStart_head (lit "boltTestResult") "<"%char); [|done].
      rewrite list_elem_of_In. cbn. intuition discriminate.
  - assert (Hnl : Json.nl ∉ CLOSE).
    { rewrite list_elem_of_In. cbn. intuition discriminate. }
    assert (Hlt : "<"%char ∉ lit "/boltTestResult>").
    { rewrite list_elem_of_In. cbn. intuition discriminate. }
    assert (Hmsg : pre ++ element J ++ post
                   = (pre ++ (OPEN ++ lit ">") ++ ([Json.nl] ++ J) ++ [Json.nl])
                     ++ (CLOSE ++ post)).
    { unfold element. by repeat rewrite <- app_assoc. }
    rewrite Hmsg, (indexFrom_noStart CLOSE _ (CLOSE ++ post) 0).
    + unfold len. rewrite !length_app. cbn [length]. 
      change (length OPEN) with 15%nat. change (length (lit ">")) with 1%nat. lia.
    + apply startsWith_app.
    + apply noStart_app; [|apply noStart_app; [|apply noStart_app]].
      * apply (noStart_head (lit "/boltTestResult>") "<"%char); done.
      * apply noStart_sep; done.
      * apply noStart_sep; [done|]. cbn [app]. rewrite includes_cons, HJ.
        by rewrite orb_false_r.
      * apply (noStart_head (lit "/boltTestResult>") "<"%char); done.
Qed.

Lemma parseTestResults_embedded pre J post :
  includes pre OPEN = false → includes pre CLOSE = false →
  includes J CLOSE = false →
  WireFormat.parseTestResults (pre ++ element J ++ post) = Json.parse (payload (element J)).
Proof.
  intros HpO HpC HJ. destruct (tags_located pre J post HpO HpC HJ) as [Hs He].
  unfold TestFeedbackParser.parseTestResults. rewrite Hs, He.
  assert (Hno : (len pre =? -1) || (len pre + 18 + len J =? -1) = false).
  { unfold len. apply orb_false_iff. split; apply Z.eqb_neq; lia. }
  rewrite Hno. cbv zeta. fold (payload (substring (pre ++ element J ++ post) (len pre)
                                          (len pre + 18 + len J + len CLOSE))).
  f_equal. f_equal.
  assert (Hlen : length (element J) = (35 + length J)%nat).
  { unfold element. rewrite !length_app. cbn. lia. }
  unfold len.
  replace (Z.of_nat (length pre) + 18 + Z.of_nat (length J) + Z.of_nat (length CLOSE))
    with (Z.of_nat (length pre + (35 + length J))) by (cbn [length CLOSE]; cbn; lia).
  rewrite substring_take_drop by (rewrite ?length_app; lia).
  rewrite drop_app_length.
  replace (length pre + (35 + length J) - length pre)%nat with (length (element J)) by lia.
  by rewrite take_app_length.
Qed.

(** X10: a report that JSON keeps (its numbers are finite doubles other
    than -0, its objects hold each key once) and that [formatForMessage]
    wrote is read back from the message that contains it, whatever text
    follows it, provided that the text in front of it contains neither tag
    and that the serialization of the report does not contain the closing
    tag. *)
Theorem report_recovered_from_message (report : TestReport) (pre post : text) :
  WireFormat.wellFormedReport report →
  includes (Json.stringify (WireFormat.toJSON report)) CLOSE = false →
  includes pre OPEN = false → includes pre CLOSE = false →
  WireFormat.parseTestResults (pre ++ WireFormat.formatForMessage report ++ post)
  = Some (WireFormat.toJSON report).
Proof.
  intros Hwf HJ HpO HpC.
  change (WireFormat.formatForMessage report)
    with (element (Json.stringify (WireFormat.toJSON report))).
  rewrite parseTestResults_embedded by done.
  rewrite <- (parseTestResults_embedded [] _ []) by done.
  rewrite app_nil_l, app_nil_r. unfold element.
  rewrite WireFormat.parseTestResults_wrapped by done.
  by apply JsonFacts.parse_stringify, WireFormat.toJSON_wellFormed.
Qed.

Lemma report_recovered_from_message_witness :
  WireFormat.parseTestResults
    (lit "The checks ran: " ++ WireFormat.formatForMessage WireFormat.plainReport
     ++ lit " and </boltTestResult> again")
  = Some (WireFormat.toJSON WireFormat.plainReport).
Proof.
  apply (report_recovered_from_message WireFormat.plainReport).
  - split; [by vm_compute|]. split; [WireFormat.number_kept|].
    split; [by vm_compute|]. split.
    + repeat constructor; intros d Hd; vm_compute in Hd; injection Hd as <-;
        WireFormat.value_kept.
    + intros m Hm. vm_compute in Hm. injection Hm as <-. WireFormat.value_kept.
  - vm_compute. reflexivity.
  - vm_compute. reflexivity.
  - vm_compute. reflexivity.
Defined.

End WireFacts.

(* ===================================================================== *)
(** ** Reports, their severity and their suggestions *)
(* ===================================================================== *)

Module ReportFacts.

Import TestAgent.

Lemma count_failed_zero rs :
  count_status failed rs = 0%N ↔ Forall (λ r, status r ≠ failed) rs.
Proof.
  induction rs as [|r rs IH].
  - split; [constructor | reflexivity].
  - rewrite count_status_cons, Forall_cons, <- IH. unfold has_status.
    destruct (decide (status r = failed)) as [Hf|Hf].
    + rewrite bool_decide_eq_true_2 by done. split; [lia | intros [? _]; done].
    + rewrite bool_decide_eq_false_2 by done. split; [intros H; split; [done | lia] | intros [_ ?]; lia].
Qed.

(** X11: the severity of a report that [createReport] built, read off the
    results: an empty run is an error; a run with at least one result is a
    success exactly when no result failed (results that are skipped or
    carry a warning do not count against it); and it is a warning exactly
    when some but fewer than three in ten of the results failed. *)
Theorem severity_of_created_report name now suggest rs dur meta :
  let sev := TestFeedbackParser.calculateSeverity (createReport name now suggest rs dur meta) in
  let f := count_status failed rs in
  let n := N.of_nat (length rs) in
  (rs = [] → sev = TestFeedbackParser.error)
  ∧ (rs ≠ [] → (sev = TestFeedbackParser.success ↔ Forall (λ r, status r ≠ failed) rs))
  ∧ (sev = TestFeedbackParser.warning ↔ (0 < f ∧ 10 * f < 3 * n)%N).
Proof.
  cbv zeta.
  unfold TestFeedbackParser.calculateSeverity, TestFeedbackParser.failureRate, Num.div.
  cbn [summary createReport total s_failed].
  rewrite <- count_failed_zero.
  set (f := count_status failed rs).
  assert (Hle : (f <= N.of_nat (length rs))%N).
  { unfold f. rewrite <- (status_partition rs). lia. }
  destruct rs as [|r rs].
  { cbn. repeat split; try done; intros; lia. }
  set (n := length (r :: rs)) in *.
  assert (Hn : N.of_nat n = N.pos (Pos.of_nat n)).
  { unfold n. cbn [length]. lia. }
  rewrite Hn in *. cbn [Num.is_zero Num.lt_const].
  destruct (decide (f = 0%N)) as [Hf|Hf].
  - rewrite Hf. cbn. repeat split; try done. intros [? _]. lia.
  - assert (Hz : Qeq_bool (Z.of_N f # Pos.of_nat n) 0 = false).
    { apply not_true_is_false. intros H. apply Qeq_bool_iff in H.
      unfold Qeq in H. simpl in H. lia. }
    rewrite Hz.
    destruct (Qle_bool (3 # 10) (Z.of_N f # Pos.of_nat n)) eqn:Hq; cbn [negb].
    + apply Qle_bool_iff in Hq. unfold Qle in Hq. simpl in Hq.
      repeat split; try done. intros [_ ?]. lia.
    + assert (Hlt : ¬ (3 # 10 <= Z.of_N f # Pos.of_nat n)%Q).
      { intros H. apply Qle_bool_iff in H. congruence. }
      unfold Qle in Hlt. simpl in Hlt.
      repeat split; try done; lia.
Qed.





End ReportFacts.

(* ===================================================================== *)
(** ** The test stores (stores/tests.ts) *)
(* ===================================================================== *)

Module TestStore.

Import TestAgent.

(** [TestState]; [currentTest] is [undefined] when [None]. *)
Record TestState := {
  isRunning : bool;
  currentTest : option ActionRunner.BoltAction;
  reports : list TestReport;
  showResults : bool;
  selectedReportIndex : Z;
}.

Record Progress := {
  current : Z;
  progressTotal : Z;
  message : text;
}.

(** The three stores of the module.  [testReports] is an object used as a
    map from ids to reports; the functions below that read it take
    [Object.values] and then a sum or a [some], which do not depend on the
    order of the values. *)
Record Stores := {
  testReports : gmap string TestReport;
  testState : TestState;
  testProgress : Progress;
}.

Definition initial : Stores :=
  {| testReports := ∅;
     testState := {| isRunning := false; currentTest := None; reports := [];
                     showResults := false; selectedReportIndex := -1 |};
     testProgress := {| current := 0; progressTotal := 0; message := [] |} |}.

Definition addTestReport (id : string) (report : TestReport) (s : Stores) : Stores :=
  let currentState := testState s in
  {| testReports := <[id := report]> (testReports s);
     testState := {| isRunning := isRunning currentState;
                     currentTest := currentTest currentState;
                     reports := reports currentState ++ [report];
                     showResults := true;
                     selectedReportIndex := selectedReportIndex currentState |};
     testProgress := testProgress s |}.

Definition clearTestReports (s : Stores) : Stores :=
  {| testReports := ∅;
     testState := {| isRunning := false; currentTest := None; reports := [];
                     showResults := false; selectedReportIndex := -1 |};
     testProgress := testProgress s |}.

Definition setTestRunning (running : bool) (test : option ActionRunner.BoltAction)
    (s : Stores) : Stores :=
  let currentState := testState s in
  {| testReports := testReports s;
     testState := {| isRunning := running;
                     currentTest := test;
                     reports := reports currentState;
                     showResults := showResults currentState;
                     selectedReportIndex := selectedReportIndex currentState |};
     testProgress := testProgress s |}.

Definition toggleTestResults (s : Stores) : Stores :=
  let currentState := testState s in
  {| testReports := testReports s;
     testState := {| isRunning := isRunning currentState;
                     currentTest := currentTest currentState;
                     reports := reports currentState;
                     showResults := negb (showResults currentState);
                     selectedReportIndex := selectedReportIndex currentState |};
     testProgress := testProgress s |}.

Definition selectTestReport (index : Z) (s : Stores) : Stores :=
  let currentState := testState s in
  {| testReports := testReports s;
     testState := {| isRunning := isRunning currentState;
                     currentTest := currentTest currentState;
                     reports := reports currentState;
                     showResults := showResults currentState;
                     selectedReportIndex := index |};
     testProgress := testProgress s |}.

Definition updateTestProgress (cur tot : Z) (msg : text) (s : Stores) : Stores :=
  {| testReports := testReports s;
     testState := testState s;
     testProgress := {| current := cur; progressTotal := tot; message := msg |} |}.

(** [Object.values(testReports.get())] *)
Definition values (s : Stores) : list TestReport := (map_to_list (testReports s)).*2.

Record TestSummary := {
  totalTests : N;
  totalPassed : N;
  totalFailed : N;
  passRate : Q;
}.

(** [getTestSummary].  The pass rate is kept as the exact rational. *)
Definition getTestSummary (s : Stores) : TestSummary :=
  let reports := values s in
  let totalTests := foldl (λ sum r, sum + total (summary r))%N 0%N reports in
  let totalPassed := foldl (λ sum r, sum + s_passed (summary r))%N 0%N reports in
  let totalFailed := foldl (λ sum r, sum + s_failed (summary r))%N 0%N reports in
  {| totalTests := totalTests;
     totalPassed := totalPassed;
     totalFailed := totalFailed;
     passRate := if (0 <? totalTests)%N
                 then (Z.of_N totalPassed # N.succ_pos (N.pred totalTests)) * 100
                 else 0 |}.

(** [hasFailingTests] *)
Definition hasFailingTests (s : Stores) : bool :=
  existsb (λ r, (0 <? s_failed (summary r))%N) (values s).

(** The calls a client makes on the module. *)
Inductive Call :=
| Add (id : string) (report : TestReport)
| ClearReports
| SetRunning (running : bool) (test : option ActionRunner.BoltAction)
| Toggle
| Select (index : Z)
| UpdateProgress (cur tot : Z) (msg : text).

Definition call (s : Stores) (c : Call) : Stores :=
  match c with
  | Add id report => addTestReport id report s
  | ClearReports => clearTestReports s
  | SetRunning b t => setTestRunning b t s
  | Toggle => toggleTestResults s
  | Select i => selectTestReport i s
  | UpdateProgress c t m => updateTestProgress c t m s
  end.

Definition run (cs : list Call) : Stores := foldl call initial cs.

(** The reports added since the last [clearTestReports], oldest first. *)
Definition added (cs : list Call) : list (string * TestReport) :=
  foldl (λ l c, match c with
                | Add id report => l ++ [(id, report)]
                | ClearReports => []
                | _ => l
                end) [] cs.

Lemma foldl_sum (f : TestReport → N) (l : list TestReport) (a : N) :
  foldl (λ sum r, sum + f r)%N a l = (a + foldl (λ sum r, sum + f r)%N 0%N l)%N.
Proof.
  revert a. induction l as [|r l IH]; intros a; cbn [foldl]; [lia|].
  rewrite IH, (IH (0 + f r)%N). lia.
Qed.

Lemma foldl_sum_le (f g : TestReport → N) (l : list TestReport) :
  Forall (λ r, f r <= g r)%N l →
  (foldl (λ sum r, sum + f r)%N 0%N l <= foldl (λ sum r, sum + g r)%N 0%N l)%N.
Proof.
  induction 1 as [|r l Hr _ IH]; cbn [foldl]; [lia|].
  rewrite (foldl_sum f), (foldl_sum g). lia.
Qed.

Lemma foldl_sum_pos (f : TestReport → N) (l : list TestReport) :
  existsb (λ r, (0 <? f r)%N) l = true ↔ (0 < foldl (λ sum r, sum + f r)%N 0%N l)%N.
Proof.
  induction l as [|r l IH]; cbn [existsb foldl]; [split; [done | lia]|].
  rewrite foldl_sum, orb_true_iff, IH, N.ltb_lt. lia.
Qed.

(** X13: over the stored reports, whatever they are, [hasFailingTests] says
    yes exactly when the summary counts a failed test, and the pass rate is
    never negative.  When no report counts more passed tests than tests,
    the passed total is at most the test total and the pass rate is at most
    100, reaching 100 exactly when there is a test and every test passed. *)
Theorem store_summary_consistent (s : Stores) :
  let sm := getTestSummary s in
  (hasFailingTests s = true ↔ (0 < totalFailed sm)%N)
  ∧ (0 <= passRate sm)%Q
  ∧ (map_Forall (λ _ r, (s_passed (summary r) <= total (summary r))%N) (testReports s) →
     (totalPassed sm <= totalTests sm)%N
     ∧ (passRate sm <= 100)%Q
     ∧ (passRate sm == 100 ↔ (0 < totalTests sm)%N ∧ totalPassed sm = totalTests sm)%Q).
Proof.
  cbv zeta. unfold getTestSummary, hasFailingTests.
  cbn [totalTests totalPassed totalFailed passRate].
  set (t := foldl (λ sum r, (sum + total (summary r))%N) 0%N (values s)).
  set (p := foldl (λ sum r, (sum + s_passed (summary r))%N) 0%N (values s)).
  assert (Hd : (0 < t)%N → Z.pos (N.succ_pos (N.pred t)) = Z.of_N t).
  { intros Ht. change (Z.pos (N.succ_pos (N.pred t)))
      with (Z.of_N (N.pos (N.succ_pos (N.pred t)))).
    rewrite N.succ_pos_spec. lia. }
  split; [apply foldl_sum_pos|]. split.
  - destruct (0 <? t)%N eqn:Ht.
    + apply N.ltb_lt in Ht. unfold Qle, Qmult. cbn [Qnum Qden].
      rewrite !Pos2Z.inj_mul, (Hd Ht). nia.
    + unfold Qle. cbn. lia.
  - intros Hall.
    assert (Hle : Forall (λ r, (s_passed (summary r) <= total (summary r))%N) (values s)).
    { unfold values. apply Forall_forall. intros r Hin.
      apply list_elem_of_fmap in Hin as ([k r'] & -> & Hin).
      apply elem_of_map_to_list in Hin. by apply (Hall k). }
    apply (foldl_sum_le _ _ _) in Hle. fold t p in Hle.
    split; [done|].
    destruct (0 <? t)%N eqn:Ht.
    + apply N.ltb_lt in Ht.
      unfold Qle, Qeq, Qmult. cbn [Qnum Qden]. rewrite !Pos2Z.inj_mul, !(Hd Ht).
      repeat split; try nia.
    + apply N.ltb_ge in Ht. unfold Qle, Qeq. cbn. repeat split; try lia.
Qed.

Definition greenRun : TestReport :=
  createReport (lit "BrowserTest") 0 generateSuggestions
    [{| testName := lit "loads"; status := passed; error := None; details := None |}]
    12 None.

Lemma store_summary_consistent_witness :
  let sm := getTestSummary (run [Add "t1" greenRun]) in
  (totalPassed sm <= totalTests sm)%N
  ∧ (passRate sm <= 100)%Q
  ∧ (passRate sm == 100 ↔ (0 < totalTests sm)%N ∧ totalPassed sm = totalTests sm)%Q.
Proof.
  apply (store_summary_consistent (run [Add "t1" greenRun])).
  unfold run. cbn [foldl call addTestReport testReports initial].
  apply map_Forall_insert_2; [|apply map_Forall_empty].
  vm_compute. discriminate.
Defined.

(** X14: after any sequence of calls the state list holds every report added
    since the last [clearTestReports], in the order of the calls, while the
    map holds for each id only the report added last under it, so the map
    never has more entries than the list; and the progress store is what
    the last [updateTestProgress] wrote, which [clearTestReports] does not
    reset. *)
Theorem store_after_calls (cs : list Call) :
  let s := run cs in
  reports (testState s) = (added cs).*2
  ∧ (∀ id, testReports s !! id
           = last (List.filter (λ p, bool_decide (p.1 = id)) (added cs)).*2)
  ∧ (size (testReports s) ≤ length (reports (testState s)))%nat
  ∧ testProgress s
    = foldl (λ p c, match c with
                    | UpdateProgress cur tot msg =>
                        {| current := cur; progressTotal := tot; message := msg |}
                    | _ => p
                    end) (testProgress initial) cs.
Proof.
  cbv zeta. unfold run, added.
  induction cs as [|c cs (IH1 & IH2 & IH3 & IH4)] using rev_ind.
  - split; [done|]. split; [intros id; apply lookup_empty|]. split; [|done].
    cbn [foldl initial testReports]. by rewrite map_size_empty.
  - rewrite !foldl_snoc.
    destruct c; cbn [call addTestReport clearTestReports setTestRunning
                     toggleTestResults selectTestReport updateTestProgress
                     testState testReports testProgress reports];
      try (repeat split; done).
    split; [|split; [|split; [|done]]].
    + by rewrite IH1, fmap_app.
    + intros k. rewrite List.filter_app, fmap_app. cbn [List.filter fst].
      destruct (decide (id = k)) as [->|Hne].
      * rewrite lookup_insert_eq, bool_decide_eq_true_2 by done.
        cbn [fmap list_fmap snd]. by rewrite last_snoc.
      * rewrite lookup_insert_ne, bool_decide_eq_false_2 by done.
        cbn [fmap list_fmap]. rewrite app_nil_r. apply IH2.
    + rewrite length_app. cbn [length].
      destruct (testReports (foldl call initial cs) !! id) eqn:Hl.
      * rewrite map_size_insert_Some by done. lia.
      * rewrite map_size_insert_None by done. lia.
Qed.

End TestStore.

(* ===================================================================== *)
(** ** The subagent manager: bookkeeping of delegations *)
(* ===================================================================== *)

Module Delegation.

Import SubagentManager.

(** [chunkArray(array, size)]: the loop
    [for (i = 0; i < array.length; i += size) chunks.push(array.slice(i, i + size))],
    run for at most [fuel] iterations. *)
Fixpoint chunkLoop {A} (fuel : nat) (array : list A) (size i : nat) : list (list A) :=
  match fuel with
  | O => []
  | S fuel' =>
      if (i <? length array)%nat
      then take size (drop i array) :: chunkLoop fuel' array size (i + size)
      else []
  end.

(** With a positive [size] the loop ends within [array.length] iterations.
    (With [size = 0] and a non-empty array it does not end.) *)
Definition chunkArray {A} (array : list A) (size : nat) : list (list A) :=
  chunkLoop (length array) array size 0.

Lemma chunkLoop_spec {A} (array : list A) (size : nat) :
  (0 < size)%nat →
  ∀ fuel i, (length array ≤ i + fuel)%nat →
    concat (chunkLoop fuel array size i) = drop i array
    ∧ Forall (λ c, (0 < length c ≤ size)%nat) (chunkLoop fuel array size i)
    ∧ (∀ cs c, chunkLoop fuel array size i = cs ++ [c] →
         Forall (λ c', length c' = size) cs)
    ∧ ∀ fuel', (length array ≤ i + fuel')%nat →
        chunkLoop fuel' array size i = chunkLoop fuel array size i.
Proof.
  intros Hsize. induction fuel as [|fuel IH]; intros i Hfuel.
  - cbn. rewrite drop_ge by lia. repeat split; try done.
    + intros cs c H. by destruct cs.
    + intros [|fuel'] Hf'; [done|]. cbn [chunkLoop].
      by rewrite (proj2 (Nat.ltb_ge _ _)) by lia.
  - cbn [chunkLoop]. destruct (i <? length array)%nat eqn:Hi.
    + apply Nat.ltb_lt in Hi.
      destruct (IH (i + size)%nat ltac:(lia)) as (H1 & H2 & H3 & H4).
      split; [|split; [|split]].
      * cbn [concat]. rewrite H1, <- drop_drop. apply take_drop.
      * constructor; [|done]. rewrite length_take, length_drop. lia.
      * intros cs c Heq. destruct cs as [|c0 cs]; [done|].
        injection Heq as <- Heq. constructor; [|by eapply H3].
        rewrite length_take, length_drop.
        destruct (decide (i + size < length array)%nat) as [Hlt|Hge]; [lia|].
        exfalso. destruct fuel as [|fuel]; [by destruct cs|]. cbn [chunkLoop] in Heq.
        rewrite (proj2 (Nat.ltb_ge _ _)) in Heq by lia.
        by destruct cs.
      * intros [|fuel'] Hf'; [lia|]. cbn [chunkLoop].
        rewrite (proj2 (Nat.ltb_lt _ _)) by lia.
        f_equal. apply H4. lia.
    + apply Nat.ltb_ge in Hi. rewrite drop_ge by lia. repeat split; try done.
      * intros cs c H. by destruct cs.
      * intros [|fuel'] Hf'; [done|]. cbn [chunkLoop].
        by rewrite (proj2 (Nat.ltb_ge _ _)) by lia.
Qed.

(** X15: for a positive chunk size, [chunkArray] cuts the array into
    consecutive pieces: their concatenation is the array, no piece is empty
    or longer than [size], every piece but the last has exactly [size]
    elements, and the loop needs no more than [array.length] iterations. *)
Theorem chunkArray_partition {A} (array : list A) (size : nat) :
  (0 < size)%nat →
  concat (chunkArray array size) = array
  ∧ Forall (λ c, (0 < length c ≤ size)%nat) (chunkArray array size)
  ∧ (∀ cs c, chunkArray array size = cs ++ [c] → Forall (λ c', length c' = size) cs)
  ∧ ∀ fuel, (length array ≤ fuel)%nat →
      chunkLoop fuel array size 0 = chunkArray array size.
Proof.
  intros Hsize. unfold chunkArray.
  destruct (chunkLoop_spec array size Hsize (length array) 0 ltac:(lia))
    as (H1 & H2 & H3 & H4).
  rewrite drop_0 in H1. by repeat split.
Qed.

Lemma chunkArray_partition_witness :
  chunkArray [1; 2; 3; 4; 5; 6; 7]%nat 3 = [[1; 2; 3]; [4; 5; 6]; [7]]%nat
  ∧ concat (chunkArray [1; 2; 3; 4; 5; 6; 7]%nat 3) = [1; 2; 3; 4; 5; 6; 7]%nat.
Proof.
  split; [reflexivity|].
  apply (chunkArray_partition [1; 2; 3; 4; 5; 6; 7]%nat 3). lia.
Defined.


(** *** The rest of the manager *)

(** [unregisterAgent] *)
Definition unregisterAgent (agentName : string) (m : Manager) : Manager :=
  {| agents := List.filter (λ ka, negb (bool_decide (ka.1 = agentName))) (agents m);
     heap := heap m;
     activeTasks := activeTasks m;
     completedTasks := completedTasks m |}.

(** [getAgent] *)
Definition getAgent (n : string) (m : Manager) : option Subagent :=
  snd <$> List.find (λ ka, bool_decide (ka.1 = n)) (agents m).

(** [getTaskStatus]: the active record, else the first completed record of
    a task with this id. *)
Definition getTaskStatus (taskId : string) (m : Manager) : option TaskDelegation :=
  match activeTasks m !! taskId ≫= deref m with
  | Some d => Some d
  | None => List.find (λ d, bool_decide (id (task d) = taskId)) (completedList m)
  end.

(** [getLastActivity]: the reducer
    [(latest, task) => !latest || (taskTime && taskTime > latest) ? taskTime : latest]
    with [taskTime = task.endTime || task.startTime]. *)
Definition taskTime (d : TaskDelegation) : option Z :=
  match endTime d with Some e => Some e | None => startTime d end.

Definition laterOf (latest : option Z) (d : TaskDelegation) : option Z :=
  match latest with
  | None => taskTime d
  | Some l =>
      match taskTime d with
      | Some time => if l <? time then Some time else Some l
      | None => Some l
      end
  end.

Definition getLastActivity (agentName : string) (m : Manager) : option Z :=
  let tasks := List.filter (λ d, bool_decide (agent d = agentName)) (completedList m) in
  match tasks with
  | [] => None
  | _ => fold_left laterOf tasks None
  end.

(** [getStatistics] *)
Record Statistics := {
  totalAgents : nat;
  activeAgents : nat;
  totalTasks : nat;
  activeCount : nat;        (* activeTasks *)
  completedCount' : nat;    (* completedTasks *)
  successRate : Q;
}.

Definition getStatistics (m : Manager) : Statistics :=
  let activeAgentNames : gset string := list_to_set (map agent (activeList m)) in
  let successfulTasks :=
    length (List.filter (λ d, bool_decide (status d = d_completed)) (completedList m)) in
  let totalCompleted := length (completedTasks m) in
  {| totalAgents := length (agents m);
     activeAgents := size activeAgentNames;
     totalTasks := size (activeTasks m) + length (completedTasks m);
     activeCount := size (activeTasks m);
     completedCount' := totalCompleted;
     successRate :=
       match totalCompleted with
       | O => 0%Q
       | S n => ((Z.of_nat successfulTasks # Pos.of_succ_nat n) * 100)%Q
       end |}.

(** *** Delegations in flight *)

(** A call of [delegateTask] that is waiting for [agent.execute(task)]. *)
Record Awaiting := {
  a_task : SubagentTask;
  a_agent : Subagent;
  a_ref : nat;
}.

(** The manager together with the calls of [delegateTask] in flight. *)
Record System := {
  manager : Manager;
  awaiting : list Awaiting;
}.

Definition init : System := {| manager := empty; awaiting := [] |}.

Inductive Event :=
| ERegister (a : Subagent)
| EUnregister (agentName : string)
| EDelegate (now : Z) (t : SubagentTask)     (* delegateTask is called *)
| ESettle (now : Z) (n : nat)                (* the n-th awaited execute settles *)
| ECancel (now : Z) (taskId : string).

Definition step (ev : Event) (s : System) : System :=
  match ev with
  | ERegister a => {| manager := registerAgent a (manager s); awaiting := awaiting s |}
  | EUnregister n => {| manager := unregisterAgent n (manager s); awaiting := awaiting s |}
  | EDelegate now t =>
      match startTask now t (manager s) with
      | (NoAgent _, m') => {| manager := m'; awaiting := awaiting s |}
      | (Running a ref, m') =>
          {| manager := m';
             awaiting := awaiting s ++ [{| a_task := t; a_agent := a; a_ref := ref |}] |}
      end
  | ESettle now n =>
      match awaiting s !! n with
      | Some c =>
          {| manager := (finishTask now (a_task c) (a_agent c) (a_ref c)
                           (execute (a_agent c) (a_task c)) (manager s)).2;
             awaiting := delete n (awaiting s) |}
      | None => s
      end
  | ECancel now taskId =>
      {| manager := (cancelTask now taskId (manager s)).2; awaiting := awaiting s |}
  end.

Definition run (evs : list Event) (s : System) : System :=
  foldl (λ s ev, step ev s) s evs.

(** What the records of a manager look like. *)
Definition ended (d : TaskDelegation) : Prop :=
  (status d = d_completed ∨ status d = d_failed) ∧ is_Some (endTime d).

Record wf (s : System) : Prop := {
  wf_active k ref :
    activeTasks (manager s) !! k = Some ref →
    ∃ d, heap (manager s) !! ref = Some d
         ∧ id (task d) = k ∧ status d = d_running ∧ endTime d = None;
  wf_completed ref :
    ref ∈ completedTasks (manager s) →
    ∃ d, heap (manager s) !! ref = Some d ∧ ended d;
  wf_awaiting c :
    c ∈ awaiting s →
    ∃ d, heap (manager s) !! a_ref c = Some d
         ∧ task d = a_task c ∧ agent d = name (a_agent c);
  wf_names ka : ka ∈ agents (manager s) → ka.1 = name ka.2;
}.

Lemma init_wf : wf init.
Proof.
  split; cbn.
  - intros k ref H. by rewrite lookup_empty in H.
  - intros ref H. by apply elem_of_nil in H.
  - intros c H. by apply elem_of_nil in H.
  - intros ka H. by apply elem_of_nil in H.
Qed.

Lemma map_set_names (a : Subagent) (l : list (string * Subagent)) :
  (∀ ka, ka ∈ l → ka.1 = name ka.2) →
  ∀ ka, ka ∈ map_set (name a) a l → ka.1 = name ka.2.
Proof.
  induction l as [|[k b] l IH]; intros H ka Hka; cbn in Hka.
  - by apply list_elem_of_singleton in Hka as ->.
  - destruct (decide (k = name a)).
    + apply elem_of_cons in Hka as [-> | Hka]; [done|].
      apply H. by apply list_elem_of_further.
    + apply elem_of_cons in Hka as [-> | Hka].
      * apply (H (k, b)). apply list_elem_of_here.
      * apply IH; [|done]. intros x Hx. apply H. by apply list_elem_of_further.
Qed.

(** The update of a record when its task ends. *)
Definition endsRecord (f : TaskDelegation → TaskDelegation) : Prop :=
  ∀ d, task (f d) = task d ∧ agent (f d) = agent d ∧ ended (f d).

Lemma end_record_wf (f : TaskDelegation → TaskDelegation) k ref s m' :
  endsRecord f →
  (∃ d, heap (manager s) !! ref = Some d ∧ id (task d) = k) →
  agents m' = agents (manager s) →
  heap m' = alter f ref (heap (manager s)) →
  activeTasks m' = delete k (activeTasks (manager s)) →
  completedTasks m' = completedTasks (manager s) ++ [ref] →
  wf s → ∀ aw, (∀ c, c ∈ aw → c ∈ awaiting s) →
  wf {| manager := m'; awaiting := aw |}.
Proof.
  intros Hf (d0 & Hd0 & Hk0) Hag Hheap Hact Hcomp [W1 W2 W3 W4] aw Haw.
  split; cbn; rewrite ?Hag, ?Hheap, ?Hact, ?Hcomp; auto.
  - intros k' ref' Hk'. apply lookup_delete_Some in Hk' as [Hne Hk'].
    destruct (W1 k' ref' Hk') as (d & Hd & Hid & Hst & He).
    exists d. split; [|done]. rewrite list_lookup_alter_ne; [done|].
    intros ->. rewrite Hd0 in Hd. injection Hd as ->. congruence.
  - intros ref' Href'. apply elem_of_app in Href' as [Href' | Href'].
    + destruct (W2 ref' Href') as (d & Hd & He).
      destruct (decide (ref = ref')) as [->|Hne].
      * exists (f d). rewrite list_lookup_alter_eq, Hd. split; [done|]. apply Hf.
      * exists d. by rewrite list_lookup_alter_ne.
    + apply list_elem_of_singleton in Href' as ->.
      exists (f d0). rewrite list_lookup_alter_eq, Hd0. split; [done|]. apply Hf.
  - intros c Hc. destruct (W3 c (Haw c Hc)) as (d & Hd & Ht & Ha).
    destruct (decide (ref = a_ref c)) as [->|Hne].
    + exists (f d). rewrite list_lookup_alter_eq, Hd. split; [done|].
      destruct (Hf d) as (-> & -> & _). done.
    + exists d. by rewrite list_lookup_alter_ne.
Qed.

Lemma endsRecord_finish now outcome :
  endsRecord (λ d,
    match outcome with
    | Resolved r =>
        {| task := task d; agent := agent d;
           status := if success r then d_completed else d_failed;
           result := Some r; startTime := startTime d; endTime := Some now |}
    | Thrown _ =>
        {| task := task d; agent := agent d; status := d_failed;
           result := result d; startTime := startTime d; endTime := Some now |}
    end).
Proof.
  intros d. destruct outcome as [r|msg]; cbn; repeat split; eauto.
  destruct (success r); auto.
Qed.

Lemma endsRecord_cancel now :
  endsRecord (λ d,
    {| task := task d; agent := agent d; status := d_failed;
       result := result d; startTime := startTime d; endTime := Some now |}).
Proof. intros d. cbn. repeat split; eauto. Qed.

Lemma step_wf ev s : wf s → wf (step ev s).
Proof.
  intros W. pose proof W as [W1 W2 W3 W4]. destruct ev as [a | n | now t | now n | now k]; cbn.
  - split; cbn; auto. by apply map_set_names.
  - split; cbn; auto. intros ka Hka. apply list_elem_of_In, filter_In in Hka as [Hka _].
    by apply W4, list_elem_of_In.
  - unfold startTask. destruct (findSuitableAgent (manager s) t) as [a|]; [|by destruct s].
    split; cbn.
    + intros k ref Hk. apply lookup_insert_Some in Hk as [[<- <-] | [Hne Hk]].
      * eexists. rewrite lookup_app_r, Nat.sub_diag by done. done.
      * destruct (W1 k ref Hk) as (d & Hd & ?). exists d.
        split; [|done]. rewrite lookup_app_l; [done|]. by eapply lookup_lt_Some.
    + intros ref Href. destruct (W2 ref Href) as (d & Hd & ?). exists d.
      split; [|done]. rewrite lookup_app_l; [done|]. by eapply lookup_lt_Some.
    + intros c Hc. apply elem_of_app in Hc as [Hc | Hc].
      * destruct (W3 c Hc) as (d & Hd & ?). exists d.
        split; [|done]. rewrite lookup_app_l; [done|]. by eapply lookup_lt_Some.
      * apply list_elem_of_singleton in Hc as ->. cbn.
        eexists. rewrite lookup_app_r, Nat.sub_diag by done. done.
    + done.
  - destruct (awaiting s !! n) as [c|] eqn:Hn; [|done].
    destruct (W3 c) as (d & Hd & Ht & Ha); [by eapply list_elem_of_lookup_2|].
    eapply (end_record_wf _ (id (a_task c)) (a_ref c) s);
      [apply (endsRecord_finish now (execute (a_agent c) (a_task c)))
      | exists d; by rewrite <- Ht | done | done | done | done | done |].
    intros c' Hc'. by apply list_elem_of_delete_inv in Hc'.
  - unfold cancelTask. destruct (activeTasks (manager s) !! k) as [ref|] eqn:Hk;
      [|by destruct s].
    destruct (W1 k ref Hk) as (d & Hd & Hid & _).
    eapply (end_record_wf _ k ref s);
      [apply (endsRecord_cancel now) | by exists d | done | done | done | done | done | done].
Qed.

Lemma run_wf evs s : wf s → wf (run evs s).
Proof.
  revert s. induction evs as [|ev evs IH]; intros s W; [done|].
  cbn. apply IH. by apply step_wf.
Qed.


(** *** Records *)

Lemma length_omap_le {A B} (f : A → option B) (l : list A) :
  (length (omap f l) ≤ length l)%nat.
Proof. induction l as [|x l IH]; cbn; [done|]. destruct (f x); cbn; lia. Qed.

Lemma length_omap_total {A B} (f : A → option B) (l : list A) :
  (∀ x, x ∈ l → is_Some (f x)) → length (omap f l) = length l.
Proof.
  induction l as [|x l IH]; intros H; cbn; [done|].
  destruct (H x) as [y ->]; [apply list_elem_of_here|]. cbn. f_equal.
  apply IH. intros z Hz. apply H. by apply list_elem_of_further.
Qed.

Lemma completed_ended evs :
  Forall ended (completedList (manager (run evs init))).
Proof.
  destruct (run_wf evs init init_wf) as [_ W2 _ _].
  apply Forall_forall. intros d Hd. unfold completedList in Hd.
  apply list_elem_of_omap in Hd as (ref & Href & Hd).
  destruct (W2 ref Href) as (d' & Hd' & ?). unfold deref in Hd. by simplify_eq.
Qed.

(** X16: whatever calls the manager has seen, every delegation listed as
    active is [running] and has no end time, every delegation listed as
    completed has ended ([completed] or [failed], with an end time), and
    both collections hold as many records as they count. *)
Theorem delegation_records_consistent evs :
  let m := manager (run evs init) in
  Forall (λ d, status d = d_running ∧ endTime d = None) (activeList m)
  ∧ Forall ended (completedList m)
  ∧ length (activeList m) = size (activeTasks m)
  ∧ length (completedList m) = length (completedTasks m).
Proof.
  intros m. destruct (run_wf evs init init_wf) as [W1 W2 _ _]. fold m in W1, W2.
  split; [|split; [|split]].
  - apply Forall_forall. intros d Hd. unfold activeList in Hd.
    apply list_elem_of_omap in Hd as ([k ref] & Hkr & Hd).
    apply elem_of_map_to_list in Hkr. destruct (W1 k ref Hkr) as (d' & Hd' & _ & ? & ?).
    unfold deref in Hd. cbn in Hd. by simplify_eq.
  - apply completed_ended.
  - unfold activeList. rewrite length_omap_total, length_map_to_list; [done|].
    intros [k ref] Hkr. apply elem_of_map_to_list in Hkr.
    destruct (W1 k ref Hkr) as (d' & Hd' & _). unfold deref. cbn. by rewrite Hd'.
  - unfold completedList. apply length_omap_total. intros ref Href.
    destruct (W2 ref Href) as (d' & Hd' & _). unfold deref. by rewrite Hd'.
Qed.

(** *** The last activity of an agent *)

Lemma fold_laterOf tasks : ∀ acc,
  match fold_left laterOf tasks acc with
  | None => acc = None ∧ omap taskTime tasks = []
  | Some x =>
      (acc = Some x ∨ x ∈ omap taskTime tasks)
      ∧ (∀ y, acc = Some y → y ≤ x)
      ∧ Forall (λ y, y ≤ x) (omap taskTime tasks)
  end.
Proof.
  induction tasks as [|d tasks IH]; intros acc; cbn [fold_left].
  - destruct acc as [x|]; cbn; [|done]. split; [by left|]. split; [|done].
    intros y [= ->]. lia.
  - specialize (IH (laterOf acc d)). cbn [omap list_omap].
    destruct (fold_left laterOf tasks (laterOf acc d)) as [x|].
    + destruct IH as (Hin & Hacc & Hall). unfold laterOf in Hin, Hacc.
      destruct acc as [l|]; destruct (taskTime d) as [u|] eqn:Hu; cbn.
      * destruct (l <? u) eqn:Hlu.
        -- apply Z.ltb_lt in Hlu. pose proof (Hacc u eq_refl).
           split; [right; destruct Hin as [[= ->]|?];
                   [apply list_elem_of_here | by apply list_elem_of_further]|].
           split; [intros y [= ->]; lia | by constructor].
        -- apply Z.ltb_ge in Hlu. pose proof (Hacc l eq_refl).
           split; [destruct Hin as [?|?]; [by left | right; by apply list_elem_of_further]|].
           split; [intros y [= ->]; lia | constructor; [lia | done]].
      * split; [done|]. split; [done | done].
      * pose proof (Hacc u eq_refl).
        split; [right; destruct Hin as [[= ->]|?];
                [apply list_elem_of_here | by apply list_elem_of_further]|].
        split; [done | by constructor].
      * split; [right; by destruct Hin|]. split; [done | done].
    + destruct IH as (Hacc & Hnil). unfold laterOf in Hacc.
      destruct acc as [l|]; destruct (taskTime d) as [u|]; cbn in *;
        try destruct (l <? u); done.
Qed.

(** X17: in every state the manager can reach, [getLastActivity] of an agent
    is undefined exactly when no completed delegation belongs to the agent,
    and otherwise is the latest end time among its completed delegations. *)
Theorem getLastActivity_latest_end evs agentName :
  let m := manager (run evs init) in
  let ends :=
    omap endTime
      (List.filter (λ d, bool_decide (agent d = agentName)) (completedList m)) in
  match getLastActivity agentName m with
  | None => ∀ d, d ∈ completedList m → agent d ≠ agentName
  | Some x => x ∈ ends ∧ Forall (λ y, y ≤ x) ends
  end.
Proof.
  intros m ends.
  pose proof (completed_ended evs) as Hend. fold m in Hend.
  unfold getLastActivity. subst ends.
  set (tasks := List.filter _ (completedList m)).
  assert (Htasks : Forall ended tasks).
  { apply Forall_forall. intros d Hd. apply list_elem_of_In, filter_In in Hd as [Hd _].
    rewrite Forall_forall in Hend. by apply Hend, list_elem_of_In. }
  assert (Htimes : omap taskTime tasks = omap endTime tasks).
  { clear -Htasks. induction Htasks as [|d l [_ [e He]] _ IH]; [done|].
    cbn. unfold taskTime at 1. rewrite He. cbn. f_equal. exact IH. }
  destruct tasks as [|d0 tasks'] eqn:Etasks.
  - intros d Hd Hag.
    assert (d ∈ List.filter (λ d, bool_decide (agent d = agentName)) (completedList m)).
    { apply list_elem_of_In, filter_In. split; [by apply list_elem_of_In|].
      by apply bool_decide_eq_true. }
    fold tasks in H. rewrite Etasks in H. by apply elem_of_nil in H.
  - pose proof (fold_laterOf (d0 :: tasks') None) as H. rewrite Htimes in H.
    destruct (fold_left laterOf (d0 :: tasks') None) as [x|].
    + destruct H as ([?|?] & _ & ?); done.
    + destruct H as [_ H]. exfalso.
      inversion Htasks as [|? ? [_ [e He]] _]; subst. cbn in H. by rewrite He in H.
Qed.

(** *** A task cancelled while its agent is still working *)

(** The record of a task started at [start] whose agent settled at
    [finish]. *)
Definition settledRecord (start finish : Z) (t : SubagentTask) (a : Subagent)
  : TaskDelegation :=
  match execute a t with
  | Resolved r =>
      {| task := t; agent := name a;
         status := if success r then d_completed else d_failed;
         result := Some r; startTime := Some start; endTime := Some finish |}
  | Thrown _ =>
      {| task := t; agent := name a; status := d_failed;
         result := None; startTime := Some start; endTime := Some finish |}
  end.

Definition cancelledRecord (start finish : Z) (t : SubagentTask) (a : Subagent)
  : TaskDelegation :=
  {| task := t; agent := name a; status := d_failed; result := None;
     startTime := Some start; endTime := Some finish |}.

Lemma completedList_old (m : Manager) (h : list TaskDelegation) (refs : list nat) :
  (∀ ref, ref ∈ refs → (ref < length (heap m))%nat) →
  (∀ ref, (ref < length (heap m))%nat → h !! ref = heap m !! ref) →
  omap (λ ref, h !! ref) refs = omap (deref m) refs.
Proof.
  intros Hlt Hh. induction refs as [|ref refs IH]; [done|]. cbn.
  unfold deref at 1. rewrite Hh by (apply Hlt, list_elem_of_here).
  destruct (heap m !! ref); cbn; [f_equal|];
    apply IH; intros r Hr; apply Hlt; by apply list_elem_of_further.
Qed.

Lemma wf_completed_lt s ref :
  wf s → ref ∈ completedTasks (manager s) → (ref < length (heap (manager s)))%nat.
Proof.
  intros W Href. destruct (wf_completed s W ref Href) as (d & Hd & _).
  by eapply lookup_lt_Some.
Qed.

(** X18: [cancelTask] on a task whose agent is still working moves its
    record to the completed list as [failed]; when the agent settles
    afterwards, the waiting [delegateTask] overwrites that same record with
    the agent's outcome and appends it once more, so the completed list
    holds the record twice, with the status the agent reported. *)
Theorem cancelled_task_recorded_twice evs now now1 now2 t a ref m1 :
  let m := manager (run evs init) in
  startTask now t m = (Running a ref, m1) →
  let m2 := (cancelTask now1 (id t) m1).2 in
  let m3 := (finishTask now2 t a ref (execute a t) m2).2 in
  (cancelTask now1 (id t) m1).1 = true
  ∧ completedList m2 = completedList m ++ [cancelledRecord now now1 t a]
  ∧ completedList m3
    = completedList m ++ [settledRecord now now2 t a; settledRecord now now2 t a]
  ∧ activeTasks m3 !! id t = None.
Proof.
  intros m Hstart m2 m3.
  pose proof (run_wf evs init init_wf) as W. fold m in W.
  unfold startTask in Hstart.
  destruct (findSuitableAgent m t) as [a'|]; [|done].
  injection Hstart as -> <- <-.
  assert (Hold : ∀ h : list TaskDelegation,
            (∀ ref, (ref < length (heap m))%nat → h !! ref = heap m !! ref) →
            omap (λ ref, h !! ref) (completedTasks m) = completedList m).
  { intros h Hh. apply completedList_old; [|done].
    intros ref Href. by apply (wf_completed_lt _ ref W). }
  subst m2 m3. unfold cancelTask. cbn [activeTasks]. rewrite lookup_insert_eq.
  cbn [fst snd finishTask heap completedTasks activeTasks agents].
  rewrite !(alter_app_r_alt _ (heap m)) by done. rewrite Nat.sub_diag. cbn [alter list_alter].
  split; [done|]. split; [|split].
  - unfold completedList at 1, deref. cbn [completedTasks heap].
    rewrite omap_app. f_equal.
    + apply Hold. intros ref Href. by rewrite lookup_app_l.
    + cbn. rewrite lookup_app_r, Nat.sub_diag by done. done.
  - unfold completedList at 1, deref. cbn [completedTasks heap].
    rewrite !omap_app. rewrite <- app_assoc. f_equal.
    + apply Hold. intros ref Href. by rewrite lookup_app_l.
    + cbn. rewrite lookup_app_r, Nat.sub_diag by done. cbn.
      unfold settledRecord. by destruct (execute a t).
  - by rewrite lookup_delete_eq.
Qed.

Definition coder : Subagent := always true "coder".

Lemma cancelled_task_recorded_twice_witness :
  let s := run [ERegister coder] init in
  let m1 := (startTask 10 (someTask "t1") (manager s)).2 in
  let m2 := (cancelTask 20 "t1" m1).2 in
  let m3 := (finishTask 30 (someTask "t1") coder 0 (execute coder (someTask "t1")) m2).2 in
  status <$> completedList m2 = [d_failed]
  ∧ status <$> completedList m3 = [d_completed; d_completed].
Proof.
  cbv zeta. split; [vm_compute; reflexivity|].
  pose proof (cancelled_task_recorded_twice [ERegister coder] 10 20 30 (someTask "t1")
                coder 0 _ eq_refl) as (_ & _ & H & _).
  exact (eq_trans (f_equal (fmap status) H) eq_refl).
Defined.

(** *** Looking a task up *)

Lemma find_app {A} (p : A → bool) (l1 l2 : list A) :
  List.find p (l1 ++ l2)
  = match List.find p l1 with Some x => Some x | None => List.find p l2 end.
Proof. induction l1 as [|x l1 IH]; cbn; [done|]. by destruct (p x). Qed.

(** X19: after [delegateTask] has run to its end, in any state the manager
    can reach, [getTaskStatus] for the task's id answers with a completed
    record: the record of this delegation when no earlier completed
    delegation had the same task id, and otherwise the oldest completed
    record with that id. *)
Theorem getTaskStatus_after_delegateTask evs now t a ref m1 :
  let m := manager (run evs init) in
  startTask now t m = (Running a ref, m1) →
  getTaskStatus (id t) (delegateTask now t m).2
  = Some (match List.find (λ d, bool_decide (id (task d) = id t)) (completedList m) with
          | Some old => old
          | None => settledRecord now now t a
          end).
Proof.
  intros m Hstart. unfold delegateTask. rewrite Hstart.
  pose proof (run_wf evs init init_wf) as W. fold m in W.
  unfold startTask in Hstart.
  destruct (findSuitableAgent m t) as [a'|]; [|done].
  injection Hstart as -> <- <-.
  unfold getTaskStatus. cbn [finishTask snd activeTasks].
  rewrite lookup_delete_eq. cbn [mbind option_bind].
  unfold completedList at 1, deref. cbn [completedTasks heap].
  rewrite (alter_app_r_alt _ (heap m)) by done. rewrite Nat.sub_diag. cbn [alter list_alter].
  rewrite omap_app, find_app.
  rewrite (completedList_old m).
  - fold (completedList m).
    destruct (List.find _ (completedList m)); [done|].
    cbn. rewrite lookup_app_r, Nat.sub_diag by done. cbn.
    unfold settledRecord. destruct (execute a t); cbn; by rewrite bool_decide_eq_true_2.
  - intros r Hr. by apply (wf_completed_lt _ r W).
  - intros r Hr. by rewrite lookup_app_l.
Qed.

Lemma getTaskStatus_after_delegateTask_witness :
  let m := manager (run [ERegister coder] init) in
  status <$> getTaskStatus "t1" (delegateTask 10 (someTask "t1") m).2 = Some d_completed.
Proof.
  cbv zeta.
  exact (eq_trans
           (f_equal (fmap status)
              (getTaskStatus_after_delegateTask [ERegister coder] 10 (someTask "t1")
                 coder 0 _ eq_refl))
           eq_refl).
Defined.

(** *** Statistics *)

Lemma size_list_to_set_le (l : list string) :
  (size (list_to_set l : gset string) ≤ length l)%nat.
Proof.
  induction l as [|x l IH]; cbn.
  - by rewrite size_empty.
  - rewrite (size_union_alt ({[x]} : gset string) (list_to_set l)), size_singleton.
    assert (Hs : (list_to_set l ∖ {[x]} : gset string) ⊆ list_to_set l)
      by (by apply subseteq_difference_l).
    apply subseteq_size in Hs. lia.
Qed.

(** X20: for every manager, the statistics satisfy: the total is the sum of
    active and completed tasks, no more agents are active than tasks are,
    and the success rate lies between 0 and 100, being 0 when nothing has
    completed. *)
Theorem getStatistics_bounds (m : Manager) :
  let st := getStatistics m in
  totalTasks st = (activeCount st + completedCount' st)%nat
  ∧ (activeAgents st ≤ activeCount st)%nat
  ∧ (0 <= successRate st)%Q ∧ (successRate st <= 100)%Q
  ∧ (completedTasks m = [] → successRate st = 0%Q).
Proof.
  cbn. split; [done|]. split; [|split; [|split]].
  - etransitivity; [apply size_list_to_set_le|].
    rewrite length_map. etransitivity; [apply length_omap_le|].
    by rewrite length_map_to_list.
  - destruct (length (completedTasks m)); [done|].
    unfold Qle. cbn. lia.
  - destruct (length (completedTasks m)) as [|n] eqn:Hn; [done|].
    assert (Hle : (length (List.filter (λ d, bool_decide (status d = d_completed))
                             (completedList m)) ≤ S n)%nat).
    { rewrite <- Hn. etransitivity; [apply filter_length_le|].
      apply length_omap_le. }
    unfold Qle. cbn. lia.
  - by intros ->.
Qed.

(** *** The registry *)

Lemma getAgent_map_set a (l : list (string * Subagent)) :
  snd <$> List.find (λ ka, bool_decide (ka.1 = name a)) (map_set (name a) a l) = Some a.
Proof.
  induction l as [|[k b] l IH]; cbn.
  - by rewrite bool_decide_eq_true_2.
  - destruct (decide (k = name a)) as [->|Hne]; cbn.
    + by rewrite bool_decide_eq_true_2.
    + by rewrite bool_decide_eq_false_2.
Qed.

Lemma elem_of_map_set a (l : list (string * Subagent)) :
  (name a, a) ∈ map_set (name a) a l.
Proof.
  induction l as [|[k b] l IH]; cbn.
  - apply list_elem_of_here.
  - destruct (decide (k = name a)); [apply list_elem_of_here|].
    by apply list_elem_of_further.
Qed.

(** X21: after [registerAgent] the agent is found under its name and is a
    candidate for every task it can handle; after [unregisterAgent] the
    name is gone and, in any state the manager can reach, no task is given
    to an agent of that name. *)
Theorem registry_governs_selection evs a n t :
  let m := manager (run evs init) in
  getAgent (name a) (registerAgent a m) = Some a
  ∧ (canHandle a t = true → is_Some (findSuitableAgent (registerAgent a m) t))
  ∧ getAgent n (unregisterAgent n m) = None
  ∧ (∀ b, findSuitableAgent (unregisterAgent n m) t = Some b → name b ≠ n).
Proof.
  intros m. pose proof (run_wf evs init init_wf) as W. fold m in W.
  split; [|split; [|split]].
  - apply getAgent_map_set.
  - intros Hc. destruct (findSuitableAgent (registerAgent a m) t) eqn:Hf; [eauto|].
    pose proof (proj1 (findSuitableAgent_None _ t) Hf (name a, a)
                  (elem_of_map_set a (agents m))) as H.
    cbn in H. congruence.
  - unfold getAgent, unregisterAgent. cbn.
    destruct (List.find _ _) as [ka|] eqn:Hf; [|done].
    apply find_some in Hf as [Hin Hka]. apply filter_In in Hin as [_ Hne].
    apply bool_decide_eq_true in Hka. rewrite bool_decide_eq_true_2 in Hne; done.
  - intros b Hf. apply findSuitableAgent_Some in Hf as (A1 & k & A2 & Hag & _).
    assert (Hin : (k, b) ∈ agents (unregisterAgent n m))
      by (rewrite Hag; apply elem_of_app; right; apply list_elem_of_here).
    apply list_elem_of_In, filter_In in Hin as [Hin Hne]. cbn in Hne.
    apply negb_true_iff, bool_decide_eq_false in Hne.
    apply list_elem_of_In in Hin. apply (wf_names _ W) in Hin. cbn in Hin. congruence.
Qed.

End Delegation.

(* ===================================================================== *)
(** ** The action runner: invariants of the reachable states *)
(* ===================================================================== *)

Module RunnerFacts.

Import ActionRunner.

(** The updates [#updateAction] is called with never touch the [abort]
    closure or the signal of a state, and a state they leave [failed]
    carries an error text. *)
Record benign (f : ActionState → ActionState) : Prop := {
  benign_abort s : abort (f s) = abort s;
  benign_signal s : abortSignal (f s) = abortSignal s;
  benign_error s :
    status (f s) = failed →
    is_Some (error (f s)) ∨ (status s = failed ∧ error (f s) = error s);
}.

(** The closure stored in [abort] is the one [addAction] built for this id
    and this signal, or the logging closure of an automated test entry. *)
Definition closure_ok (r : Runner) (k : string) (s : ActionState) : Prop :=
  (abortSignal s < length (signals r))%nat
  ∧ (abort s = AbortController (abortSignal s) k
     ∨ (abort s = AbortLog ∧ ∃ b, k = autotestId b)).

Record store_inv (r : Runner) : Prop := {
  inv_closure k s : actions r !! k = Some s → closure_ok r k s;
  inv_detached k s : (k, s) ∈ detached r → closure_ok r k s;
  inv_signal k1 k2 s1 s2 :
    actions r !! k1 = Some s1 → actions r !! k2 = Some s2 →
    abortSignal s1 = abortSignal s2 → k1 = k2;
  inv_error k s :
    actions r !! k = Some s → status s = failed → is_Some (error s);
}.

Definition executed_at (id : string) (r : Runner) : Prop :=
  executed <$> actions r !! id = Some true.

Lemma benign_setStatus st : st ≠ failed → benign (setStatus st).
Proof. intros H. split; intros s; cbn; auto. intros ?. congruence. Qed.

Lemma benign_setFailed msg : benign (setFailed msg).
Proof. split; intros s; cbn; eauto. Qed.

Lemma benign_mergeAction a exe : benign (mergeAction a exe).
Proof. split; intros s; cbn; auto. Qed.

Create HintDb runner.
#[local] Hint Resolve benign_setFailed benign_mergeAction : runner.

Lemma benign_running : benign (setStatus running).
Proof. by apply benign_setStatus. Qed.
Lemma benign_aborted : benign (setStatus aborted).
Proof. by apply benign_setStatus. Qed.
Lemma benign_complete : benign (setStatus complete).
Proof. by apply benign_setStatus. Qed.
Lemma benign_final (isStreaming b : bool) :
  benign (setStatus (if isStreaming then running else if b then aborted else complete)).
Proof. apply benign_setStatus. by destruct isStreaming, b. Qed.

#[local] Hint Resolve benign_running benign_aborted benign_complete benign_final : runner.

Lemma closure_ok_signals r r' k s :
  (length (signals r) ≤ length (signals r'))%nat →
  closure_ok r k s → closure_ok r' k s.
Proof. intros Hle [H1 H2]. split; [lia | done]. Qed.

Lemma closure_ok_benign r r' k f s :
  benign f → (length (signals r) ≤ length (signals r'))%nat →
  closure_ok r k s → closure_ok r' k (f s).
Proof.
  intros Hf Hle [H1 H2]. unfold closure_ok.
  rewrite (benign_abort f Hf), (benign_signal f Hf). split; [lia | done].
Qed.

(** *** The primitive state changes keep the invariant *)

Lemma updateAction_store_inv id f r :
  benign f → store_inv r → store_inv (updateAction id f r).
Proof.
  intros Hf [H1 H2 H3 H4]. split; cbn.
  - intros k s. destruct (decide (k = id)) as [->|Hne].
    + rewrite lookup_alter_eq. destruct (actions r !! id) as [s0|] eqn:E; [|done].
      intros [= <-]. apply (closure_ok_benign r); [done | done | by apply H1].
    + rewrite lookup_alter_ne by done. intros Hk. by apply (closure_ok_signals r), H1.
  - intros k s Hk. by apply (closure_ok_signals r), H2.
  - assert (Hsig : ∀ k s, alter f id (actions r) !! k = Some s →
                     ∃ s0, actions r !! k = Some s0 ∧ abortSignal s = abortSignal s0).
    { intros k s. destruct (decide (k = id)) as [->|Hne].
      - rewrite lookup_alter_eq. destruct (actions r !! id) as [s0|]; [|done].
        intros [= <-]. exists s0. split; [done|]. apply (benign_signal f Hf).
      - rewrite lookup_alter_ne by done. eauto. }
    intros k1 k2 s1 s2 Hk1 Hk2 Heq.
    apply Hsig in Hk1 as (t1 & Ht1 & E1). apply Hsig in Hk2 as (t2 & Ht2 & E2).
    apply (H3 k1 k2 t1 t2); congruence.
  - intros k s. destruct (decide (k = id)) as [->|Hne].
    + rewrite lookup_alter_eq. destruct (actions r !! id) as [s0|] eqn:E; [|done].
      intros [= <-] Hst. destruct (benign_error f Hf s0 Hst) as [?|[Hs0 ->]]; [done|].
      by apply (H4 id).
    + rewrite lookup_alter_ne by done. apply H4.
Qed.

Lemma set_signal_store_inv sig r :
  store_inv r → store_inv (with_signals (<[sig := true]>) r).
Proof.
  intros [H1 H2 H3 H4]. split; cbn; auto.
  - intros k s Hk. apply (closure_ok_signals r); [|by apply H1].
    cbn. by rewrite length_insert.
  - intros k s Hk. apply (closure_ok_signals r); [|by apply H2].
    cbn. by rewrite length_insert.
Qed.

Lemma frame_store_inv r r' :
  actions r' = actions r → signals r' = signals r →
  (∀ x, x ∈ detached r' → x ∈ detached r) →
  store_inv r → store_inv r'.
Proof.
  intros Ha Hs Hd [H1 H2 H3 H4]. split; rewrite ?Ha; auto.
  - intros k s Hk. apply (closure_ok_signals r); [by rewrite Hs | by apply H1].
  - intros k s Hk. apply (closure_ok_signals r); [by rewrite Hs | by apply H2, Hd].
Qed.

(** A new entry with a fresh signal. *)
Lemma register_store_inv id st r :
  abortSignal st = length (signals r) →
  (abort st = AbortController (abortSignal st) id
   ∨ (abort st = AbortLog ∧ ∃ b, id = autotestId b)) →
  status st ≠ failed →
  store_inv r →
  store_inv (with_actions (<[id := st]>) (with_signals (λ l, l ++ [false]) r)).
Proof.
  intros Hsig Hab Hst [H1 H2 H3 H4].
  assert (Hlen : (length (signals r) ≤ length (signals r ++ [false]))%nat)
    by (rewrite length_app; lia).
  split; cbn.
  - intros k s. destruct (decide (k = id)) as [->|Hne].
    + rewrite lookup_insert_eq. intros [= <-]. split; [|done].
      cbn. rewrite length_app, Hsig. cbn. lia.
    + rewrite lookup_insert_ne by done. intros Hk.
      destruct (H1 k s Hk) as [Hlt Hc]. split; [cbn; lia | done].
  - intros k s Hk. destruct (H2 k s Hk) as [Hlt Hc]. split; [cbn; lia | done].
  - intros k1 k2 s1 s2.
    destruct (decide (k1 = id)) as [->|N1]; destruct (decide (k2 = id)) as [->|N2];
      try done.
    + rewrite lookup_insert_eq, lookup_insert_ne by done.
      intros [= <-] Hk2 Heq. destruct (H1 k2 s2 Hk2) as [Hlt _]. lia.
    + rewrite lookup_insert_ne, lookup_insert_eq by done.
      intros Hk1 [= <-] Heq. destruct (H1 k1 s1 Hk1) as [Hlt _]. lia.
    + rewrite !lookup_insert_ne by done. apply H3.
  - intros k s. destruct (decide (k = id)) as [->|Hne].
    + rewrite lookup_insert_eq. by intros [= <-].
    + rewrite lookup_insert_ne by done. apply H4.
Qed.

Lemma callAbort_store_inv act r : store_inv r → store_inv (callAbort act r).
Proof.
  intros H. unfold callAbort. destruct (abort act); [|done].
  apply updateAction_store_inv; [auto with runner|]. by apply set_signal_store_inv.
Qed.

Lemma pendingAbort_store_inv e act r : store_inv r → store_inv (pendingAbort e act r).
Proof. unfold pendingAbort. destruct (abortDuring e); auto using callAbort_store_inv. Qed.

Lemma catchBlock_store_inv id act res r :
  store_inv r → store_inv (catchBlock id act res r).1.
Proof.
  intros H. unfold catchBlock. destruct (isAborted r act); [done|].
  assert (store_inv (updateAction id (setFailed (lit "Action failed")) r))
    by (apply updateAction_store_inv; auto with runner).
  destruct res; cbn [fst]; try done.
  eapply frame_store_inv; [| | |eassumption]; done.
Qed.

Lemma finalUpdate_store_inv id s act r :
  store_inv r → store_inv (finalUpdate id s act r).1.
Proof. intros H. cbn. apply updateAction_store_inv; auto with runner. Qed.

Lemma settle_store_inv id s act res r :
  store_inv r → store_inv (settle id s act res r).1.
Proof.
  intros H. destruct res; cbn [settle];
    auto using catchBlock_store_inv, finalUpdate_store_inv.
Qed.

Lemma runAutomatedTests_store_inv id r :
  store_inv r → store_inv (runAutomatedTests id r).
Proof.
  intros H. unfold runAutomatedTests. apply register_store_inv; cbn; eauto.
Qed.

Lemma same_actions_store_inv r r' : same_actions r r' → store_inv r → store_inv r'.
Proof.
  intros (Ha & Hs & _ & _ & Hd & _). apply frame_store_inv; [done | done |].
  by rewrite Hd.
Qed.

Lemma executePartial_store_inv id s p e r :
  store_inv r → store_inv (executePartial id s p e r).1.
Proof.
  intros H. destruct (executePartial_shape id s p e r) as [H1 | (r1 & H1 & H2)].
  - by apply (same_actions_store_inv r).
  - apply (same_actions_store_inv _ _ H2), runAutomatedTests_store_inv.
    by apply (same_actions_store_inv r).
Qed.

Lemma executeAction_store_inv id s e r :
  store_inv r → store_inv (executeAction id s e r).1.
Proof.
  intros H. unfold executeAction.
  destruct (property r id) as [act|p| |] eqn:Hact;
    [|by apply executePartial_store_inv|done|done].
  apply property_stored_inv in Hact.
  assert (H1 : store_inv (updateAction id (setStatus running) r))
    by (apply updateAction_store_inv; auto with runner).
  pose proof (pendingAbort_store_inv e act _ H1) as H2.
  destruct (type (action act)).
  - by apply settle_store_inv.
  - by apply settle_store_inv.
  - cbn [fst]. destruct H1 as [A1 A2 A3 A4]. split; [exact A1| |exact A3|exact A4].
    intros k s' Hk. cbn in Hk.
    apply elem_of_app in Hk as [Hk | Hk]; [by apply A2|].
    apply list_elem_of_singleton in Hk as [= -> ->].
    apply (closure_ok_signals r); [done|]. by apply H.
  - destruct (runBuildAction e) as [res | out].
    + by apply catchBlock_store_inv.
    + apply finalUpdate_store_inv, runAutomatedTests_store_inv.
      eapply frame_store_inv; [| | |exact H2]; done.
  - destruct (handleSupabaseAction (action act) e); cbn [fst].
    + by apply finalUpdate_store_inv.
    + apply updateAction_store_inv; auto with runner.
    + apply updateAction_store_inv; auto with runner.
  - by apply settle_store_inv.
  - by apply finalUpdate_store_inv.
  - by apply finalUpdate_store_inv.
Qed.

Lemma addAction_store_inv id a r : store_inv r → store_inv (addAction id a r).
Proof.
  intros H. unfold addAction. destruct (property r id); try done.
  eapply frame_store_inv; [| | |apply (register_store_inv id); [ | | |exact H]];
    cbn; eauto.
Qed.

Lemma runAction_store_inv id a s r : store_inv r → store_inv (runAction id a s r).2.
Proof.
  intros H. unfold runAction. destruct (property r id) as [act|p| |]; try done.
  - destruct (executed act); [done|]. destruct (s && _); [done|]. cbn [snd].
    eapply frame_store_inv; [| | |apply (updateAction_store_inv id); [|exact H]];
      cbn; auto with runner.
  - destruct s; [done|]. cbn [snd].
    eapply frame_store_inv; [| | |exact H]; done.
Qed.

Lemma abortAction_store_inv id r : store_inv r → store_inv (abortAction id r).
Proof.
  unfold abortAction. destruct (actions r !! id); auto using callAbort_store_inv.
Qed.

Lemma tick_store_inv e r : store_inv r → store_inv (tick e r).
Proof.
  intros H. unfold tick.
  destruct (reactions r) as [|[id | id s |] rest]; [done | | |].
  - cbn. destruct (chain r).
    + apply updateAction_store_inv; [auto with runner|].
      eapply frame_store_inv; [| | |exact H]; done.
    + eapply frame_store_inv; [| | |exact H]; done.
  - cbn [with_chain chain]. destruct (chain r).
    + assert (H0 : store_inv (with_chain Fulfilled rest r))
        by (eapply frame_store_inv; [| | |exact H]; done).
      pose proof (executeAction_store_inv id s e _ H0) as H1.
      destruct (executeAction id s e _) as [r1 c]. cbn in *.
      eapply frame_store_inv; [| | |exact H1]; done.
    + eapply frame_store_inv; [| | |exact H]; done.
  - eapply frame_store_inv; [| | |exact H]; done.
Qed.

Lemma settleStart_store_inv n e r : store_inv r → store_inv (settleStart n e r).
Proof.
  intros H. unfold settleStart.
  destruct (detached r !! n) as [[id act]|] eqn:Hn; [|done].
  assert (H0 : store_inv (with_detached (delete n (detached r)) r)).
  { eapply frame_store_inv; [| | |exact H]; try done.
    intros x Hx. cbn in Hx. by apply list_elem_of_delete_inv in Hx. }
  pose proof (pendingAbort_store_inv e act _ H0) as H1.
  destruct (runStartAction (action act) e).
  - apply updateAction_store_inv; auto with runner.
  - destruct (isAborted _ act); [done|].
    eapply frame_store_inv;
      [| | |apply (updateAction_store_inv id (setFailed (lit "Action failed")));
            [auto with runner | exact H1]]; done.
  - destruct (isAborted _ act); [done|].
    apply updateAction_store_inv; auto with runner.
Qed.

Lemma initial_store_inv : store_inv initial.
Proof.
  split; cbn; intros *; try (rewrite lookup_empty; done).
  intros H. by apply elem_of_nil in H.
Qed.

Lemma step_store_inv ev r : store_inv r → store_inv (step ev r).
Proof.
  destruct ev; cbn;
    auto using addAction_store_inv, runAction_store_inv, abortAction_store_inv,
      tick_store_inv, settleStart_store_inv.
  apply same_actions_store_inv, settlePartialStart_shape.
Qed.

Lemma run_store_inv evs r : store_inv r → store_inv (run evs r).
Proof.
  revert r. induction evs as [|ev evs IH]; intros r Hr; [done|].
  cbn. apply IH. by apply step_store_inv.
Qed.


(** *** What stays true of the actions map *)

(** X22: an action whose status is [failed] carries an error text, in every
    state the runner can reach. *)
Theorem failed_action_has_error evs id act :
  actions (run evs initial) !! id = Some act →
  status act = failed → is_Some (error act).
Proof.
  intros Hact Hst.
  exact (inv_error _ (run_store_inv evs initial initial_store_inv) id act Hact Hst).
Qed.

Definition lint_fails : list Event :=
  [ EAddAction "k" (shellAction "npm run lint");
    ERunAction "k" (shellAction "npm run lint") false;
    ETick (exits 0);
    ETick (exits 1);
    ETick (exits 0) ].

Lemma failed_action_has_error_witness :
  ∃ act, actions (run lint_fails initial) !! "k" = Some act
         ∧ status act = failed ∧ error act = Some (lit "Action failed")
         ∧ is_Some (error act).
Proof.
  eexists. split; [vm_compute; reflexivity|]. split; [reflexivity|].
  split; [reflexivity|].
  eapply (failed_action_has_error lint_fails "k"); vm_compute; reflexivity.
Defined.

(** *** An action is executed at most once *)

Lemma executed_at_alter id k f r :
  (∀ s, executed (f s) = executed s) →
  executed_at id r → executed_at id (updateAction k f r).
Proof.
  unfold executed_at. intros Hf H. cbn. destruct (decide (id = k)) as [->|Hne].
  - rewrite lookup_alter_eq. destruct (actions r !! k) as [s0|]; [|done].
    cbn in *. by rewrite Hf.
  - by rewrite lookup_alter_ne.
Qed.

Lemma executed_at_frame id r r' :
  actions r' = actions r → executed_at id r → executed_at id r'.
Proof. unfold executed_at. by intros ->. Qed.

Lemma executed_at_callAbort id act r :
  executed_at id r → executed_at id (callAbort act r).
Proof.
  intros H. unfold callAbort. destruct (abort act); [|done].
  apply executed_at_alter; [done|]. by eapply executed_at_frame; [|exact H].
Qed.

Lemma executed_at_pendingAbort id e act r :
  executed_at id r → executed_at id (pendingAbort e act r).
Proof. unfold pendingAbort. destruct (abortDuring e); auto using executed_at_callAbort. Qed.

Lemma executed_at_catchBlock id k act res r :
  executed_at id r → executed_at id (catchBlock k act res r).1.
Proof.
  intros H. unfold catchBlock. destruct (isAborted r act); [done|].
  destruct res; cbn [fst]; by apply executed_at_alter.
Qed.

Lemma executed_at_finalUpdate id k s act r :
  executed_at id r → executed_at id (finalUpdate k s act r).1.
Proof. intros H. cbn. by apply executed_at_alter. Qed.

Lemma executed_at_settle id k s act res r :
  executed_at id r → executed_at id (settle k s act res r).1.
Proof.
  intros H. destruct res; cbn [settle];
    auto using executed_at_catchBlock, executed_at_finalUpdate.
Qed.

Lemma executed_at_executeAction id k s e r :
  (∀ b, id ≠ autotestId b) →
  executed_at id r → executed_at id (executeAction k s e r).1.
Proof.
  intros Hid H. unfold executeAction.
  destruct (property r k) as [act|p| |]; [| |done|done].
  2:{ destruct (executePartial_shape k s p e r)
        as [(Ha & _) | (r1 & (Ha1 & _) & (Ha & _))].
      - by apply (executed_at_frame id r).
      - unfold executed_at. rewrite Ha. cbn. rewrite Ha1.
        rewrite lookup_insert_ne by (intros Heq; by apply (Hid k)). exact H. }
  assert (H1 : executed_at id (updateAction k (setStatus running) r))
    by (by apply executed_at_alter).
  pose proof (executed_at_pendingAbort id e act _ H1) as H2.
  destruct (type (action act)).
  - by apply executed_at_settle.
  - by apply executed_at_settle.
  - cbn [fst]. by eapply executed_at_frame; [|exact H1].
  - destruct (runBuildAction e) as [res | out].
    + by apply executed_at_catchBlock.
    + apply executed_at_finalUpdate. unfold executed_at, runAutomatedTests. cbn.
      rewrite lookup_insert_ne by (intros Heq; by apply (Hid k)). exact H2.
  - destruct (handleSupabaseAction (action act) e); cbn [fst];
      [by apply executed_at_finalUpdate | by apply executed_at_alter..].
  - by apply executed_at_settle.
  - by apply executed_at_finalUpdate.
  - by apply executed_at_finalUpdate.
Qed.

Lemma executed_at_step id ev r :
  (∀ b, id ≠ autotestId b) →
  executed_at id r → executed_at id (step ev r).
Proof.
  intros Hid H. destruct ev as [k a | k a s | k | e | n e | n e]; cbn.
  6:{ destruct (settlePartialStart_shape n e r) as (Ha & _).
      by apply (executed_at_frame id r). }
  - unfold addAction. destruct (property r k) eqn:Hk; try done.
    apply property_missing in Hk as (Hk & _).
    unfold executed_at in *. cbn. rewrite lookup_insert_ne; [done|].
    intros ->. by rewrite Hk in H.
  - unfold runAction. destruct (property r k) as [act|p| |] eqn:Hk; try done.
    + apply property_stored_inv in Hk.
      destruct (executed act) eqn:He; [done|]. destruct (s && _); [done|].
      unfold executed_at in *. cbn. rewrite lookup_alter_ne; [done|].
      intros ->. rewrite Hk in H. cbn in H. congruence.
    + by destruct s.
  - unfold abortAction. destruct (actions r !! k); auto using executed_at_callAbort.
  - unfold tick. destruct (reactions r) as [|[k | k s |] rest]; [done | | |].
    + cbn. destruct (chain r); [by apply executed_at_alter | done].
    + cbn [with_chain chain]. destruct (chain r); [|done].
      pose proof (executed_at_executeAction id k s e (with_chain Fulfilled rest r) Hid H) as H1.
      by destruct (executeAction k s e _) as [r1 c].
    + done.
  - unfold settleStart. destruct (detached r !! n) as [[k act]|]; [|done].
    assert (H1 : executed_at id (pendingAbort e act (with_detached (delete n (detached r)) r)))
      by (by apply executed_at_pendingAbort).
    destruct (runStartAction (action act) e).
    + by apply executed_at_alter.
    + destruct (isAborted _ act); [done|].
      eapply executed_at_frame;
        [|apply (executed_at_alter id k (setFailed (lit "Action failed"))); [done | exact H1]].
      done.
    + destruct (isAborted _ act); [done|]. by apply executed_at_alter.
Qed.

Lemma executed_at_run id evs r :
  (∀ b, id ≠ autotestId b) →
  executed_at id r → executed_at id (run evs r).
Proof.
  intros Hid. revert r. induction evs as [|ev evs IH]; intros r H; [done|].
  cbn. apply IH. by apply executed_at_step.
Qed.

(** X23: once [runAction] has been called without streaming for a registered
    action, every later [runAction] for that id, whatever has happened to
    the runner in between, returns without enqueuing anything.  (Ids of the
    form [<id>-autotest] are left out: a successful build overwrites such
    an entry with a fresh one.) *)
Theorem runAction_at_most_once id a a' s evs r :
  is_Some (actions r !! id) → (∀ b, id ≠ autotestId b) →
  let r2 := run evs (runAction id a false r).2 in
  runAction id a' s r2 = (Returned, r2).
Proof.
  intros [act Hact] Hid r2.
  assert (H1 : executed_at id (runAction id a false r).2).
  { unfold runAction, executed_at. rewrite (property_stored _ _ _ Hact).
    destruct (executed act) eqn:He; cbn.
    - by rewrite Hact; cbn; rewrite He.
    - by rewrite lookup_alter_eq, Hact. }
  pose proof (executed_at_run id evs _ Hid H1) as H2. fold r2 in H2.
  unfold executed_at in H2. unfold runAction.
  destruct (actions r2 !! id) as [act2|] eqn:Hact2; [|done]. cbn in H2.
  rewrite (property_stored _ _ _ Hact2). injection H2 as ->. done.
Qed.

Lemma plain_id_not_autotest (id b : string) :
  (String.length id < 9)%nat → id ≠ autotestId b.
Proof.
  intros Hlen ->. unfold autotestId in Hlen. rewrite string_length_app in Hlen.
  cbn in Hlen. lia.
Qed.

Lemma runAction_at_most_once_witness :
  let r := addAction "k" (shellAction "npm run lint") initial in
  let r2 := run [ETick (exits 0); ETick (exits 1); ETick (exits 0)]
              (runAction "k" (shellAction "npm run lint") false r).2 in
  statusOf r2 "k" = Some failed
  ∧ runAction "k" (shellAction "npm run lint") false r2 = (Returned, r2).
Proof.
  cbv zeta. split; [vm_compute; reflexivity|].
  apply (runAction_at_most_once "k" (shellAction "npm run lint")
           (shellAction "npm run lint") false
           [ETick (exits 0); ETick (exits 1); ETick (exits 0)]
           (addAction "k" (shellAction "npm run lint") initial)).
  - vm_compute. eexists. reflexivity.
  - intros b. apply plain_id_not_autotest. vm_compute. lia.
Defined.


(** *** abort() *)

Lemma closure_of_plain_id r k s :
  closure_ok r k s → (∀ b, k ≠ autotestId b) →
  abort s = AbortController (abortSignal s) k
  ∧ (abortSignal s < length (signals r))%nat.
Proof.
  intros [Hlt [Hc | [_ [b ->]]]] Hk; [done|]. by destruct (Hk b).
Qed.

(** X24: in every state the runner can reach, [abort()] of an action that
    [addAction] registered sets its abort signal and its status [aborted],
    leaves the pending reactions of the chain (its queued execution
    included) and every other action as they were, and a second [abort()]
    changes nothing. *)
Theorem abort_marks_only_its_action evs id act :
  let r := run evs initial in
  actions r !! id = Some act → (∀ b, id ≠ autotestId b) →
  let r' := abortAction id r in
  actions r' !! id = Some (setStatus aborted act)
  ∧ isAborted r' act = true
  ∧ reactions r' = reactions r ∧ chain r' = chain r
  ∧ (∀ k st, k ≠ id → actions r !! k = Some st →
       actions r' !! k = Some st ∧ isAborted r' st = isAborted r st)
  ∧ abortAction id r' = r'.
Proof.
  intros r Hact Hid r'.
  pose proof (run_store_inv evs initial initial_store_inv) as Hinv. fold r in Hinv.
  destruct (closure_of_plain_id r id act (inv_closure r Hinv id act Hact) Hid)
    as [Hab Hlt].
  assert (Hr' : r' = updateAction id (setStatus aborted)
                       (with_signals (<[abortSignal act := true]>) r)).
  { subst r'. unfold abortAction, callAbort. by rewrite Hact, Hab. }
  rewrite Hr'. split; [|split; [|split; [|split; [|split]]]].
  - cbn. by rewrite lookup_alter_eq, Hact.
  - unfold isAborted. cbn. by rewrite list_lookup_insert_eq.
  - done.
  - done.
  - intros k st Hk Hst. split.
    + cbn. by rewrite lookup_alter_ne.
    + unfold isAborted. cbn. rewrite list_lookup_insert_ne; [done|].
      intros Heq. apply Hk. symmetry. by apply (inv_signal r Hinv id k act st).
  - unfold abortAction, callAbort. cbn [actions updateAction with_actions with_signals].
    rewrite lookup_alter_eq, Hact. cbn [fmap option_fmap option_map setStatus abort].
    rewrite Hab. unfold updateAction, with_actions, with_signals. cbn. f_equal.
    + rewrite alter_alter_eq. by apply alter_ext.
    + by rewrite list_insert_insert_eq.
Qed.

Definition install_queued : Runner :=
  run [ EAddAction "k" (shellAction "npm install");
        EAddAction "k1" (shellAction "npm test");
        ERunAction "k" (shellAction "npm install") false ] initial.

Lemma abort_marks_only_its_action_witness :
  statusOf (abortAction "k" install_queued) "k" = Some aborted
  ∧ statusOf (abortAction "k" install_queued) "k1" = Some pending
  ∧ reactions (abortAction "k" install_queued)
    = [RSetRunning "k"; RSetRunning "k1"; RExecute "k" false; RCatch]
  ∧ abortAction "k" (abortAction "k" install_queued) = abortAction "k" install_queued.
Proof.
  split; [vm_compute; reflexivity|]. split; [vm_compute; reflexivity|].
  split; [vm_compute; reflexivity|].
  refine (proj2 (proj2 (proj2 (proj2 (proj2
    (abort_marks_only_its_action
       [ EAddAction "k" (shellAction "npm install");
         EAddAction "k1" (shellAction "npm test");
         ERunAction "k" (shellAction "npm install") false ] "k"
       {| action := shellAction "npm install"; status := pending; error := None;
          executed := true; abort := AbortController 0 "k"; abortSignal := 0 |}
       _ _)))))).
  - vm_compute. reflexivity.
  - intros b. apply plain_id_not_autotest. vm_compute. lia.
Defined.

(** *** An execution touches one action *)

Lemma callAbort_local id act r k :
  (abort act = AbortController (abortSignal act) id ∨ abort act = AbortLog) →
  k ≠ id →
  actions (callAbort act r) !! k = actions r !! k
  ∧ alerts (callAbort act r) = alerts r
  ∧ buildOutput (callAbort act r) = buildOutput r
  ∧ length (signals (callAbort act r)) = length (signals r)
  ∧ ∀ n, n ≠ abortSignal act → signals (callAbort act r) !! n = signals r !! n.
Proof.
  intros [Hab | Hab] Hk; unfold callAbort; rewrite Hab; cbn.
  - rewrite lookup_alter_ne by done. rewrite length_insert.
    repeat split. intros n Hn. by rewrite list_lookup_insert_ne.
  - done.
Qed.

(** X25: when the turn of an execution comes, in any state the runner can
    reach, running it changes no action but its own (and, for a build, the
    automated test entry it registers), and no other action's abort
    signal. *)
Theorem execution_is_local evs id s rest e k :
  let r := run evs initial in
  reactions r = RExecute id s :: rest →
  k ≠ id → k ≠ autotestId id →
  actions (tick e r) !! k = actions r !! k
  ∧ ∀ st, actions r !! k = Some st → isAborted (tick e r) st = isAborted r st.
Proof.
  intros r Hre Hk Hk'.
  pose proof (run_store_inv evs initial initial_store_inv) as Hinv. fold r in Hinv.
  pose proof (run_inv evs initial initial_inv) as Hchain. fold r in Hchain.
  destruct (execution_turn r id s rest Hchain Hre) as (Hch & _ & rest' & ->).
  rewrite (tick_execution r id s _ e Hch Hre). cbn zeta.
  cbn [with_chain actions signals].
  set (r0 := with_chain Fulfilled (RCatch :: rest') r).
  destruct (actions r !! id) as [act|] eqn:Hact.
  2:{ (* the execution of a property made of an inherited member *)
      assert (Hx : same_actions r0 (executeAction id s e r0).1
                   ∨ ∃ r1, same_actions r0 r1
                       ∧ same_actions (runAutomatedTests id r1)
                           (executeAction id s e r0).1).
      { unfold executeAction. rewrite (property_other r0 id Hact).
        destruct (partial r0 !! id) as [p|]; [apply executePartial_shape|].
        destruct (bool_decide _); left; apply same_actions_refl. }
      destruct Hx as [(Ha & Hs & _) | (r1 & (Ha1 & Hs1 & _) & (Ha & Hs & _))].
      - rewrite Ha. split; [done|]. intros st Hst. unfold isAborted.
        cbn [with_chain signals]. by rewrite Hs.
      - rewrite Ha. cbn. rewrite Ha1, lookup_insert_ne by done.
        split; [done|]. intros st Hst. unfold isAborted.
        cbn [with_chain signals]. rewrite Hs. cbn. rewrite Hs1.
        destruct (inv_closure r Hinv k st Hst) as [Hlt' _].
        cbn. by rewrite lookup_app_l. }
  assert (Hact0 : actions r0 !! id = Some act) by exact Hact.
  destruct (inv_closure r Hinv id act Hact) as [Hlt Hclo].
  assert (Hclo' : abort act = AbortController (abortSignal act) id ∨ abort act = AbortLog)
    by (destruct Hclo as [?|[? _]]; auto).
  (* what the execution may do to the map and to the signals *)
  assert (Hgoal :
    actions (executeAction id s e r0).1 !! k = actions r !! k
    ∧ (length (signals r) ≤ length (signals (executeAction id s e r0).1))%nat
    ∧ ∀ n, n ≠ abortSignal act → (n < length (signals r))%nat →
        signals (executeAction id s e r0).1 !! n = signals r !! n).
  { unfold executeAction. rewrite (property_stored _ _ _ Hact0).
    set (r1 := updateAction id (setStatus running) r0).
    assert (A1 : actions r1 !! k = actions r !! k)
      by (cbn; by rewrite lookup_alter_ne).
    assert (P : actions (pendingAbort e act r1) !! k = actions r !! k
                ∧ length (signals (pendingAbort e act r1)) = length (signals r)
                ∧ ∀ n, n ≠ abortSignal act →
                    signals (pendingAbort e act r1) !! n = signals r !! n).
    { unfold pendingAbort. destruct (abortDuring e); [|done].
      destruct (callAbort_local id act r1 k Hclo' Hk) as (B1 & _ & _ & B2 & B3).
      rewrite B1, B2. auto. }
    destruct P as (P1 & P2 & P3). set (r2 := pendingAbort e act r1) in *.
    assert (C : ∀ res, actions (catchBlock id act res r2).1 !! k = actions r !! k
                ∧ signals (catchBlock id act res r2).1 = signals r2).
    { intros res. unfold catchBlock. destruct (isAborted r2 act); [done|].
      destruct res; cbn; by rewrite lookup_alter_ne. }
    assert (F : actions (finalUpdate id s act r2).1 !! k = actions r !! k
                ∧ signals (finalUpdate id s act r2).1 = signals r2).
    { cbn. by rewrite lookup_alter_ne. }
    assert (S : ∀ res, actions (settle id s act res r2).1 !! k = actions r !! k
                ∧ signals (settle id s act res r2).1 = signals r2).
    { intros res. destruct res; cbn [settle]; auto. }
    destruct (type (action act)).
    - destruct (S (runFileAction e)) as [-> ->]. rewrite P2. auto.
    - destruct (S (runShellAction (action act) e)) as [-> ->]. rewrite P2. auto.
    - cbn. rewrite lookup_alter_ne by done. auto.
    - destruct (runBuildAction e) as [res | out].
      + destruct (C res) as [-> ->]. rewrite P2. auto.
      + cbn. rewrite lookup_alter_ne, lookup_insert_ne by done. fold r2.
        rewrite P1, length_app, P2. split; [done|]. split; [lia|].
        intros n Hn Hlen. rewrite lookup_app_l by lia. auto.
    - destruct (handleSupabaseAction (action act) e); cbn;
        rewrite lookup_alter_ne by done; fold r2; rewrite P1, P2; auto.
    - destruct (S (runTestAction e)) as [-> ->]. rewrite P2. auto.
    - cbn. rewrite !lookup_alter_ne by done. auto.
    - cbn. rewrite !lookup_alter_ne by done. auto. }
  destruct Hgoal as (G1 & G2 & G3). split; [exact G1|].
  intros st Hst. unfold isAborted. cbn [with_chain signals].
  destruct (inv_closure r Hinv k st Hst) as [Hlt' _].
  rewrite G3; [done | | done].
  intros Heq. apply Hk. by apply (inv_signal r Hinv k id st act).
Qed.

Definition two_queued : list Event :=
  [ EAddAction "k" (shellAction "npm run lint");
    EAddAction "k1" (shellAction "npm test");
    ERunAction "k" (shellAction "npm run lint") false;
    ERunAction "k1" (shellAction "npm test") false;
    ETick (exits 0);
    ETick (exits 0) ].

Lemma execution_is_local_witness :
  statusOf (run two_queued initial) "k1" = Some running
  ∧ statusOf (tick (exits 1) (run two_queued initial)) "k" = Some failed
  ∧ actions (tick (exits 1) (run two_queued initial)) !! "k1"
    = actions (run two_queued initial) !! "k1".
Proof.
  split; [vm_compute; reflexivity|]. split; [vm_compute; reflexivity|].
  refine (proj1 (execution_is_local two_queued "k" false
                   [RCatch; RExecute "k1" false; RCatch] (exits 1) "k1" _ _ _)).
  - vm_compute. reflexivity.
  - discriminate.
  - vm_compute. discriminate.
Defined.


(** *** Alerts *)

Lemma handleSupabaseAction_no_command_error a e header out :
  handleSupabaseAction a e ≠ OpCommandError header out.
Proof.
  unfold handleSupabaseAction, runFileAction.
  destruct (operation a) as [op|]; [|done].
  destruct (bool_decide (op = lit "migration")).
  - destruct (filePath a) as [[|c p]|]; try done. by destruct (unexpected e).
  - by destruct (bool_decide (op = lit "query")).
Qed.

(** X26: when a shell, file or supabase action is executed, in any state the
    runner can reach, [onAlert] is called exactly when the action's
    operation throws a command error and the action has not been aborted
    (before the execution or while the operation was pending): then one
    alert titled "Dev Server Failed" carries the header and the output of
    the command.  File and supabase operations throw no command error, so
    they never raise an alert. *)
Theorem alert_iff_unaborted_command_error evs id s rest e act :
  let r := run evs initial in
  reactions r = RExecute id s :: rest →
  actions r !! id = Some act →
  type (action act) ∈ [shell; file; supabase] →
  (∀ b, id ≠ autotestId b) →
  alerts (tick e r)
  = alerts r ++
    (if isAborted r act || abortDuring e then []
     else match operation_result (action act) e with
          | OpCommandError header out => [devServerFailed header out]
          | _ => []
          end).
Proof.
  intros r Hre Hact Hty Hid.
  pose proof (run_store_inv evs initial initial_store_inv) as Hinv. fold r in Hinv.
  pose proof (run_inv evs initial initial_inv) as Hchain. fold r in Hchain.
  destruct (execution_turn r id s rest Hchain Hre) as (Hch & _ & rest' & ->).
  rewrite (tick_execution r id s _ e Hch Hre). cbn zeta. cbn [with_chain alerts].
  set (r0 := with_chain Fulfilled (RCatch :: rest') r).
  destruct (closure_of_plain_id r id act (inv_closure r Hinv id act Hact) Hid)
    as [Hab Hlt].
  unfold executeAction, property. cbn [r0 with_chain actions]. rewrite Hact. fold r0.
  cbv beta iota.
  set (r1 := updateAction id (setStatus running) r0).
  set (r2 := pendingAbort e act r1).
  assert (A2 : alerts r2 = alerts r).
  { subst r2. unfold pendingAbort, callAbort. destruct (abortDuring e); [|done].
    by rewrite Hab. }
  assert (B2 : isAborted r2 act = isAborted r act || abortDuring e).
  { subst r2. unfold pendingAbort, callAbort, isAborted.
    destruct (abortDuring e); [|by rewrite orb_false_r].
    rewrite Hab, orb_true_r. cbn. by rewrite list_lookup_insert_eq. }
  assert (C : ∀ res, res ≠ OpReturns →
            alerts (catchBlock id act res r2).1
            = alerts r ++ (if isAborted r act || abortDuring e then []
                           else match res with
                                | OpCommandError header out => [devServerFailed header out]
                                | _ => []
                                end)).
  { intros res Hres. unfold catchBlock. rewrite B2.
    destruct (isAborted r act || abortDuring e); cbn [fst].
    - by rewrite A2, app_nil_r.
    - destruct res; [done | |]; cbn; fold r2; rewrite A2; [done | by rewrite app_nil_r]. }
  assert (F : alerts (finalUpdate id s act r2).1 = alerts r) by (cbn; exact A2).
  assert (S : ∀ res, alerts (settle id s act res r2).1
            = alerts r ++ (if isAborted r act || abortDuring e then []
                           else match res with
                                | OpCommandError header out => [devServerFailed header out]
                                | _ => []
                                end)).
  { intros res. destruct res; cbn [settle]; [|by apply C..].
    rewrite F. destruct (isAborted r act || abortDuring e); by rewrite app_nil_r. }
  unfold operation_result.
  repeat (apply elem_of_cons in Hty as [Hty | Hty]); [..| by apply elem_of_nil in Hty];
    rewrite Hty.
  - apply S.
  - apply S.
  - pose proof (handleSupabaseAction_no_command_error (action act) e) as Hno.
    destruct (handleSupabaseAction (action act) e) as [|header out|msg].
    + rewrite F. destruct (isAborted r act || abortDuring e); by rewrite app_nil_r.
    + by destruct (Hno header out).
    + cbn. fold r2. rewrite A2.
      destruct (isAborted r act || abortDuring e); by rewrite app_nil_r.
Qed.

Definition lint_queued : list Event :=
  [ EAddAction "k" (shellAction "npm run lint");
    ERunAction "k" (shellAction "npm run lint") false;
    ETick (exits 0) ].

Lemma alert_iff_unaborted_command_error_witness :
  alerts (tick (exits 1) (run lint_queued initial))
  = [devServerFailed (lit "Failed To Execute Shell Command") (lit "No Output Available")]
  ∧ alerts (tick (exits 1) (run (lint_queued ++ [EAbort "k"]) initial)) = [].
Proof.
  split.
  - refine (alert_iff_unaborted_command_error lint_queued "k" false [RCatch] (exits 1)
              {| action := shellAction "npm run lint"; status := running; error := None;
                 executed := true; abort := AbortController 0 "k"; abortSignal := 0 |}
              _ _ _ _).
    + vm_compute. reflexivity.
    + vm_compute. reflexivity.
    + vm_compute. apply list_elem_of_here.
    + intros b. apply plain_id_not_autotest. vm_compute. lia.
  - refine (alert_iff_unaborted_command_error (lint_queued ++ [EAbort "k"]) "k" false
              [RCatch] (exits 1)
              {| action := shellAction "npm run lint"; status := aborted; error := None;
                 executed := true; abort := AbortController 0 "k"; abortSignal := 0 |}
              _ _ _ _).
    + vm_compute. reflexivity.
    + vm_compute. reflexivity.
    + vm_compute. apply list_elem_of_here.
    + intros b. apply plain_id_not_autotest. vm_compute. lia.
Defined.

(** *** Builds *)

(** X27: a build that is not aborted and exits with code 0 ends [complete],
    stores the build output with that exit code and the captured output, and
    registers the automated test action under [<id>-autotest] as a pending
    test whose [abort()] does nothing.  A build that exits with another code
    ends [failed], leaves the stored build output of an earlier build and
    the automated test entry as they were, raises the alert with the header
    "Build Failed", and rejects the promise of the execution. *)
Theorem build_outcome id e r act :
  actions r !! id = Some act → type (action act) = build →
  isAborted r act = false → abortDuring e = false → unexpected e = None →
  let x := executeAction id false e r in
  if bool_decide (exitStatus e = 0) then
    statusOf x.1 id = Some complete
    ∧ (∃ p, buildOutput x.1
            = Some {| path := p; exitCode := 0; output := captured e |})
    ∧ (∃ st, actions x.1 !! autotestId id = Some st
             ∧ type (action st) = test ∧ status st = pending
             ∧ executed st = false ∧ abort st = AbortLog)
    ∧ abortAction (autotestId id) x.1 = x.1
    ∧ x.2 = Fulfilled
  else
    actions x.1 !! id = Some (setFailed (lit "Action failed") act)
    ∧ buildOutput x.1 = buildOutput r
    ∧ actions x.1 !! autotestId id = actions r !! autotestId id
    ∧ alerts x.1
      = alerts r ++ [devServerFailed (lit "Build Failed") (orNoOutput (captured e))]
    ∧ x.2 = Rejected.
Proof.
  intros Hact Hty Hab Hdur Hun x. subst x.
  unfold executeAction. rewrite (property_stored _ _ _ Hact), Hty.
  unfold pendingAbort, runBuildAction.
  rewrite Hdur, Hun. destruct (bool_decide (exitStatus e = 0)).
  - set (r3 := runAutomatedTests id _).
    assert (Hab3 : isAborted r3 act = false).
    { unfold isAborted in *. cbn. by apply isAborted_new_signal. }
    unfold finalUpdate. rewrite Hab3. cbn [fst snd].
    split; [|split; [|split; [|split]]].
    + unfold statusOf. cbn. rewrite lookup_alter_eq.
      rewrite lookup_insert_ne by apply autotestId_ne.
      by rewrite lookup_alter_eq, Hact.
    + eexists. reflexivity.
    + eexists. split.
      * cbn. rewrite lookup_alter_ne by (intros H; by apply (autotestId_ne id)).
        by rewrite lookup_insert_eq.
      * done.
    + unfold abortAction. cbn [actions updateAction with_actions].
      rewrite lookup_alter_ne by (intros H; by apply (autotestId_ne id)).
      unfold r3, runAutomatedTests. cbn [actions with_actions].
      by rewrite lookup_insert_eq.
    + done.
  - unfold catchBlock.
    assert (Hab1 : isAborted (updateAction id (setStatus running) r) act = false)
      by exact Hab.
    rewrite Hab1. cbn [fst snd]. split; [|split; [|split; [|split]]]; try done.
    + cbn. rewrite lookup_alter_eq, lookup_alter_eq, Hact. done.
    + cbn. by rewrite !lookup_alter_ne by (intros H; by apply (autotestId_ne id)).
Qed.

Lemma build_outcome_witness :
  let r := run [ EAddAction "b1" buildAction; ERunAction "b1" buildAction false ] initial in
  statusOf (executeAction "b1" false (exits 2) r).1 "b1" = Some failed
  ∧ buildOutput (executeAction "b1" false (exits 2) r).1 = None
  ∧ statusOf (executeAction "b1" false (exits 0) r).1 "b1" = Some complete
  ∧ statusOf (executeAction "b1" false (exits 0) r).1 "b1-autotest" = Some pending.
Proof.
  cbv zeta.
  set (r := run [ EAddAction "b1" buildAction; ERunAction "b1" buildAction false ] initial).
  set (act := {| action := buildAction; status := pending; error := None;
                 executed := true; abort := AbortController 0 "b1"; abortSignal := 0 |}).
  assert (H2 := build_outcome "b1" (exits 2) r act eq_refl eq_refl eq_refl eq_refl eq_refl).
  assert (H0 := build_outcome "b1" (exits 0) r act eq_refl eq_refl eq_refl eq_refl eq_refl).
  cbv zeta in H2, H0.
  change (bool_decide (exitStatus (exits 2) = 0)) with false in H2.
  change (bool_decide (exitStatus (exits 0) = 0)) with true in H0.
  destruct H2 as (A1 & A2 & _). destruct H0 as (B1 & _ & (st & B3 & _ & B4 & _) & _).
  split; [|split; [|split]].
  - unfold statusOf. by rewrite A1.
  - exact A2.
  - exact B1.
  - unfold statusOf. change ("b1-autotest"%string) with (autotestId "b1").
    by rewrite B3, <- B4.
Defined.

(** *** The properties that are no action states *)

(** [r'] has no property made of an inherited member that [r] has not. *)
Definition partial_le (r r' : Runner) : Prop :=
  ∀ j, is_Some (partial r' !! j) → is_Some (partial r !! j).

Lemma partial_le_refl r : partial_le r r.
Proof. by intros j. Qed.

Lemma partial_le_eq r r' : partial r' = partial r → partial_le r r'.
Proof. intros H j. by rewrite H. Qed.

Lemma partial_le_alter r r' f k :
  partial r' = alter f k (partial r) → partial_le r r'.
Proof. intros H j. rewrite H. by rewrite lookup_alter_is_Some. Qed.

Lemma callAbort_partial act r : partial (callAbort act r) = partial r.
Proof. unfold callAbort. by destruct (abort act). Qed.

Lemma pendingAbort_partial e act r : partial (pendingAbort e act r) = partial r.
Proof. unfold pendingAbort. destruct (abortDuring e); [apply callAbort_partial | done]. Qed.

Lemma catchBlock_partial id act res r : partial (catchBlock id act res r).1 = partial r.
Proof. unfold catchBlock. destruct (isAborted r act); [done|]. by destruct res. Qed.

Lemma settle_partial id s act res r : partial (settle id s act res r).1 = partial r.
Proof. destruct res; cbn [settle]; [done | apply catchBlock_partial..]. Qed.

Lemma executePartial_partial id s p e r :
  partial_le r (executePartial id s p e r).1.
Proof.
  unfold executePartial, settlePartial, finalPartial.
  destruct (type (p_action p)), s;
    repeat match goal with
           | |- context [match ?x with _ => _ end] => destruct x
           end;
    unfold partial_le, updatePartial, runAutomatedTests; cbn; intros j;
    rewrite ?lookup_alter_is_Some; done.
Qed.

Lemma executeAction_partial id s e r : partial_le r (executeAction id s e r).1.
Proof.
  unfold executeAction.
  destruct (property r id) as [act|p| |];
    [|apply executePartial_partial|apply partial_le_refl..].
  apply partial_le_eq.
  destruct (type (action act)); cbn [fst];
    rewrite ?settle_partial, ?pendingAbort_partial; try done.
  - destruct (runBuildAction e); [by rewrite catchBlock_partial, pendingAbort_partial|].
    cbn. by rewrite pendingAbort_partial.
  - destruct (handleSupabaseAction (action act) e); cbn;
      by rewrite pendingAbort_partial.
Qed.

(** In every state the runner can reach, the properties that are no action
    states stand under names of inherited members: for any other id, the
    actions map has a property exactly when it has an action state. *)
Lemma partial_names evs id :
  is_Some (partial (run evs initial) !! id) → id ∈ prototypeNames.
Proof.
  assert (H : ∀ evs r, (∀ j, is_Some (partial r !! j) → j ∈ prototypeNames) →
            ∀ j, is_Some (partial (run evs r) !! j) → j ∈ prototypeNames).
  { clear. intros evs. induction evs as [|ev evs IH]; intros r Hr; [done|].
    cbn. apply IH. clear IH evs. intros j.
    destruct ev as [k a | k a s | k | e | n e | n e]; cbn.
    - unfold addAction. destruct (property r k); by auto.
    - unfold runAction. destruct (property r k) as [act|p| |] eqn:Hk; try by auto.
      + destruct (executed act); [by auto|]. destruct (s && _); by auto.
      + destruct s; [by auto|]. cbn. rewrite lookup_insert_is_Some.
        intros [<- | [_ Hj]]; [by apply (property_inherited r) | by auto].
    - unfold abortAction. destruct (actions r !! k); [|by auto].
      rewrite callAbort_partial. by auto.
    - unfold tick. destruct (reactions r) as [|[k | k s |] rest]; [by auto | | |].
      + cbn. destruct (chain r); by auto.
      + cbn [with_chain chain]. destruct (chain r); [|by auto].
        pose proof (executeAction_partial k s e (with_chain Fulfilled rest r) j) as Hx.
        destruct (executeAction k s e _) as [r1 c]. cbn in *. by auto.
      + by auto.
    - unfold settleStart. destruct (detached r !! n) as [[k act]|]; [|by auto].
      assert (Hp : partial (pendingAbort e act (with_detached (delete n (detached r)) r))
                   = partial r) by (by rewrite pendingAbort_partial).
      destruct (runStartAction (action act) e); [by cbn; rewrite Hp; auto|..];
        (destruct (isAborted _ act); [by rewrite Hp; auto|]); cbn; rewrite Hp; by auto.
    - unfold settlePartialStart. destruct (detachedPartial r !! n) as [[k a]|]; [|by auto].
      destruct (runStartAction a e); cbn; rewrite ?lookup_alter_is_Some; by auto. }
  apply H. intros j. cbn. rewrite lookup_empty. by intros [? ?].
Qed.

End RunnerFacts.
